(** * Kasa: the cash-distribution calculator (kasaproject/calc.py)

    A shallow embedding of [compute_distribution] and of the part of
    Python's [decimal] arithmetic it runs on, followed by the properties
    of the settlement that the specification states, and by further
    properties of the calculator and of its callers (main.py and
    ledger/views.py).

    Python's [Decimal] is a decimal floating-point number: every
    arithmetic result is rounded to the context precision (28 significant
    digits, ROUND_HALF_EVEN) and kept inside the exponent range of the
    default context.  The embedding keeps that: a finite decimal is a
    signed coefficient and an exponent, and [add], [mul], [div] round the
    way the decimal module does.  The model covers the finite decimals:
    NaN and the infinities are outside it, and the sign of a zero is not
    tracked ([==], [<] and [>] on decimals do not see it). *)

From Stdlib Require Import ZArith Lia List String Ascii Bool.
From Stdlib Require Import Reals Lra.
From stdpp Require Import base gmap strings list.

Local Open Scope Z_scope.

(** ** Exceptions and the error monad *)

Inductive exc : Type :=
| DistributionError   (* calc.DistributionError *)
| InvalidOperation    (* decimal.InvalidOperation *)
| DivisionByZero      (* decimal.DivisionByZero *)
| Overflow            (* decimal.Overflow *)
| KeyError.           (* dict indexing on a missing key *)

Inductive result (A : Type) : Type :=
| Ok (a : A)
| Raise (e : exc).

Arguments Ok {A} a.
Arguments Raise {A} e.

Definition rbind {A B : Type} (m : result A) (k : A -> result B) : result B :=
  match m with
  | Ok a => k a
  | Raise e => Raise e
  end.

Notation "'let!' x ':=' m 'in' k" := (rbind m (fun x => k))
  (at level 10, x pattern, m at level 100, k at level 200).

Instance exc_eq_dec : EqDecision exc.
Proof. solve_decision. Defined.

(** ** Decimal arithmetic (module [decimal], default context) *)

Record Decimal : Type := mkDec { coef : Z; expo : Z }.

Instance Decimal_eq_dec : EqDecision Decimal.
Proof. solve_decision. Defined.

Definition prec : Z := 28.
Definition Emax : Z := 999999.
Definition Emin : Z := -999999.
Definition Etiny : Z := Emin - prec + 1.
Definition Etop : Z := Emax - prec + 1.

Inductive rounding : Type := ROUND_HALF_EVEN | ROUND_HALF_UP.

(** [len(str(n))] for the magnitude of a coefficient. *)
Fixpoint ndigits_aux (fuel : nat) (n : Z) : Z :=
  match fuel with
  | O => 1
  | S f => if n <? 10 then 1 else 1 + ndigits_aux f (n / 10)
  end.

Definition ndigits (n : Z) : Z :=
  ndigits_aux (Z.to_nat (Z.log2 (Z.abs n))) (Z.abs n).

(** [adjusted()]: the exponent of the leading digit. *)
Definition adjusted (d : Decimal) : Z := expo d + ndigits (coef d) - 1.

(** Does rounding the magnitude [m], cut at the unit [p] (a power of
    ten), go away from zero?  [m mod p] are the digits that are dropped. *)
Definition round_up (r : rounding) (m p : Z) : bool :=
  match r with
  | ROUND_HALF_UP => p <=? 2 * (m mod p)
  | ROUND_HALF_EVEN =>
      (p <? 2 * (m mod p)) || ((p =? 2 * (m mod p)) && Z.odd (m / p))
  end.

(** [Decimal._fix]: round to the context precision and exponent range. *)
Definition fix_ (d : Decimal) : result Decimal :=
  let m := Z.abs (coef d) in
  if m =? 0 then
    Ok (mkDec 0 (Z.min (Z.max (expo d) Etiny) Emax))
  else
    let exp_min := ndigits m + expo d - prec in
    if Etop <? exp_min then Raise Overflow
    else
      let exp_min := Z.max exp_min Etiny in
      if expo d <? exp_min then
        let p := 10 ^ (exp_min - expo d) in
        let q := m / p in
        if round_up ROUND_HALF_EVEN m p then
          if prec <? ndigits (q + 1) then
            if Etop <? exp_min + 1 then Raise Overflow
            else Ok (mkDec (Z.sgn (coef d) * ((q + 1) / 10)) (exp_min + 1))
          else Ok (mkDec (Z.sgn (coef d) * (q + 1)) exp_min)
        else Ok (mkDec (Z.sgn (coef d) * q) exp_min)
      else Ok d.

(** [Decimal._rescale]: the number at exponent [e], rounded if digits go. *)
Definition rescale (d : Decimal) (e : Z) (r : rounding) : Decimal :=
  if coef d =? 0 then mkDec 0 e
  else if e <=? expo d then mkDec (coef d * 10 ^ (expo d - e)) e
  else
    let m := Z.abs (coef d) in
    let p := 10 ^ (e - expo d) in
    mkDec (Z.sgn (coef d) * (if round_up r m p then m / p + 1 else m / p)) e.

(** [a + b]: the exact sum at the smaller exponent, then [_fix]. *)
Definition add (a b : Decimal) : result Decimal :=
  let e := Z.min (expo a) (expo b) in
  fix_ (mkDec (coef a * 10 ^ (expo a - e) + coef b * 10 ^ (expo b - e)) e).

Definition neg (a : Decimal) : Decimal := mkDec (- coef a) (expo a).

(** [a - b] is [a + (-b)]. *)
Definition sub (a b : Decimal) : result Decimal := add a (neg b).

Definition mul (a b : Decimal) : result Decimal :=
  fix_ (mkDec (coef a * coef b) (expo a + expo b)).

(** The loop of [__truediv__] that brings an exact quotient as close to
    the ideal exponent as its trailing zeros allow. *)
Fixpoint strip_zeros (fuel : nat) (c e ideal : Z) : Z * Z :=
  match fuel with
  | O => (c, e)
  | S f =>
      if (e <? ideal) && (c mod 10 =? 0) then strip_zeros f (c / 10) (e + 1) ideal
      else (c, e)
  end.

Definition div (a b : Decimal) : result Decimal :=
  if coef b =? 0 then
    if coef a =? 0 then Raise InvalidOperation else Raise DivisionByZero
  else if coef a =? 0 then fix_ (mkDec 0 (expo a - expo b))
  else
    let sign := Z.sgn (coef a) * Z.sgn (coef b) in
    let n := Z.abs (coef a) in
    let m := Z.abs (coef b) in
    let shift := ndigits m - ndigits n + prec + 1 in
    let e := expo a - expo b - shift in
    let '(q, r) :=
      if 0 <=? shift then (n * 10 ^ shift / m, (n * 10 ^ shift) mod m)
      else (n / (m * 10 ^ (- shift)), n mod (m * 10 ^ (- shift))) in
    if r =? 0 then
      let '(q', e') := strip_zeros (Z.to_nat (expo a - expo b - e)) q e (expo a - expo b) in
      fix_ (mkDec (sign * q') e')
    else
      fix_ (mkDec (sign * (if q mod 5 =? 0 then q + 1 else q)) e).

(** Comparison is by numerical value. *)
Definition cmp (a b : Decimal) : comparison :=
  let e := Z.min (expo a) (expo b) in
  Z.compare (coef a * 10 ^ (expo a - e)) (coef b * 10 ^ (expo b - e)).

Definition dec_ltb (a b : Decimal) : bool :=
  match cmp a b with Lt => true | _ => false end.
Definition dec_eqb (a b : Decimal) : bool :=
  match cmp a b with Eq => true | _ => false end.
Definition dec_gtb (a b : Decimal) : bool := dec_ltb b a.
Definition dec_leb (a b : Decimal) : bool := negb (dec_ltb b a).

(** [Decimal.quantize(exp, rounding)], [e] being the exponent of [exp]. *)
Definition quantize (d : Decimal) (e : Z) (r : rounding) : result Decimal :=
  if negb ((Etiny <=? e) && (e <=? Emax)) then Raise InvalidOperation
  else if coef d =? 0 then fix_ (mkDec 0 e)
  else if Emax <? adjusted d then Raise InvalidOperation
  else if prec <? adjusted d - e + 1 then Raise InvalidOperation
  else
    let ans := rescale d e r in
    if Emax <? adjusted ans then Raise InvalidOperation
    else if prec <? ndigits (coef ans) then Raise InvalidOperation
    else fix_ ans.

(** [sum(xs, start)]: a left fold of [+]. *)
Fixpoint dec_sum (start : Decimal) (xs : list Decimal) : result Decimal :=
  match xs with
  | [] => Ok start
  | x :: rest => let! s := add start x in dec_sum s rest
  end.

Definition dec0 : Decimal := mkDec 0 0.      (* Decimal("0") *)
Definition dec1 : Decimal := mkDec 1 0.      (* Decimal("1") *)
Definition dec100 : Decimal := mkDec 100 0.  (* Decimal("100") *)


(** ** Python dictionaries

    A [dict] keeps its keys in insertion order; assigning to a key that is
    present replaces the value in place.  [sum(d.values())] runs in that
    order, and decimal addition rounds, so the order is part of the model. *)

Abbreviation pydict := (list (string * Decimal)).

Fixpoint dict_lookup (d : pydict) (k : string) : option Decimal :=
  match d with
  | [] => None
  | (k', v) :: rest => if String.eqb k k' then Some v else dict_lookup rest k
  end.

(** [d.get(k, default)] *)
Definition dict_get (d : pydict) (k : string) (default : Decimal) : Decimal :=
  match dict_lookup d k with Some v => v | None => default end.

(** [d[k]] *)
Definition dict_getitem (d : pydict) (k : string) : result Decimal :=
  match dict_lookup d k with Some v => Ok v | None => Raise KeyError end.

(** [d[k] = v] *)
Fixpoint dict_setitem (d : pydict) (k : string) (v : Decimal) : pydict :=
  match d with
  | [] => [(k, v)]
  | (k', v') :: rest =>
      if String.eqb k k' then (k, v) :: rest else (k', v') :: dict_setitem rest k v
  end.

Definition dict_values (d : pydict) : list Decimal := map snd d.

(** ** Data model (models.py) *)

Record Shareholder : Type := mkShareholder {
  name : string;
  percent : Decimal
}.

Record ResultRow : Type := mkResultRow {
  row_name : string;
  row_percent : Decimal;
  entitlement : Decimal;
  advance : Decimal;
  prev_carry : Decimal;
  paid : Decimal;
  new_carry : Decimal
}.

Record DistributionResult : Type := mkDistributionResult {
  month : string;
  distributable : Decimal;
  rows : list ResultRow;
  total_entitlement : Decimal;
  total_paid : Decimal
}.

(** ASCII lower-casing; it is what [str.lower] does on ASCII names and
    serves as the instance of [lower] in the examples. *)
Definition ascii_lower_char (c : ascii) : ascii :=
  let n := nat_of_ascii c in
  if ((65 <=? n) && (n <=? 90))%nat then ascii_of_nat (n + 32) else c.

Fixpoint ascii_lower (s : string) : string :=
  match s with
  | EmptyString => EmptyString
  | String c rest => String (ascii_lower_char c) (ascii_lower rest)
  end.

(** ** The calculator (calc.py) *)

Definition TWOPLACES_exp : Z := -2.   (* the exponent of Decimal("0.01") *)

Definition _quantize (val : Decimal) : result Decimal :=
  quantize val TWOPLACES_exp ROUND_HALF_UP.

Definition validate_shareholders (holders : list Shareholder) : result unit :=
  let! total_pct := dec_sum dec0 (map percent holders) in
  if negb (dec_eqb total_pct dec100) then Raise DistributionError else Ok tt.

(** The values of the local variables of [compute_distribution] when the
    balances are known and the rows are still to be built (line 62). *)
Record Balances : Type := mkBalances {
  b_distributable : Decimal;
  b_entitlements : pydict;
  b_raw_balances : pydict;
  b_total_positive : Decimal;
  b_scale : Decimal
}.

(** [distributable * h.percent / Decimal("100")] *)
Definition entitlement_of (dist : Decimal) (h : Shareholder) : result Decimal :=
  let! x := mul dist (percent h) in
  div x dec100.

(** [raw if raw > 0 else Decimal("0")] *)
Definition positive_part (raw : Decimal) : Decimal :=
  if dec_gtb raw dec0 then raw else dec0.

Section Calc.

(** [str.lower]; the calculator only uses it to build dictionary keys. *)
Variable lower : string -> string.

(** [d.get(h.name, d.get(name_key, Decimal("0")))], lines 52-53 and 67-68. *)
Definition lookup_amount (d : pydict) (h : Shareholder) : Decimal :=
  dict_get d (name h) (dict_get d (lower (name h)) dec0).

(** [hak - avans + prev_carry], line 54. *)
Definition raw_of (hak : Decimal) (advances carry : pydict) (h : Shareholder)
    : result Decimal :=
  let! t := sub hak (lookup_amount advances h) in
  add t (lookup_amount carry h).

(** Lines 44-45. *)
Fixpoint entitlements_loop (holders : list Shareholder) (dist : Decimal)
    (entitlements : pydict) : result pydict :=
  match holders with
  | [] => Ok entitlements
  | h :: rest =>
      let! hak := entitlement_of dist h in
      entitlements_loop rest dist (dict_setitem entitlements (lower (name h)) hak)
  end.

(** Lines 49-57. *)
Fixpoint raw_loop (holders : list Shareholder) (entitlements advances carry : pydict)
    (raw_balances : pydict) (total_positive : Decimal) : result (pydict * Decimal) :=
  match holders with
  | [] => Ok (raw_balances, total_positive)
  | h :: rest =>
      let name_key := lower (name h) in
      let! hak := dict_getitem entitlements name_key in
      let! raw := raw_of hak advances carry h in
      let raw_balances := dict_setitem raw_balances name_key raw in
      let! total_positive :=
        (if dec_gtb raw dec0 then add total_positive raw else Ok total_positive) in
      raw_loop rest entitlements advances carry raw_balances total_positive
  end.

(** Lines 59-61. *)
Definition compute_scale (dist total_positive : Decimal) : result Decimal :=
  if dec_gtb total_positive dist && dec_gtb total_positive dec0
  then div dist total_positive
  else Ok dec1.

(** Lines 70-73: one shareholder's payout. *)
Definition compute_pay (raw scale : Decimal) : result Decimal :=
  let pay := positive_part raw in
  let! pay := (if dec_ltb scale dec1 then mul pay scale else Ok pay) in
  _quantize pay.

(** Lines 64-86. *)
Fixpoint rows_loop (holders : list Shareholder)
    (entitlements advances carry raw_balances : pydict) (scale : Decimal)
    (rows : list ResultRow) (total_paid : Decimal)
    : result (list ResultRow * Decimal) :=
  match holders with
  | [] => Ok (rows, total_paid)
  | h :: rest =>
      let name_key := lower (name h) in
      let! hak := dict_getitem entitlements name_key in
      let avans := lookup_amount advances h in
      let prev := lookup_amount carry h in
      let! raw := dict_getitem raw_balances name_key in
      let! pay := compute_pay raw scale in
      let! new_carry := sub raw pay in
      let! total_paid := add total_paid pay in
      let! q_hak := _quantize hak in
      let! q_avans := _quantize avans in
      let! q_prev := _quantize prev in
      let! q_carry := _quantize new_carry in
      rows_loop rest entitlements advances carry raw_balances scale
        (rows ++ [mkResultRow (name h) (percent h) q_hak q_avans q_prev pay q_carry])
        total_paid
  end.

(** Lines 34-61: validation, entitlements, raw balances, scale. *)
Definition compute_balances (holders : list Shareholder)
    (total_cash keep_cash : Decimal) (advances carry : pydict) : result Balances :=
  let! _ := validate_shareholders holders in
  if dec_ltb keep_cash dec0 then Raise DistributionError
  else
    let! dist := sub total_cash keep_cash in
    if dec_ltb dist dec0 then Raise DistributionError
    else
      let! entitlements := entitlements_loop holders dist [] in
      let! (raw_balances, total_positive) :=
        raw_loop holders entitlements advances carry [] dec0 in
      let! scale := compute_scale dist total_positive in
      Ok (mkBalances dist entitlements raw_balances total_positive scale).

(** Lines 63-96: the rows, the totals and the result. *)
Definition compute_rows (month : string) (holders : list Shareholder)
    (advances carry : pydict) (b : Balances) : result DistributionResult :=
  let! (rows, total_paid) :=
    rows_loop holders (b_entitlements b) advances carry (b_raw_balances b)
      (b_scale b) [] dec0 in
  let! s := dec_sum dec0 (dict_values (b_entitlements b)) in
  let! total_entitlement := _quantize s in
  let! total_paid := _quantize total_paid in
  let! q_dist := _quantize (b_distributable b) in
  Ok (mkDistributionResult month q_dist rows total_entitlement total_paid).

(** Lines 26-96. *)
Definition compute_distribution (month : string) (holders : list Shareholder)
    (total_cash keep_cash : Decimal) (advances carry : pydict)
    : result DistributionResult :=
  let! b := compute_balances holders total_cash keep_cash advances carry in
  compute_rows month holders advances carry b.

(** main.py, lines 75-77: the carry the caller stores after a settlement. *)
Definition carry_of_rows (rs : list ResultRow) : pydict :=
  fold_left (fun d r => dict_setitem d (row_name r) (new_carry r)) rs [].

End Calc.

(** ** The same code over a store of dictionary objects

    [advances] and [carry] are references to dictionaries owned by the
    caller; [entitlements] and [raw_balances] are dictionaries the function
    allocates.  This second embedding keeps the objects in a store, so that
    what the call does to the caller's objects can be stated.  An exception
    leaves the store as it was when it was raised. *)

Abbreviation loc := positive.
Abbreviation store := (gmap positive pydict).
Definition M (A : Type) : Type := store -> result A * store.

Definition st_ret {A : Type} (a : A) : M A := fun s => (Ok a, s).

Definition st_bind {A B : Type} (m : M A) (k : A -> M B) : M B :=
  fun s => match m s with
           | (Ok a, s') => k a s'
           | (Raise e, s') => (Raise e, s')
           end.

Notation "'let*' x ':=' m 'in' k" := (st_bind m (fun x => k))
  (at level 10, x pattern, m at level 100, k at level 200).

Definition st_lift {A : Type} (r : result A) : M A := fun s => (r, s).

(** The dictionary a reference points to. *)
Definition deref (s : store) (l : loc) : pydict := default [] (s !! l).

(** [{}] : a new dictionary object. *)
Definition st_new_dict : M loc :=
  fun s => let l := fresh (dom s) in (Ok l, <[l := []]> s).

Definition st_get (l : loc) (k : string) (default : Decimal) : M Decimal :=
  fun s => (Ok (dict_get (deref s l) k default), s).

Definition st_getitem (l : loc) (k : string) : M Decimal :=
  fun s => (dict_getitem (deref s l) k, s).

Definition st_setitem (l : loc) (k : string) (v : Decimal) : M unit :=
  fun s => (Ok tt, <[l := dict_setitem (deref s l) k v]> s).

Definition st_values (l : loc) : M (list Decimal) :=
  fun s => (Ok (dict_values (deref s l)), s).

Section CalcStore.

Variable lower : string -> string.

Definition st_lookup_amount (d : loc) (h : Shareholder) : M Decimal :=
  let* inner := st_get d (lower (name h)) dec0 in
  st_get d (name h) inner.

Fixpoint st_entitlements_loop (holders : list Shareholder) (dist : Decimal)
    (entitlements : loc) : M unit :=
  match holders with
  | [] => st_ret tt
  | h :: rest =>
      let* hak := st_lift (entitlement_of dist h) in
      let* _ := st_setitem entitlements (lower (name h)) hak in
      st_entitlements_loop rest dist entitlements
  end.

Fixpoint st_raw_loop (holders : list Shareholder)
    (entitlements advances carry raw_balances : loc) (total_positive : Decimal)
    : M Decimal :=
  match holders with
  | [] => st_ret total_positive
  | h :: rest =>
      let name_key := lower (name h) in
      let* hak := st_getitem entitlements name_key in
      let* avans := st_lookup_amount advances h in
      let* prev := st_lookup_amount carry h in
      let* t := st_lift (sub hak avans) in
      let* raw := st_lift (add t prev) in
      let* _ := st_setitem raw_balances name_key raw in
      let* total_positive :=
        st_lift (if dec_gtb raw dec0 then add total_positive raw else Ok total_positive) in
      st_raw_loop rest entitlements advances carry raw_balances total_positive
  end.

Fixpoint st_rows_loop (holders : list Shareholder)
    (entitlements advances carry raw_balances : loc) (scale : Decimal)
    (rows : list ResultRow) (total_paid : Decimal)
    : M (list ResultRow * Decimal) :=
  match holders with
  | [] => st_ret (rows, total_paid)
  | h :: rest =>
      let name_key := lower (name h) in
      let* hak := st_getitem entitlements name_key in
      let* avans := st_lookup_amount advances h in
      let* prev := st_lookup_amount carry h in
      let* raw := st_getitem raw_balances name_key in
      let* pay := st_lift (compute_pay raw scale) in
      let* new_carry := st_lift (sub raw pay) in
      let* total_paid := st_lift (add total_paid pay) in
      let* q_hak := st_lift (_quantize hak) in
      let* q_avans := st_lift (_quantize avans) in
      let* q_prev := st_lift (_quantize prev) in
      let* q_carry := st_lift (_quantize new_carry) in
      st_rows_loop rest entitlements advances carry raw_balances scale
        (rows ++ [mkResultRow (name h) (percent h) q_hak q_avans q_prev pay q_carry])
        total_paid
  end.

Definition st_compute_distribution (month : string) (holders : list Shareholder)
    (total_cash keep_cash : Decimal) (advances carry : loc)
    : M DistributionResult :=
  let* _ := st_lift (validate_shareholders holders) in
  if dec_ltb keep_cash dec0 then st_lift (Raise DistributionError)
  else
    let* dist := st_lift (sub total_cash keep_cash) in
    if dec_ltb dist dec0 then st_lift (Raise DistributionError)
    else
      let* entitlements := st_new_dict in
      let* rows0 := st_ret (@nil ResultRow) in
      let* _ := st_entitlements_loop holders dist entitlements in
      let* raw_balances := st_new_dict in
      let* total_positive :=
        st_raw_loop holders entitlements advances carry raw_balances dec0 in
      let* scale := st_lift (compute_scale dist total_positive) in
      let* (rows, total_paid) :=
        st_rows_loop holders entitlements advances carry raw_balances scale rows0 dec0 in
      let* vals := st_values entitlements in
      let* s := st_lift (dec_sum dec0 vals) in
      let* total_entitlement := st_lift (_quantize s) in
      let* total_paid := st_lift (_quantize total_paid) in
      let* q_dist := st_lift (_quantize dist) in
      st_ret (mkDistributionResult month q_dist rows total_entitlement total_paid).

End CalcStore.

(** ** Vocabulary of the properties *)

(** A decimal that [_fix] leaves alone: at most [prec] digits, inside the
    exponent range. *)
Definition fixed (d : Decimal) : Prop :=
  Z.abs (coef d) < 10 ^ prec /\ Etiny <= expo d /\ adjusted d <= Emax.

(** The coefficient at the exponent [e0], for [e0] at or below [expo d]. *)
Definition sc (e0 : Z) (d : Decimal) : Z := coef d * 10 ^ (expo d - e0).

(** The largest number below one that fits the context. *)
Definition below_one : Decimal := mkDec (10 ^ prec - 1) (- prec).

(** A zero that fits the context. *)
Definition zero_dec (z : Decimal) : Prop := coef z = 0 /\ Etiny <= expo z <= Emax.

(** The two decimals denote the same number. *)
Definition same_value (a b : Decimal) : Prop :=
  sc (Z.min (expo a) (expo b)) a = sc (Z.min (expo a) (expo b)) b.

(** The bounds of the sums of carried balances: no carry reaches 1E+26,
    and no sum of carries passes 1E+60. *)
Definition big : Decimal := mkDec 1 60.
Definition lim : Decimal := mkDec 1 26.

(** The exceptions of the decimal module, as opposed to the program's own. *)
Definition decimal_signal (e : exc) : Prop :=
  e = InvalidOperation \/ e = Overflow.

(** The sum of the coefficients of a list of decimals. *)
Definition coef_sum (l : list Decimal) : Z := foldr (fun d acc => coef d + acc) 0 l.

(** An amount rounded half-up to two places, in hundredths. *)
Definition cents (d : Decimal) : Z := coef (rescale d (-2) ROUND_HALF_UP).

(** The rounded claim of the key [k]: the positive part of its raw
    balance, in hundredths. *)
Definition claim_cents (rb : pydict) (k : string) : Z :=
  match dict_lookup rb k with
  | Some raw => cents (positive_part raw)
  | None => 0
  end.

Definition sum_z (l : list Z) : Z := foldr Z.add 0 l.

(** The configuration errors of lines 22, 35 and 38, on the numbers the
    code computes: the decimal sum of the percentages differs from 100, or
    the reserve is negative, or the distributable amount is. *)
Definition invalid_configuration (hs : list Shareholder) (total keep : Decimal) : Prop :=
  exists s, dec_sum dec0 (map percent hs) = Ok s /\
    (dec_eqb s dec100 = false \/
     dec_ltb keep dec0 = true \/
     exists d, sub total keep = Ok d /\ dec_ltb d dec0 = true).

(** Every value of the dictionary satisfies [P]. *)
Definition dict_all (P : Decimal -> Prop) (d : pydict) : Prop :=
  forall k v, dict_lookup d k = Some v -> P v.

(** Every entry of the dictionary satisfies [P]. *)
Definition dict_forall (P : string -> Decimal -> Prop) (d : pydict) : Prop :=
  Forall (fun kv => P (fst kv) (snd kv)) d.

(** The carry that a settlement with raw balances [rb] and scale [scale]
    leaves under the key [k] (lines 69-74 and 84). *)
Definition carry_of_key (rb : pydict) (scale : Decimal) (k : string) (c : Decimal)
    : Prop :=
  exists raw pay nc,
    dict_getitem rb k = Ok raw /\
    compute_pay raw scale = Ok pay /\
    sub raw pay = Ok nc /\
    _quantize nc = Ok c.

(** The state of the second loop on the carry that is fed back; [G k c]
    says that the carry under the key [k] is [c]. *)
Definition fed_back (G : string -> Decimal -> Prop) (rb : pydict) (tp : Decimal)
    : Prop :=
  dict_forall (fun k raw => exists c, G k c /\ same_value raw c /\ fixed raw) rb /\
  fixed tp /\ 0 <= coef tp /\ dec_leb tp big = true /\
  (coef tp = 0 -> dict_forall (fun _ raw => coef raw <= 0) rb).

(** The stores agree outside the object [w]. *)
Definition same_except (w : loc) (s s' : store) : Prop :=
  forall l, l <> w -> s' !! l = s !! l.

(** The objects of [s] are still there in [s'], with the same contents. *)
Definition frame (s s' : store) : Prop :=
  forall l, is_Some (s !! l) -> s' !! l = s !! l.

Section Vocabulary.

Variable lower : string -> string.

(** What line 76-86 put into the row of the shareholder [h]. *)
Definition row_of (ent adv carry rb : pydict) (scale : Decimal)
    (h : Shareholder) (row : ResultRow) : Prop :=
  exists hak raw nc,
    dict_getitem ent (lower (name h)) = Ok hak /\
    dict_getitem rb (lower (name h)) = Ok raw /\
    compute_pay raw scale = Ok (paid row) /\
    sub raw (paid row) = Ok nc /\
    _quantize nc = Ok (new_carry row) /\
    _quantize hak = Ok (entitlement row) /\
    _quantize (lookup_amount lower adv h) = Ok (advance row) /\
    _quantize (lookup_amount lower carry h) = Ok (prev_carry row) /\
    row_name row = name h /\
    row_percent row = percent h.


End Vocabulary.

(** ** Sample registries and settlements *)

Definition from_ok {A : Type} (default : A) (m : result A) : A :=
  match m with Ok a => a | Raise _ => default end.

Definition empty_balances : Balances := mkBalances dec0 [] [] dec0 dec1.
Definition empty_result : DistributionResult :=
  mkDistributionResult "" dec0 [] dec0 dec0.

(** 60% / 40%, 1000 in cash, nothing advanced or carried. *)
Definition ex_two : list Shareholder :=
  [mkShareholder "Ayse" (mkDec 60 0); mkShareholder "Berk" (mkDec 40 0)].
Definition ex_two_cash : Decimal := mkDec 1000 0.
Definition ex_two_balances : Balances :=
  Eval vm_compute in
    from_ok empty_balances (compute_balances ascii_lower ex_two ex_two_cash dec0 [] []).
Definition ex_two_result : DistributionResult :=
  Eval vm_compute in
    from_ok empty_result
      (compute_distribution ascii_lower "2025-12" ex_two ex_two_cash dec0 [] []).

(** 50% / 50%, 100 in cash, 150 carried for the first shareholder under
    the lower-cased name: a shortfall. *)
Definition ex_half : list Shareholder :=
  [mkShareholder "Ayse" (mkDec 50 0); mkShareholder "Berk" (mkDec 50 0)].
Definition ex_short_cash : Decimal := mkDec 100 0.
Definition ex_short_carry : pydict := [("ayse"%string, mkDec 150 0)].
Definition ex_short_balances : Balances :=
  Eval vm_compute in
    from_ok empty_balances
      (compute_balances ascii_lower ex_half ex_short_cash dec0 [] ex_short_carry).
Definition ex_short_result : DistributionResult :=
  Eval vm_compute in
    from_ok empty_result
      (compute_distribution ascii_lower "2025-12" ex_half ex_short_cash dec0 []
         ex_short_carry).

(** 50% / 50% and one hundredth in cash: each entitlement is 0.005. *)
Definition ex_cent_cash : Decimal := mkDec 1 (-2).
Definition ex_cent_balances : Balances :=
  Eval vm_compute in
    from_ok empty_balances (compute_balances ascii_lower ex_half ex_cent_cash dec0 [] []).
Definition ex_cent_result : DistributionResult :=
  Eval vm_compute in
    from_ok empty_result
      (compute_distribution ascii_lower "2025-12" ex_half ex_cent_cash dec0 [] []).

(** One shareholder, no cash, 5 carried. *)
Definition ex_one : list Shareholder := [mkShareholder "Ayse" (mkDec 100 0)].
Definition ex_owed_carry : pydict := [("Ayse"%string, mkDec 5 0)].
Definition ex_owed_balances : Balances :=
  Eval vm_compute in
    from_ok empty_balances (compute_balances ascii_lower ex_one dec0 dec0 [] ex_owed_carry).

(** One shareholder and 1E+30 in cash. *)
Definition ex_huge_cash : Decimal := mkDec 1 30.

(** An advance for the first shareholder, and the same with an entry for
    a name that is not in the registry. *)
Definition ex_advances : pydict := [("Ayse"%string, mkDec 120 0)].
Definition ex_advances_more : pydict :=
  [("Ayse"%string, mkDec 120 0); ("Zeki"%string, mkDec 999 0)].

(** A store with the two dictionaries of the caller, and another one where
    they live elsewhere next to a third object. *)
Definition ex_store : store := <[1%positive := ex_advances]> (<[2%positive := ex_short_carry]> ∅).
Definition ex_store_other : store :=
  <[5%positive := ex_short_carry]>
    (<[7%positive := ex_advances]> (<[1%positive := ex_advances_more]> ∅)).

(** ** The callers of the calculator (main.py, ledger/views.py) *)

(** models.py: [LedgerEntry]. *)
Record LedgerEntry : Type := mkLedgerEntry {
  entry_month : string;
  total_cash : Decimal;
  keep_cash : Decimal;
  advances : pydict
}.

(** ledger/views.py, lines 783-789: what the page shows of a row. *)
Record HistoryRow : Type := mkHistoryRow {
  h_name : string;          (* "name" *)
  h_share : Decimal;        (* "share" *)
  h_share_value : Decimal;  (* "share_value" *)
  h_paid : Decimal;         (* "paid" *)
  h_due : Decimal           (* "due" *)
}.

Definition history_rows (result : DistributionResult) : list HistoryRow :=
  map (fun r => mkHistoryRow (row_name r) (row_percent r) (entitlement r) (paid r)
                  (new_carry r))
      (rows result).

(** ledger/views.py, line 791, over the rows of one settlement: every row
    overwrites the carry kept under its name.  [carry_balances] starts as
    a copy of the stored balances (line 767). *)
Definition update_carry (carry_balances : pydict) (rs : list ResultRow) : pydict :=
  fold_left (fun d r => dict_setitem d (row_name r) (new_carry r)) rs carry_balances.

Section Callers.

Variable lower : string -> string.

(** main.py, lines 55-79, on the values that the three files hold.  The
    result is what is written to carry.json: [None] when the settlement
    is refused, since line 70 returns before anything is saved.  Only
    [DistributionError] is caught (line 68). *)
Definition cmd_close_month (m : string) (holders : list Shareholder)
    (ledger : LedgerEntry) (carry_state : pydict) : result (option pydict) :=
  match compute_distribution lower m holders (total_cash ledger) (keep_cash ledger)
          (advances ledger) carry_state with
  | Ok result => Ok (Some (carry_of_rows (rows result)))
  | Raise DistributionError => Ok None
  | Raise e => Raise e
  end.

(** ledger/views.py, lines 768-792: the months of ledger.json in sorted
    order, each with the entry that [load_ledger_entry] returns for it
    ([None] when it raises).  Any exception ends the loop (line 793) and
    leaves the history as it is by then. *)
Fixpoint history_loop (holders : list Shareholder)
    (months : list (string * option LedgerEntry)) (carry_balances : pydict)
    (history : list (string * list HistoryRow)) : list (string * list HistoryRow) :=
  match months with
  | [] => history
  | (month_key, None) :: _ => history
  | (month_key, Some entry) :: rest =>
      match compute_distribution lower month_key holders (total_cash entry)
              (keep_cash entry) (advances entry) carry_balances with
      | Ok result =>
          history_loop holders rest (update_carry carry_balances (rows result))
            (history ++ [(month_key, history_rows result)])
      | Raise _ => history
      end
  end.

End Callers.

(** ** Vocabulary of the further properties *)

(** An amount with two places that fits the context: a multiple of 0.01
    below 1E+26 in magnitude. *)
Definition two_places (d : Decimal) : Prop :=
  expo d = -2 /\ Z.abs (coef d) < 10 ^ prec.

(** The difference of two decimals, not rounded. *)
Definition exact_sub (a b : Decimal) : Decimal :=
  let e := Z.min (expo a) (expo b) in
  mkDec (coef a * 10 ^ (expo a - e) - coef b * 10 ^ (expo b - e)) e.

(** [D] in units of [P], rounded half-even to an integer: what [_fix]
    does to the digits it cannot keep. *)
Definition round_half_even (D P : Z) : Z :=
  D / P + (if round_up ROUND_HALF_EVEN D P then 1 else 0).

(** ** Amounts as real numbers

    The bounds that compare a sum of payouts with the distributable
    amount are stated on coefficients and proved on the numbers that the
    decimals denote. *)

(** The number that a decimal denotes. *)
Definition val (d : Decimal) : R := (IZR (coef d) * powerRZ 10 (expo d))%R.

(** Half a unit in the last of [prec] digits, relative to the number. *)
Definition eps : R := (powerRZ 10 (1 - prec) / 2)%R.

(** Half a unit at the smallest exponent of the context. *)
Definition eta : R := (powerRZ 10 Etiny / 2)%R.

(** Half a hundredth. *)
Definition half_cent : R := (powerRZ 10 (-2) / 2)%R.

Definition rsum (l : list R) : R := fold_right Rplus 0%R l.

(** The raw balances that count towards the total of line 57. *)
Definition is_positive (raw : Decimal) : bool := dec_gtb raw dec0.

(** ** Vocabulary of the specification

    The words of the specification, written out on the numbers: they are
    what the results of the code are compared with. *)


(** The amount on record for a shareholder in [advances] or in [carry]:
    the entry under the exact name, else the entry under the name as
    [lower] gives it, else zero. *)
Definition amount_on_record (lower : string -> string) (d : pydict) (h : Shareholder)
    : Decimal :=
  match dict_lookup d (name h) with
  | Some v => v
  | None =>
      match dict_lookup d (lower (name h)) with
      | Some v => v
      | None => dec0
      end
  end.

(** The carry that stands after the months of a history, from the carry
    [c0] before them: every row has put its [due] under its name. *)
Definition carry_after (c0 : pydict) (hist : list (string * list HistoryRow)) : pydict :=
  fold_left
    (fun c e => fold_left (fun d row => dict_setitem d (h_name row) (h_due row)) (snd e) c)
    hist c0.

(** Sizes for which no number of a settlement leaves the 28-digit
    context: at most a million shareholders, every percentage between 0
    and 100, and the cash, the reserve and every advance and carry on
    record at most 1E+15 in magnitude. *)
Definition percent_fits (p : Decimal) : bool :=
  dec_leb dec0 p && dec_leb p dec100.

Definition amount_fits (a : Decimal) : bool :=
  dec_leb (mkDec (-1) 15) a && dec_leb a (mkDec 1 15).

Definition sizes_fit (hs : list Shareholder) (total keep : Decimal)
    (adv carry : pydict) : Prop :=
  Z.of_nat (length hs) <= 1000000 /\
  Forall (fun h => percent_fits (percent h) = true) hs /\
  amount_fits total = true /\
  amount_fits keep = true /\
  Forall (fun kv => amount_fits (snd kv) = true) adv /\
  Forall (fun kv => amount_fits (snd kv) = true) carry.

(** At most [10^K] in magnitude. *)
Definition within (K : Z) (d : Decimal) : Prop := (Rabs (val d) <= powerRZ 10 K)%R.

(** ** Further sample settlements *)

(** 50% / 50%, 100 in cash, 120 advanced to the first shareholder: her
    raw balance is -70. *)
Definition ex_debt_balances : Balances :=
  Eval vm_compute in
    from_ok empty_balances
      (compute_balances ascii_lower ex_half ex_short_cash dec0 ex_advances []).
Definition ex_debt_result : DistributionResult :=
  Eval vm_compute in
    from_ok empty_result
      (compute_distribution ascii_lower "2025-12" ex_half ex_short_cash dec0
         ex_advances []).

(** One shareholder, no cash, 5 carried: the settlement. *)
Definition ex_owed_result : DistributionResult :=
  Eval vm_compute in
    from_ok empty_result
      (compute_distribution ascii_lower "2025-12" ex_one dec0 dec0 [] ex_owed_carry).

(** The month after the shortfall: 1000 in cash, the carry updated with
    the rows of the shortfall. *)
Definition ex_next_result : DistributionResult :=
  Eval vm_compute in
    from_ok empty_result
      (compute_distribution ascii_lower "2026-01" ex_half ex_two_cash dec0 ex_advances
         (update_carry ex_short_carry (rows ex_short_result))).

(** The ledger of the two months. *)
Definition ex_ledger_december : LedgerEntry :=
  mkLedgerEntry "2025-12" ex_short_cash dec0 [].
Definition ex_ledger_january : LedgerEntry :=
  mkLedgerEntry "2026-01" ex_two_cash dec0 ex_advances.

(** Two registry entries whose names differ only in case, 30% and 70%,
    and 100 in cash. *)
Definition ex_case : list Shareholder :=
  [mkShareholder "Ayse" (mkDec 30 0); mkShareholder "AYSE" (mkDec 70 0)].
Definition ex_case_balances : Balances :=
  Eval vm_compute in
    from_ok empty_balances
      (compute_balances ascii_lower ex_case ex_short_cash dec0 [] []).
Definition ex_case_result : DistributionResult :=
  Eval vm_compute in
    from_ok empty_result
      (compute_distribution ascii_lower "2025-12" ex_case ex_short_cash dec0 [] []).


(** 50% / 50%, three hundredths in cash and 120 advanced to the first
    shareholder: her raw balance is negative, his is 0.015, a tie. *)
Definition ex_round_cash : Decimal := mkDec 3 (-2).
Definition ex_round_balances : Balances :=
  Eval vm_compute in
    from_ok empty_balances
      (compute_balances ascii_lower ex_half ex_round_cash dec0 ex_advances []).
Definition ex_round_result : DistributionResult :=
  Eval vm_compute in
    from_ok empty_result
      (compute_distribution ascii_lower "2025-12" ex_half ex_round_cash dec0
         ex_advances []).

(** The two entries that differ only in case, with an advance of 70 on
    record under the first spelling. *)
Definition ex_case_advances : pydict := [("Ayse"%string, mkDec 70 0)].
Definition ex_case_advanced : DistributionResult :=
  Eval vm_compute in
    from_ok empty_result
      (compute_distribution ascii_lower "2025-12" ex_case ex_short_cash dec0
         ex_case_advances []).
Definition ex_case_advanced_balances : Balances :=
  Eval vm_compute in
    from_ok empty_balances
      (compute_balances ascii_lower ex_case ex_short_cash dec0 ex_case_advances []).


(** * Properties *)

(** ** Powers of ten and digit counts *)

Lemma pow10_pos (k : Z) : 0 <= k -> 0 < 10 ^ k.
Proof. intros Hk. apply Z.pow_pos_nonneg; lia. Qed.

Lemma pow10_ge1 (k : Z) : 0 <= k -> 1 <= 10 ^ k.
Proof. intros Hk. pose proof (pow10_pos k Hk). lia. Qed.

Lemma pow10_succ (k : Z) : 0 <= k -> 10 ^ (k + 1) = 10 * 10 ^ k.
Proof. intros Hk. rewrite Z.pow_add_r by lia. lia. Qed.

Lemma pow10_le (a b : Z) : 0 <= a <= b -> 10 ^ a <= 10 ^ b.
Proof. intros H. apply Z.pow_le_mono_r; lia. Qed.

Lemma pow10_lt (a b : Z) : 0 <= a < b -> 10 ^ a < 10 ^ b.
Proof. intros H. apply Z.pow_lt_mono_r; lia. Qed.

Lemma pow10_split (a b : Z) : 0 <= a <= b -> 10 ^ b = 10 ^ (b - a) * 10 ^ a.
Proof. intros H. rewrite <- Z.pow_add_r by lia. f_equal. lia. Qed.

Lemma ndigits_aux_ge1 (fuel : nat) (n : Z) : 1 <= ndigits_aux fuel n.
Proof.
  revert n. induction fuel as [|f IH]; intros n; simpl; [lia|].
  destruct (n <? 10); [lia|]. specialize (IH (n / 10)). lia.
Qed.

Lemma ndigits_aux_spec (fuel : nat) (n : Z) :
  0 < n -> n < 2 ^ (Z.of_nat fuel + 1) ->
  10 ^ (ndigits_aux fuel n - 1) <= n < 10 ^ ndigits_aux fuel n.
Proof.
  revert n. induction fuel as [|f IH]; intros n Hpos Hlt.
  - simpl in *. change (2 ^ 1) with 2 in Hlt. change (10 ^ (1 - 1)) with 1.
    change (10 ^ 1) with 10. lia.
  - simpl ndigits_aux. destruct (Z.ltb_spec n 10) as [Hs|Hs].
    + change (10 ^ (1 - 1)) with 1. change (10 ^ 1) with 10. lia.
    + assert (Hq : 0 < n / 10) by (apply Z.div_str_pos; lia).
      assert (Hq2 : n / 10 < 2 ^ (Z.of_nat f + 1)).
      { apply Z.div_lt_upper_bound; [lia|].
        replace (Z.of_nat (S f) + 1) with ((Z.of_nat f + 1) + 1) in Hlt by lia.
        rewrite Z.pow_add_r in Hlt by lia. change (2 ^ 1) with 2 in Hlt.
        pose proof (Z.pow_pos_nonneg 2 (Z.of_nat f + 1)). lia. }
      specialize (IH (n / 10) Hq Hq2).
      pose proof (ndigits_aux_ge1 f (n / 10)) as Hge.
      set (k := ndigits_aux f (n / 10)) in *.
      replace (1 + k - 1) with ((k - 1) + 1) by lia.
      replace (1 + k) with (k + 1) by lia.
      rewrite !pow10_succ by lia.
      pose proof (Z.div_mod n 10 ltac:(lia)) as Hdm.
      pose proof (Z.mod_pos_bound n 10 ltac:(lia)). lia.
Qed.

Lemma ndigits_ge1 (n : Z) : 1 <= ndigits n.
Proof. apply ndigits_aux_ge1. Qed.

Lemma ndigits_abs (n : Z) : ndigits (Z.abs n) = ndigits n.
Proof. unfold ndigits. now rewrite (Z.abs_eq (Z.abs n)) by apply Z.abs_nonneg. Qed.

Lemma ndigits_spec (n : Z) :
  n <> 0 -> 10 ^ (ndigits n - 1) <= Z.abs n < 10 ^ ndigits n.
Proof.
  intros Hn. unfold ndigits. apply ndigits_aux_spec; [lia|].
  rewrite Z2Nat.id by apply Z.log2_nonneg.
  pose proof (Z.log2_spec (Z.abs n) ltac:(lia)). lia.
Qed.

Lemma ndigits_0 : ndigits 0 = 1.
Proof. reflexivity. Qed.

(** The digit count is the only [k] with [10^(k-1) <= |n| < 10^k]. *)
Lemma ndigits_unique (n k : Z) :
  1 <= k -> 10 ^ (k - 1) <= Z.abs n < 10 ^ k -> ndigits n = k.
Proof.
  intros Hk [Hlo Hhi].
  assert (Hn : n <> 0) by (pose proof (pow10_pos (k - 1)); lia).
  pose proof (ndigits_spec n Hn) as [Hlo' Hhi'].
  pose proof (ndigits_ge1 n) as Hg.
  destruct (Z.lt_trichotomy (ndigits n) k) as [Hc|[Hc|Hc]]; [|exact Hc|].
  - pose proof (pow10_le (ndigits n) (k - 1) ltac:(lia)). lia.
  - pose proof (pow10_le k (ndigits n - 1) ltac:(lia)). lia.
Qed.

Lemma ndigits_le_iff (n k : Z) : 0 <= k -> ndigits n <= k -> Z.abs n < 10 ^ k.
Proof.
  intros Hk Hle. destruct (Z.eq_dec n 0) as [->|Hn].
  - simpl. apply pow10_pos; lia.
  - pose proof (ndigits_spec n Hn) as [_ Hhi].
    pose proof (pow10_le (ndigits n) k). pose proof (ndigits_ge1 n). lia.
Qed.

Lemma ndigits_lt_pow (n k : Z) : 1 <= k -> Z.abs n < 10 ^ k -> ndigits n <= k.
Proof.
  intros Hk Hlt. destruct (Z.eq_dec n 0) as [->|Hn]; [rewrite ndigits_0; lia|].
  pose proof (ndigits_spec n Hn) as [Hlo _]. pose proof (ndigits_ge1 n).
  destruct (Z.le_gt_cases (ndigits n) k) as [|Hgt]; [assumption|].
  pose proof (pow10_le k (ndigits n - 1) ltac:(lia)). lia.
Qed.

(** ** Rounding to the context: [_fix] *)

Lemma round_up_rem (r : rounding) (m p : Z) :
  0 < p -> round_up r m p = true -> 0 < m mod p.
Proof.
  intros Hp H. pose proof (Z.mod_pos_bound m p Hp).
  destruct r; simpl in H.
  - apply orb_true_iff in H as [H|H].
    + apply Z.ltb_lt in H. lia.
    + apply andb_true_iff in H as [H _]. apply Z.eqb_eq in H. lia.
  - apply Z.leb_le in H. lia.
Qed.

Lemma decimal_eta (d : Decimal) : d = mkDec (coef d) (expo d).
Proof. now destruct d. Qed.

Lemma sgn_mul_abs (u : Z) : Z.sgn u * Z.abs u = u.
Proof. destruct u; simpl; lia. Qed.

Lemma abs_sgn_mul (a x : Z) : a <> 0 -> 0 <= x -> Z.abs (Z.sgn a * x) = x.
Proof. intros Ha Hx. destruct a; simpl; [congruence| |]; lia. Qed.

(** What [_fix] returns on a non-zero number: the number itself when it
    fits, and otherwise one of the two neighbours on the grid of unit
    [10^g]. *)
Lemma fix_inv (d r : Decimal) :
  fix_ d = Ok r -> coef d <> 0 ->
  let g := Z.max (ndigits (coef d) + expo d - prec) Etiny in
  let p := 10 ^ (g - expo d) in
  let q := Z.abs (coef d) / p in
  (g <= expo d /\ r = d /\ fixed d) \/
  (expo d < g /\ g <= expo r /\ fixed r /\
   exists c, coef r * 10 ^ (expo r - g) = Z.sgn (coef d) * c /\
     ((c = q /\ round_up ROUND_HALF_EVEN (Z.abs (coef d)) p = false) \/
      (c = q + 1 /\ round_up ROUND_HALF_EVEN (Z.abs (coef d)) p = true))).
Proof.
  intros Hfix Hnz g p q. unfold fix_ in Hfix.
  destruct (Z.eqb_spec (Z.abs (coef d)) 0) as [Hz|_]; [lia|].
  rewrite ndigits_abs in Hfix.
  destruct (Z.ltb_spec Etop (ndigits (coef d) + expo d - prec)) as [|Htop]; [discriminate|].
  fold g in Hfix.
  pose proof (ndigits_spec (coef d) Hnz) as [Hlo Hhi].
  pose proof (ndigits_ge1 (coef d)) as Hnd.
  destruct (Z.ltb_spec (expo d) g) as [Hlt|Hge].
  - right. fold p in Hfix. fold q in Hfix.
    assert (Hp : 0 < p) by (apply pow10_pos; lia).
    assert (Hq0 : 0 <= q) by (apply Z.div_pos; lia).
    assert (Hq : q < 10 ^ prec).
    { apply Z.div_lt_upper_bound; [lia|].
      unfold p. destruct (Z.le_gt_cases (ndigits (coef d)) prec) as [Hs|Hs].
      - pose proof (pow10_le (ndigits (coef d)) prec ltac:(lia)).
        pose proof (pow10_pos prec ltac:(unfold prec; lia)). nia.
      - rewrite <- Z.pow_add_r by (unfold prec in *; lia).
        pose proof (pow10_le (ndigits (coef d)) (g - expo d + prec) ltac:(unfold prec in *; lia)).
        lia. }
    assert (HgE : Etiny <= g) by lia.
    assert (HgT : g <= Etop) by (unfold g, Etop, Etiny, Emax, Emin, prec in *; lia).
    destruct (round_up ROUND_HALF_EVEN (Z.abs (coef d)) p) eqn:Hru.
    + destruct (Z.ltb_spec prec (ndigits (q + 1))) as [Hcarry|Hnc].
      * destruct (Z.ltb_spec Etop (g + 1)) as [|Htop2]; [discriminate|].
        injection Hfix as <-. simpl.
        assert (Heq : q + 1 = 10 ^ prec).
        { destruct (Z.eq_dec (q + 1) (10 ^ prec)) as [|Hne]; [assumption|].
          assert (Hgt: ndigits (q + 1) <= prec).
          { apply ndigits_lt_pow; [unfold prec; lia|]. lia. }
          lia. }
        rewrite Heq.
        assert (Hdiv : 10 ^ prec / 10 = 10 ^ (prec - 1)) by reflexivity.
        split; [lia|]. split; [lia|]. split.
        { unfold fixed, adjusted; simpl. rewrite Hdiv.
          assert (Hnd2 : ndigits (Z.sgn (coef d) * 10 ^ (prec - 1)) = prec).
          { apply ndigits_unique; [unfold prec; lia|].
            rewrite abs_sgn_mul by (try assumption; unfold prec; simpl; lia).
            unfold prec; simpl; lia. }
          rewrite Hnd2. rewrite abs_sgn_mul by (try assumption; unfold prec; simpl; lia).
          unfold Etop, Etiny, Emax, Emin, prec in *. simpl. lia. }
        exists (10 ^ prec). split; [|right; split; [reflexivity|]; reflexivity].
        rewrite Hdiv. replace (g + 1 - g) with 1 by lia.
        change (10 ^ 1) with 10. unfold prec. simpl. lia.
      * injection Hfix as <-. simpl. split; [lia|]. split; [lia|]. split.
        { unfold fixed, adjusted; simpl.
          assert (Habs : Z.abs (Z.sgn (coef d) * (q + 1)) = q + 1).
          { apply abs_sgn_mul; [assumption|lia]. }
          rewrite <- ndigits_abs, Habs.
          pose proof (ndigits_le_iff (q + 1) prec ltac:(unfold prec; lia) Hnc).
          unfold Etop, Emax, prec in *. lia. }
        exists (q + 1). rewrite Z.sub_diag. simpl. split; [lia|]. right; auto.
    + injection Hfix as <-. simpl. split; [lia|]. split; [lia|]. split.
      { unfold fixed, adjusted; simpl.
        assert (Habs : Z.abs (Z.sgn (coef d) * q) = q).
        { apply abs_sgn_mul; [assumption|lia]. }
        rewrite <- ndigits_abs, Habs.
        assert (ndigits q <= prec).
        { apply ndigits_lt_pow; [unfold prec; lia|]. lia. }
        unfold Etop, Emax, prec in *. lia. }
      exists q. rewrite Z.sub_diag. simpl. split; [lia|]. left; auto.
  - left. injection Hfix as <-. split; [assumption|]. split; [reflexivity|].
    unfold fixed, adjusted.
    assert (Hndp : ndigits (coef d) <= prec) by lia.
    pose proof (ndigits_le_iff (coef d) prec ltac:(unfold prec; lia) Hndp).
    unfold Etop, Emax, prec in *. lia.
Qed.

Lemma fix_zero (d : Decimal) :
  coef d = 0 -> fix_ d = Ok (mkDec 0 (Z.min (Z.max (expo d) Etiny) Emax)).
Proof. intros H. unfold fix_. rewrite H. reflexivity. Qed.

Lemma fixed_zero_clamp (e : Z) : fixed (mkDec 0 (Z.min (Z.max e Etiny) Emax)).
Proof.
  unfold fixed, adjusted; simpl. rewrite ndigits_0.
  unfold Etiny, Emax, Emin, prec. simpl. lia.
Qed.

Lemma fix_fixed (d r : Decimal) : fix_ d = Ok r -> fixed r.
Proof.
  intros H. destruct (Z.eq_dec (coef d) 0) as [Hz|Hnz].
  - rewrite (fix_zero d Hz) in H. injection H as <-. apply fixed_zero_clamp.
  - destruct (fix_inv d r H Hnz) as [(_ & -> & Hf)|(_ & _ & Hf & _)]; exact Hf.
Qed.

Lemma fix_id (d : Decimal) : fixed d -> fix_ d = Ok d.
Proof.
  intros (Hc & He & Ha). unfold fix_, adjusted in *.
  destruct (Z.eqb_spec (Z.abs (coef d)) 0) as [Hz|Hnz].
  - assert (coef d = 0) as Hz' by lia. rewrite Hz' in Ha. rewrite ndigits_0 in Ha.
    destruct d as [c e]; simpl in *. subst c. f_equal. f_equal. lia.
  - rewrite ndigits_abs.
    assert (Hnd : ndigits (coef d) <= prec).
    { apply ndigits_lt_pow; [unfold prec; lia|assumption]. }
    destruct (Z.ltb_spec Etop (ndigits (coef d) + expo d - prec)) as [Hov|_].
    { unfold Etop in Hov. lia. }
    destruct (Z.ltb_spec (expo d) (Z.max (ndigits (coef d) + expo d - prec) Etiny)); [lia|].
    reflexivity.
Qed.

Lemma fix_exc (d : Decimal) (e : exc) : fix_ d = Raise e -> e = Overflow.
Proof.
  unfold fix_. repeat match goal with
  | |- context [if ?b then _ else _] => destruct b
  end; congruence.
Qed.

Lemma fix_sign (d r : Decimal) :
  fix_ d = Ok r -> (0 <= coef d -> 0 <= coef r) /\ (coef d <= 0 -> coef r <= 0).
Proof.
  intros H. destruct (Z.eq_dec (coef d) 0) as [Hz|Hnz].
  - rewrite (fix_zero d Hz) in H. injection H as <-. simpl. lia.
  - destruct (fix_inv d r H Hnz) as [(_ & -> & _)|(Hlt & Hge & _ & c & Hc & Hcase)];
      [lia|].
    assert (Hp : 0 < 10 ^ (Z.max (ndigits (coef d) + expo d - prec) Etiny - expo d))
      by (apply pow10_pos; lia).
    assert (Hq : 0 <= Z.abs (coef d) /
                   10 ^ (Z.max (ndigits (coef d) + expo d - prec) Etiny - expo d))
      by (apply Z.div_pos; lia).
    assert (Hc0 : 0 <= c) by (destruct Hcase as [[-> _]|[-> _]]; lia).
    pose proof (pow10_pos (expo r - Z.max (ndigits (coef d) + expo d - prec) Etiny)
                  ltac:(lia)) as Hp2.
    split; intros Hs.
    + assert (Z.sgn (coef d) = 1) as Hsg by (apply Z.sgn_pos; lia).
      rewrite Hsg in Hc. nia.
    + assert (Z.sgn (coef d) = -1) as Hsg by (apply Z.sgn_neg; lia).
      rewrite Hsg in Hc. nia.
Qed.

(** ** Order on decimals *)

Lemma sc_shift (e0 e1 : Z) (d : Decimal) :
  e0 <= e1 <= expo d -> sc e0 d = sc e1 d * 10 ^ (e1 - e0).
Proof.
  intros H. unfold sc. rewrite <- Z.mul_assoc, <- Z.pow_add_r by lia.
  do 2 f_equal. lia.
Qed.

Lemma compare_mul_r (x y p : Z) : 0 < p -> (x * p ?= y * p) = (x ?= y).
Proof.
  intros Hp. destruct (Z.compare_spec x y) as [->|H|H].
  - apply Z.compare_refl.
  - apply Z.compare_lt_iff. nia.
  - apply Z.compare_gt_iff. nia.
Qed.

Lemma cmp_sc (e0 : Z) (a b : Decimal) :
  e0 <= expo a -> e0 <= expo b -> cmp a b = (sc e0 a ?= sc e0 b).
Proof.
  intros Ha Hb. unfold cmp.
  set (e := Z.min (expo a) (expo b)).
  rewrite (sc_shift e0 e a), (sc_shift e0 e b) by (unfold e; lia).
  rewrite compare_mul_r by (apply pow10_pos; unfold e; lia).
  reflexivity.
Qed.

Lemma dec_ltb_sc (e0 : Z) (a b : Decimal) :
  e0 <= expo a -> e0 <= expo b -> dec_ltb a b = (sc e0 a <? sc e0 b).
Proof.
  intros Ha Hb. unfold dec_ltb, Z.ltb. rewrite (cmp_sc e0) by assumption.
  reflexivity.
Qed.

Lemma dec_eqb_sc (e0 : Z) (a b : Decimal) :
  e0 <= expo a -> e0 <= expo b -> dec_eqb a b = (sc e0 a =? sc e0 b).
Proof.
  intros Ha Hb. unfold dec_eqb. rewrite (cmp_sc e0) by assumption.
  destruct (Z.compare_spec (sc e0 a) (sc e0 b));
    destruct (Z.eqb_spec (sc e0 a) (sc e0 b)); try reflexivity; lia.
Qed.

Lemma dec_ltb_0 (d : Decimal) : dec_ltb d dec0 = (coef d <? 0).
Proof.
  rewrite (dec_ltb_sc (Z.min (expo d) 0)) by (simpl; lia).
  unfold sc, dec0; simpl.
  pose proof (pow10_pos (expo d - Z.min (expo d) 0) ltac:(lia)).
  destruct (Z.ltb_spec (coef d * 10 ^ (expo d - Z.min (expo d) 0)) 0);
    destruct (Z.ltb_spec (coef d) 0); try reflexivity; nia.
Qed.

Lemma dec_gtb_0 (d : Decimal) : dec_gtb d dec0 = (0 <? coef d).
Proof.
  unfold dec_gtb. rewrite (dec_ltb_sc (Z.min (expo d) 0)) by (simpl; lia).
  unfold sc, dec0; simpl.
  pose proof (pow10_pos (expo d - Z.min (expo d) 0) ltac:(lia)).
  destruct (Z.ltb_spec 0 (coef d * 10 ^ (expo d - Z.min (expo d) 0)));
    destruct (Z.ltb_spec 0 (coef d)); try reflexivity; nia.
Qed.

Lemma sc_fixed_lt (e0 : Z) (t : Decimal) :
  fixed t -> e0 <= expo t -> Z.abs (sc e0 t) < 10 ^ (prec + expo t - e0).
Proof.
  intros (Hc & _) He. unfold sc. rewrite Z.abs_mul.
  pose proof (pow10_pos (expo t - e0) ltac:(lia)) as Hp.
  rewrite (Z.abs_eq (10 ^ _)) by lia.
  replace (prec + expo t - e0) with (prec + (expo t - e0)) by lia.
  rewrite Z.pow_add_r by (unfold prec; lia). nia.
Qed.

Lemma pow10_lt_inv (a b : Z) : 0 <= a -> 0 <= b -> 10 ^ a < 10 ^ b -> a < b.
Proof.
  intros Ha Hb H. destruct (Z.lt_ge_cases a b) as [|Hge]; [assumption|].
  pose proof (pow10_le b a ltac:(lia)). lia.
Qed.

(** Rounding does not cross a number that is itself representable: from
    above ... *)
Lemma fix_upper (e0 : Z) (d r t : Decimal) :
  fix_ d = Ok r -> fixed t -> 0 <= coef d ->
  e0 <= expo d -> e0 <= expo t ->
  sc e0 d <= sc e0 t -> sc e0 r <= sc e0 t.
Proof.
  intros Hfix Ht Hd He Het Hle.
  destruct (Z.eq_dec (coef d) 0) as [Hz|Hnz].
  { rewrite (fix_zero d Hz) in Hfix. injection Hfix as <-.
    unfold sc in *. simpl. rewrite Hz in Hle. lia. }
  destruct (fix_inv d r Hfix Hnz) as [(_ & -> & _)|(Hlt & Hge & _ & c & Hc & Hcase)];
    [assumption|].
  set (g := Z.max (ndigits (coef d) + expo d - prec) Etiny) in *.
  set (p := 10 ^ (g - expo d)) in *.
  set (m := Z.abs (coef d)) in *.
  assert (Hsg : Z.sgn (coef d) = 1) by (apply Z.sgn_pos; lia).
  rewrite Hsg, Z.mul_1_l in Hc.
  assert (Hm : m = coef d) by (unfold m; lia).
  pose proof (ndigits_spec (coef d) Hnz) as [Hlo _]. fold m in Hlo.
  pose proof (ndigits_ge1 (coef d)) as Hnd.
  pose proof (sc_fixed_lt e0 t Ht Het) as Hthi.
  assert (Hp : 0 < p) by (apply pow10_pos; lia).
  assert (HX : 0 < 10 ^ (expo d - e0)) by (apply pow10_pos; lia).
  (* the threshold lies on the grid *)
  assert (Hgt : g <= expo t).
  { destruct Ht as (_ & HtE & _).
    assert (ndigits (coef d) - 1 + (expo d - e0) < prec + expo t - e0); [|lia].
    pose proof (pow10_pos (ndigits (coef d) - 1) ltac:(lia)).
    assert (0 <= prec + expo t - e0).
    { destruct (Z.le_gt_cases 0 (prec + expo t - e0)) as [|Hneg]; [assumption|].
      rewrite (Z.pow_neg_r 10 (prec + expo t - e0)) in Hthi by lia. lia. }
    apply pow10_lt_inv; [lia|lia|].
    rewrite Z.pow_add_r by lia.
    unfold sc in Hle, Hthi. rewrite <- Hm in Hle.
    pose proof (Z.mul_le_mono_nonneg_r _ _ (10 ^ (expo d - e0)) ltac:(lia) Hlo).
    lia. }
  set (B := coef t * 10 ^ (expo t - g)).
  assert (HscT : sc e0 t = B * p * 10 ^ (expo d - e0)).
  { unfold sc, B, p. rewrite <- !Z.mul_assoc, <- !Z.pow_add_r by lia.
    do 2 f_equal. lia. }
  assert (HscR : sc e0 r = c * p * 10 ^ (expo d - e0)).
  { unfold sc. rewrite (pow10_split (g - e0) (expo r - e0)) by lia.
    replace (expo r - e0 - (g - e0)) with (expo r - g) by lia.
    rewrite Z.mul_assoc, Hc. unfold p.
    rewrite <- !Z.mul_assoc, <- !Z.pow_add_r by lia. do 2 f_equal. lia. }
  rewrite HscT, HscR. rewrite HscT in Hle. unfold sc in Hle. rewrite <- Hm in Hle.
  assert (HmB : m <= B * p) by nia.
  assert (HcB : c <= B).
  { pose proof (Z.div_mod m p ltac:(lia)) as Hdm.
    pose proof (Z.mod_pos_bound m p Hp) as Hmod.
    destruct Hcase as [[-> _]|[-> Hru]].
    - apply Z.div_le_upper_bound; lia.
    - apply round_up_rem in Hru; [|assumption].
      assert (m / p < B); [|lia].
      apply Z.div_lt_upper_bound; [assumption|].
      destruct (Z.eq_dec m (B * p)) as [E|]; [|lia].
      rewrite E, Z.mod_mul in Hru by lia. lia. }
  apply Z.mul_le_mono_nonneg_r; [lia|]. apply Z.mul_le_mono_nonneg_r; lia.
Qed.

(** ... and from below. *)
Lemma fix_lower (e0 : Z) (d r t : Decimal) :
  fix_ d = Ok r -> fixed t -> 0 <= coef t ->
  e0 <= expo d -> e0 <= expo t ->
  sc e0 t <= sc e0 d -> e0 <= expo r /\ sc e0 t <= sc e0 r.
Proof.
  intros Hfix Ht Ht0 He Het Hle.
  assert (HX : 0 < 10 ^ (expo d - e0)) by (apply pow10_pos; lia).
  assert (HY : 0 < 10 ^ (expo t - e0)) by (apply pow10_pos; lia).
  assert (Hd0 : 0 <= coef d) by (unfold sc in Hle; nia).
  destruct (Z.eq_dec (coef d) 0) as [Hz|Hnz].
  { assert (coef t = 0) as Htz by (unfold sc in Hle; rewrite Hz in Hle; nia).
    rewrite (fix_zero d Hz) in Hfix. injection Hfix as <-.
    unfold sc; simpl. rewrite Htz. split; [|lia].
    destruct Ht as (_ & HtE & HtA). unfold adjusted in HtA.
    pose proof (ndigits_ge1 (coef t)). lia. }
  destruct (fix_inv d r Hfix Hnz) as [(_ & -> & _)|(Hlt & Hge & _ & c & Hc & Hcase)];
    [split; assumption|].
  set (g := Z.max (ndigits (coef d) + expo d - prec) Etiny) in *.
  set (p := 10 ^ (g - expo d)) in *.
  set (m := Z.abs (coef d)) in *.
  assert (Hsg : Z.sgn (coef d) = 1) by (apply Z.sgn_pos; lia).
  rewrite Hsg, Z.mul_1_l in Hc.
  assert (Hm : m = coef d) by (unfold m; lia).
  pose proof (ndigits_spec (coef d) Hnz) as [Hlo _]. fold m in Hlo.
  pose proof (ndigits_ge1 (coef d)) as Hnd.
  pose proof (sc_fixed_lt e0 t Ht Het) as Hthi.
  assert (Hp : 0 < p) by (apply pow10_pos; lia).
  split; [lia|].
  assert (HscR : sc e0 r = c * p * 10 ^ (expo d - e0)).
  { unfold sc. rewrite (pow10_split (g - e0) (expo r - e0)) by lia.
    replace (expo r - e0 - (g - e0)) with (expo r - g) by lia.
    rewrite Z.mul_assoc, Hc. unfold p.
    rewrite <- !Z.mul_assoc, <- !Z.pow_add_r by lia. do 2 f_equal. lia. }
  assert (Hqc : m / p <= c) by (destruct Hcase as [[-> _]|[-> _]]; lia).
  destruct (Z.le_gt_cases g (expo t)) as [Hgt|Hgt].
  - set (B := coef t * 10 ^ (expo t - g)).
    assert (HscT : sc e0 t = B * p * 10 ^ (expo d - e0)).
    { unfold sc, B, p. rewrite <- !Z.mul_assoc, <- !Z.pow_add_r by lia.
      do 2 f_equal. lia. }
    rewrite HscT, HscR. rewrite HscT in Hle. unfold sc in Hle. rewrite <- Hm in Hle.
    assert (HBm : B * p <= m) by nia.
    assert (B <= m / p) by (apply Z.div_le_lower_bound; lia).
    apply Z.mul_le_mono_nonneg_r; [lia|]. apply Z.mul_le_mono_nonneg_r; lia.
  - (* the threshold is below the grid: the result keeps [prec] digits *)
    destruct Ht as (_ & HtE & _).
    assert (Hg : g = ndigits (coef d) + expo d - prec) by lia.
    assert (Hq : 10 ^ (prec - 1) <= m / p).
    { apply Z.div_le_lower_bound; [assumption|].
      unfold p. rewrite Z.mul_comm, <- Z.pow_add_r by (unfold prec; lia).
      replace (prec - 1 + (g - expo d)) with (ndigits (coef d) - 1) by lia.
      assumption. }
    rewrite HscR. rewrite Z.abs_eq in Hthi by (unfold sc; nia).
    assert (10 ^ (prec + expo t - e0) <= 10 ^ (prec - 1) * p * 10 ^ (expo d - e0)).
    { unfold p. rewrite <- !Z.pow_add_r by (unfold prec; lia).
      apply pow10_le. unfold prec in *. lia. }
    assert (10 ^ (prec - 1) * p * 10 ^ (expo d - e0) <= c * p * 10 ^ (expo d - e0)).
    { apply Z.mul_le_mono_nonneg_r; [lia|]. apply Z.mul_le_mono_nonneg_r; lia. }
    lia.
Qed.

(** ** Arithmetic: which exceptions, which signs *)

Lemma rbind_ok {A B : Type} (m : result A) (k : A -> result B) (b : B) :
  rbind m k = Ok b -> exists a, m = Ok a /\ k a = Ok b.
Proof. destruct m as [a|e]; simpl; [eauto|discriminate]. Qed.

Lemma rbind_raise {A B : Type} (m : result A) (k : A -> result B) (e : exc) :
  rbind m k = Raise e -> m = Raise e \/ exists a, m = Ok a /\ k a = Raise e.
Proof. destruct m as [a|e']; simpl; [eauto|intros [= ->]; auto]. Qed.

Ltac inv_bind H :=
  let a := fresh "x" in
  let E := fresh "E" in
  apply rbind_ok in H as (a & E & H).

Lemma add_exc (a b : Decimal) (e : exc) : add a b = Raise e -> e = Overflow.
Proof. apply fix_exc. Qed.

Lemma sub_exc (a b : Decimal) (e : exc) : sub a b = Raise e -> e = Overflow.
Proof. apply fix_exc. Qed.

Lemma mul_exc (a b : Decimal) (e : exc) : mul a b = Raise e -> e = Overflow.
Proof. apply fix_exc. Qed.

Lemma div_exc (a b : Decimal) (e : exc) :
  coef b <> 0 -> div a b = Raise e -> e = Overflow.
Proof.
  intros Hb. unfold div.
  destruct (Z.eqb_spec (coef b) 0); [contradiction|].
  destruct (coef a =? 0); [apply fix_exc|].
  destruct (0 <=? _); destruct (_ =? 0);
    try destruct (strip_zeros _ _ _ _); apply fix_exc.
Qed.

Lemma expo_rescale (d : Decimal) (e : Z) (r : rounding) : expo (rescale d e r) = e.
Proof.
  unfold rescale. destruct (coef d =? 0); [reflexivity|].
  destruct (e <=? expo d); reflexivity.
Qed.

(** A successful [quantize] returns the rescaled number, which fits the
    context. *)
Lemma quantize_inv (d x : Decimal) (e : Z) (r : rounding) :
  quantize d e r = Ok x ->
  Etiny <= e <= Emax /\ x = rescale d e r /\ fixed x.
Proof.
  unfold quantize. intros H.
  destruct (Z.leb_spec Etiny e) as [H1|]; [|discriminate].
  destruct (Z.leb_spec e Emax) as [H2|]; [|discriminate]. simpl in H.
  split; [lia|].
  destruct (Z.eqb_spec (coef d) 0) as [Hz|Hnz].
  - rewrite fix_zero in H by reflexivity. injection H as <-. simpl.
    replace (Z.min (Z.max e Etiny) Emax) with e by lia.
    split; [unfold rescale; rewrite Hz; reflexivity|].
    unfold fixed, adjusted; simpl. rewrite ndigits_0.
    split; [apply pow10_pos; unfold prec; lia|lia].
  - destruct (Emax <? adjusted d); [discriminate|].
    destruct (prec <? adjusted d - e + 1); [discriminate|].
    destruct (Z.ltb_spec Emax (adjusted (rescale d e r))) as [|Ha]; [discriminate|].
    destruct (Z.ltb_spec prec (ndigits (coef (rescale d e r)))) as [|Hn]; [discriminate|].
    assert (Hf : fixed (rescale d e r)).
    { unfold fixed. rewrite expo_rescale. split; [|lia].
      apply ndigits_le_iff; [unfold prec; lia|assumption]. }
    rewrite (fix_id _ Hf) in H. injection H as <-. auto.
Qed.

Lemma quantize_exc (d : Decimal) (e : Z) (r : rounding) (x : exc) :
  quantize d e r = Raise x -> x = InvalidOperation.
Proof.
  unfold quantize. intros H.
  destruct (Z.leb_spec Etiny e) as [H1|]; [|simpl in H; congruence].
  destruct (Z.leb_spec e Emax) as [H2|]; [|simpl in H; congruence]. simpl in H.
  destruct (Z.eqb_spec (coef d) 0) as [Hz|Hnz].
  - rewrite fix_zero in H by reflexivity. discriminate.
  - destruct (Emax <? adjusted d); [congruence|].
    destruct (prec <? adjusted d - e + 1); [congruence|].
    destruct (Z.ltb_spec Emax (adjusted (rescale d e r))) as [|Ha]; [congruence|].
    destruct (Z.ltb_spec prec (ndigits (coef (rescale d e r)))) as [|Hn]; [congruence|].
    rewrite fix_id in H; [discriminate|].
    unfold fixed. rewrite expo_rescale. split; [|lia].
    apply ndigits_le_iff; [unfold prec; lia|assumption].
Qed.

Lemma _quantize_inv (d x : Decimal) :
  _quantize d = Ok x -> x = rescale d (-2) ROUND_HALF_UP /\ expo x = -2 /\ fixed x.
Proof.
  intros H. apply quantize_inv in H as (_ & -> & Hf).
  split; [reflexivity|]. split; [apply expo_rescale|exact Hf].
Qed.

Lemma rescale_nonneg (d : Decimal) (e : Z) (r : rounding) :
  0 <= coef d -> 0 <= coef (rescale d e r).
Proof.
  intros Hd. unfold rescale. destruct (Z.eqb_spec (coef d) 0); [simpl; lia|].
  destruct (Z.leb_spec e (expo d)); simpl.
  - pose proof (pow10_pos (expo d - e) ltac:(lia)). nia.
  - assert (Z.sgn (coef d) = 1) as -> by (apply Z.sgn_pos; lia).
    pose proof (pow10_pos (e - expo d) ltac:(lia)).
    assert (0 <= Z.abs (coef d) / 10 ^ (e - expo d)) by (apply Z.div_pos; lia).
    destruct (round_up _ _ _); lia.
Qed.

Lemma mul_nonneg (a b r : Decimal) :
  0 <= coef a -> 0 <= coef b -> mul a b = Ok r -> 0 <= coef r.
Proof.
  intros Ha Hb H. apply fix_sign in H as [H _]. apply H. simpl. nia.
Qed.

Lemma strip_zeros_nonneg (fuel : nat) (c e ideal : Z) :
  0 <= c -> 0 <= fst (strip_zeros fuel c e ideal).
Proof.
  revert c e. induction fuel as [|f IH]; intros c e Hc; simpl; [assumption|].
  destruct ((e <? ideal) && (c mod 10 =? 0)); [|assumption].
  apply IH. apply Z.div_pos; lia.
Qed.

Lemma div_nonneg (a b r : Decimal) :
  0 <= coef a -> 0 < coef b -> div a b = Ok r -> 0 <= coef r.
Proof.
  intros Ha Hb. unfold div.
  destruct (Z.eqb_spec (coef b) 0); [lia|].
  destruct (Z.eqb_spec (coef a) 0) as [Hz|Hnz].
  { intros H. apply fix_sign in H as [H _]. apply H. simpl. lia. }
  assert (Z.sgn (coef a) = 1) as -> by (apply Z.sgn_pos; lia).
  assert (Z.sgn (coef b) = 1) as -> by (apply Z.sgn_pos; lia).
  rewrite !Z.abs_eq by lia.
  set (shift := ndigits (coef b) - ndigits (coef a) + prec + 1).
  assert (Hq : forall x y, 0 <= x -> 0 < y -> 0 <= x / y)
    by (intros; apply Z.div_pos; lia).
  destruct (Z.leb_spec 0 shift) as [Hs|Hs].
  - pose proof (pow10_pos shift Hs).
    assert (0 <= coef a * 10 ^ shift / coef b) by (apply Hq; nia).
    destruct (_ =? 0).
    + pose proof (strip_zeros_nonneg
        (Z.to_nat (expo a - expo b - (expo a - expo b - shift)))
        (coef a * 10 ^ shift / coef b) (expo a - expo b - shift) (expo a - expo b)
        ltac:(assumption)) as Hsz.
      destruct (strip_zeros _ _ _ _) as [q' e']. simpl in Hsz.
      intros H'. apply fix_sign in H' as [H' _]. apply H'. simpl. lia.
    + intros H'. apply fix_sign in H' as [H' _]. apply H'. simpl.
      destruct (_ =? 0); lia.
  - pose proof (pow10_pos (- shift) ltac:(lia)).
    assert (0 <= coef a / (coef b * 10 ^ (- shift))) by (apply Hq; nia).
    destruct (_ =? 0).
    + pose proof (strip_zeros_nonneg
        (Z.to_nat (expo a - expo b - (expo a - expo b - shift)))
        (coef a / (coef b * 10 ^ (- shift))) (expo a - expo b - shift)
        (expo a - expo b) ltac:(assumption)) as Hsz.
      destruct (strip_zeros _ _ _ _) as [q' e']. simpl in Hsz.
      intros H'. apply fix_sign in H' as [H' _]. apply H'. simpl. lia.
    + intros H'. apply fix_sign in H' as [H' _]. apply H'. simpl.
      destruct (_ =? 0); lia.
Qed.

(** ** Division of a smaller number by a larger one *)

Lemma strip_zeros_spec (fuel : nat) (c e ideal c' e' : Z) :
  strip_zeros fuel c e ideal = (c', e') -> e <= e' /\ c = c' * 10 ^ (e' - e).
Proof.
  revert c e. induction fuel as [|f IH]; intros c e H; simpl in H.
  - injection H as <- <-. rewrite Z.sub_diag. simpl. lia.
  - destruct (Z.ltb_spec e ideal) as [Hlt|_]; simpl in H.
    + destruct (Z.eqb_spec (c mod 10) 0) as [Hm|_].
      * apply IH in H as [He Hc]. split; [lia|].
        replace (e' - e) with ((e' - (e + 1)) + 1) by lia.
        rewrite pow10_succ by lia.
        pose proof (Z.div_mod c 10 ltac:(lia)). lia.
      * injection H as <- <-. rewrite Z.sub_diag. simpl. lia.
    + injection H as <- <-. rewrite Z.sub_diag. simpl. lia.
Qed.

(** The fuel given in [div] lets the loop run to its exit condition. *)
Lemma strip_zeros_done (fuel : nat) (c e ideal c' e' : Z) :
  ideal - e <= Z.of_nat fuel ->
  strip_zeros fuel c e ideal = (c', e') ->
  ~ (e' < ideal /\ c' mod 10 = 0).
Proof.
  revert c e. induction fuel as [|f IH]; intros c e Hf H; simpl in H.
  - injection H as <- <-. lia.
  - destruct (Z.ltb_spec e ideal) as [Hlt|Hge]; simpl in H.
    + destruct (Z.eqb_spec (c mod 10) 0) as [Hm|Hm].
      * apply IH in H; [exact H|lia].
      * injection H as <- <-. lia.
    + injection H as <- <-. lia.
Qed.

Lemma fix_expo_ge (d r : Decimal) : fix_ d = Ok r -> coef d <> 0 -> expo d <= expo r.
Proof.
  intros H Hnz. destruct (fix_inv d r H Hnz) as [(_ & -> & _)|(Hlt & Hge & _)]; lia.
Qed.

Lemma below_one_fixed : fixed below_one.
Proof. repeat split; vm_compute; congruence. Qed.

(** The quotient before [_fix], on the grid of unit [10^e]: it stays at
    or below [u] when the exact quotient does. *)
Lemma quotient_le (x y u q : Z) (sticky : bool) :
  0 <= x -> 0 < y -> x <= y * u ->
  q = x / y ->
  (sticky = true -> x mod y <> 0) ->
  (if sticky then q + 1 else q) <= u.
Proof.
  intros Hx Hy Hle -> Hs.
  assert (Hq : x / y <= u) by (apply Z.div_le_upper_bound; lia).
  destruct sticky; [|exact Hq].
  specialize (Hs eq_refl).
  destruct (Z.eq_dec (x / y) u) as [Heq|]; [|lia].
  exfalso. apply Hs.
  pose proof (Z.div_mod x y ltac:(lia)) as Hdm.
  pose proof (Z.mod_pos_bound x y Hy). nia.
Qed.

Lemma div_lt_one (a b r : Decimal) :
  fixed a -> fixed b -> 0 <= coef a -> 0 < coef b ->
  dec_ltb a b = true -> div a b = Ok r -> dec_ltb r dec1 = true.
Proof.
  intros Fa Fb Ha Hb Hlt Hdiv.
  assert (Hzero : forall z, coef z = 0 -> dec_ltb z dec1 = true).
  { intros z Hz. rewrite (dec_ltb_sc (Z.min (expo z) 0)) by (simpl; lia).
    unfold sc. rewrite Hz. simpl.
    pose proof (pow10_pos (0 - Z.min (expo z) 0) ltac:(lia)).
    apply Z.ltb_lt. lia. }
  unfold div in Hdiv.
  destruct (Z.eqb_spec (coef b) 0) as [|_]; [lia|].
  destruct (Z.eqb_spec (coef a) 0) as [Hz|Hnz].
  { rewrite fix_zero in Hdiv by reflexivity. injection Hdiv as <-. now apply Hzero. }
  assert (Z.sgn (coef a) = 1) as Sa by (apply Z.sgn_pos; lia).
  assert (Z.sgn (coef b) = 1) as Sb by (apply Z.sgn_pos; lia).
  rewrite Sa, Sb, !Z.abs_eq in Hdiv by lia.
  set (n := coef a) in *. set (m := coef b) in *.
  set (ea := expo a) in *. set (eb := expo b) in *.
  set (shift := ndigits m - ndigits n + prec + 1) in *.
  set (e := ea - eb - shift) in *.
  (* the operands on a common exponent *)
  set (E := Z.min ea eb).
  rewrite (dec_ltb_sc E) in Hlt by (unfold E, ea, eb; lia).
  apply Z.ltb_lt in Hlt. unfold sc in Hlt. fold n m ea eb in Hlt.
  pose proof (pow10_pos (ea - E) ltac:(unfold E; lia)) as HX.
  pose proof (pow10_pos (eb - E) ltac:(unfold E; lia)) as HY.
  destruct Fa as (Fa & _). destruct Fb as (Fb & _). fold n in Fa. fold m in Fb.
  rewrite Z.abs_eq in Fa, Fb by lia.
  pose proof (ndigits_spec n Hnz) as [Hnlo _].
  pose proof (ndigits_spec m ltac:(lia)) as [_ Hmhi].
  rewrite Z.abs_eq in Hnlo, Hmhi by lia.
  pose proof (ndigits_ge1 n) as Hn1. pose proof (ndigits_ge1 m) as Hm1.
  (* the quotient has its digits after the point *)
  assert (He : e <= - prec - 1).
  { assert (ndigits n - 1 + (ea - E) < ndigits m + (eb - E)).
    { apply pow10_lt_inv; [unfold E; lia|unfold E; lia|].
      rewrite !Z.pow_add_r by (unfold E; lia).
      pose proof (Z.mul_le_mono_nonneg_r _ _ (10 ^ (ea - E)) ltac:(lia) Hnlo).
      pose proof (proj1 (Z.mul_lt_mono_pos_r (10 ^ (eb - E)) _ _ HY) Hmhi). lia. }
    unfold e, shift. lia. }
  set (W := 10 ^ (- e - prec)).
  assert (HW : 0 < W) by (apply pow10_pos; lia).
  set (U := (10 ^ prec - 1) * W).
  set (P := 10 ^ prec) in *.
  assert (HP : 1 < P) by (unfold P, prec; simpl; lia).
  (* a <= b * (1 - 10^-prec) *)
  assert (K : n * 10 ^ (ea - E) * P <= m * 10 ^ (eb - E) * (P - 1)).
  { destruct (Z.le_ge_cases eb ea) as [Hc|Hc].
    - replace (eb - E) with 0 in * by (unfold E; lia).
      simpl (10 ^ 0) in *. nia.
    - replace (ea - E) with 0 in * by (unfold E; lia).
      simpl (10 ^ 0) in *. nia. }
  assert (HscU : sc e below_one = U).
  { unfold sc, below_one, U, W. simpl coef. simpl expo. fold P.
    do 2 f_equal. lia. }
  assert (Hsc1 : sc e dec1 = P * W).
  { unfold sc, dec1, W, P. simpl coef. simpl expo. rewrite Z.mul_1_l.
    rewrite <- Z.pow_add_r by (unfold prec in *; lia). f_equal. lia. }
  (* the quotient before rounding is at most U on the grid 10^e *)
  assert (Hpre : forall d, fix_ d = Ok r -> e <= expo d -> 0 <= sc e d <= U ->
                   dec_ltb r dec1 = true).
  { intros d Hfix Hed [Hd0 HdU].
    destruct (Z.eq_dec (coef d) 0) as [Hdz|Hdnz].
    { rewrite fix_zero in Hfix by assumption. injection Hfix as <-. now apply Hzero. }
    pose proof (fix_expo_ge d r Hfix Hdnz) as Her.
    assert (Hcd : 0 <= coef d).
    { unfold sc in Hd0. pose proof (pow10_pos (expo d - e) ltac:(lia)). nia. }
    pose proof (fix_upper e d r below_one Hfix below_one_fixed Hcd Hed
                  ltac:(unfold below_one; simpl; unfold prec in *; lia)
                  ltac:(rewrite HscU; exact HdU)) as Hup.
    rewrite (dec_ltb_sc e) by (simpl; unfold prec in *; lia).
    apply Z.ltb_lt. rewrite Hsc1. rewrite HscU in Hup. unfold U in Hup. nia. }
  destruct (Z.leb_spec 0 shift) as [Hs|Hs].
  - set (S := 10 ^ shift) in *.
    assert (HS : 0 < S) by (apply pow10_pos; lia).
    assert (HnS : n * S <= m * U).
    { destruct (Z.le_ge_cases eb ea) as [Hc|Hc].
      - replace (eb - E) with 0 in * by (unfold E; lia).
        replace (ea - E) with (ea - eb) in * by (unfold E; lia).
        simpl (10 ^ 0) in *.
        assert (S = 10 ^ (ea - eb) * P * W) as ->.
        { unfold S, P, W. rewrite <- !Z.pow_add_r by (unfold prec in *; lia).
          f_equal. unfold e in *. lia. }
        unfold U. nia.
      - replace (ea - E) with 0 in * by (unfold E; lia).
        replace (eb - E) with (eb - ea) in * by (unfold E; lia).
        simpl (10 ^ 0) in *.
        assert (S * 10 ^ (eb - ea) = P * W) as HSY.
        { unfold S, P, W. rewrite <- !Z.pow_add_r by (unfold prec in *; lia).
          f_equal. unfold e in *. lia. }
        unfold U.
        assert (n * S * 10 ^ (eb - ea) <= m * ((P - 1) * W) * 10 ^ (eb - ea)) by nia.
        nia. }
    destruct (Z.eqb_spec ((n * S) mod m) 0) as [Hrem|Hrem].
    + destruct (strip_zeros _ _ _ _) as [q' e'] eqn:Hsz.
      apply strip_zeros_spec in Hsz as [He' Hq'].
      apply (Hpre _ Hdiv); simpl; [lia|].
      unfold sc. simpl. rewrite Z.mul_1_l, <- Hq'.
      split; [apply Z.div_pos; nia|]. apply Z.div_le_upper_bound; lia.
    + apply (Hpre _ Hdiv); simpl; [lia|].
      unfold sc. simpl. rewrite Z.sub_diag, Z.pow_0_r, Z.mul_1_l, Z.mul_1_r.
      assert (0 <= n * S / m) by (apply Z.div_pos; nia).
      split; [destruct (_ =? 0); lia|].
      apply (quotient_le (n * S) m U (n * S / m) (n * S / m mod 5 =? 0));
        try lia; try reflexivity; try nia.
  - set (S := 10 ^ (- shift)) in *.
    assert (HS : 0 < S) by (apply pow10_pos; lia).
    assert (Hc : ea < eb) by (unfold e, prec in *; lia).
    replace (ea - E) with 0 in * by (unfold E; lia).
    replace (eb - E) with (eb - ea) in * by (unfold E; lia).
    simpl (10 ^ 0) in *.
    assert (10 ^ (eb - ea) = P * W * S) as HSY.
    { unfold S, P, W. rewrite <- !Z.pow_add_r by (unfold prec in *; lia).
      f_equal. unfold e in *. lia. }
    assert (HnS : n <= m * S * U).
    { unfold U. rewrite HSY in K. nia. }
    destruct (Z.eqb_spec (n mod (m * S)) 0) as [Hrem|Hrem].
    + destruct (strip_zeros _ _ _ _) as [q' e'] eqn:Hsz.
      apply strip_zeros_spec in Hsz as [He' Hq'].
      apply (Hpre _ Hdiv); simpl; [lia|].
      unfold sc. simpl. rewrite Z.mul_1_l, <- Hq'.
      split; [apply Z.div_pos; nia|]. apply Z.div_le_upper_bound; nia.
    + apply (Hpre _ Hdiv); simpl; [lia|].
      unfold sc. simpl. rewrite Z.sub_diag, Z.pow_0_r, Z.mul_1_l, Z.mul_1_r.
      assert (0 <= n / (m * S)) by (apply Z.div_pos; nia).
      split; [destruct (_ =? 0); lia|].
      apply (quotient_le n (m * S) U (n / (m * S)) (n / (m * S) mod 5 =? 0));
        try lia; try reflexivity; try nia.
Qed.


(** ** Rounding half-up to a given exponent *)

(** [rescale] half-up picks the multiple of [10^e] nearest to the number,
    the upper one on a tie. *)
Lemma rescale_half_up_spec (e0 e : Z) (x : Decimal) :
  0 <= coef x -> e0 <= expo x -> e0 <= e ->
  let c := coef (rescale x e ROUND_HALF_UP) in
  (2 * c - 1) * 10 ^ (e - e0) <= 2 * sc e0 x < (2 * c + 1) * 10 ^ (e - e0).
Proof.
  intros Hx He0 He c. subst c.
  pose proof (pow10_pos (e - e0) ltac:(lia)) as HG.
  unfold rescale, sc.
  destruct (Z.eqb_spec (coef x) 0) as [Hz|Hnz].
  { rewrite Hz. simpl. lia. }
  destruct (Z.leb_spec e (expo x)) as [Hle|Hgt]; simpl.
  - rewrite (pow10_split (e - e0) (expo x - e0)) by lia.
    replace (expo x - e0 - (e - e0)) with (expo x - e) by lia.
    set (G := 10 ^ (e - e0)) in *.
    set (c := coef x * 10 ^ (expo x - e)). nia.
  - assert (Z.sgn (coef x) = 1) as -> by (apply Z.sgn_pos; lia).
    rewrite Z.mul_1_l, Z.abs_eq by lia.
    set (m := coef x) in *. set (p := 10 ^ (e - expo x)).
    assert (Hp : 0 < p) by (apply pow10_pos; lia).
    pose proof (pow10_pos (expo x - e0) ltac:(lia)) as HH.
    rewrite (pow10_split (expo x - e0) (e - e0)) by lia.
    replace (e - e0 - (expo x - e0)) with (e - expo x) by lia. fold p.
    set (H := 10 ^ (expo x - e0)) in *.
    pose proof (Z.div_mod m p ltac:(lia)) as Hdm.
    pose proof (Z.mod_pos_bound m p Hp) as Hmod.
    destruct (Z.leb_spec p (2 * (m mod p))) as [Hup|Hdown].
    + split.
      * replace ((2 * (m / p + 1) - 1) * (p * H)) with (((2 * (m / p) + 1) * p) * H)
          by ring.
        replace (2 * (m * H)) with ((2 * m) * H) by ring.
        apply Z.mul_le_mono_nonneg_r; lia.
      * replace ((2 * (m / p + 1) + 1) * (p * H)) with (((2 * (m / p) + 3) * p) * H)
          by ring.
        replace (2 * (m * H)) with ((2 * m) * H) by ring.
        apply Z.mul_lt_mono_pos_r; lia.
    + split.
      * replace ((2 * (m / p) - 1) * (p * H)) with (((2 * (m / p) - 1) * p) * H) by ring.
        replace (2 * (m * H)) with ((2 * m) * H) by ring.
        apply Z.mul_le_mono_nonneg_r; lia.
      * replace ((2 * (m / p) + 1) * (p * H)) with (((2 * (m / p) + 1) * p) * H) by ring.
        replace (2 * (m * H)) with ((2 * m) * H) by ring.
        apply Z.mul_lt_mono_pos_r; lia.
Qed.

Lemma dec_leb_sc (e0 : Z) (a b : Decimal) :
  e0 <= expo a -> e0 <= expo b -> dec_leb a b = (sc e0 a <=? sc e0 b).
Proof.
  intros Ha Hb. unfold dec_leb. rewrite (dec_ltb_sc e0) by assumption.
  destruct (Z.ltb_spec (sc e0 b) (sc e0 a)); destruct (Z.leb_spec (sc e0 a) (sc e0 b));
    try reflexivity; lia.
Qed.

(** Rounding half-up to a given exponent is monotone. *)
Lemma rescale_mono (e : Z) (x y : Decimal) :
  0 <= coef x -> dec_leb x y = true ->
  coef (rescale x e ROUND_HALF_UP) <= coef (rescale y e ROUND_HALF_UP).
Proof.
  intros Hx Hle.
  set (e0 := Z.min e (Z.min (expo x) (expo y))).
  rewrite (dec_leb_sc e0) in Hle by (unfold e0; lia). apply Z.leb_le in Hle.
  pose proof (pow10_pos (e - e0) ltac:(unfold e0; lia)) as HG.
  assert (Hy : 0 <= coef y).
  { unfold sc in Hle.
    pose proof (pow10_pos (expo x - e0) ltac:(unfold e0; lia)).
    pose proof (pow10_pos (expo y - e0) ltac:(unfold e0; lia)). nia. }
  pose proof (rescale_half_up_spec e0 e x Hx ltac:(unfold e0; lia) ltac:(unfold e0; lia))
    as [Hx1 _].
  pose proof (rescale_half_up_spec e0 e y Hy ltac:(unfold e0; lia) ltac:(unfold e0; lia))
    as [_ Hy2].
  set (cx := coef (rescale x e ROUND_HALF_UP)) in *.
  set (cy := coef (rescale y e ROUND_HALF_UP)) in *.
  set (G := 10 ^ (e - e0)) in *.
  assert ((2 * cx - 1) * G < (2 * cy + 1) * G) by lia.
  assert (2 * cx - 1 < 2 * cy + 1) by nia. lia.
Qed.

(** Multiplying a number that fits the context by a factor in [0, 1)
    does not increase it, rounding included. *)
Lemma mul_le (p s r : Decimal) :
  fixed p -> 0 <= coef p -> 0 <= coef s -> dec_ltb s dec1 = true ->
  mul p s = Ok r -> dec_leb r p = true.
Proof.
  intros Fp Hp Hs Hs1 Hmul. unfold mul in Hmul.
  rewrite (dec_ltb_sc (Z.min (expo s) 0)) in Hs1 by (simpl; lia).
  apply Z.ltb_lt in Hs1. unfold sc in Hs1. simpl in Hs1. rewrite Z.mul_1_l in Hs1.
  pose proof (pow10_pos (expo s - Z.min (expo s) 0) ltac:(lia)) as H1.
  destruct (Z.eq_dec (coef p * coef s) 0) as [Hz|Hnz].
  { rewrite fix_zero in Hmul by assumption. injection Hmul as <-.
    rewrite (dec_leb_sc (Z.min (expo p) (Z.min (Z.max (expo p + expo s) Etiny) Emax)))
      by (simpl; lia).
    apply Z.leb_le. unfold sc. simpl.
    pose proof (pow10_pos (expo p - Z.min (expo p)
                  (Z.min (Z.max (expo p + expo s) Etiny) Emax)) ltac:(lia)). nia. }
  assert (Hes : expo s < 0).
  { destruct (Z.lt_ge_cases (expo s) 0) as [|Hge]; [assumption|].
    replace (Z.min (expo s) 0) with 0 in Hs1 by lia.
    rewrite Z.sub_0_r in Hs1. simpl in Hs1.
    pose proof (pow10_pos (expo s) Hge). nia. }
  replace (Z.min (expo s) 0) with (expo s) in Hs1 by lia.
  rewrite Z.sub_diag, Z.mul_1_r in Hs1. simpl in Hs1.
  set (e0 := expo p + expo s).
  pose proof (fix_expo_ge _ _ Hmul Hnz) as Her. simpl in Her.
  assert (Hup : sc e0 r <= sc e0 p).
  { apply (fix_upper e0 _ r p Hmul Fp); simpl; try (unfold e0; lia).
    unfold sc. simpl. unfold e0. rewrite Z.sub_diag, Z.mul_1_r.
    replace (expo p - (expo p + expo s)) with (0 - expo s) by lia. nia. }
  rewrite (dec_leb_sc e0) by (unfold e0; lia). now apply Z.leb_le.
Qed.


(** ** Zeros and exact results *)

Lemma same_value_sc (e0 : Z) (a b : Decimal) :
  e0 <= expo a -> e0 <= expo b -> (same_value a b <-> sc e0 a = sc e0 b).
Proof.
  intros Ha Hb. unfold same_value. set (e := Z.min (expo a) (expo b)).
  rewrite (sc_shift e0 e a), (sc_shift e0 e b) by (unfold e; lia).
  pose proof (pow10_pos (e - e0) ltac:(unfold e; lia)). split; intros H'; nia.
Qed.

Lemma same_value_refl (a : Decimal) : same_value a a.
Proof. reflexivity. Qed.

Lemma zero_dec_fixed (z : Decimal) : zero_dec z -> fixed z.
Proof.
  intros (Hz & He). unfold fixed, adjusted. rewrite Hz, ndigits_0. simpl.
  split; [apply pow10_pos; unfold prec; lia|lia].
Qed.

Lemma fix_zero_dec (d : Decimal) : coef d = 0 -> exists z, fix_ d = Ok z /\ zero_dec z.
Proof.
  intros H. rewrite (fix_zero d H). eexists. split; [reflexivity|].
  unfold zero_dec, Etiny, Emax, Emin, prec. simpl. lia.
Qed.

Lemma mul_zero_l (a b : Decimal) : coef a = 0 -> exists z, mul a b = Ok z /\ zero_dec z.
Proof. intros H. apply fix_zero_dec. simpl. rewrite H. lia. Qed.

Lemma mul_zero_r (a b : Decimal) : coef b = 0 -> exists z, mul a b = Ok z /\ zero_dec z.
Proof. intros H. apply fix_zero_dec. simpl. rewrite H. lia. Qed.

Lemma div_zero_l (a b : Decimal) :
  coef a = 0 -> coef b <> 0 -> exists z, div a b = Ok z /\ zero_dec z.
Proof.
  intros Ha Hb. unfold div.
  destruct (Z.eqb_spec (coef b) 0); [contradiction|].
  destruct (Z.eqb_spec (coef a) 0); [|contradiction].
  now apply fix_zero_dec.
Qed.

Lemma add_zero_zero (a b : Decimal) :
  coef a = 0 -> coef b = 0 -> exists z, add a b = Ok z /\ zero_dec z.
Proof. intros Ha Hb. apply fix_zero_dec. simpl. rewrite Ha, Hb. lia. Qed.

Lemma _quantize_zero (a : Decimal) : coef a = 0 -> _quantize a = Ok (mkDec 0 (-2)).
Proof.
  intros H. unfold _quantize, quantize. simpl. rewrite H. simpl.
  rewrite fix_zero by reflexivity. reflexivity.
Qed.

Lemma ndigits_mul_pow (x k : Z) : x <> 0 -> 0 <= k -> ndigits (x * 10 ^ k) = ndigits x + k.
Proof.
  intros Hx Hk. pose proof (ndigits_spec x Hx) as [Hlo Hhi].
  pose proof (ndigits_ge1 x). pose proof (pow10_pos k Hk) as Hp.
  apply ndigits_unique; [lia|].
  rewrite Z.abs_mul, (Z.abs_eq (10 ^ k)) by lia.
  replace (ndigits x + k - 1) with ((ndigits x - 1) + k) by lia.
  rewrite !Z.pow_add_r by lia. nia.
Qed.

Lemma same_value_coef0 (a b : Decimal) : same_value a b -> (coef a = 0 <-> coef b = 0).
Proof.
  unfold same_value, sc. intros H.
  pose proof (pow10_pos (expo a - Z.min (expo a) (expo b)) ltac:(lia)).
  pose proof (pow10_pos (expo b - Z.min (expo a) (expo b)) ltac:(lia)).
  split; intros Hz; rewrite Hz in H; nia.
Qed.

(** Equal numbers have their leading digit at the same place. *)
Lemma same_value_adjusted (a b : Decimal) :
  same_value a b -> coef a <> 0 ->
  ndigits (coef a) + expo a = ndigits (coef b) + expo b.
Proof.
  intros H Ha.
  assert (Hb : coef b <> 0) by (rewrite <- (same_value_coef0 a b H); exact Ha).
  unfold same_value, sc in H. set (e := Z.min (expo a) (expo b)) in *.
  pose proof (ndigits_mul_pow (coef a) (expo a - e) Ha ltac:(unfold e; lia)) as H1.
  pose proof (ndigits_mul_pow (coef b) (expo b - e) Hb ltac:(unfold e; lia)) as H2.
  rewrite H in H1. lia.
Qed.

(** [_fix] returns a number that fits the context unchanged in value,
    whatever exponent it is written with. *)
Lemma fix_exact (d t : Decimal) :
  fixed t -> same_value d t ->
  exists r, fix_ d = Ok r /\ fixed r /\ same_value r t.
Proof.
  intros Ft Hsv. destruct (Z.eq_dec (coef d) 0) as [Hz|Hnz].
  { destruct (fix_zero_dec d Hz) as (z & Hfix & Hzd). exists z.
    split; [exact Hfix|]. split; [now apply zero_dec_fixed|].
    assert (Htz : coef t = 0) by (now apply (same_value_coef0 d t Hsv)).
    unfold same_value, sc. destruct Hzd as [-> _]. rewrite Htz. lia. }
  assert (Htnz : coef t <> 0) by (rewrite <- (same_value_coef0 d t Hsv); exact Hnz).
  pose proof (same_value_adjusted d t Hsv Hnz) as Hadj.
  destruct Ft as (Fc & Fe & Fa). unfold adjusted in Fa.
  assert (Hndt : ndigits (coef t) <= prec)
    by (apply ndigits_lt_pow; [unfold prec; lia|exact Fc]).
  unfold fix_. destruct (Z.eqb_spec (Z.abs (coef d)) 0) as [|_]; [lia|].
  rewrite ndigits_abs.
  destruct (Z.ltb_spec Etop (ndigits (coef d) + expo d - prec)) as [Hov|_].
  { unfold Etop in Hov. lia. }
  set (g := Z.max (ndigits (coef d) + expo d - prec) Etiny).
  assert (Hgt : g <= expo t) by (unfold g; lia).
  destruct (Z.ltb_spec (expo d) g) as [Hlt|Hge].
  - set (p := 10 ^ (g - expo d)).
    assert (Hp : 0 < p) by (apply pow10_pos; lia).
    assert (Hm : coef d = (coef t * 10 ^ (expo t - g)) * p).
    { apply (same_value_sc (expo d)) in Hsv; [|lia|lia]. unfold sc in Hsv.
      rewrite Z.sub_diag, Z.pow_0_r, Z.mul_1_r in Hsv. rewrite Hsv. unfold p.
      rewrite <- Z.mul_assoc, <- Z.pow_add_r by lia. do 2 f_equal. lia. }
    set (u := coef t * 10 ^ (expo t - g)) in *.
    assert (Habs : Z.abs (coef d) = Z.abs u * p).
    { rewrite Hm, Z.abs_mul, (Z.abs_eq p) by lia. reflexivity. }
    assert (Hmod : Z.abs (coef d) mod p = 0) by (rewrite Habs; apply Z.mod_mul; lia).
    assert (Hdiv : Z.abs (coef d) / p = Z.abs u) by (rewrite Habs; apply Z.div_mul; lia).
    assert (Hru : round_up ROUND_HALF_EVEN (Z.abs (coef d)) p = false).
    { unfold round_up. rewrite Hmod. change (2 * 0) with 0.
      destruct (Z.ltb_spec p 0); [lia|]. destruct (Z.eqb_spec p 0); [lia|]. reflexivity. }
    rewrite Hru, Hdiv.
    assert (Hsu : Z.sgn (coef d) * Z.abs u = u).
    { rewrite Hm. rewrite Z.sgn_mul, (Z.sgn_pos p Hp), Z.mul_1_r. apply sgn_mul_abs. }
    rewrite Hsu. eexists. split; [reflexivity|].
    split.
    + unfold fixed, adjusted. simpl.
      assert (ndigits u = ndigits (coef t) + (expo t - g))
        by (apply ndigits_mul_pow; [assumption|lia]).
      split; [|unfold g in *; lia].
      apply ndigits_le_iff; [unfold prec; lia|]. unfold g in *. lia.
    + apply (same_value_sc g); simpl; [lia|lia|].
      unfold sc. simpl. rewrite Z.sub_diag, Z.pow_0_r, Z.mul_1_r. reflexivity.
  - exists d. split; [reflexivity|]. split; [|exact Hsv].
    unfold fixed, adjusted. split; [|unfold g in *; lia].
    apply ndigits_le_iff; [unfold prec; lia|]. unfold g in *. lia.
Qed.

Lemma zero_dec_neg (z : Decimal) : zero_dec z -> zero_dec (neg z).
Proof. intros (Hz & He). unfold zero_dec, neg. simpl. rewrite Hz. simpl. lia. Qed.

(** Adding a zero changes nothing but the way the number is written. *)
Lemma add_zero_l_exact (z c : Decimal) :
  coef z = 0 -> fixed c -> exists r, add z c = Ok r /\ fixed r /\ same_value r c.
Proof.
  intros Hz Fc. unfold add. apply fix_exact; [exact Fc|].
  apply (same_value_sc (Z.min (expo z) (expo c))); simpl; [lia|lia|].
  unfold sc. simpl. rewrite Hz, Z.sub_diag, Z.pow_0_r. lia.
Qed.

Lemma add_zero_r_exact (c z : Decimal) :
  coef z = 0 -> fixed c -> exists r, add c z = Ok r /\ fixed r /\ same_value r c.
Proof.
  intros Hz Fc. unfold add. apply fix_exact; [exact Fc|].
  apply (same_value_sc (Z.min (expo c) (expo z))); simpl; [lia|lia|].
  unfold sc. simpl. rewrite Hz, Z.sub_diag, Z.pow_0_r. lia.
Qed.

Lemma sub_zero_r_exact (c z : Decimal) :
  coef z = 0 -> fixed c -> exists r, sub c z = Ok r /\ fixed r /\ same_value r c.
Proof. intros Hz Fc. apply add_zero_r_exact; [simpl; lia|exact Fc]. Qed.

Lemma same_value_trans_fixed (a b c : Decimal) :
  same_value a b -> same_value b c -> same_value a c.
Proof.
  intros H1 H2. set (e0 := Z.min (expo a) (Z.min (expo b) (expo c))).
  apply (same_value_sc e0) in H1; [|unfold e0; lia..].
  apply (same_value_sc e0) in H2; [|unfold e0; lia..].
  apply (same_value_sc e0); [unfold e0; lia..|]. congruence.
Qed.

(** A number that has two places already is what [_quantize] returns. *)
Lemma _quantize_exact (x c : Decimal) :
  same_value x c -> expo c = -2 -> fixed c -> _quantize x = Ok c.
Proof.
  intros Hsv He Fc. unfold _quantize, quantize, TWOPLACES_exp.
  replace ((Etiny <=? -2) && (-2 <=? Emax)) with true by reflexivity. simpl negb.
  cbv iota.
  destruct (Z.eqb_spec (coef x) 0) as [Hz|Hnz].
  { rewrite fix_zero by reflexivity. simpl.
    assert (coef c = 0) as Hc0 by (now apply (same_value_coef0 x c Hsv)).
    rewrite (decimal_eta c), He, Hc0. reflexivity. }
  pose proof (same_value_adjusted x c Hsv Hnz) as Hadj.
  pose proof Fc as (Fcc & Fe & Fa). unfold adjusted in Fa.
  assert (Hndc : ndigits (coef c) <= prec)
    by (apply ndigits_lt_pow; [unfold prec; lia|exact Fcc]).
  unfold adjusted at 1.
  destruct (Z.ltb_spec Emax (expo x + ndigits (coef x) - 1)) as [Hbad|_];
    [unfold Emax, prec in *; lia|].
  unfold adjusted at 1.
  destruct (Z.ltb_spec prec (expo x + ndigits (coef x) - 1 - -2 + 1)) as [Hbad|_];
    [lia|].
  assert (Hres : rescale x (-2) ROUND_HALF_UP = c).
  { unfold rescale. destruct (Z.eqb_spec (coef x) 0) as [|_]; [contradiction|].
    destruct (Z.leb_spec (-2) (expo x)) as [Hle|Hgt].
    - apply (same_value_sc (-2)) in Hsv; [|lia|lia]. unfold sc in Hsv.
      rewrite He, Z.sub_diag, Z.pow_0_r, Z.mul_1_r in Hsv.
      rewrite (decimal_eta c), He. f_equal. exact Hsv.
    - apply (same_value_sc (expo x)) in Hsv; [|lia|lia]. unfold sc in Hsv.
      rewrite Z.sub_diag, Z.pow_0_r, Z.mul_1_r, He in Hsv.
      set (p := 10 ^ (-2 - expo x)) in *.
      assert (Hp : 0 < p) by (apply pow10_pos; lia).
      assert (Habs : Z.abs (coef x) = Z.abs (coef c) * p).
      { rewrite Hsv, Z.abs_mul, (Z.abs_eq p) by lia. reflexivity. }
      assert (Hmod : Z.abs (coef x) mod p = 0) by (rewrite Habs; apply Z.mod_mul; lia).
      assert (Hdiv : Z.abs (coef x) / p = Z.abs (coef c))
        by (rewrite Habs; apply Z.div_mul; lia).
      unfold round_up. rewrite Hmod, Hdiv.
      change (2 * 0) with 0. destruct (Z.leb_spec p 0); [lia|].
      assert (Z.sgn (coef x) * Z.abs (coef c) = coef c).
      { rewrite Hsv, Z.sgn_mul, (Z.sgn_pos p Hp), Z.mul_1_r. apply sgn_mul_abs. }
      rewrite (decimal_eta c), He. f_equal. assumption. }
  rewrite Hres.
  destruct (Z.ltb_spec Emax (adjusted c)) as [Hbad|_]; [unfold adjusted in Hbad; lia|].
  destruct (Z.ltb_spec prec (ndigits (coef c))) as [Hbad|_]; [lia|].
  now apply fix_id.
Qed.


(** ** Sums of bounded terms do not overflow *)

Lemma fix_ok_small (d : Decimal) :
  ndigits (coef d) + expo d - prec < Etop -> exists r, fix_ d = Ok r.
Proof.
  intros H. unfold fix_. destruct (Z.abs (coef d) =? 0); [eauto|].
  rewrite ndigits_abs.
  destruct (Z.ltb_spec Etop (ndigits (coef d) + expo d - prec)); [lia|].
  destruct (expo d <? _); [|eauto].
  destruct (round_up _ _ _); [|eauto].
  destruct (prec <? _); [|eauto].
  destruct (Z.ltb_spec Etop (Z.max (ndigits (coef d) + expo d - prec) Etiny + 1));
    [|eauto].
  unfold Etop, Etiny, Emax, Emin, prec in *. lia.
Qed.

Lemma big_fixed : fixed big.
Proof. repeat split; vm_compute; congruence. Qed.

(** A sum that is at most 1E+60 stays at most 1E+60 when a positive term
    of at most 1E+26 is added: the term is lost in the rounding once the
    sum is that large. *)
Lemma add_bounded (s x : Decimal) :
  fixed s -> 0 <= coef s -> dec_leb s big = true ->
  fixed x -> 0 < coef x -> dec_leb x lim = true ->
  exists s', add s x = Ok s' /\ fixed s' /\ 0 < coef s' /\ dec_leb s' big = true.
Proof.
  intros Fs Hs Hsb Fx Hx Hxl.
  assert (Hex : expo x <= 26).
  { rewrite (dec_leb_sc (Z.min (expo x) 26)) in Hxl by (simpl; lia).
    apply Z.leb_le in Hxl. unfold sc, lim in Hxl. simpl in Hxl.
    destruct (Z.le_gt_cases (expo x) 26) as [|Hgt]; [assumption|].
    replace (Z.min (expo x) 26) with 26 in Hxl by lia. simpl in Hxl.
    pose proof (pow10_lt 0 (expo x - 26) ltac:(lia)). simpl in *. nia. }
  set (e := Z.min (expo s) (expo x)).
  rewrite (dec_leb_sc e) in Hsb by (unfold e; simpl; lia).
  rewrite (dec_leb_sc e) in Hxl by (unfold e; simpl; lia).
  apply Z.leb_le in Hsb, Hxl.
  assert (Hb60 : sc e big = 10 ^ (60 - e)) by (unfold sc, big; simpl; lia).
  assert (Hb26 : sc e lim = 10 ^ (26 - e)) by (unfold sc, lim; simpl; lia).
  rewrite Hb60 in Hsb. rewrite Hb26 in Hxl.
  set (a := sc e s) in *. set (b := sc e x) in *.
  assert (Ha : 0 <= a).
  { unfold a, sc. pose proof (pow10_pos (expo s - e) ltac:(unfold e; lia)). nia. }
  assert (Hb : 0 < b).
  { unfold b, sc. pose proof (pow10_pos (expo x - e) ltac:(unfold e; lia)). nia. }
  assert (Hadd : add s x = fix_ (mkDec (a + b) e)) by reflexivity.
  set (d := mkDec (a + b) e) in *.
  assert (Hscd : sc e d = a + b).
  { unfold sc, d. simpl. rewrite Z.sub_diag, Z.pow_0_r. lia. }
  pose proof (pow10_pos (26 - e) ltac:(unfold e; lia)) as H26.
  assert (Hpows : 10 ^ (60 - e) = 10 ^ 34 * 10 ^ (26 - e)).
  { rewrite <- Z.pow_add_r by (unfold e; lia). f_equal. lia. }
  assert (Hpows' : 10 ^ (61 - e) = 10 ^ 35 * 10 ^ (26 - e)).
  { rewrite <- Z.pow_add_r by (unfold e; lia). f_equal. lia. }
  assert (Hpows'' : 10 ^ (33 - e) = 10 ^ 7 * 10 ^ (26 - e)).
  { rewrite <- Z.pow_add_r by (unfold e; lia). f_equal. lia. }
  assert (HM : a + b < 10 ^ (61 - e)).
  { rewrite Hpows'. rewrite Hpows in Hsb.
    change (10 ^ 35) with 100000000000000000000000000000000000.
    change (10 ^ 34) with 10000000000000000000000000000000000 in Hsb. lia. }
  assert (Hnd : ndigits (a + b) <= 61 - e).
  { apply ndigits_lt_pow; [unfold e; lia|]. rewrite Z.abs_eq by lia. exact HM. }
  destruct (fix_ok_small d) as [s' Hfix].
  { unfold d. simpl. unfold Etop, Emax, prec. lia. }
  exists s'. rewrite Hadd. split; [exact Hfix|]. split; [exact (fix_fixed _ _ Hfix)|].
  destruct (fix_lower e d s' x Hfix Fx ltac:(lia) ltac:(unfold d; simpl; lia)
              ltac:(unfold e; lia) ltac:(rewrite Hscd; fold b; lia)) as [Hes' Hlow].
  fold b in Hlow.
  assert (Hps : 0 < 10 ^ (expo s' - e)) by (apply pow10_pos; lia).
  split; [unfold sc in Hlow; nia|].
  rewrite (dec_leb_sc e) by (simpl; unfold e in *; lia). apply Z.leb_le. rewrite Hb60.
  destruct (Z.le_gt_cases (a + b) (10 ^ (60 - e))) as [Hle|Hgt].
  - rewrite <- Hb60. apply (fix_upper e d s' big Hfix big_fixed);
      [unfold d; simpl; lia|unfold d; simpl; lia|simpl; unfold e in *; lia|].
    rewrite Hscd, Hb60. exact Hle.
  - assert (Hnd' : ndigits (a + b) = 61 - e).
    { apply ndigits_unique; [unfold e; lia|]. rewrite Z.abs_eq by lia.
      replace (61 - e - 1) with (60 - e) by lia. lia. }
    destruct (fix_inv d s' Hfix ltac:(unfold d; simpl; lia))
      as [(Hge & _)|(Hlt & Hge & _ & c & Hc & Hcase)]; simpl in *.
    { rewrite Hnd' in Hge. unfold Etiny, Emin, prec in Hge. unfold e in *. lia. }
    rewrite Hnd' in *.
    replace (Z.max (61 - e + e - prec) Etiny) with 33 in *
      by (unfold Etiny, Emin, prec; lia).
    rewrite (Z.sgn_pos (a + b)), Z.mul_1_l in Hc by lia.
    rewrite !(Z.abs_eq (a + b)) in Hcase by lia.
    set (p := 10 ^ (33 - e)) in *.
    assert (Hp : 0 < p) by (apply pow10_pos; unfold e; lia).
    set (dl := a + b - 10 ^ (60 - e)).
    assert (Hdl : 0 < dl <= 10 ^ (26 - e)) by (unfold dl; lia).
    assert (H60p : 10 ^ (60 - e) = 10 ^ 27 * p).
    { unfold p. rewrite <- Z.pow_add_r by (unfold e; lia). f_equal. lia. }
    assert (Hdlp : 2 * dl < p).
    { change (10 ^ 7) with 10000000 in Hpows''. lia. }
    assert (Hq : (a + b) / p = 10 ^ 27).
    { symmetry. apply (Z.div_unique_pos (a + b) p (10 ^ 27) dl); [lia|].
      unfold dl. rewrite H60p. lia. }
    assert (Hr : (a + b) mod p = dl).
    { symmetry. apply (Z.mod_unique_pos (a + b) p (10 ^ 27) dl); [lia|].
      unfold dl. rewrite H60p. lia. }
    assert (Hru : round_up ROUND_HALF_EVEN (a + b) p = false).
    { unfold round_up. rewrite Hr.
      destruct (Z.ltb_spec p (2 * dl)); [lia|].
      destruct (Z.eqb_spec p (2 * dl)); [lia|]. reflexivity. }
    unfold round_up in Hru.
    destruct Hcase as [[-> _]|[_ Hbad]]; [|congruence].
    rewrite Hq in Hc.
    unfold sc. rewrite (pow10_split (33 - e) (expo s' - e)) by (unfold e in *; lia).
    replace (expo s' - e - (33 - e)) with (expo s' - 33) by lia.
    rewrite Z.mul_assoc, Hc. fold p. lia.
Qed.


(** ** Dictionaries *)

Lemma elem_of_map_2 {A B : Type} (f : A -> B) (l : list A) (x : A) :
  x ∈ l -> f x ∈ map f l.
Proof.
  induction l as [|a l IH]; intros H; [inversion H|].
  simpl. apply elem_of_cons in H as [->|H]; apply elem_of_cons; auto.
Qed.

Lemma dict_lookup_setitem (d : pydict) (k k' : string) (v : Decimal) :
  dict_lookup (dict_setitem d k v) k' =
  if String.eqb k' k then Some v else dict_lookup d k'.
Proof.
  induction d as [|[k0 v0] d IH]; simpl.
  - reflexivity.
  - destruct (String.eqb_spec k k0) as [->|Hne]; simpl.
    + destruct (String.eqb_spec k' k0); reflexivity.
    + rewrite IH. destruct (String.eqb_spec k' k0) as [->|_]; [|reflexivity].
      destruct (String.eqb_spec k0 k); [congruence|reflexivity].
Qed.

Lemma dict_getitem_ok (d : pydict) (k : string) (v : Decimal) :
  dict_getitem d k = Ok v <-> dict_lookup d k = Some v.
Proof. unfold dict_getitem. destruct (dict_lookup d k); split; congruence. Qed.

Lemma dict_getitem_exc (d : pydict) (k : string) (e : exc) :
  dict_getitem d k = Raise e -> dict_lookup d k = None.
Proof. unfold dict_getitem. destruct (dict_lookup d k); congruence. Qed.

(** ** The loops of [compute_distribution] *)

Section Loops.

Variable lower : string -> string.

Local Abbreviation key h := (lower (name h)).

Lemma rows_loop_spec (hs : list Shareholder) (ent adv carry rb : pydict)
    (scale : Decimal) (rows0 rows1 : list ResultRow) (tp0 tp1 : Decimal) :
  rows_loop lower hs ent adv carry rb scale rows0 tp0 = Ok (rows1, tp1) ->
  exists new,
    rows1 = rows0 ++ new /\
    Forall2 (row_of lower ent adv carry rb scale) hs new /\
    dec_sum tp0 (map paid new) = Ok tp1.
Proof.
  revert rows0 tp0. induction hs as [|h hs IH]; intros rows0 tp0 H; simpl in H.
  - injection H as <- <-. exists []. rewrite app_nil_r. repeat split; constructor.
  - inv_bind H. rename x into hak. inv_bind H. rename x into raw.
    inv_bind H. rename x into pay. inv_bind H. rename x into nc.
    inv_bind H. rename x into tp. inv_bind H. rename x into qh.
    inv_bind H. rename x into qa. inv_bind H. rename x into qp.
    inv_bind H. rename x into qc.
    destruct (IH _ _ H) as (new & -> & HF & Hsum).
    exists (mkResultRow (name h) (percent h) qh qa qp pay qc :: new).
    split; [now rewrite <- app_assoc|]. split.
    + constructor; [|exact HF]. exists hak, raw, nc. simpl. repeat split; assumption.
    + simpl. rewrite E3. simpl. exact Hsum.
Qed.

Lemma entitlements_loop_keys (hs : list Shareholder) (dist : Decimal) (e0 e1 : pydict) :
  entitlements_loop lower hs dist e0 = Ok e1 ->
  forall k, is_Some (dict_lookup e0 k) \/ k ∈ map (fun h => key h) hs ->
            is_Some (dict_lookup e1 k).
Proof.
  revert e0. induction hs as [|h hs IH]; intros e0 H k Hk; simpl in H.
  - injection H as <-. destruct Hk as [Hk|Hk]; [assumption|]. inversion Hk.
  - inv_bind H. apply (IH _ H). rewrite dict_lookup_setitem.
    destruct (String.eqb_spec k (key h)) as [->|Hne]; [left; eauto|].
    destruct Hk as [Hk|Hk]; [left; assumption|].
    simpl in Hk. apply elem_of_cons in Hk as [Hk|Hk]; [congruence|right; assumption].
Qed.

Lemma entitlements_loop_frame (hs : list Shareholder) (dist : Decimal) (e0 e1 : pydict) :
  entitlements_loop lower hs dist e0 = Ok e1 ->
  forall k, k ∉ map (fun h => key h) hs -> dict_lookup e1 k = dict_lookup e0 k.
Proof.
  revert e0. induction hs as [|h hs IH]; intros e0 H k Hk; simpl in H.
  - now injection H as <-.
  - inv_bind H. simpl in Hk. apply not_elem_of_cons in Hk as [Hne Hk].
    rewrite (IH _ H k Hk), dict_lookup_setitem.
    destruct (String.eqb_spec k (key h)); [congruence|reflexivity].
Qed.

(** With names that stay distinct when lower-cased, every shareholder
    finds his own entitlement under his key. *)
Lemma entitlements_loop_own (hs : list Shareholder) (dist : Decimal) (e0 e1 : pydict) :
  NoDup (map (fun h => key h) hs) ->
  entitlements_loop lower hs dist e0 = Ok e1 ->
  forall h, h ∈ hs ->
    exists v, entitlement_of dist h = Ok v /\ dict_lookup e1 (key h) = Some v.
Proof.
  revert e0. induction hs as [|h0 hs IH]; intros e0 Hnd H h Hh; simpl in H.
  - inversion Hh.
  - inv_bind H. simpl in Hnd. apply NoDup_cons in Hnd as [Hnotin Hnd].
    apply elem_of_cons in Hh as [->|Hh].
    + exists x. split; [assumption|].
      rewrite (entitlements_loop_frame _ _ _ _ H _ Hnotin), dict_lookup_setitem.
      now rewrite String.eqb_refl.
    + exact (IH _ Hnd H h Hh).
Qed.

Lemma raw_loop_keys (hs : list Shareholder) (ent adv carry rb0 rb1 : pydict)
    (tp0 tp1 : Decimal) :
  raw_loop lower hs ent adv carry rb0 tp0 = Ok (rb1, tp1) ->
  forall k, is_Some (dict_lookup rb0 k) \/ k ∈ map (fun h => key h) hs ->
            is_Some (dict_lookup rb1 k).
Proof.
  revert rb0 tp0. induction hs as [|h hs IH]; intros rb0 tp0 H k Hk; simpl in H.
  - injection H as <- <-. destruct Hk as [Hk|Hk]; [assumption|]. inversion Hk.
  - inv_bind H. inv_bind H. inv_bind H.
    apply (IH _ _ H). rewrite dict_lookup_setitem.
    destruct (String.eqb_spec k (key h)) as [->|Hne]; [left; eauto|].
    destruct Hk as [Hk|Hk]; [left; assumption|].
    simpl in Hk. apply elem_of_cons in Hk as [Hk|Hk]; [congruence|right; assumption].
Qed.

Lemma raw_loop_frame (hs : list Shareholder) (ent adv carry rb0 rb1 : pydict)
    (tp0 tp1 : Decimal) :
  raw_loop lower hs ent adv carry rb0 tp0 = Ok (rb1, tp1) ->
  forall k, k ∉ map (fun h => key h) hs -> dict_lookup rb1 k = dict_lookup rb0 k.
Proof.
  revert rb0 tp0. induction hs as [|h hs IH]; intros rb0 tp0 H k Hk; simpl in H.
  - now injection H as <- <-.
  - inv_bind H. inv_bind H. inv_bind H.
    simpl in Hk. apply not_elem_of_cons in Hk as [Hne Hk].
    rewrite (IH _ _ H k Hk), dict_lookup_setitem.
    destruct (String.eqb_spec k (key h)); [congruence|reflexivity].
Qed.

Lemma raw_loop_own (hs : list Shareholder) (ent adv carry rb0 rb1 : pydict)
    (tp0 tp1 : Decimal) :
  NoDup (map (fun h => key h) hs) ->
  raw_loop lower hs ent adv carry rb0 tp0 = Ok (rb1, tp1) ->
  forall h, h ∈ hs ->
    exists hak raw,
      dict_getitem ent (key h) = Ok hak /\
      raw_of lower hak adv carry h = Ok raw /\
      dict_lookup rb1 (key h) = Some raw.
Proof.
  revert rb0 tp0. induction hs as [|h0 hs IH]; intros rb0 tp0 Hnd H h Hh; simpl in H.
  - inversion Hh.
  - inv_bind H. inv_bind H. inv_bind H.
    simpl in Hnd. apply NoDup_cons in Hnd as [Hnotin Hnd].
    apply elem_of_cons in Hh as [->|Hh].
    + exists x, x0. split; [assumption|]. split; [assumption|].
      rewrite (raw_loop_frame _ _ _ _ _ _ _ _ H _ Hnotin), dict_lookup_setitem.
      now rewrite String.eqb_refl.
    + exact (IH _ _ Hnd H h Hh).
Qed.

End Loops.

(** ** The settlement *)

Section Settlement.

Variable lower : string -> string.

Local Abbreviation key h := (lower (name h)).

Lemma compute_balances_inv (hs : list Shareholder) (total keep : Decimal)
    (adv carry : pydict) (b : Balances) :
  compute_balances lower hs total keep adv carry = Ok b ->
  validate_shareholders hs = Ok tt /\
  dec_ltb keep dec0 = false /\
  sub total keep = Ok (b_distributable b) /\
  dec_ltb (b_distributable b) dec0 = false /\
  entitlements_loop lower hs (b_distributable b) [] = Ok (b_entitlements b) /\
  raw_loop lower hs (b_entitlements b) adv carry [] dec0
    = Ok (b_raw_balances b, b_total_positive b) /\
  compute_scale (b_distributable b) (b_total_positive b) = Ok (b_scale b).
Proof.
  unfold compute_balances. intros H.
  inv_bind H. destruct x.
  destruct (dec_ltb keep dec0) eqn:Hk; [discriminate|].
  inv_bind H. rename x into dist.
  destruct (dec_ltb dist dec0) eqn:Hd; [discriminate|].
  inv_bind H. rename x into ent. inv_bind H. destruct x as [rb tp].
  inv_bind H. injection H as <-. simpl. auto 10.
Qed.

Lemma compute_distribution_inv (m : string) (hs : list Shareholder)
    (total keep : Decimal) (adv carry : pydict) (r : DistributionResult) :
  compute_distribution lower m hs total keep adv carry = Ok r ->
  exists b,
    compute_balances lower hs total keep adv carry = Ok b /\
    compute_rows lower m hs adv carry b = Ok r.
Proof. unfold compute_distribution. intros H. inv_bind H. eauto. Qed.

Lemma compute_rows_inv (m : string) (hs : list Shareholder)
    (adv carry : pydict) (b : Balances) (r : DistributionResult) :
  compute_rows lower m hs adv carry b = Ok r ->
  exists tp s,
    Forall2 (row_of lower (b_entitlements b) adv carry (b_raw_balances b) (b_scale b))
      hs (rows r) /\
    dec_sum dec0 (map paid (rows r)) = Ok tp /\
    dec_sum dec0 (dict_values (b_entitlements b)) = Ok s /\
    _quantize s = Ok (total_entitlement r) /\
    _quantize tp = Ok (total_paid r) /\
    _quantize (b_distributable b) = Ok (distributable r) /\
    month r = m.
Proof.
  unfold compute_rows. intros H.
  inv_bind H. destruct x as [rs tp]. inv_bind H. inv_bind H. inv_bind H. inv_bind H.
  injection H as <-. simpl.
  apply rows_loop_spec in E as (new & -> & HF & Hsum). simpl.
  exists tp, x. auto 10.
Qed.

Lemma scale_nonneg (b : Balances) (hs : list Shareholder) (total keep : Decimal)
    (adv carry : pydict) :
  compute_balances lower hs total keep adv carry = Ok b -> 0 <= coef (b_scale b).
Proof.
  intros H. apply compute_balances_inv in H as (_ & _ & _ & Hd & _ & _ & Hs).
  rewrite dec_ltb_0 in Hd. apply Z.ltb_ge in Hd.
  unfold compute_scale in Hs.
  destruct (dec_gtb (b_total_positive b) (b_distributable b)); simpl in Hs;
    [|injection Hs as <-; simpl; lia].
  destruct (dec_gtb (b_total_positive b) dec0) eqn:Hp;
    [|injection Hs as <-; simpl; lia].
  rewrite dec_gtb_0 in Hp. apply Z.ltb_lt in Hp.
  exact (div_nonneg _ _ _ Hd Hp Hs).
Qed.

Lemma positive_part_nonneg (raw : Decimal) : 0 <= coef (positive_part raw).
Proof.
  unfold positive_part. destruct (dec_gtb raw dec0) eqn:H; [|simpl; lia].
  rewrite dec_gtb_0 in H. apply Z.ltb_lt in H. lia.
Qed.

Lemma compute_pay_nonneg (raw scale pay : Decimal) :
  0 <= coef scale -> compute_pay raw scale = Ok pay -> 0 <= coef pay.
Proof.
  intros Hs H. unfold compute_pay in H. inv_bind H.
  apply _quantize_inv in H as (-> & _). apply rescale_nonneg.
  destruct (dec_ltb scale dec1).
  - exact (mul_nonneg _ _ _ (positive_part_nonneg raw) Hs E).
  - injection E as <-. apply positive_part_nonneg.
Qed.

(** C10. In every successful call every row's [paid] is at least zero. *)
Theorem paid_nonnegative (m : string) (hs : list Shareholder)
    (total keep : Decimal) (adv carry : pydict) (r : DistributionResult) :
  compute_distribution lower m hs total keep adv carry = Ok r ->
  Forall (fun row => dec_leb dec0 (paid row) = true) (rows r).
Proof.
  intros H. apply compute_distribution_inv in H as (b & Hb & Hr).
  pose proof (scale_nonneg _ _ _ _ _ _ Hb) as Hs.
  apply compute_rows_inv in Hr as (tp & s & HF & _).
  clear Hb. induction HF as [|h row hs' rows' Hrow _ IH]; constructor; [|exact IH].
  destruct Hrow as (hak & raw & nc & _ & _ & Hpay & _).
  unfold dec_leb. rewrite dec_ltb_0.
  apply compute_pay_nonneg in Hpay; [|assumption].
  destruct (Z.ltb_spec (coef (paid row)) 0); [lia|reflexivity].
Qed.

Lemma covered_rows (m : string) (hs : list Shareholder)
    (adv carry : pydict) (b : Balances) (r : DistributionResult) :
  compute_scale (b_distributable b) (b_total_positive b) = Ok (b_scale b) ->
  compute_rows lower m hs adv carry b = Ok r ->
  dec_leb (b_total_positive b) (b_distributable b) = true ->
  b_scale b = dec1 /\
  Forall2 (fun h row =>
             exists raw,
               dict_getitem (b_raw_balances b) (key h) = Ok raw /\
               _quantize (positive_part raw) = Ok (paid row))
          hs (rows r).
Proof.
  intros Hs Hr Hle.
  assert (Hscale : b_scale b = dec1).
  { unfold compute_scale in Hs. unfold dec_leb, dec_gtb in *.
    destruct (dec_ltb (b_distributable b) (b_total_positive b)); [discriminate|].
    simpl in Hs. now injection Hs. }
  split; [exact Hscale|].
  apply compute_rows_inv in Hr as (tp & s & HF & _).
  rewrite Hscale in HF. clear -HF.
  induction HF as [|h row hs' rows' Hrow _ IH]; constructor; [|exact IH].
  destruct Hrow as (hak & raw & nc & _ & Hrb & Hpay & _).
  exists raw. split; [exact Hrb|]. exact Hpay.
Qed.

(** *** Advances and carry are read by name *)





(** *** The totals *)

Lemma dict_setitem_fresh (d : pydict) (k : string) (v : Decimal) :
  dict_lookup d k = None -> dict_setitem d k v = d ++ [(k, v)].
Proof.
  induction d as [|[k0 v0] d IH]; simpl; [reflexivity|].
  destruct (String.eqb_spec k k0); [discriminate|].
  intros H. now rewrite IH.
Qed.

(** With names that stay distinct when lower-cased, [entitlements] lists
    the entitlements of the shareholders in registry order. *)
Lemma entitlements_loop_values (hs : list Shareholder) (dist : Decimal) (e0 e1 : pydict) :
  NoDup (map (fun h => key h) hs) ->
  (forall h, h ∈ hs -> dict_lookup e0 (key h) = None) ->
  entitlements_loop lower hs dist e0 = Ok e1 ->
  exists new,
    e1 = e0 ++ new /\
    Forall2 (fun h v => entitlement_of dist h = Ok v) hs (dict_values new).
Proof.
  revert e0. induction hs as [|h hs IH]; intros e0 Hnd Hfresh H; simpl in H.
  - injection H as <-. exists []. rewrite app_nil_r. split; [reflexivity|constructor].
  - inv_bind H. simpl in Hnd. apply NoDup_cons in Hnd as [Hnotin Hnd].
    rewrite dict_setitem_fresh in H by (apply Hfresh, elem_of_cons; now left).
    assert (Hfresh' : forall h', h' ∈ hs ->
              dict_lookup (e0 ++ [(key h, x)]) (key h') = None).
    { intros h' Hh'.
      rewrite <- (dict_setitem_fresh e0 (key h) x)
        by (apply Hfresh, elem_of_cons; now left).
      rewrite dict_lookup_setitem.
      destruct (String.eqb_spec (key h') (key h)) as [Heq|_].
      * exfalso. apply Hnotin. rewrite <- Heq.
        apply (elem_of_map_2 (fun h => key h)). exact Hh'.
      * apply Hfresh, elem_of_cons. now right. }
    destruct (IH _ Hnd Hfresh' H) as (new & -> & HF).
    exists ((key h, x) :: new). rewrite <- app_assoc. split; [reflexivity|].
    simpl. constructor; assumption.
Qed.

(** Adding payouts, which have two places and no sign, either is exact or
    has left the range in which [quantize] to two places can succeed. *)
Lemma dec_sum_cents (l : list Decimal) (s t : Decimal) (z : Z) :
  Forall (fun p => expo p = -2 /\ 0 <= coef p) l ->
  -2 <= expo s -> 0 <= z ->
  sc (-2) s = z \/ 10 ^ prec <= sc (-2) s ->
  dec_sum s l = Ok t ->
  -2 <= expo t /\ (sc (-2) t = z + coef_sum l \/ 10 ^ prec <= sc (-2) t).
Proof.
  intros HF. revert s z. induction HF as [|p l [Hpe Hpc] _ IH]; intros s z He Hz Hs H.
  - simpl in H. injection H as <-. simpl. rewrite Z.add_0_r. auto.
  - simpl in H. inv_bind H. rename x into s'.
    assert (Hadd : add s p = fix_ (mkDec (sc (-2) s + coef p) (-2))).
    { unfold add, sc. rewrite Hpe. replace (Z.min (expo s) (-2)) with (-2) by lia.
      rewrite Z.sub_diag. simpl (10 ^ 0). now rewrite Z.mul_1_r. }
    rewrite Hadd in E.
    assert (H26 : fixed (mkDec 1 26)).
    { repeat split; vm_compute; congruence. }
    assert (Hsc26 : sc (-2) (mkDec 1 26) = 10 ^ prec) by (vm_compute; reflexivity).
    assert (Hbig : 10 ^ prec <= sc (-2) s + coef p ->
                   -2 <= expo s' /\ 10 ^ prec <= sc (-2) s').
    { intros Hb. rewrite <- Hsc26.
      apply (fix_lower (-2) _ s' (mkDec 1 26) E H26); cbn [coef expo]; try lia.
      rewrite Hsc26. unfold sc. cbn [coef expo].
      rewrite Z.sub_diag, Z.pow_0_r, Z.mul_1_r. exact Hb. }
    simpl coef_sum.
    destruct Hs as [Hs|Hs].
    + destruct (Z.lt_ge_cases (sc (-2) s + coef p) (10 ^ prec)) as [Hlt|Hge].
      * rewrite fix_id in E.
        2:{ unfold fixed, adjusted. cbn [coef expo].
            assert (ndigits (sc (-2) s + coef p) <= prec).
            { apply ndigits_lt_pow; [unfold prec; lia|]. lia. }
            unfold Etiny, Emin, Emax, prec in *. lia. }
        injection E as <-.
        destruct (IH (mkDec (sc (-2) s + coef p) (-2)) (z + coef p)
                    ltac:(cbn [expo]; lia) ltac:(lia)) with (2 := H)
          as [He' Hr].
        { left. unfold sc at 1. cbn [coef expo].
          rewrite Z.sub_diag, Z.pow_0_r, Z.mul_1_r. lia. }
        split; [exact He'|]. destruct Hr as [Hr|Hr]; [left; lia|right; exact Hr].
      * destruct (Hbig Hge) as [He' Hb'].
        destruct (IH _ (z + coef p) He' ltac:(lia)) with (2 := H) as [He'' Hr];
          [right; exact Hb'|].
        split; [exact He''|]. destruct Hr as [Hr|Hr]; [left; lia|right; exact Hr].
    + destruct (Hbig ltac:(lia)) as [He' Hb'].
      destruct (IH _ (z + coef p) He' ltac:(lia)) with (2 := H) as [He'' Hr];
        [right; exact Hb'|].
      split; [exact He''|]. destruct Hr as [Hr|Hr]; [left; lia|right; exact Hr].
Qed.

Lemma rescale_pad (d : Decimal) (e : Z) (r : rounding) :
  e <= expo d -> coef (rescale d e r) = sc e d.
Proof.
  intros He. unfold rescale, sc.
  destruct (Z.eqb_spec (coef d) 0) as [->|_]; [reflexivity|].
  destruct (Z.leb_spec e (expo d)); [reflexivity|lia].
Qed.

Lemma paid_two_places (ent adv carry rb : pydict) (scale : Decimal)
    (hs : list Shareholder) (rs : list ResultRow) :
  0 <= coef scale ->
  Forall2 (row_of lower ent adv carry rb scale) hs rs ->
  Forall (fun p => expo p = -2 /\ 0 <= coef p) (map paid rs).
Proof.
  intros Hs HF. induction HF as [|h row hs' rs' Hrow _ IH]; simpl; constructor;
    [|exact IH].
  destruct Hrow as (hak & raw & nc & _ & _ & Hpay & _).
  split; [|exact (compute_pay_nonneg _ _ _ Hs Hpay)].
  unfold compute_pay in Hpay. inv_bind Hpay.
  now apply _quantize_inv in Hpay as (_ & ? & _).
Qed.

(** [total_paid] is the exact sum of the payouts of the rows. *)
Lemma total_paid_exact (m : string) (hs : list Shareholder)
    (total keep : Decimal) (adv carry : pydict) (r : DistributionResult) :
  compute_distribution lower m hs total keep adv carry = Ok r ->
  expo (total_paid r) = -2 /\ coef (total_paid r) = coef_sum (map paid (rows r)).
Proof.
  intros H. apply compute_distribution_inv in H as (b & Hb & Hr).
  pose proof (scale_nonneg _ _ _ _ _ _ Hb) as Hs.
  apply compute_rows_inv in Hr as (tp & s & HF & Hsum & _ & _ & Hq & _).
  pose proof (paid_two_places _ _ _ _ _ _ _ Hs HF) as Hp.
  destruct (dec_sum_cents _ dec0 tp 0 Hp) as [He Hr]; simpl; try lia; try assumption.
  { left. reflexivity. }
  apply _quantize_inv in Hq as (Hx & Hexp & Hfx). split; [exact Hexp|].
  rewrite Hx, rescale_pad by lia.
  destruct Hr as [Hr|Hr]; [lia|].
  exfalso. destruct Hfx as (Hc & _). rewrite Hx, rescale_pad in Hc by lia. lia.
Qed.


(** *** Failures *)

Lemma dec_sum_exc (l : list Decimal) (s : Decimal) (e : exc) :
  dec_sum s l = Raise e -> e = Overflow.
Proof.
  revert s. induction l as [|x l IH]; intros s H; simpl in H; [discriminate|].
  apply rbind_raise in H as [H|(a & _ & H)]; [exact (add_exc _ _ _ H)|eauto].
Qed.

Lemma entitlement_of_exc (dist : Decimal) (h : Shareholder) (e : exc) :
  entitlement_of dist h = Raise e -> e = Overflow.
Proof.
  unfold entitlement_of. intros H.
  apply rbind_raise in H as [H|(a & _ & H)]; [exact (mul_exc _ _ _ H)|].
  apply div_exc in H; [assumption|]. simpl. lia.
Qed.

Lemma entitlements_loop_exc (hs : list Shareholder) (dist : Decimal) (e0 : pydict)
    (e : exc) :
  entitlements_loop lower hs dist e0 = Raise e -> e = Overflow.
Proof.
  revert e0. induction hs as [|h hs IH]; intros e0 H; simpl in H; [discriminate|].
  apply rbind_raise in H as [H|(a & _ & H)]; [exact (entitlement_of_exc _ _ _ H)|eauto].
Qed.

Lemma raw_loop_exc (hs : list Shareholder) (ent adv carry rb0 : pydict)
    (tp0 : Decimal) (e : exc) :
  (forall h, h ∈ hs -> is_Some (dict_lookup ent (key h))) ->
  raw_loop lower hs ent adv carry rb0 tp0 = Raise e -> e = Overflow.
Proof.
  revert rb0 tp0. induction hs as [|h hs IH]; intros rb0 tp0 Hk H; simpl in H;
    [discriminate|].
  apply rbind_raise in H as [H|(hak & _ & H)].
  { apply dict_getitem_exc in H. destruct (Hk h) as [v Hv];
      [apply elem_of_cons; now left|congruence]. }
  apply rbind_raise in H as [H|(raw & _ & H)].
  { unfold raw_of in H. apply rbind_raise in H as [H|(t & _ & H)];
      [exact (sub_exc _ _ _ H)|exact (add_exc _ _ _ H)]. }
  apply rbind_raise in H as [H|(tp & _ & H)].
  { destruct (dec_gtb raw dec0); [exact (add_exc _ _ _ H)|discriminate]. }
  apply (IH _ _) in H; [assumption|].
  intros h' Hh'. apply Hk, elem_of_cons. now right.
Qed.

Lemma compute_scale_exc (dist tp : Decimal) (e : exc) :
  compute_scale dist tp = Raise e -> e = Overflow.
Proof.
  unfold compute_scale.
  destruct (dec_gtb tp dist); simpl; [|discriminate].
  destruct (dec_gtb tp dec0) eqn:Hp; [|discriminate].
  rewrite dec_gtb_0 in Hp. apply Z.ltb_lt in Hp.
  apply div_exc. lia.
Qed.

Lemma _quantize_exc (d : Decimal) (e : exc) : _quantize d = Raise e -> decimal_signal e.
Proof. intros H. left. exact (quantize_exc _ _ _ _ H). Qed.

Lemma compute_pay_exc (raw scale : Decimal) (e : exc) :
  compute_pay raw scale = Raise e -> decimal_signal e.
Proof.
  unfold compute_pay. intros H.
  apply rbind_raise in H as [H|(a & _ & H)]; [|exact (_quantize_exc _ _ H)].
  destruct (dec_ltb scale dec1); [right; exact (mul_exc _ _ _ H)|discriminate].
Qed.

Lemma rows_loop_exc (hs : list Shareholder) (ent adv carry rb : pydict)
    (scale : Decimal) (rows0 : list ResultRow) (tp0 : Decimal) (e : exc) :
  (forall h, h ∈ hs -> is_Some (dict_lookup ent (key h))) ->
  (forall h, h ∈ hs -> is_Some (dict_lookup rb (key h))) ->
  rows_loop lower hs ent adv carry rb scale rows0 tp0 = Raise e -> decimal_signal e.
Proof.
  revert rows0 tp0. induction hs as [|h hs IH]; intros rows0 tp0 Hk Hk' H; simpl in H;
    [discriminate|].
  apply rbind_raise in H as [H|(hak & _ & H)].
  { apply dict_getitem_exc in H. destruct (Hk h) as [v Hv];
      [apply elem_of_cons; now left|congruence]. }
  apply rbind_raise in H as [H|(raw & _ & H)].
  { apply dict_getitem_exc in H. destruct (Hk' h) as [v Hv];
      [apply elem_of_cons; now left|congruence]. }
  apply rbind_raise in H as [H|(pay & _ & H)]; [exact (compute_pay_exc _ _ _ H)|].
  apply rbind_raise in H as [H|(nc & _ & H)]; [right; exact (sub_exc _ _ _ H)|].
  apply rbind_raise in H as [H|(tp & _ & H)]; [right; exact (add_exc _ _ _ H)|].
  apply rbind_raise in H as [H|(qh & _ & H)]; [exact (_quantize_exc _ _ H)|].
  apply rbind_raise in H as [H|(qa & _ & H)]; [exact (_quantize_exc _ _ H)|].
  apply rbind_raise in H as [H|(qp & _ & H)]; [exact (_quantize_exc _ _ H)|].
  apply rbind_raise in H as [H|(qc & _ & H)]; [exact (_quantize_exc _ _ H)|].
  apply IH in H; [assumption| |]; intros h' Hh'; [apply Hk|apply Hk'];
    apply elem_of_cons; now right.
Qed.

Lemma validate_shareholders_ok (hs : list Shareholder) :
  validate_shareholders hs = Ok tt <->
  exists s, dec_sum dec0 (map percent hs) = Ok s /\ dec_eqb s dec100 = true.
Proof.
  unfold validate_shareholders. destruct (dec_sum dec0 (map percent hs)) as [s|e]; simpl.
  - destruct (dec_eqb s dec100) eqn:Heq; simpl; split.
    + eauto.
    + reflexivity.
    + discriminate.
    + intros (s' & [= <-] & ?). congruence.
  - split; [discriminate|]. intros (s' & ? & _). discriminate.
Qed.

(** Before the first payout: either a configuration error, or an overflow
    of the decimal context. *)
Lemma compute_balances_exc (hs : list Shareholder) (total keep : Decimal)
    (adv carry : pydict) (e : exc) :
  compute_balances lower hs total keep adv carry = Raise e ->
  (e = DistributionError /\ invalid_configuration hs total keep) \/ e = Overflow.
Proof.
  unfold compute_balances, invalid_configuration, validate_shareholders. intros H.
  destruct (dec_sum dec0 (map percent hs)) as [s|e'] eqn:Hsum; simpl in H.
  2:{ injection H as <-. right. exact (dec_sum_exc _ _ _ Hsum). }
  destruct (dec_eqb s dec100) eqn:Heq; simpl in H.
  2:{ injection H as <-. left. split; [reflexivity|]. exists s. auto. }
  destruct (dec_ltb keep dec0) eqn:Hk.
  { injection H as <-. left. split; [reflexivity|]. exists s. auto. }
  destruct (sub total keep) as [dist|e'] eqn:Hsub; simpl in H.
  2:{ injection H as <-. right. exact (sub_exc _ _ _ Hsub). }
  destruct (dec_ltb dist dec0) eqn:Hd.
  { injection H as <-. left. split; [reflexivity|]. exists s. split; [reflexivity|].
    right. right. exists dist. auto. }
  right.
  destruct (entitlements_loop lower hs dist []) as [ent|e'] eqn:Hent; simpl in H.
  2:{ injection H as <-. exact (entitlements_loop_exc _ _ _ _ Hent). }
  destruct (raw_loop lower hs ent adv carry [] dec0) as [[rb tp]|e'] eqn:Hraw;
    simpl in H.
  2:{ injection H as <-. apply (raw_loop_exc _ _ _ _ _ _ _) with (2 := Hraw).
      intros h Hh. apply (entitlements_loop_keys lower _ _ _ _ Hent). right.
      apply (elem_of_map_2 (fun h => key h)). exact Hh. }
  destruct (compute_scale dist tp) as [scale|e'] eqn:Hs; simpl in H; [discriminate|].
  injection H as <-. exact (compute_scale_exc _ _ _ Hs).
Qed.

Lemma invalid_configuration_raise (hs : list Shareholder) (total keep : Decimal)
    (adv carry : pydict) :
  invalid_configuration hs total keep ->
  compute_balances lower hs total keep adv carry = Raise DistributionError.
Proof.
  intros (s & Hsum & Hc). unfold compute_balances, validate_shareholders.
  rewrite Hsum. simpl. destruct (dec_eqb s dec100); simpl; [|reflexivity].
  destruct (dec_ltb keep dec0); [reflexivity|].
  destruct Hc as [Hc|[Hc|(d & Hsub & Hd)]]; try discriminate.
  rewrite Hsub. simpl. now rewrite Hd.
Qed.

Lemma compute_rows_exc (m : string) (hs : list Shareholder) (total keep : Decimal)
    (adv carry : pydict) (b : Balances) (e : exc) :
  compute_balances lower hs total keep adv carry = Ok b ->
  compute_rows lower m hs adv carry b = Raise e -> decimal_signal e.
Proof.
  intros Hb H. apply compute_balances_inv in Hb as (_ & _ & _ & _ & Hent & Hraw & _).
  unfold compute_rows in H.
  apply rbind_raise in H as [H|([rs tp] & _ & H)].
  { apply rows_loop_exc in H; [assumption| |]; intros h Hh.
    - apply (entitlements_loop_keys lower _ _ _ _ Hent). right.
      apply (elem_of_map_2 (fun h => key h)). exact Hh.
    - apply (raw_loop_keys lower _ _ _ _ _ _ _ _ Hraw). right.
      apply (elem_of_map_2 (fun h => key h)). exact Hh. }
  apply rbind_raise in H as [H|(s & _ & H)]; [right; exact (dec_sum_exc _ _ _ H)|].
  apply rbind_raise in H as [H|(te & _ & H)]; [exact (_quantize_exc _ _ H)|].
  apply rbind_raise in H as [H|(tpq & _ & H)]; [exact (_quantize_exc _ _ H)|].
  apply rbind_raise in H as [H|(qd & _ & H)]; [exact (_quantize_exc _ _ H)|].
  discriminate.
Qed.

Lemma Forall2_row_names (ent adv carry rb : pydict) (scale : Decimal)
    (hs : list Shareholder) (rs : list ResultRow) :
  Forall2 (row_of lower ent adv carry rb scale) hs rs ->
  map row_name rs = map name hs /\ map row_percent rs = map percent hs.
Proof.
  intros HF. induction HF as [|h row hs' rs' Hrow _ [IH1 IH2]]; [split; reflexivity|].
  destruct Hrow as (hak & raw & nc & _ & _ & _ & _ & _ & _ & _ & _ & Hn & Hp).
  simpl. now rewrite Hn, Hp, IH1, IH2.
Qed.


(** C6 (amended). [total_entitlement] is the sum of the entitlements as
    they stand in [entitlements], not rounded, and the sum is then rounded
    once to two places; with names that stay distinct when lower-cased
    these are the entitlements of the shareholders in registry order.
    [total_paid] is the exact sum of the payouts of the rows, which are
    rounded. *)
Theorem totals_of_result (m : string) (hs : list Shareholder)
    (total keep : Decimal) (adv carry : pydict) (b : Balances)
    (r : DistributionResult) :
  compute_balances lower hs total keep adv carry = Ok b ->
  compute_distribution lower m hs total keep adv carry = Ok r ->
  (exists s, dec_sum dec0 (dict_values (b_entitlements b)) = Ok s /\
             _quantize s = Ok (total_entitlement r)) /\
  (NoDup (map (fun h => key h) hs) ->
   Forall2 (fun h v => entitlement_of (b_distributable b) h = Ok v)
     hs (dict_values (b_entitlements b))) /\
  expo (total_paid r) = -2 /\
  coef (total_paid r) = coef_sum (map paid (rows r)).
Proof.
  intros Hb Hr. pose proof (total_paid_exact _ _ _ _ _ _ _ Hr) as [He Hc].
  unfold compute_distribution in Hr. rewrite Hb in Hr. simpl in Hr.
  apply compute_rows_inv in Hr as (tp & s & _ & _ & Hsum & Hq & _).
  apply compute_balances_inv in Hb as (_ & _ & _ & _ & Hent & _).
  split; [eauto|]. split; [|auto].
  intros Hnd.
  destruct (entitlements_loop_values hs (b_distributable b) [] (b_entitlements b) Hnd)
    as (new & Hnew & HF); [reflexivity|exact Hent|].
  rewrite Hnew. exact HF.
Qed.


(** *** The scale *)

Lemma dict_all_setitem (P : Decimal -> Prop) (d : pydict) (k : string) (v : Decimal) :
  dict_all P d -> P v -> dict_all P (dict_setitem d k v).
Proof.
  intros Hd Hv k' v' H. rewrite dict_lookup_setitem in H.
  destruct (String.eqb k' k); [now injection H as <-|eauto].
Qed.

Lemma add_fixed (a b r : Decimal) : add a b = Ok r -> fixed r.
Proof. apply fix_fixed. Qed.

Lemma dec0_fixed : fixed dec0.
Proof. repeat split; vm_compute; congruence. Qed.

Lemma raw_loop_fixed (hs : list Shareholder) (ent adv carry rb0 rb1 : pydict)
    (tp0 tp1 : Decimal) :
  fixed tp0 -> dict_all fixed rb0 ->
  raw_loop lower hs ent adv carry rb0 tp0 = Ok (rb1, tp1) ->
  fixed tp1 /\ dict_all fixed rb1.
Proof.
  revert rb0 tp0. induction hs as [|h hs IH]; intros rb0 tp0 Ht Hd H; simpl in H.
  - injection H as <- <-. auto.
  - inv_bind H. rename x into hak. inv_bind H. rename x into raw.
    inv_bind H. rename x into tp.
    assert (Hraw : fixed raw).
    { unfold raw_of in E0. inv_bind E0. exact (add_fixed _ _ _ E0). }
    apply (IH _ _) in H; [exact H| |].
    + destruct (dec_gtb raw dec0); [exact (add_fixed _ _ _ E1)|].
      now injection E1 as <-.
    + now apply dict_all_setitem.
Qed.

(** C4 (amended). In a shortfall (the positive raw balances sum to more
    than the distributable amount, and to more than zero) the scale is
    the decimal quotient distributable / totalPositiveRaw and lies in
    [0, 1): below one, and zero when nothing is distributable.  In every
    other case the scale is 1. *)
Theorem scale_in_shortfall (hs : list Shareholder) (total keep : Decimal)
    (adv carry : pydict) (b : Balances) :
  compute_balances lower hs total keep adv carry = Ok b ->
  (dec_gtb (b_total_positive b) (b_distributable b) = true ->
   dec_gtb (b_total_positive b) dec0 = true ->
   div (b_distributable b) (b_total_positive b) = Ok (b_scale b) /\
   dec_leb dec0 (b_scale b) = true /\
   dec_ltb (b_scale b) dec1 = true) /\
  (dec_gtb (b_total_positive b) (b_distributable b)
     && dec_gtb (b_total_positive b) dec0 = false ->
   b_scale b = dec1).
Proof.
  intros Hb. pose proof (scale_nonneg _ _ _ _ _ _ Hb) as Hs0.
  apply compute_balances_inv in Hb as (_ & _ & Hsub & Hd & _ & Hraw & Hs).
  unfold compute_scale in Hs. split.
  - intros H1 H2. rewrite H1, H2 in Hs. simpl in Hs.
    split; [exact Hs|]. split.
    + unfold dec_leb. rewrite dec_ltb_0.
      destruct (Z.ltb_spec (coef (b_scale b)) 0); [lia|reflexivity].
    + rewrite dec_ltb_0 in Hd. apply Z.ltb_ge in Hd.
      rewrite dec_gtb_0 in H2. apply Z.ltb_lt in H2.
      apply (div_lt_one (b_distributable b) (b_total_positive b)); try assumption.
      * exact (fix_fixed _ _ Hsub).
      * apply (raw_loop_fixed _ _ _ _ _ _ _ _ dec0_fixed) with (2 := Hraw).
        intros k v Hk. discriminate.
  - intros H. rewrite H in Hs. now injection Hs.
Qed.


(** *** What is paid out *)

Lemma sum_z_le {A B : Type} (f : A -> Z) (g : B -> Z) (la : list A) (lb : list B) :
  Forall2 (fun b a => f a <= g b) lb la -> sum_z (map f la) <= sum_z (map g lb).
Proof. induction 1; simpl; [lia|]. unfold sum_z in *. lia. Qed.

Lemma sum_z_eq {A B : Type} (f : A -> Z) (g : B -> Z) (la : list A) (lb : list B) :
  Forall2 (fun b a => f a = g b) lb la -> sum_z (map f la) = sum_z (map g lb).
Proof. induction 1; simpl; [lia|]. unfold sum_z in *. lia. Qed.

Lemma positive_part_fixed (raw : Decimal) : fixed raw -> fixed (positive_part raw).
Proof.
  intros H. unfold positive_part. destruct (dec_gtb raw dec0); [exact H|apply dec0_fixed].
Qed.

Lemma dec_leb_refl (a : Decimal) : dec_leb a a = true.
Proof. rewrite (dec_leb_sc (expo a)) by lia. apply Z.leb_le. lia. Qed.

(** A payout never exceeds the rounded claim. *)
Lemma compute_pay_le (raw scale pay : Decimal) :
  fixed raw -> 0 <= coef scale ->
  compute_pay raw scale = Ok pay ->
  expo pay = -2 /\ 0 <= coef pay <= cents (positive_part raw).
Proof.
  intros Fr Hs H. pose proof (compute_pay_nonneg _ _ _ Hs H) as H0.
  unfold compute_pay in H. inv_bind H. rename x into pay'.
  apply _quantize_inv in H as (-> & He & _).
  rewrite expo_rescale. split; [reflexivity|]. split; [exact H0|].
  unfold cents. apply rescale_mono.
  - destruct (dec_ltb scale dec1).
    + exact (mul_nonneg _ _ _ (positive_part_nonneg raw) Hs E).
    + injection E as <-. apply positive_part_nonneg.
  - destruct (dec_ltb scale dec1) eqn:Hlt.
    + apply (mul_le _ scale); try assumption.
      * now apply positive_part_fixed.
      * apply positive_part_nonneg.
    + injection E as <-. apply dec_leb_refl.
Qed.

(** *** Feeding the carry back *)

Lemma dict_forall_setitem (P : string -> Decimal -> Prop) (d : pydict) (k : string)
    (v : Decimal) :
  dict_forall P d -> P k v -> dict_forall P (dict_setitem d k v).
Proof.
  intros Hd Hv. induction Hd as [|[k0 v0] d H0 Hd IH]; simpl.
  - repeat constructor. exact Hv.
  - destruct (String.eqb k k0); constructor; assumption.
Qed.

Lemma dict_forall_lookup (P : string -> Decimal -> Prop) (d : pydict) (k : string)
    (v : Decimal) :
  dict_forall P d -> dict_lookup d k = Some v -> P k v.
Proof.
  intros Hd. induction Hd as [|[k0 v0] d H0 Hd IH]; simpl; [discriminate|].
  destruct (String.eqb_spec k k0) as [->|_]; [|exact IH].
  now intros [= <-].
Qed.

Lemma carry_of_key_fun (rb : pydict) (scale : Decimal) (k : string) (c c' : Decimal) :
  carry_of_key rb scale k c -> carry_of_key rb scale k c' -> c = c'.
Proof.
  intros (raw & pay & nc & H1 & H2 & H3 & H4) (raw' & pay' & nc' & H1' & H2' & H3' & H4').
  congruence.
Qed.

Lemma carry_of_key_form (rb : pydict) (scale : Decimal) (k : string) (c : Decimal) :
  carry_of_key rb scale k c -> expo c = -2 /\ fixed c.
Proof.
  intros (raw & pay & nc & _ & _ & _ & H). now apply _quantize_inv in H as (_ & ? & ?).
Qed.

Lemma rows_carry (ent adv carry rb : pydict) (scale : Decimal)
    (hs : list Shareholder) (rs : list ResultRow) :
  Forall2 (row_of lower ent adv carry rb scale) hs rs ->
  Forall2 (fun h row => row_name row = name h /\
                        carry_of_key rb scale (key h) (new_carry row)) hs rs.
Proof.
  intros HF. induction HF as [|h row hs' rs' Hrow _ IH]; constructor; [|exact IH].
  destruct Hrow as (hak & raw & nc & _ & Hrb & Hpay & Hsub & Hq & _ & _ & _ & Hn & _).
  split; [exact Hn|]. exists raw, (paid row), nc. auto.
Qed.

Section RoundTrip.

(** [G k c]: the carry under the key [k] is [c]. *)
Variable G : string -> Decimal -> Prop.
Hypothesis G_fun : forall k c c', G k c -> G k c' -> c = c'.
Hypothesis G_form : forall k c, G k c -> expo c = -2 /\ fixed c.

(** The dictionary main.py builds from the rows holds, under every name,
    the carry of the lower-cased name. *)
Lemma carry_of_rows_spec (hs : list Shareholder) (rs : list ResultRow) (d0 : pydict) :
  Forall2 (fun h row => row_name row = name h /\ G (key h) (new_carry row)) hs rs ->
  dict_forall (fun k v => G (lower k) v) d0 ->
  let d := fold_left (fun d r => dict_setitem d (row_name r) (new_carry r)) rs d0 in
  dict_forall (fun k v => G (lower k) v) d /\
  (forall k, is_Some (dict_lookup d0 k) -> is_Some (dict_lookup d k)) /\
  (forall h, h ∈ hs -> is_Some (dict_lookup d (name h))).
Proof.
  intros HF. revert d0.
  induction HF as [|h row hs' rs' [Hn Hg] _ IH]; intros d0 Hd0; simpl.
  - split; [exact Hd0|]. split; [auto|]. intros h Hh. inversion Hh.
  - destruct (IH (dict_setitem d0 (row_name row) (new_carry row))) as (H1 & H2 & H3).
    { apply dict_forall_setitem; [exact Hd0|]. rewrite Hn. exact Hg. }
    split; [exact H1|]. split.
    + intros k Hk. apply H2. rewrite dict_lookup_setitem.
      destruct (String.eqb k (row_name row)); [eauto|exact Hk].
    + intros h' Hh'. apply elem_of_cons in Hh' as [->|Hh']; [|now apply H3].
      apply H2. rewrite dict_lookup_setitem, Hn, String.eqb_refl. eauto.
Qed.

Lemma lookup_amount_carry (hs : list Shareholder) (rs : list ResultRow)
    (h : Shareholder) :
  Forall2 (fun h row => row_name row = name h /\ G (key h) (new_carry row)) hs rs ->
  h ∈ hs -> G (key h) (lookup_amount lower (carry_of_rows rs) h).
Proof.
  intros HF Hh.
  destruct (carry_of_rows_spec hs rs [] HF) as (H1 & _ & H3); [constructor|].
  destruct (H3 h Hh) as [v Hv]. unfold carry_of_rows, lookup_amount, dict_get.
  rewrite Hv. exact (dict_forall_lookup _ _ _ _ H1 Hv).
Qed.

(** With nothing to distribute every entitlement is a zero. *)
Lemma entitlement_of_zero (h : Shareholder) :
  exists z, entitlement_of dec0 h = Ok z /\ zero_dec z.
Proof.
  unfold entitlement_of.
  destruct (mul_zero_l dec0 (percent h) eq_refl) as (z1 & -> & Hz1 & _). simpl.
  apply div_zero_l; [exact Hz1|]. simpl. lia.
Qed.

Lemma entitlements_loop_zero (hs : list Shareholder) (e0 : pydict) :
  dict_forall (fun _ v => zero_dec v) e0 ->
  exists ent,
    entitlements_loop lower hs dec0 e0 = Ok ent /\
    dict_forall (fun _ v => zero_dec v) ent.
Proof.
  revert e0. induction hs as [|h hs IH]; intros e0 H0; cbn [entitlements_loop];
    [eauto|].
  destruct (entitlement_of_zero h) as (z & -> & Hz). cbn [rbind].
  apply IH. now apply dict_forall_setitem.
Qed.

Lemma same_value_le_lim (raw c : Decimal) :
  same_value raw c -> expo c = -2 -> fixed c -> dec_leb raw lim = true.
Proof.
  intros Hsv He (Fc & _).
  set (e0 := Z.min (expo raw) (-2)).
  apply (same_value_sc e0) in Hsv; [|unfold e0; lia..].
  rewrite (dec_leb_sc e0) by (unfold e0; simpl; lia). apply Z.leb_le.
  rewrite Hsv. unfold sc, lim. simpl. rewrite He.
  pose proof (pow10_pos (-2 - e0) ltac:(unfold e0; lia)) as Hp.
  replace (26 - e0) with (prec + (-2 - e0)) by (unfold prec; lia).
  rewrite Z.pow_add_r by (unfold prec, e0; lia). nia.
Qed.

Lemma raw_loop_fed_back (hs : list Shareholder) (ent carry' rb0 : pydict)
    (tp0 : Decimal) :
  dict_forall (fun _ v => zero_dec v) ent ->
  (forall h, h ∈ hs -> is_Some (dict_lookup ent (key h))) ->
  (forall h, h ∈ hs -> G (key h) (lookup_amount lower carry' h)) ->
  fed_back G rb0 tp0 ->
  exists rb tp,
    raw_loop lower hs ent [] carry' rb0 tp0 = Ok (rb, tp) /\ fed_back G rb tp.
Proof.
  intros Hent. revert rb0 tp0.
  induction hs as [|h hs IH]; intros rb0 tp0 Hk HC Hinv; cbn [raw_loop]; [eauto|].
  destruct (Hk h ltac:(apply elem_of_cons; now left)) as [hak Hhak].
  pose proof (dict_forall_lookup _ _ _ _ Hent Hhak) as Hz. simpl in Hz.
  unfold dict_getitem. rewrite Hhak. cbn [rbind].
  pose proof (HC h ltac:(apply elem_of_cons; now left)) as Hg.
  unfold raw_of. change (lookup_amount lower [] h) with dec0.
  set (c := lookup_amount lower carry' h) in *.
  destruct (G_form _ _ Hg) as [Hce Hcf].
  destruct (add_zero_zero hak (neg dec0) (proj1 Hz) eq_refl) as (t & Ht & Htz & _).
  unfold sub. rewrite Ht. cbn [rbind].
  destruct (add_zero_l_exact t c Htz Hcf) as (raw & Hraw & Fraw & Hsv).
  rewrite Hraw. cbn [rbind].
  destruct Hinv as (I1 & I2 & I3 & I4 & I5).
  assert (I1' : dict_forall (fun k raw => exists c, G k c /\ same_value raw c /\ fixed raw)
                  (dict_setitem rb0 (key h) raw)).
  { apply dict_forall_setitem; [exact I1|]. exists c. auto. }
  assert (Hk' : forall h', h' ∈ hs -> is_Some (dict_lookup ent (key h')))
    by (intros h' Hh'; apply Hk, elem_of_cons; now right).
  assert (HC' : forall h', h' ∈ hs -> G (key h') (lookup_amount lower carry' h'))
    by (intros h' Hh'; apply HC, elem_of_cons; now right).
  rewrite dec_gtb_0. destruct (Z.ltb_spec 0 (coef raw)) as [Hpos|Hneg].
  - destruct (add_bounded tp0 raw I2 I3 I4 Fraw Hpos
                (same_value_le_lim raw c Hsv Hce Hcf)) as (tp' & -> & F' & P' & B').
    cbn [rbind]. apply IH; try assumption.
    split; [exact I1'|]. split; [exact F'|]. split; [lia|]. split; [exact B'|]. lia.
  - cbn [rbind]. apply IH; try assumption.
    split; [exact I1'|]. split; [exact I2|]. split; [exact I3|]. split; [exact I4|].
    intros H0. apply dict_forall_setitem; [now apply I5|exact Hneg].
Qed.

End RoundTrip.


Lemma dec_ltb_zero_one (z : Decimal) : coef z = 0 -> dec_ltb z dec1 = true.
Proof.
  intros Hz. rewrite (dec_ltb_sc (Z.min (expo z) 0)) by (simpl; lia).
  unfold sc. rewrite Hz. simpl.
  pose proof (pow10_pos (0 - Z.min (expo z) 0) ltac:(lia)).
  apply Z.ltb_lt. lia.
Qed.

(** With nothing to distribute the scale is a zero as soon as something is
    owed, and 1 otherwise. *)
Lemma compute_scale_zero (tp : Decimal) :
  0 <= coef tp ->
  exists scale,
    compute_scale dec0 tp = Ok scale /\
    (coef scale = 0 \/ (scale = dec1 /\ coef tp = 0)).
Proof.
  intros Htp. unfold compute_scale. rewrite dec_gtb_0.
  destruct (Z.ltb_spec 0 (coef tp)) as [Hpos|Hneg]; simpl.
  - destruct (div_zero_l dec0 tp eq_refl ltac:(lia)) as (z & -> & Hz & _). eauto.
  - exists dec1. split; [reflexivity|]. right. split; [reflexivity|lia].
Qed.

(** Nothing is paid then. *)
Lemma compute_pay_zero (raw scale : Decimal) :
  coef scale = 0 \/ (scale = dec1 /\ coef raw <= 0) ->
  compute_pay raw scale = Ok (mkDec 0 (-2)).
Proof.
  intros [Hs|[-> Hraw]]; unfold compute_pay.
  - rewrite (dec_ltb_zero_one scale Hs).
    destruct (mul_zero_r (positive_part raw) scale Hs) as (z & -> & Hz & _). simpl.
    now apply _quantize_zero.
  - replace (dec_ltb dec1 dec1) with false by reflexivity. simpl.
    apply _quantize_zero. unfold positive_part. rewrite dec_gtb_0.
    destruct (Z.ltb_spec 0 (coef raw)); [lia|reflexivity].
Qed.

Section RoundTripRows.

Variable G : string -> Decimal -> Prop.
Hypothesis G_fun : forall k c c', G k c -> G k c' -> c = c'.
Hypothesis G_form : forall k c, G k c -> expo c = -2 /\ fixed c.

Lemma rows_loop_fed_back (hs : list Shareholder) (ent carry' rb : pydict)
    (scale : Decimal) (rows0 : list ResultRow) (tp0 : Decimal) :
  dict_forall (fun _ v => zero_dec v) ent ->
  (forall h, h ∈ hs -> is_Some (dict_lookup ent (key h))) ->
  (forall h, h ∈ hs -> G (key h) (lookup_amount lower carry' h)) ->
  dict_forall (fun k raw => exists c, G k c /\ same_value raw c /\ fixed raw) rb ->
  (forall h, h ∈ hs -> is_Some (dict_lookup rb (key h))) ->
  coef scale = 0 \/ (scale = dec1 /\ dict_forall (fun _ raw => coef raw <= 0) rb) ->
  coef tp0 = 0 ->
  exists new tp,
    rows_loop lower hs ent [] carry' rb scale rows0 tp0 = Ok (rows0 ++ new, tp) /\
    coef tp = 0 /\
    Forall2 (fun h row => row_name row = name h /\ G (key h) (new_carry row)) hs new.
Proof.
  intros Hent Hk HC Hrb Hkr Hs. revert rows0 tp0 Hk HC Hkr.
  induction hs as [|h hs IH]; intros rows0 tp0 Hk HC Hkr Htp; cbn [rows_loop].
  - exists [], tp0. rewrite app_nil_r. repeat split; [assumption|constructor].
  - destruct (Hk h ltac:(apply elem_of_cons; now left)) as [hak Hhak].
    pose proof (dict_forall_lookup _ _ _ _ Hent Hhak) as Hz. simpl in Hz.
    destruct (Hkr h ltac:(apply elem_of_cons; now left)) as [raw Hraw].
    destruct (dict_forall_lookup _ _ _ _ Hrb Hraw) as (c0 & Hg0 & Hsv & Fraw).
    pose proof (HC h ltac:(apply elem_of_cons; now left)) as Hg.
    change (lookup_amount lower [] h) with dec0.
    set (c := lookup_amount lower carry' h) in *.
    assert (c0 = c) as -> by exact (G_fun _ _ _ Hg0 Hg).
    destruct (G_form _ _ Hg) as [Hce Hcf].
    unfold dict_getitem. rewrite Hhak, Hraw. cbn [rbind].
    rewrite compute_pay_zero.
    2:{ destruct Hs as [Hs|[Hs Hall]]; [left; exact Hs|right].
        split; [exact Hs|]. exact (dict_forall_lookup _ _ _ _ Hall Hraw). }
    cbn [rbind].
    destruct (sub_zero_r_exact raw (mkDec 0 (-2)) eq_refl Fraw) as (nc & -> & Fnc & Hnc).
    cbn [rbind].
    destruct (add_zero_zero tp0 (mkDec 0 (-2)) Htp eq_refl) as (tp & -> & Htz & _).
    cbn [rbind].
    rewrite (_quantize_zero hak (proj1 Hz)). cbn [rbind].
    rewrite (_quantize_zero dec0 eq_refl). cbn [rbind].
    rewrite (_quantize_exact c c (same_value_refl c) Hce Hcf). cbn [rbind].
    rewrite (_quantize_exact nc c (same_value_trans_fixed _ _ _ Hnc Hsv) Hce Hcf).
    cbn [rbind].
    destruct (IH (rows0 ++ [mkResultRow (name h) (percent h) (mkDec 0 (-2))
                              (mkDec 0 (-2)) c (mkDec 0 (-2)) c]) tp)
      as (new & tp' & Hloop & Htp' & HF); try assumption.
    + intros h' Hh'. apply Hk, elem_of_cons. now right.
    + intros h' Hh'. apply HC, elem_of_cons. now right.
    + intros h' Hh'. apply Hkr, elem_of_cons. now right.
    + eexists (_ :: new), tp'. rewrite Hloop, <- app_assoc. simpl.
      split; [reflexivity|]. split; [exact Htp'|].
      constructor; [split; [reflexivity|exact Hg]|exact HF].
Qed.

Lemma dec_sum_zeros (l : list Decimal) (s : Decimal) :
  coef s = 0 -> Forall (fun v => coef v = 0) l ->
  exists z, dec_sum s l = Ok z /\ coef z = 0.
Proof.
  intros Hs HF. revert s Hs. induction HF as [|v l Hv _ IH]; intros s Hs; simpl;
    [eauto|].
  destruct (add_zero_zero s v Hs Hv) as (z & -> & Hz & _). simpl. now apply IH.
Qed.

End RoundTripRows.

(** C5. After a successful settlement, running the settlement again for
    the same shareholders with no cash, no reserve, no advances, and the
    carry the caller stored from the rows, succeeds and shows in every row
    the carry that was fed in. *)
Theorem carry_round_trip (m m' : string) (hs : list Shareholder)
    (total keep : Decimal) (adv carry : pydict) (r : DistributionResult) :
  compute_distribution lower m hs total keep adv carry = Ok r ->
  exists r',
    compute_distribution lower m' hs dec0 dec0 [] (carry_of_rows (rows r)) = Ok r' /\
    map new_carry (rows r') = map new_carry (rows r) /\
    map row_name (rows r') = map row_name (rows r).
Proof.
  intros H. apply compute_distribution_inv in H as (b & Hb & Hr).
  apply compute_balances_inv in Hb as (Hval & _).
  apply compute_rows_inv in Hr as (tp1 & s1 & HF1 & _).
  apply rows_carry in HF1.
  set (G := carry_of_key (b_raw_balances b) (b_scale b)) in *.
  assert (G_fun : forall k c c', G k c -> G k c' -> c = c')
    by (intros k c c'; apply carry_of_key_fun).
  assert (G_form : forall k c, G k c -> expo c = -2 /\ fixed c)
    by (intros k c; apply carry_of_key_form).
  set (carry' := carry_of_rows (rows r)).
  assert (HC : forall h, h ∈ hs -> G (key h) (lookup_amount lower carry' h)).
  { intros h Hh. exact (lookup_amount_carry G hs (rows r) h HF1 Hh). }
  unfold compute_distribution, compute_balances. rewrite Hval. cbn [rbind].
  replace (dec_ltb dec0 dec0) with false by reflexivity.
  replace (sub dec0 dec0) with (Ok dec0) by reflexivity. cbn [rbind].
  replace (dec_ltb dec0 dec0) with false by reflexivity.
  destruct (entitlements_loop_zero hs []) as (ent & Hent & Hez); [constructor|].
  rewrite Hent. cbn [rbind].
  assert (Hk : forall h, h ∈ hs -> is_Some (dict_lookup ent (key h))).
  { intros h Hh. apply (entitlements_loop_keys lower _ _ _ _ Hent). right.
    apply (elem_of_map_2 (fun h => key h)). exact Hh. }
  destruct (raw_loop_fed_back G G_form hs ent carry' [] dec0 Hez Hk HC)
    as (rb & tp & Hraw & I1 & I2 & I3 & _ & I5).
  { split; [constructor|]. split; [apply dec0_fixed|]. split; [simpl; lia|].
    split; [reflexivity|]. intros _. constructor. }
  rewrite Hraw. cbn [rbind].
  destruct (compute_scale_zero tp I3) as (scale & Hscale & Hs).
  rewrite Hscale. cbn [rbind]. unfold compute_rows. cbn [b_entitlements b_raw_balances
    b_scale b_distributable].
  assert (Hkr : forall h, h ∈ hs -> is_Some (dict_lookup rb (key h))).
  { intros h Hh. apply (raw_loop_keys lower _ _ _ _ _ _ _ _ Hraw). right.
    apply (elem_of_map_2 (fun h => key h)). exact Hh. }
  destruct (rows_loop_fed_back G G_fun G_form hs ent carry' rb scale [] dec0
              Hez Hk HC I1 Hkr) as (new & tpaid & Hrows & Htz & HF2).
  { destruct Hs as [Hs|[Hs Htp0]]; [left; exact Hs|right]. split; [exact Hs|auto]. }
  { reflexivity. }
  rewrite Hrows. cbn [rbind app].
  destruct (dec_sum_zeros (dict_values ent) dec0 eq_refl) as (sz & Hsz & Hsz0).
  { clear -Hez. unfold dict_values. induction Hez as [|[k v] d [Hv _] _ IH]; simpl;
      constructor; assumption. }
  rewrite Hsz. cbn [rbind].
  rewrite (_quantize_zero sz Hsz0). cbn [rbind].
  rewrite (_quantize_zero tpaid Htz). cbn [rbind].
  rewrite (_quantize_zero dec0 eq_refl). cbn [rbind].
  eexists. split; [reflexivity|]. cbn [rows].
  assert (Hboth : forall rs1 rs2,
    Forall2 (fun h row => row_name row = name h /\ G (key h) (new_carry row)) hs rs1 ->
    Forall2 (fun h row => row_name row = name h /\ G (key h) (new_carry row)) hs rs2 ->
    map new_carry rs2 = map new_carry rs1 /\ map row_name rs2 = map row_name rs1).
  { clear -G_fun. induction hs as [|h hs' IH]; intros rs1 rs2 H1 H2.
    - inversion H1; inversion H2; split; reflexivity.
    - inversion H1 as [|? r1 ? rs1' [Hn1 Hg1] H1']; subst.
      inversion H2 as [|? r2 ? rs2' [Hn2 Hg2] H2']; subst. simpl.
      destruct (IH _ _ H1' H2') as [-> ->].
      rewrite (G_fun _ _ _ Hg2 Hg1), Hn1, Hn2. split; reflexivity. }
  exact (Hboth _ _ HF1 HF2).
Qed.


End Settlement.

(** ** The call and the caller's dictionaries *)

Section StoreModel.

Variable lower : string -> string.

Local Abbreviation key h := (lower (name h)).

Lemma same_except_refl (w : loc) (s : store) : same_except w s s.
Proof. intros l _. reflexivity. Qed.

Lemma same_except_trans (w : loc) (s1 s2 s3 : store) :
  same_except w s1 s2 -> same_except w s2 s3 -> same_except w s1 s3.
Proof. intros H1 H2 l Hl. rewrite (H2 l Hl). exact (H1 l Hl). Qed.

Lemma same_except_insert (w : loc) (s : store) (d : pydict) :
  same_except w s (<[w := d]> s).
Proof. intros l Hl. apply lookup_insert_ne. congruence. Qed.

Lemma deref_insert (s : store) (l : loc) (d : pydict) : deref (<[l := d]> s) l = d.
Proof. unfold deref. now rewrite lookup_insert_eq. Qed.

Lemma deref_same_except (w l : loc) (s s' : store) :
  same_except w s s' -> l <> w -> deref s' l = deref s l.
Proof. intros H Hl. unfold deref. now rewrite (H l Hl). Qed.

Lemma st_bind_lift {A B : Type} (r : result A) (f : A -> M B) (s : store) :
  st_bind (st_lift r) f s =
  match r with Ok v => f v s | Raise e => (Raise e, s) end.
Proof. unfold st_bind, st_lift. destruct r; reflexivity. Qed.

Lemma st_bind_getitem {B : Type} (l : loc) (k : string) (f : Decimal -> M B)
    (s : store) :
  st_bind (st_getitem l k) f s =
  match dict_getitem (deref s l) k with Ok v => f v s | Raise e => (Raise e, s) end.
Proof. unfold st_bind, st_getitem. destruct (dict_getitem _ _); reflexivity. Qed.

Lemma st_bind_lookup_amount {B : Type} (d : loc) (h : Shareholder)
    (f : Decimal -> M B) (s : store) :
  st_bind (st_lookup_amount lower d h) f s = f (lookup_amount lower (deref s d) h) s.
Proof. reflexivity. Qed.

Lemma st_bind_setitem {B : Type} (l : loc) (k : string) (v : Decimal)
    (f : unit -> M B) (s : store) :
  st_bind (st_setitem l k v) f s = f tt (<[l := dict_setitem (deref s l) k v]> s).
Proof. reflexivity. Qed.

Lemma st_entitlements_loop_run (hs : list Shareholder) (dist : Decimal) (le : loc)
    (s : store) :
  exists s', same_except le s s' /\
    (is_Some (s !! le) -> is_Some (s' !! le)) /\
    match entitlements_loop lower hs dist (deref s le) with
    | Ok e => st_entitlements_loop lower hs dist le s = (Ok tt, s') /\ deref s' le = e
    | Raise x => st_entitlements_loop lower hs dist le s = (Raise x, s')
    end.
Proof.
  revert s. induction hs as [|h hs IH]; intros s; simpl.
  - exists s. split; [apply same_except_refl|]. split; [auto|]. split; reflexivity.
  - rewrite st_bind_lift. destruct (entitlement_of dist h) as [hak|x]; simpl.
    + rewrite st_bind_setitem.
      destruct (IH (<[le := dict_setitem (deref s le) (key h) hak]> s))
        as (s' & Hs & Hp & Hm).
      rewrite deref_insert in Hm. exists s'. split; [|split; [|exact Hm]].
      * eapply same_except_trans; [apply same_except_insert|exact Hs].
      * intros _. apply Hp. rewrite lookup_insert_eq. eauto.
    + exists s. split; [apply same_except_refl|]. split; [auto|reflexivity].
Qed.

Lemma st_raw_loop_run (hs : list Shareholder) (le la lc lr : loc) (tp : Decimal)
    (s : store) :
  lr <> le -> lr <> la -> lr <> lc ->
  exists s', same_except lr s s' /\
    match raw_loop lower hs (deref s le) (deref s la) (deref s lc) (deref s lr) tp with
    | Ok (rb, tp') =>
        st_raw_loop lower hs le la lc lr tp s = (Ok tp', s') /\ deref s' lr = rb
    | Raise x => st_raw_loop lower hs le la lc lr tp s = (Raise x, s')
    end.
Proof.
  intros Hle Hla Hlc. revert s tp. induction hs as [|h hs IH]; intros s tp; simpl.
  - exists s. split; [apply same_except_refl|]. split; reflexivity.
  - rewrite st_bind_getitem.
    destruct (dict_getitem (deref s le) (key h)) as [hak|x]; simpl.
    2:{ exists s. split; [apply same_except_refl|reflexivity]. }
    rewrite !st_bind_lookup_amount. unfold raw_of. rewrite st_bind_lift.
    destruct (sub hak _) as [t|x]; simpl.
    2:{ exists s. split; [apply same_except_refl|reflexivity]. }
    rewrite st_bind_lift.
    destruct (add t _) as [raw|x]; simpl.
    2:{ exists s. split; [apply same_except_refl|reflexivity]. }
    rewrite st_bind_setitem, st_bind_lift.
    set (s1 := <[lr := dict_setitem (deref s lr) (key h) raw]> s).
    assert (H1 : same_except lr s s1) by apply same_except_insert.
    destruct (if dec_gtb raw dec0 then add tp raw else Ok tp) as [tp'|x]; simpl.
    2:{ exists s1. split; [exact H1|reflexivity]. }
    destruct (IH s1 tp') as (s' & Hs & Hm).
    assert (Hlr : deref s1 lr = dict_setitem (deref s lr) (key h) raw)
      by apply deref_insert.
    rewrite Hlr in Hm.
    rewrite !(deref_same_except lr _ s s1 H1) in Hm by congruence.
    exists s'. split; [|exact Hm].
    eapply same_except_trans; [exact H1|exact Hs].
Qed.

Lemma st_rows_loop_run (hs : list Shareholder) (le la lc lr : loc) (scale : Decimal)
    (rows0 : list ResultRow) (tp : Decimal) (s : store) :
  st_rows_loop lower hs le la lc lr scale rows0 tp s =
  (rows_loop lower hs (deref s le) (deref s la) (deref s lc) (deref s lr) scale rows0 tp,
   s).
Proof.
  revert rows0 tp. induction hs as [|h hs IH]; intros rows0 tp; simpl; [reflexivity|].
  rewrite st_bind_getitem.
  destruct (dict_getitem (deref s le) (key h)) as [hak|x]; simpl; [|reflexivity].
  rewrite !st_bind_lookup_amount, st_bind_getitem.
  destruct (dict_getitem (deref s lr) (key h)) as [raw|x]; simpl; [|reflexivity].
  repeat (rewrite st_bind_lift;
          match goal with
          | |- context [rbind ?m _] => destruct m; simpl; [|reflexivity]
          end).
  apply IH.
Qed.

Lemma st_bind_ok {A B : Type} (m : M A) (f : A -> M B) (s s' : store) (a : A) :
  m s = (Ok a, s') -> st_bind m f s = f a s'.
Proof. intros H. unfold st_bind. now rewrite H. Qed.

Lemma st_bind_raise {A B : Type} (m : M A) (f : A -> M B) (s s' : store) (e : exc) :
  m s = (Raise e, s') -> st_bind m f s = (Raise e, s').
Proof. intros H. unfold st_bind. now rewrite H. Qed.

Lemma frame_refl (s : store) : frame s s.
Proof. intros l _. reflexivity. Qed.

Lemma frame_trans (s1 s2 s3 : store) : frame s1 s2 -> frame s2 s3 -> frame s1 s3.
Proof.
  intros H1 H2 l Hl. rewrite <- (H1 l Hl). apply H2. now rewrite (H1 l Hl).
Qed.

Lemma frame_new (s : store) (d : pydict) : frame s (<[fresh (dom s) := d]> s).
Proof.
  intros l Hl. apply lookup_insert_ne. intros <-.
  apply elem_of_dom in Hl. exact (is_fresh (dom s) Hl).
Qed.

Lemma frame_same_except (w : loc) (s0 s s' : store) :
  s0 !! w = None -> frame s0 s -> same_except w s s' -> frame s0 s'.
Proof.
  intros Hw Hf Hs l Hl. rewrite <- (Hf l Hl). apply Hs.
  intros ->. rewrite Hw in Hl. now destruct Hl.
Qed.

Lemma fresh_None (s : store) : s !! fresh (dom s) = None.
Proof. apply not_elem_of_dom, is_fresh. Qed.

Lemma deref_frame (s s' : store) (l : loc) (d : pydict) :
  frame s s' -> s !! l = Some d -> deref s' l = d.
Proof. intros Hf Hl. unfold deref. rewrite (Hf l) by eauto. now rewrite Hl. Qed.

(** The call on a store returns what [compute_distribution] returns on
    the contents of the two dictionaries it is given, and leaves every
    object of the caller as it was. *)
Lemma frame_None (s s' : store) (w : loc) : frame s s' -> s' !! w = None -> s !! w = None.
Proof.
  intros Hf Hw. destruct (s !! w) eqn:E; [|reflexivity].
  rewrite (Hf w) in Hw by eauto. congruence.
Qed.

Lemma st_bind_values {B : Type} (l : loc) (f : list Decimal -> M B) (s : store) :
  st_bind (st_values l) f s = f (dict_values (deref s l)) s.
Proof. reflexivity. Qed.

Lemma st_compute_distribution_run (m : string) (hs : list Shareholder)
    (total keep : Decimal) (la lc : loc) (s : store) (A C : pydict) :
  s !! la = Some A -> s !! lc = Some C ->
  exists s',
    st_compute_distribution lower m hs total keep la lc s =
      (compute_distribution lower m hs total keep A C, s') /\
    frame s s'.
Proof.
  intros HA HC.
  unfold st_compute_distribution, compute_distribution, compute_balances, compute_rows.
  rewrite st_bind_lift.
  destruct (validate_shareholders hs) as [[]|x]; simpl;
    [|exists s; split; [reflexivity|apply frame_refl]].
  destruct (dec_ltb keep dec0);
    [exists s; split; [reflexivity|apply frame_refl]|].
  rewrite st_bind_lift.
  destruct (sub total keep) as [dist|x]; simpl;
    [|exists s; split; [reflexivity|apply frame_refl]].
  destruct (dec_ltb dist dec0);
    [exists s; split; [reflexivity|apply frame_refl]|].
  (* entitlements = {} *)
  unfold st_bind at 1, st_new_dict at 1.
  set (le := fresh (dom s)).
  set (s1 := <[le := []]> s).
  assert (F1 : frame s s1) by apply frame_new.
  assert (Hle : s !! le = None) by apply fresh_None.
  unfold st_bind at 1, st_ret at 1.
  destruct (st_entitlements_loop_run hs dist le s1) as (s2 & H12 & Hp2 & Hm).
  assert (Hd1 : deref s1 le = []) by apply deref_insert.
  rewrite Hd1 in Hm.
  assert (F2 : frame s s2) by exact (frame_same_except le s s1 s2 Hle F1 H12).
  assert (Hle2 : is_Some (s2 !! le)).
  { apply Hp2. unfold s1. rewrite lookup_insert_eq. eauto. }
  destruct (entitlements_loop lower hs dist []) as [ent|x]; simpl.
  2:{ rewrite (st_bind_raise _ _ _ _ _ Hm). exists s2. split; [reflexivity|exact F2]. }
  destruct Hm as [Hm Hent]. rewrite (st_bind_ok _ _ _ _ _ Hm).
  (* raw_balances = {} *)
  unfold st_bind at 1, st_new_dict at 1.
  set (lr := fresh (dom s2)).
  set (s3 := <[lr := []]> s2).
  assert (Hlr : s2 !! lr = None) by apply fresh_None.
  assert (F23 : frame s2 s3) by apply frame_new.
  assert (F3 : frame s s3) by exact (frame_trans s s2 s3 F2 F23).
  assert (Hlrs : s !! lr = None) by exact (frame_None s s2 lr F2 Hlr).
  assert (Nle : lr <> le) by (intros Heq; rewrite Heq in Hlr; rewrite Hlr in Hle2;
                              now destruct Hle2).
  assert (Nla : lr <> la) by congruence.
  assert (Nlc : lr <> lc) by congruence.
  destruct (st_raw_loop_run hs le la lc lr dec0 s3 Nle Nla Nlc) as (s4 & H34 & Hm4).
  assert (D3e : deref s3 le = ent).
  { rewrite <- Hent. unfold deref. now rewrite (F23 le Hle2). }
  assert (D3r : deref s3 lr = []) by apply deref_insert.
  rewrite D3e, D3r, (deref_frame s s3 la A F3 HA), (deref_frame s s3 lc C F3 HC) in Hm4.
  assert (F4 : frame s s4) by exact (frame_same_except lr s s3 s4 Hlrs F3 H34).
  destruct (raw_loop lower hs ent A C [] dec0) as [[rb tp]|x]; simpl.
  2:{ rewrite (st_bind_raise _ _ _ _ _ Hm4). exists s4. split; [reflexivity|exact F4]. }
  destruct Hm4 as [Hm4 Hrb]. rewrite (st_bind_ok _ _ _ _ _ Hm4).
  rewrite st_bind_lift.
  destruct (compute_scale dist tp) as [scale|x]; simpl;
    [|exists s4; split; [reflexivity|exact F4]].
  assert (D4e : deref s4 le = ent).
  { rewrite <- D3e. apply (deref_same_except lr); [exact H34|congruence]. }
  unfold st_bind at 1. rewrite st_rows_loop_run.
  rewrite D4e, Hrb, (deref_frame s s4 la A F4 HA), (deref_frame s s4 lc C F4 HC).
  destruct (rows_loop lower hs ent A C rb scale [] dec0) as [[rs tpaid]|x]; simpl;
    [|exists s4; split; [reflexivity|exact F4]].
  rewrite st_bind_values, D4e, st_bind_lift.
  destruct (dec_sum dec0 (dict_values ent)) as [sm|x]; simpl;
    [|exists s4; split; [reflexivity|exact F4]].
  rewrite st_bind_lift.
  destruct (_quantize sm) as [te|x]; simpl;
    [|exists s4; split; [reflexivity|exact F4]].
  rewrite st_bind_lift.
  destruct (_quantize tpaid) as [tpq|x]; simpl;
    [|exists s4; split; [reflexivity|exact F4]].
  rewrite st_bind_lift.
  destruct (_quantize dist) as [qd|x]; simpl;
    [|exists s4; split; [reflexivity|exact F4]].
  exists s4. split; [reflexivity|exact F4].
Qed.

(** C9. The call does not change the dictionaries it is given: whether
    it returns or raises, [advances] and [carry] hold the same entries
    afterwards, and so does every other object of the caller; the new
    carry only exists in the rows of the value that is returned. *)
Theorem inputs_not_mutated (m : string) (hs : list Shareholder)
    (total keep : Decimal) (la lc : loc) (s : store) (A C : pydict) :
  s !! la = Some A -> s !! lc = Some C ->
  let out := st_compute_distribution lower m hs total keep la lc s in
  snd out !! la = Some A /\
  snd out !! lc = Some C /\
  frame s (snd out) /\
  fst out = compute_distribution lower m hs total keep A C.
Proof.
  intros HA HC.
  destruct (st_compute_distribution_run m hs total keep la lc s A C HA HC)
    as (s' & Hrun & Hf).
  simpl. rewrite Hrun. simpl.
  split; [rewrite (Hf la) by eauto; exact HA|].
  split; [rewrite (Hf lc) by eauto; exact HC|].
  split; [exact Hf|reflexivity].
Qed.

(** C8. The outcome is a function of the arguments alone: two calls with
    the same month, shareholders, cash, reserve, and dictionaries with the
    same entries give the same result or raise the same exception,
    whatever else the store holds and wherever the dictionaries live. *)
Theorem deterministic (m : string) (hs : list Shareholder)
    (total keep : Decimal) (la1 lc1 la2 lc2 : loc) (s1 s2 : store) (A C : pydict) :
  s1 !! la1 = Some A -> s1 !! lc1 = Some C ->
  s2 !! la2 = Some A -> s2 !! lc2 = Some C ->
  fst (st_compute_distribution lower m hs total keep la1 lc1 s1) =
  fst (st_compute_distribution lower m hs total keep la2 lc2 s2).
Proof.
  intros HA1 HC1 HA2 HC2.
  destruct (st_compute_distribution_run m hs total keep la1 lc1 s1 A C HA1 HC1)
    as (s1' & -> & _).
  destruct (st_compute_distribution_run m hs total keep la2 lc2 s2 A C HA2 HC2)
    as (s2' & -> & _).
  reflexivity.
Qed.


End StoreModel.


(** * Further properties *)

(** ** The rows of a settlement *)

Section Rows.

Variable lower : string -> string.

Local Abbreviation key h := (lower (name h)).

Lemma _quantize_two_places (d x : Decimal) : _quantize d = Ok x -> two_places x.
Proof. intros H. apply _quantize_inv in H as (_ & He & Fc & _). now split. Qed.

Lemma compute_pay_two_places (raw scale pay : Decimal) :
  compute_pay raw scale = Ok pay -> two_places pay.
Proof.
  unfold compute_pay. intros H. inv_bind H. now apply _quantize_two_places in H.
Qed.

(** The raw balances that the second loop stores fit the context. *)
Lemma raw_balances_fixed (hs : list Shareholder) (total keep : Decimal)
    (adv carry : pydict) (b : Balances) :
  compute_balances lower hs total keep adv carry = Ok b ->
  fixed (b_total_positive b) /\ dict_all fixed (b_raw_balances b).
Proof.
  intros Hb.
  pose proof (compute_balances_inv lower _ _ _ _ _ _ Hb)
    as (_ & _ & _ & _ & _ & Hraw & _).
  apply (raw_loop_fixed lower _ _ _ _ _ _ _ _ dec0_fixed) with (2 := Hraw).
  intros k v Hk. discriminate.
Qed.

(** X1. Every amount of a result - the three totals and the five amounts
    of every row - is a multiple of 0.01 written with two places, below
    1E+26 in magnitude. *)
Theorem result_amounts_two_places (m : string) (hs : list Shareholder)
    (total keep : Decimal) (adv carry : pydict) (r : DistributionResult) :
  compute_distribution lower m hs total keep adv carry = Ok r ->
  two_places (distributable r) /\
  two_places (total_entitlement r) /\
  two_places (total_paid r) /\
  Forall (fun row =>
            two_places (entitlement row) /\ two_places (advance row) /\
            two_places (prev_carry row) /\ two_places (paid row) /\
            two_places (new_carry row))
         (rows r).
Proof.
  intros Hr. apply compute_distribution_inv in Hr as (b & _ & Hr).
  apply compute_rows_inv in Hr as (tp & s & HF & _ & _ & Hte & Htp & Hd & _).
  split; [exact (_quantize_two_places _ _ Hd)|].
  split; [exact (_quantize_two_places _ _ Hte)|].
  split; [exact (_quantize_two_places _ _ Htp)|].
  clear -HF. induction HF as [|h row hs' rs' Hrow _ IH]; constructor; [|exact IH].
  destruct Hrow as (hak & raw & nc & _ & _ & Hpay & _ & Hnc & Hhak & Hadv & Hprev & _).
  split; [exact (_quantize_two_places _ _ Hhak)|].
  split; [exact (_quantize_two_places _ _ Hadv)|].
  split; [exact (_quantize_two_places _ _ Hprev)|].
  split; [exact (compute_pay_two_places _ _ _ Hpay)|].
  exact (_quantize_two_places _ _ Hnc).
Qed.

(** X2. No shareholder is paid more than the claim: the positive part of
    the raw balance, rounded half-up to two places.  This holds with and
    without scaling. *)
Theorem paid_at_most_claim (m : string) (hs : list Shareholder)
    (total keep : Decimal) (adv carry : pydict) (b : Balances)
    (r : DistributionResult) :
  compute_balances lower hs total keep adv carry = Ok b ->
  compute_distribution lower m hs total keep adv carry = Ok r ->
  Forall2 (fun h row =>
             0 <= coef (paid row) <= claim_cents (b_raw_balances b) (key h))
          hs (rows r).
Proof.
  intros Hb Hr.
  pose proof (scale_nonneg lower _ _ _ _ _ _ Hb) as Hs.
  pose proof (raw_balances_fixed _ _ _ _ _ _ Hb) as [_ Hfix].
  unfold compute_distribution in Hr. rewrite Hb in Hr. simpl in Hr.
  apply compute_rows_inv in Hr as (tp & s & HF & _).
  clear -HF Hfix Hs.
  induction HF as [|h row hs' rs' Hrow _ IH]; constructor; [|exact IH].
  destruct Hrow as (hak & raw & nc & _ & Hrb & Hpay & _).
  apply dict_getitem_ok in Hrb. unfold claim_cents. rewrite Hrb.
  now pose proof (compute_pay_le _ _ _ (Hfix _ _ Hrb) Hs Hpay) as (_ & ? & ?).
Qed.

End Rows.

(** ** Rounding to two places depends on the value only *)

Lemma neg_neg (a : Decimal) : neg (neg a) = a.
Proof. destruct a as [c e]. unfold neg. simpl. f_equal. lia. Qed.

Lemma rescale_neg (x : Decimal) (e : Z) (r : rounding) :
  rescale (neg x) e r = neg (rescale x e r).
Proof.
  unfold rescale, neg. simpl.
  destruct (Z.eqb_spec (coef x) 0) as [Hz|Hnz].
  - rewrite Hz. reflexivity.
  - destruct (Z.eqb_spec (- coef x) 0) as [|_]; [lia|].
    destruct (e <=? expo x); simpl.
    + f_equal. lia.
    + rewrite Z.abs_opp, Z.sgn_opp. f_equal. lia.
Qed.

Lemma same_value_sym (a b : Decimal) : same_value a b -> same_value b a.
Proof. unfold same_value. rewrite (Z.min_comm (expo b)). intros H. now symmetry. Qed.

Lemma same_value_neg (a b : Decimal) : same_value a b -> same_value (neg a) (neg b).
Proof. unfold same_value, sc, neg. simpl. lia. Qed.

Lemma same_value_sign (a b : Decimal) : same_value a b -> 0 <= coef a -> 0 <= coef b.
Proof.
  unfold same_value, sc. intros H Ha.
  pose proof (pow10_pos (expo a - Z.min (expo a) (expo b)) ltac:(lia)).
  pose proof (pow10_pos (expo b - Z.min (expo a) (expo b)) ltac:(lia)).
  nia.
Qed.

Lemma rescale_same_value (a b : Decimal) (e : Z) :
  same_value a b -> rescale a e ROUND_HALF_UP = rescale b e ROUND_HALF_UP.
Proof.
  assert (Hpos : forall a b, same_value a b -> 0 <= coef a ->
                   rescale a e ROUND_HALF_UP = rescale b e ROUND_HALF_UP).
  { clear a b. intros a b Hsv Ha.
    pose proof (same_value_sign a b Hsv Ha) as Hb.
    set (e0 := Z.min (Z.min (expo a) (expo b)) e).
    pose proof (rescale_half_up_spec e0 e a Ha ltac:(unfold e0; lia) ltac:(unfold e0; lia))
      as Sa.
    pose proof (rescale_half_up_spec e0 e b Hb ltac:(unfold e0; lia) ltac:(unfold e0; lia))
      as Sb.
    cbv zeta in Sa, Sb.
    apply (same_value_sc e0) in Hsv; [|unfold e0; lia..]. rewrite Hsv in Sa.
    pose proof (pow10_pos (e - e0) ltac:(unfold e0; lia)) as Hp.
    rewrite (decimal_eta (rescale a e ROUND_HALF_UP)),
            (decimal_eta (rescale b e ROUND_HALF_UP)), !expo_rescale.
    f_equal. nia. }
  intros Hsv. destruct (Z.le_gt_cases 0 (coef a)) as [Ha|Ha]; [now apply Hpos|].
  rewrite <- (neg_neg a), <- (neg_neg b), !(rescale_neg (neg _)). f_equal.
  apply Hpos; [now apply same_value_neg|]. simpl. lia.
Qed.

(** The rounding to two places of a number that is zero or negative
    mirrors that of its opposite. *)
Lemma cents_neg (x : Decimal) : cents (neg x) = - cents x.
Proof. unfold cents. rewrite rescale_neg. reflexivity. Qed.

(** ** Results that are not rounded *)

(** [_fix] leaves a coefficient of at most [prec] digits alone. *)
Lemma fix_small (d r : Decimal) :
  fix_ d = Ok r -> Z.abs (coef d) < 10 ^ prec -> Etiny <= expo d -> same_value r d.
Proof.
  intros H Hc He. destruct (Z.eq_dec (coef d) 0) as [Hz|Hnz].
  - rewrite (fix_zero d Hz) in H. injection H as <-.
    unfold same_value, sc. simpl. rewrite Hz. lia.
  - pose proof (fix_inv d r H Hnz) as Hinv. cbv zeta in Hinv.
    destruct Hinv as [(_ & -> & _)|(Hlt & _)]; [apply same_value_refl|].
    pose proof (ndigits_lt_pow (coef d) prec ltac:(unfold prec; lia) Hc). lia.
Qed.

Lemma sub_exact_sub (a b : Decimal) : sub a b = fix_ (exact_sub a b).
Proof.
  unfold sub, add, exact_sub, neg. simpl. do 2 f_equal. lia.
Qed.

Lemma same_value_exact_sub_zero (a z : Decimal) :
  coef z = 0 -> same_value (exact_sub a z) a.
Proof.
  intros Hz. apply (same_value_sc (Z.min (expo a) (expo z))); simpl; [lia|lia|].
  unfold sc, exact_sub. simpl. rewrite Hz, Z.sub_diag, Z.pow_0_r. lia.
Qed.

Lemma lim_fixed : fixed lim.
Proof.
  unfold fixed, lim, adjusted. simpl coef. simpl expo.
  replace (ndigits 1) with 1 by reflexivity.
  unfold prec, Etiny, Emin, Emax, prec. split; [|lia].
  change (Z.abs 1) with 1. apply (Z.lt_le_trans _ (10 ^ 1)); [reflexivity|].
  apply pow10_le. lia.
Qed.

Lemma sc_lim : sc (-2) lim = 10 ^ prec.
Proof. unfold sc, lim, prec. simpl coef. simpl expo. rewrite Z.mul_1_l. reflexivity. Qed.

(** What is left of a raw balance after the payout is computed exactly,
    whenever it can be rounded to two places afterwards. *)
Lemma sub_pay_exact (raw scale pay nc c : Decimal) :
  fixed raw -> 0 <= coef scale ->
  compute_pay raw scale = Ok pay ->
  sub raw pay = Ok nc -> _quantize nc = Ok c ->
  same_value nc (exact_sub raw pay).
Proof.
  intros Fr Hs Hpay Hsub Hq.
  pose proof (compute_pay_le _ _ _ Fr Hs Hpay) as (Hep & Hp0 & Hple).
  rewrite sub_exact_sub in Hsub.
  destruct (Z.le_gt_cases (coef raw) 0) as [Hneg|Hpos].
  - (* nothing is paid *)
    assert (Hz : coef pay = 0).
    { unfold positive_part in Hple. rewrite dec_gtb_0 in Hple.
      destruct (Z.ltb_spec 0 (coef raw)); [lia|].
      change (cents dec0) with 0 in Hple. lia. }
    destruct (sub_zero_r_exact raw pay Hz Fr) as (r' & Hr' & _ & Hsv).
    rewrite sub_exact_sub, Hsub in Hr'. injection Hr' as <-.
    eapply same_value_trans_fixed; [exact Hsv|].
    apply same_value_sym, same_value_exact_sub_zero, Hz.
  - unfold positive_part in Hple. rewrite dec_gtb_0 in Hple.
    destruct (Z.ltb_spec 0 (coef raw)) as [_|]; [|lia].
    destruct Fr as (Fc & Fe & _).
    destruct (Z.le_gt_cases (-2) (expo raw)) as [Hhi|Hlo].
    + (* the difference is written with two places *)
      assert (Hd : coef (exact_sub raw pay) = sc (-2) raw - coef pay
                   /\ expo (exact_sub raw pay) = -2).
      { unfold exact_sub, sc. simpl. rewrite Hep, Z.min_r by lia.
        rewrite Z.sub_diag, Z.pow_0_r. split; [lia|reflexivity]. }
      destruct Hd as [Hdc Hde].
      unfold cents in Hple. rewrite rescale_pad in Hple by lia.
      destruct (Z.lt_ge_cases (Z.abs (coef (exact_sub raw pay))) (10 ^ prec))
        as [Hsmall|Hbig].
      { apply (fix_small _ _ Hsub Hsmall). rewrite Hde. unfold Etiny, Emin, prec. lia. }
      exfalso.
      assert (H0 : 0 <= coef (exact_sub raw pay)) by lia.
      destruct (fix_lower (-2) _ _ lim Hsub lim_fixed ltac:(simpl; lia)
                  ltac:(lia) ltac:(simpl; lia)) as [Hen Hge].
      { rewrite sc_lim. unfold sc. rewrite Hde, Z.sub_diag, Z.pow_0_r. lia. }
      apply _quantize_inv in Hq as (-> & _ & Fq & _).
      rewrite rescale_pad in Fq by exact Hen. rewrite sc_lim in Hge. lia.
    + (* the raw balance has more than two places *)
      assert (Hd : coef (exact_sub raw pay) = coef raw - coef pay * 10 ^ (-2 - expo raw)
                   /\ expo (exact_sub raw pay) = expo raw).
      { unfold exact_sub. simpl. rewrite Hep, Z.min_l by lia.
        rewrite Z.sub_diag, Z.pow_0_r. split; [lia|reflexivity]. }
      destruct Hd as [Hdc Hde].
      apply (fix_small _ _ Hsub); [|lia].
      pose proof (rescale_half_up_spec (expo raw) (-2) raw ltac:(lia) ltac:(lia)
                    ltac:(lia)) as Hspec.
      cbv zeta in Hspec. fold (cents raw) in Hspec.
      unfold sc in Hspec. rewrite Z.sub_diag, Z.pow_0_r, Z.mul_1_r in Hspec.
      pose proof (pow10_pos (-2 - expo raw) ltac:(lia)) as Hk.
      rewrite Hdc. rewrite (Z.abs_eq (coef raw)) in Fc by lia.
      destruct (Z.eq_dec (coef pay) 0) as [->|Hnz]; [rewrite Z.abs_eq; lia|].
      apply Z.abs_lt. nia.
Qed.

Lemma rescale_half_up_error (e0 e : Z) (x : Decimal) :
  e0 <= expo x -> e0 <= e ->
  2 * Z.abs (coef (rescale x e ROUND_HALF_UP) * 10 ^ (e - e0) - sc e0 x)
    <= 10 ^ (e - e0).
Proof.
  intros H0 He. pose proof (pow10_pos (e - e0) ltac:(lia)) as Hp.
  destruct (Z.le_gt_cases 0 (coef x)) as [Hx|Hx].
  - pose proof (rescale_half_up_spec e0 e x Hx H0 He) as S. cbv zeta in S.
    set (P := 10 ^ (e - e0)) in *. set (S0 := sc e0 x) in *.
    set (c := coef (rescale x e ROUND_HALF_UP)) in *. nia.
  - pose proof (rescale_half_up_spec e0 e (neg x) ltac:(simpl; lia) H0 He) as S.
    cbv zeta in S. rewrite rescale_neg in S.
    assert (Hsc : sc e0 (neg x) = - sc e0 x) by (unfold sc, neg; simpl; lia).
    rewrite Hsc in S. simpl coef in S.
    set (P := 10 ^ (e - e0)) in *. set (S0 := sc e0 x) in *.
    set (c := coef (rescale x e ROUND_HALF_UP)) in *. nia.
Qed.

Lemma compute_pay_debtor (raw scale : Decimal) :
  coef raw <= 0 -> compute_pay raw scale = Ok (mkDec 0 (-2)).
Proof.
  intros Hraw. unfold compute_pay, positive_part. rewrite dec_gtb_0.
  destruct (Z.ltb_spec 0 (coef raw)); [lia|].
  destruct (dec_ltb scale dec1).
  - destruct (mul_zero_l dec0 scale eq_refl) as (z & -> & Hz & _). simpl.
    now apply _quantize_zero.
  - simpl. now apply _quantize_zero.
Qed.

Section Carry.

Variable lower : string -> string.

Local Abbreviation key h := (lower (name h)).

(** X3. A shareholder whose raw balance is zero or negative is paid 0.00,
    whatever the scale, and the whole balance, rounded half-up to two
    places, is the new carry. *)
Theorem debtor_carries_all (m : string) (hs : list Shareholder)
    (total keep : Decimal) (adv carry : pydict) (b : Balances)
    (r : DistributionResult) :
  compute_balances lower hs total keep adv carry = Ok b ->
  compute_distribution lower m hs total keep adv carry = Ok r ->
  Forall2 (fun h row =>
             forall raw,
               dict_lookup (b_raw_balances b) (key h) = Some raw ->
               coef raw <= 0 ->
               paid row = mkDec 0 (-2) /\
               new_carry row = rescale raw (-2) ROUND_HALF_UP)
          hs (rows r).
Proof.
  intros Hb Hr.
  pose proof (raw_balances_fixed lower _ _ _ _ _ _ Hb) as [_ Hfix].
  unfold compute_distribution in Hr. rewrite Hb in Hr. simpl in Hr.
  apply compute_rows_inv in Hr as (tp & s & HF & _).
  clear -HF Hfix.
  induction HF as [|h row hs' rs' Hrow _ IH]; constructor; [|exact IH].
  intros raw Hraw Hneg.
  destruct Hrow as (hak & raw' & nc & _ & Hrb & Hpay & Hsub & Hnc & _).
  apply dict_getitem_ok in Hrb. rewrite Hraw in Hrb. injection Hrb as <-.
  rewrite (compute_pay_debtor raw (b_scale b) Hneg) in Hpay. injection Hpay as Hpaid.
  split; [now symmetry|].
  rewrite <- Hpaid in Hsub.
  destruct (sub_zero_r_exact raw (mkDec 0 (-2)) eq_refl (Hfix _ _ Hraw))
    as (nc' & Hnc' & _ & Hsv).
  rewrite Hsub in Hnc'. injection Hnc' as <-.
  apply _quantize_inv in Hnc as (-> & _).
  now apply rescale_same_value.
Qed.

(** X4. The new carry is the raw balance less the payout, rounded half-up
    to two places: the subtraction itself loses nothing.  So the payout
    and the new carry together are within half a hundredth of the raw
    balance. *)
Theorem carry_is_what_is_not_paid (m : string) (hs : list Shareholder)
    (total keep : Decimal) (adv carry : pydict) (b : Balances)
    (r : DistributionResult) :
  compute_balances lower hs total keep adv carry = Ok b ->
  compute_distribution lower m hs total keep adv carry = Ok r ->
  Forall2 (fun h row =>
             exists raw,
               dict_lookup (b_raw_balances b) (key h) = Some raw /\
               new_carry row
                 = rescale (exact_sub raw (paid row)) (-2) ROUND_HALF_UP /\
               let e0 := Z.min (expo raw) (-2) in
               2 * Z.abs ((coef (paid row) + coef (new_carry row)) * 10 ^ (-2 - e0)
                          - sc e0 raw)
                 <= 10 ^ (-2 - e0))
          hs (rows r).
Proof.
  intros Hb Hr.
  pose proof (scale_nonneg lower _ _ _ _ _ _ Hb) as Hs.
  pose proof (raw_balances_fixed lower _ _ _ _ _ _ Hb) as [_ Hfix].
  unfold compute_distribution in Hr. rewrite Hb in Hr. simpl in Hr.
  apply compute_rows_inv in Hr as (tp & s & HF & _).
  clear -HF Hfix Hs.
  induction HF as [|h row hs' rs' Hrow _ IH]; constructor; [|exact IH].
  destruct Hrow as (hak & raw & nc & _ & Hrb & Hpay & Hsub & Hnc & _).
  apply dict_getitem_ok in Hrb. exists raw. split; [exact Hrb|].
  pose proof (sub_pay_exact _ _ _ _ _ (Hfix _ _ Hrb) Hs Hpay Hsub Hnc) as Hsv.
  pose proof (compute_pay_two_places _ _ _ Hpay) as [Hep _].
  assert (Heq : new_carry row
                = rescale (exact_sub raw (paid row)) (-2) ROUND_HALF_UP).
  { apply _quantize_inv in Hnc as (-> & _). now apply rescale_same_value. }
  split; [exact Heq|]. cbv zeta.
  set (e0 := Z.min (expo raw) (-2)).
  pose proof (rescale_half_up_error e0 (-2) (exact_sub raw (paid row))) as Herr.
  rewrite <- Heq in Herr.
  assert (Hd : expo (exact_sub raw (paid row)) = e0)
    by (unfold exact_sub; simpl; rewrite Hep; reflexivity).
  assert (Hc : sc e0 (exact_sub raw (paid row))
               = sc e0 raw - coef (paid row) * 10 ^ (-2 - e0)).
  { unfold sc at 1. rewrite Hd, Z.sub_diag, Z.pow_0_r, Z.mul_1_r.
    unfold exact_sub, sc. simpl. rewrite Hep. reflexivity. }
  rewrite Hc in Herr. specialize (Herr ltac:(lia) ltac:(unfold e0; lia)).
  replace ((coef (paid row) + coef (new_carry row)) * 10 ^ (-2 - e0) - sc e0 raw)
    with (coef (new_carry row) * 10 ^ (-2 - e0)
          - (sc e0 raw - coef (paid row) * 10 ^ (-2 - e0))) by lia.
  exact Herr.
Qed.

End Carry.

(** ** Nothing to distribute *)

Lemma add_pos (a b r : Decimal) :
  fixed b -> 0 <= coef a -> 0 < coef b -> add a b = Ok r -> 0 < coef r.
Proof.
  intros Fb Ha Hb H. unfold add in H. set (e := Z.min (expo a) (expo b)) in *.
  pose proof (pow10_pos (expo a - e) ltac:(unfold e; lia)) as Hpa.
  pose proof (pow10_pos (expo b - e) ltac:(unfold e; lia)) as Hpb.
  destruct (fix_lower e _ _ b H Fb ltac:(lia) ltac:(simpl; lia) ltac:(unfold e; lia))
    as [He Hge].
  { unfold sc. simpl. rewrite Z.sub_diag, Z.pow_0_r. nia. }
  unfold sc in Hge. pose proof (pow10_pos (expo r - e) ltac:(lia)). nia.
Qed.

Lemma sub_same_value_zero (a b d : Decimal) :
  dec_eqb a b = true -> sub a b = Ok d -> coef d = 0.
Proof.
  intros Heq H. rewrite (dec_eqb_sc (Z.min (expo a) (expo b))) in Heq by lia.
  apply Z.eqb_eq in Heq. rewrite sub_exact_sub in H.
  assert (Hz : coef (exact_sub a b) = 0) by (unfold exact_sub, sc in *; simpl; lia).
  rewrite (fix_zero _ Hz) in H. now injection H as <-.
Qed.

Section Empty.

Variable lower : string -> string.

Local Abbreviation key h := (lower (name h)).

(** The total of the positive raw balances is zero only if no raw balance
    is positive. *)
Lemma raw_loop_owed (hs : list Shareholder) (ent adv carry rb0 rb1 : pydict)
    (tp0 tp1 : Decimal) :
  0 <= coef tp0 ->
  (coef tp0 = 0 -> dict_all (fun raw => coef raw <= 0) rb0) ->
  raw_loop lower hs ent adv carry rb0 tp0 = Ok (rb1, tp1) ->
  0 <= coef tp1 /\ (coef tp1 = 0 -> dict_all (fun raw => coef raw <= 0) rb1).
Proof.
  revert rb0 tp0. induction hs as [|h hs IH]; intros rb0 tp0 Htp Hall H.
  - cbn [raw_loop] in H. injection H as <- <-. now split.
  - cbn [raw_loop] in H. inv_bind H. rename x into hak. inv_bind H. rename x into raw.
    inv_bind H. rename x into tp'.
    assert (Fraw : fixed raw).
    { unfold raw_of in E0. inv_bind E0. exact (add_fixed _ _ _ E0). }
    apply IH in H; [exact H| |].
    + rewrite dec_gtb_0 in E1. destruct (Z.ltb_spec 0 (coef raw)) as [Hpos|Hneg].
      * pose proof (add_pos _ _ _ Fraw Htp Hpos E1). lia.
      * now injection E1 as <-.
    + intros Hz. rewrite dec_gtb_0 in E1.
      destruct (Z.ltb_spec 0 (coef raw)) as [Hpos|Hneg].
      * pose proof (add_pos _ _ _ Fraw Htp Hpos E1). lia.
      * injection E1 as <-. apply dict_all_setitem; [now apply Hall|exact Hneg].
Qed.

(** X5. When the cash equals the reserve there is nothing to distribute:
    every shareholder is paid 0.00, the total paid is 0.00, and every raw
    balance, rounded half-up to two places, is carried over whole. *)
Theorem nothing_to_distribute (m : string) (hs : list Shareholder)
    (total keep : Decimal) (adv carry : pydict) (b : Balances)
    (r : DistributionResult) :
  compute_balances lower hs total keep adv carry = Ok b ->
  compute_distribution lower m hs total keep adv carry = Ok r ->
  dec_eqb total keep = true ->
  total_paid r = mkDec 0 (-2) /\
  Forall2 (fun h row =>
             paid row = mkDec 0 (-2) /\
             exists raw,
               dict_lookup (b_raw_balances b) (key h) = Some raw /\
               new_carry row = rescale raw (-2) ROUND_HALF_UP)
          hs (rows r).
Proof.
  intros Hb Hr Heq.
  pose proof (total_paid_exact lower _ _ _ _ _ _ _ Hr) as [Hte Htc].
  pose proof (raw_balances_fixed lower _ _ _ _ _ _ Hb) as [_ Hfix].
  pose proof (compute_balances_inv lower _ _ _ _ _ _ Hb)
    as (_ & _ & Hsub & _ & _ & Hraw & Hscale).
  pose proof (sub_same_value_zero _ _ _ Heq Hsub) as Hd0.
  assert (H00 : 0 <= coef dec0) by (simpl; lia).
  assert (H01 : coef dec0 = 0 -> dict_all (fun raw => coef raw <= 0) [])
    by (intros _ k v Hk; discriminate).
  destruct (raw_loop_owed _ _ _ _ _ _ _ _ H00 H01 Hraw) as [Htp Hall].
  assert (Hsc : coef (b_scale b) = 0 \/
                (b_scale b = dec1 /\ dict_all (fun raw => coef raw <= 0) (b_raw_balances b))).
  { unfold compute_scale in Hscale.
    assert (Hgt : dec_gtb (b_total_positive b) (b_distributable b)
                  = (0 <? coef (b_total_positive b))).
    { unfold dec_gtb.
      rewrite (dec_ltb_sc (Z.min (expo (b_distributable b)) (expo (b_total_positive b))))
        by lia.
      unfold sc. rewrite Hd0, Z.mul_0_l.
      pose proof (pow10_pos (expo (b_total_positive b)
                             - Z.min (expo (b_distributable b)) (expo (b_total_positive b)))
                    ltac:(lia)) as Hp.
      destruct (Z.ltb_spec 0 (coef (b_total_positive b)));
        [apply Z.ltb_lt|apply Z.ltb_ge]; nia. }
    rewrite Hgt, dec_gtb_0, andb_diag in Hscale.
    destruct (Z.ltb_spec 0 (coef (b_total_positive b))) as [Hpos|Hneg].
    - left. destruct (div_zero_l _ (b_total_positive b) Hd0 ltac:(lia))
        as (z & Hz & Hz0 & _).
      rewrite Hz in Hscale. now injection Hscale as <-.
    - right. injection Hscale as <-. split; [reflexivity|]. apply Hall. lia. }
  unfold compute_distribution in Hr. rewrite Hb in Hr. simpl in Hr.
  apply compute_rows_inv in Hr as (tp & s & HF & _).
  assert (HF' : Forall2 (fun h row =>
             paid row = mkDec 0 (-2) /\
             exists raw,
               dict_lookup (b_raw_balances b) (key h) = Some raw /\
               new_carry row = rescale raw (-2) ROUND_HALF_UP) hs (rows r)).
  { clear -HF Hfix Hsc.
    induction HF as [|h row hs' rs' Hrow _ IH]; constructor; [|exact IH].
    destruct Hrow as (hak & raw & nc & _ & Hrb & Hpay & Hsub & Hnc & _).
    apply dict_getitem_ok in Hrb.
    assert (Hpaid : paid row = mkDec 0 (-2)).
    { rewrite compute_pay_zero in Hpay; [now injection Hpay|].
      destruct Hsc as [Hz|[H1 Hall]]; [now left|right].
      split; [exact H1|exact (Hall _ _ Hrb)]. }
    split; [exact Hpaid|]. exists raw. split; [exact Hrb|].
    rewrite Hpaid in Hsub.
    destruct (sub_zero_r_exact raw (mkDec 0 (-2)) eq_refl (Hfix _ _ Hrb))
      as (nc' & Hnc' & _ & Hsv).
    rewrite Hsub in Hnc'. injection Hnc' as <-.
    apply _quantize_inv in Hnc as (-> & _).
    now apply rescale_same_value. }
  split; [|exact HF'].
  rewrite (decimal_eta (total_paid r)), Hte, Htc. f_equal.
  clear -HF'. induction HF' as [|h row hs' rs' [Hp _] _ IH]; [reflexivity|].
  simpl. rewrite Hp. simpl. exact IH.
Qed.

End Empty.

(** ** From one period to the next *)

Lemma update_carry_other (rs : list ResultRow) (c : pydict) (k : string) :
  k ∉ map row_name rs -> dict_lookup (update_carry c rs) k = dict_lookup c k.
Proof.
  revert c. induction rs as [|row rs IH]; intros c Hk; [reflexivity|].
  simpl in Hk. apply not_elem_of_cons in Hk as [Hne Hk].
  unfold update_carry in *. simpl. rewrite IH by exact Hk.
  rewrite dict_lookup_setitem.
  destruct (String.eqb_spec k (row_name row)); [contradiction|reflexivity].
Qed.

Lemma update_carry_own (rs : list ResultRow) (c : pydict) :
  NoDup (map row_name rs) ->
  Forall (fun row => dict_lookup (update_carry c rs) (row_name row)
                     = Some (new_carry row)) rs.
Proof.
  revert c. induction rs as [|row rs IH]; intros c Hnd; constructor.
  - simpl in Hnd. apply NoDup_cons in Hnd as [Hni _].
    unfold update_carry. simpl.
    fold (update_carry (dict_setitem c (row_name row) (new_carry row)) rs).
    rewrite update_carry_other by exact Hni.
    rewrite dict_lookup_setitem, String.eqb_refl. reflexivity.
  - simpl in Hnd. apply NoDup_cons in Hnd as [_ Hnd].
    unfold update_carry. simpl. apply IH. exact Hnd.
Qed.

(** Names that are new to the dictionary are appended in order. *)
Lemma update_carry_fresh (rs : list ResultRow) (c : pydict) :
  NoDup (map row_name rs) ->
  (forall row, row ∈ rs -> dict_lookup c (row_name row) = None) ->
  update_carry c rs = c ++ map (fun row => (row_name row, new_carry row)) rs.
Proof.
  revert c. induction rs as [|row rs IH]; intros c Hnd Hc.
  - simpl. now rewrite app_nil_r.
  - simpl in Hnd. apply NoDup_cons in Hnd as [Hni Hnd].
    unfold update_carry. simpl.
    fold (update_carry (dict_setitem c (row_name row) (new_carry row)) rs).
    rewrite dict_setitem_fresh by (apply Hc; left).
    rewrite IH; [now rewrite <- app_assoc|exact Hnd|].
    intros row' Hin. 
    assert (Hne : row_name row' <> row_name row).
    { intros Heq. apply Hni. rewrite <- Heq. now apply (elem_of_map_2 row_name). }
    assert (Hl : dict_lookup (c ++ [(row_name row, new_carry row)]) (row_name row')
                 = dict_lookup (dict_setitem c (row_name row) (new_carry row))
                     (row_name row'))
      by (rewrite dict_setitem_fresh by (apply Hc; left); reflexivity).
    rewrite Hl, dict_lookup_setitem.
    destruct (String.eqb_spec (row_name row') (row_name row)); [contradiction|].
    apply Hc. now right.
Qed.

Section Periods.

Variable lower : string -> string.

Local Abbreviation key h := (lower (name h)).

Lemma rows_of_result (m : string) (hs : list Shareholder)
    (total keep : Decimal) (adv carry : pydict) (r : DistributionResult) :
  compute_distribution lower m hs total keep adv carry = Ok r ->
  exists b,
    compute_balances lower hs total keep adv carry = Ok b /\
    Forall2 (row_of lower (b_entitlements b) adv carry (b_raw_balances b) (b_scale b))
      hs (rows r).
Proof.
  intros Hr. apply compute_distribution_inv in Hr as (b & Hb & Hr).
  apply compute_rows_inv in Hr as (tp & s & HF & _). eauto.
Qed.

(** X6. The carry goes from one period to the next by name: when the
    names of the shareholders are distinct and the dictionary of carries
    is updated with the rows of a settlement (ledger/views.py, line 791;
    main.py, lines 75-77, start from an empty dictionary), the next
    settlement shows as previous carry of every shareholder the new carry
    of the settlement before, whatever else the dictionary held. *)
Theorem carry_is_threaded (m m' : string) (hs : list Shareholder)
    (total keep total' keep' : Decimal) (adv carry adv' c0 : pydict)
    (r r' : DistributionResult) :
  NoDup (map name hs) ->
  compute_distribution lower m hs total keep adv carry = Ok r ->
  compute_distribution lower m' hs total' keep' adv' (update_carry c0 (rows r)) = Ok r' ->
  map prev_carry (rows r') = map new_carry (rows r).
Proof.
  intros Hnd Hr Hr'.
  apply rows_of_result in Hr as (b & _ & HF).
  apply rows_of_result in Hr' as (b' & _ & HF').
  pose proof (Forall2_row_names lower _ _ _ _ _ _ _ HF) as [Hnames _].
  assert (Hown : Forall (fun row =>
                   dict_lookup (update_carry c0 (rows r)) (row_name row)
                   = Some (new_carry row)) (rows r))
    by (apply update_carry_own; rewrite Hnames; exact Hnd).
  set (c' := update_carry c0 (rows r)) in *. clearbody c'. clear Hnames Hnd.
  revert HF' Hown. generalize (rows r') as rs'.
  induction HF as [|h row hs' rs Hrow _ IH]; intros rs' HF' Hown.
  - inversion HF'. reflexivity.
  - inversion HF' as [|h0 row' hs0 rs0' Hrow' HF0']; subst.
    apply Forall_cons in Hown as [Hrow_own Hown].
    simpl. f_equal; [|now apply IH].
    destruct Hrow as (hak & raw & nc & _ & _ & _ & _ & Hnc & _ & _ & _ & Hn & _).
    destruct Hrow' as (hak' & raw' & nc' & _ & _ & _ & _ & _ & _ & _ & Hprev & _).
    unfold lookup_amount, dict_get in Hprev. rewrite <- Hn, Hrow_own in Hprev.
    apply _quantize_inv in Hnc as (_ & He & Fc).
    rewrite (_quantize_exact _ _ (same_value_refl _) He Fc) in Hprev.
    now injection Hprev.
Qed.

(** X7. Closing a month (main.py): the message is printed and nothing is
    saved exactly when the configuration is invalid; and what is saved,
    for shareholders with distinct names, is one entry per shareholder in
    registry order, the new carry under the exact name.  Nothing of the
    previous carry file is kept. *)
Theorem close_month_saves (m : string) (hs : list Shareholder)
    (ledger : LedgerEntry) (c0 : pydict) :
  (cmd_close_month lower m hs ledger c0 = Ok None <->
   invalid_configuration hs (total_cash ledger) (keep_cash ledger)) /\
  (forall c', cmd_close_month lower m hs ledger c0 = Ok (Some c') ->
     NoDup (map name hs) ->
     exists r,
       compute_distribution lower m hs (total_cash ledger) (keep_cash ledger)
         (advances ledger) c0 = Ok r /\
       c' = map (fun row => (row_name row, new_carry row)) (rows r) /\
       map fst c' = map name hs).
Proof.
  unfold cmd_close_month. split; [split|].
  - destruct (compute_distribution lower m hs (total_cash ledger) (keep_cash ledger)
                (advances ledger) c0) as [r|e] eqn:Hr; [discriminate|].
    destruct e; try discriminate. intros _.
    unfold compute_distribution in Hr.
    apply rbind_raise in Hr as [H|(b & Hb & H)].
    + apply compute_balances_exc in H as [[_ H]|H]; [exact H|discriminate].
    + apply (compute_rows_exc lower _ _ _ _ _ _ _ _ Hb) in H.
      destruct H; discriminate.
  - intros Hi. unfold compute_distribution.
    now rewrite (invalid_configuration_raise lower _ _ _ (advances ledger) c0 Hi).
  - intros c' H Hnd.
    destruct (compute_distribution lower m hs (total_cash ledger) (keep_cash ledger)
                (advances ledger) c0) as [r|e] eqn:Hr; [|destruct e; discriminate].
    injection H as <-. exists r. split; [reflexivity|].
    apply rows_of_result in Hr as (b & _ & HF).
    pose proof (Forall2_row_names lower _ _ _ _ _ _ _ HF) as [Hnames _].
    assert (Heq : carry_of_rows (rows r)
                  = map (fun row => (row_name row, new_carry row)) (rows r)).
    { change (carry_of_rows (rows r)) with (update_carry [] (rows r)).
      rewrite update_carry_fresh; [reflexivity|rewrite Hnames; exact Hnd|reflexivity]. }
    split; [exact Heq|]. rewrite Heq, map_map. exact Hnames.
Qed.

(** The history grows at its end. *)
Lemma history_loop_acc (hs : list Shareholder)
    (months : list (string * option LedgerEntry)) (c : pydict)
    (acc : list (string * list HistoryRow)) :
  history_loop lower hs months c acc = acc ++ history_loop lower hs months c [].
Proof.
  revert c acc. induction months as [|[mk [entry|]] months IH]; intros c acc;
    cbn [history_loop]; try (now rewrite app_nil_r).
  destruct (compute_distribution lower mk hs (total_cash entry) (keep_cash entry)
              (advances entry) c) as [r|e]; [|now rewrite app_nil_r].
  rewrite IH, (IH _ ([] ++ _)). now rewrite app_assoc.
Qed.

Lemma carry_after_cons (c0 : pydict) (mk : string) (r : DistributionResult)
    (hist : list (string * list HistoryRow)) :
  carry_after c0 ((mk, history_rows r) :: hist)
  = carry_after (update_carry c0 (rows r)) hist.
Proof.
  unfold carry_after. simpl. f_equal.
  unfold history_rows, update_carry. generalize c0.
  induction (rows r) as [|row rs IH]; intros c; simpl; [reflexivity|]. apply IH.
Qed.

(** X8. The history of the months (ledger/views.py) is exactly the
    months that load and settle, up to the first one that does not: the
    entry shown at position [i] is the month at position [i] of the
    ledger, settled with the carry that the months shown before it have
    left, and it has one row per shareholder in registry order; and the
    month that follows the last one shown, if there is one, could not be
    loaded or could not be settled with the carry left by the months
    shown.  No later month is shown, even one that would settle. *)
Theorem history_is_a_prefix (hs : list Shareholder)
    (months : list (string * option LedgerEntry)) (c0 : pydict) :
  let hist := history_loop lower hs months c0 [] in
  map fst hist `prefix_of` map fst months /\
  (forall (i : nat) mk shown,
     hist !! i = Some (mk, shown) ->
     exists entry r,
       months !! i = Some (mk, Some entry) /\
       compute_distribution lower mk hs (total_cash entry) (keep_cash entry)
         (advances entry) (carry_after c0 (take i hist)) = Ok r /\
       shown = history_rows r /\
       map h_name shown = map name hs) /\
  (forall mk entry,
     months !! length hist = Some (mk, Some entry) ->
     exists e,
       compute_distribution lower mk hs (total_cash entry) (keep_cash entry)
         (advances entry) (carry_after c0 hist) = Raise e).
Proof.
  cbv zeta. revert c0. induction months as [|[mk [entry|]] months IH]; intros c0;
    cbn [history_loop].
  - split; [apply prefix_nil|]. split; [intros i mk shown H; discriminate|].
    intros mk entry H. discriminate.
  - destruct (compute_distribution lower mk hs (total_cash entry) (keep_cash entry)
                (advances entry) c0) as [r|e] eqn:Hr.
    + rewrite history_loop_acc. cbn [app].
      destruct (IH (update_carry c0 (rows r))) as (Hp & Hshown & Hnext).
      split; [now apply prefix_cons|]. split.
      * intros [|i] mk' shown H; cbn [lookup list_lookup] in H.
        -- injection H as <- <-. exists entry, r. split; [reflexivity|].
           split; [exact Hr|]. split; [reflexivity|].
           unfold history_rows. rewrite map_map. cbn [h_name].
           apply rows_of_result in Hr as (b & _ & HF).
           exact (proj1 (Forall2_row_names lower _ _ _ _ _ _ _ HF)).
        -- destruct (Hshown i mk' shown H) as (entry' & r' & Hm & Hc & Hs & Hn).
           exists entry', r'. split; [exact Hm|]. split; [|auto].
           rewrite firstn_cons, carry_after_cons. exact Hc.
      * intros mk' entry' H. cbn [length lookup list_lookup] in H.
        rewrite carry_after_cons.
        exact (Hnext mk' entry' H).
    + split; [apply prefix_nil|]. split; [intros i mk' shown H; discriminate|].
      intros mk' entry' H. simpl in H. injection H as <- <-. exists e. exact Hr.
  - split; [apply prefix_nil|]. split; [intros i mk' shown H; discriminate|].
    intros mk' entry' H. simpl in H. discriminate.
Qed.

End Periods.

(** ** Sums that are not rounded *)

Lemma pow_unit_fixed (e : Z) : Etiny <= e <= Emax -> fixed (mkDec 1 e).
Proof.
  intros He. unfold fixed, adjusted. simpl coef. simpl expo.
  replace (ndigits 1) with 1 by reflexivity. change (Z.abs 1) with 1.
  split; [|lia]. apply (Z.lt_le_trans _ (10 ^ 1)); [reflexivity|].
  apply pow10_le. unfold prec. lia.
Qed.

Lemma zero_fixed (e : Z) : Etiny <= e <= Emax -> fixed (mkDec 0 e).
Proof. intros He. apply zero_dec_fixed. now split. Qed.

(** One addition of non-negative numbers written at the exponent [e0] or
    above: the sum is not rounded unless it needs more than [prec] digits
    at [e0], and then it stays that large. *)
Lemma add_exact_or_big (e0 : Z) (s x s1 : Decimal) :
  Etiny <= e0 <= Etop - 1 ->
  e0 <= expo s -> 0 <= coef s -> e0 <= expo x -> 0 <= coef x ->
  add s x = Ok s1 ->
  e0 <= expo s1 /\ 0 <= coef s1 /\
  (sc e0 s1 = sc e0 s + sc e0 x \/
   (10 ^ prec <= sc e0 s1 /\ 10 ^ prec <= sc e0 s + sc e0 x)).
Proof.
  intros He0 Hes Hs Hex Hx H. unfold add in H.
  set (e := Z.min (expo s) (expo x)) in *.
  set (d := mkDec (coef s * 10 ^ (expo s - e) + coef x * 10 ^ (expo x - e)) e) in *.
  pose proof (pow10_pos (expo s - e) ltac:(unfold e; lia)) as Hps.
  pose proof (pow10_pos (expo x - e) ltac:(unfold e; lia)) as Hpx.
  assert (Hd0 : 0 <= coef d) by (simpl; nia).
  assert (Hde : e0 <= expo d) by (simpl; unfold e; lia).
  assert (Hsc : sc e0 d = sc e0 s + sc e0 x).
  { unfold sc. simpl.
    rewrite Z.mul_add_distr_r, <- !Z.mul_assoc, <- !Z.pow_add_r by (unfold e; lia).
    do 2 f_equal; f_equal; lia. }
  assert (Hr0 : Etiny <= e0 <= Emax) by (unfold Etop, prec in He0; lia).
  assert (Hr1 : Etiny <= prec + e0 <= Emax) by (unfold Etop, prec in *; lia).
  destruct (fix_lower e0 d s1 (mkDec 0 e0) H (zero_fixed e0 Hr0)
              ltac:(simpl; lia) Hde ltac:(simpl; lia)) as [Hes1 H0].
  { unfold sc at 1. simpl. pose proof (pow10_pos (expo d - e0) ltac:(lia)).
    unfold sc. nia. }
  assert (Hs1 : 0 <= coef s1).
  { unfold sc in H0. simpl in H0. pose proof (pow10_pos (expo s1 - e0) ltac:(lia)). nia. }
  split; [exact Hes1|]. split; [exact Hs1|].
  destruct (Z.lt_ge_cases (sc e0 d) (10 ^ prec)) as [Hsmall|Hbig].
  - left. rewrite <- Hsc.
    apply (same_value_sc e0); [exact Hes1|exact Hde|].
    apply (fix_small d s1 H); [|simpl; unfold e; lia].
    rewrite Z.abs_eq by exact Hd0.
    pose proof (pow10_ge1 (expo d - e0) ltac:(lia)). unfold sc in Hsmall. nia.
  - right. rewrite <- Hsc. split; [|exact Hbig].
    destruct (fix_lower e0 d s1 (mkDec 1 (prec + e0)) H
                (pow_unit_fixed _ Hr1)
                ltac:(simpl; lia) Hde ltac:(simpl; unfold prec; lia)) as [_ Hge].
    { unfold sc at 1. simpl. replace (prec + e0 - e0) with prec by lia. lia. }
    unfold sc at 1 in Hge. simpl in Hge.
    replace (prec + e0 - e0) with prec in Hge by lia. lia.
Qed.

(** A sum of non-negative numbers written at the exponent [e0] or above. *)
Lemma dec_sum_exact_or_big (e0 : Z) (l : list Decimal) (s t : Decimal) :
  Etiny <= e0 <= Etop - 1 ->
  e0 <= expo s -> 0 <= coef s ->
  Forall (fun x => 0 <= coef x /\ e0 <= expo x) l ->
  dec_sum s l = Ok t ->
  e0 <= expo t /\ 0 <= coef t /\
  (sc e0 t = sc e0 s + sum_z (map (sc e0) l) \/
   (10 ^ prec <= sc e0 t /\ 10 ^ prec <= sc e0 s + sum_z (map (sc e0) l))).
Proof.
  intros He0 Hes Hs Hl. revert s Hes Hs.
  induction Hl as [|x l [Hx Hex] Hl IH]; intros s Hes Hs H.
  - simpl in H. injection H as <-. simpl. split; [exact Hes|]. split; [exact Hs|].
    left. lia.
  - cbn [dec_sum] in H. inv_bind H. rename x0 into s1.
    destruct (add_exact_or_big e0 s x s1 He0 Hes Hs Hex Hx E) as (Hes1 & Hs1 & Hone).
    destruct (IH s1 Hes1 Hs1 H) as (Het & Ht & Hrest).
    split; [exact Het|]. split; [exact Ht|].
    assert (Hsum0 : 0 <= sum_z (map (sc e0) l)).
    { clear -Hl. induction Hl as [|y l [Hy Hey] _ IH]; simpl; [lia|].
      unfold sum_z in *. simpl. unfold sc at 1.
      pose proof (pow10_pos (expo y - e0) ltac:(lia)). nia. }
    assert (Hx0 : 0 <= sc e0 x).
    { unfold sc. pose proof (pow10_pos (expo x - e0) ltac:(lia)). nia. }
    simpl. unfold sum_z in *. simpl.
    destruct Hone as [Hone|[Hb1 Hb2]]; destruct Hrest as [Hrest|[Hr1 Hr2]]; lia.
Qed.

(** The same sum when it is known to fit: every addition succeeds. *)
Lemma dec_sum_exact_ok (e0 : Z) (l : list Decimal) (s : Decimal) :
  Etiny <= e0 <= Etop - 1 ->
  e0 <= expo s -> 0 <= coef s ->
  Forall (fun x => 0 <= coef x /\ e0 <= expo x) l ->
  sc e0 s + sum_z (map (sc e0) l) < 10 ^ prec ->
  exists t, dec_sum s l = Ok t /\ e0 <= expo t /\
            sc e0 t = sc e0 s + sum_z (map (sc e0) l).
Proof.
  intros He0 Hes Hs Hl. revert s Hes Hs.
  induction Hl as [|x l [Hx Hex] Hl IH]; intros s Hes Hs Hlt.
  - exists s. simpl. split; [reflexivity|]. split; [exact Hes|]. unfold sum_z. simpl. lia.
  - assert (Hsum0 : 0 <= sum_z (map (sc e0) l)).
    { clear -Hl. induction Hl as [|y l [Hy Hey] _ IH]; simpl; [unfold sum_z; simpl; lia|].
      unfold sum_z in *. simpl. unfold sc at 1.
      pose proof (pow10_pos (expo y - e0) ltac:(lia)). nia. }
    assert (Hx0 : 0 <= sc e0 x).
    { unfold sc. pose proof (pow10_pos (expo x - e0) ltac:(lia)). nia. }
    assert (Hs0 : 0 <= sc e0 s).
    { unfold sc. pose proof (pow10_pos (expo s - e0) ltac:(lia)). nia. }
    change (sum_z (map (sc e0) (x :: l))) with (sc e0 x + sum_z (map (sc e0) l)) in *.
    assert (Hadd : exists s1, add s x = Ok s1).
    { unfold add. set (e := Z.min (expo s) (expo x)).
      set (c := coef s * 10 ^ (expo s - e) + coef x * 10 ^ (expo x - e)).
      destruct (Z.eq_dec c 0) as [Hz|Hnz].
      { rewrite fix_zero by exact Hz. eauto. }
      apply fix_ok_small. simpl. fold c.
      assert (Hcs : c * 10 ^ (e - e0) = sc e0 s + sc e0 x).
      { unfold c, sc.
        rewrite Z.mul_add_distr_r, <- !Z.mul_assoc, <- !Z.pow_add_r by (unfold e; lia).
        do 2 f_equal; f_equal; lia. }
      pose proof (pow10_pos (expo s - e) ltac:(unfold e; lia)).
      pose proof (pow10_pos (expo x - e) ltac:(unfold e; lia)).
      assert (Hc0 : 0 < c) by (unfold c in *; nia).
      assert (Hclt : c * 10 ^ (e - e0) < 10 ^ prec) by lia.
      pose proof (pow10_ge1 (e - e0) ltac:(unfold e; lia)) as Hp1.
      assert (Hnd : ndigits (c * 10 ^ (e - e0)) <= prec).
      { apply ndigits_lt_pow; [unfold prec; lia|]. rewrite Z.abs_eq by nia. exact Hclt. }
      rewrite ndigits_mul_pow in Hnd by (unfold e; lia).
      unfold Etop, Emax, prec in *. lia. }
    destruct Hadd as (s1 & Hadd).
    destruct (add_exact_or_big e0 s x s1 He0 Hes Hs Hex Hx Hadd) as (Hes1 & Hs1 & Hone).
    destruct Hone as [Hone|[_ Hb]]; [|lia].
    destruct (IH s1 Hes1 Hs1 ltac:(lia)) as (t & Ht & Het & Hsc).
    exists t. cbn [dec_sum]. rewrite Hadd. simpl. split; [exact Ht|].
    split; [exact Het|]. lia.
Qed.

(** X9. The check of the percentages is exact for percentages that are
    not negative and have at most [k] places, [k] at most 25: the
    validation passes exactly when they sum to 100 as numbers.  No
    rounding of the running sum can hide a wrong total. *)
Theorem validation_is_exact (k : Z) (hs : list Shareholder) :
  0 <= k <= 25 ->
  Forall (fun h => 0 <= coef (percent h) /\ - k <= expo (percent h)) hs ->
  (validate_shareholders hs = Ok tt <->
   sum_z (map (fun h => sc (- k) (percent h)) hs) = 100 * 10 ^ k).
Proof.
  intros Hk Hl.
  assert (Hl' : Forall (fun x => 0 <= coef x /\ - k <= expo x) (map percent hs)).
  { clear -Hl. induction Hl; constructor; auto. }
  assert (Hmap : sum_z (map (sc (- k)) (map percent hs))
                 = sum_z (map (fun h => sc (- k) (percent h)) hs))
    by (now rewrite map_map).
  assert (He0 : Etiny <= - k <= Etop - 1) by (unfold Etiny, Etop, Emin, Emax, prec; lia).
  assert (H100 : 100 * 10 ^ k < 10 ^ prec).
  { change 100 with (10 ^ 2). rewrite <- Z.pow_add_r by lia.
    apply pow10_lt. unfold prec. lia. }
  assert (Hsc100 : sc (- k) dec100 = 100 * 10 ^ k).
  { unfold sc. simpl. f_equal. f_equal. lia. }
  rewrite validate_shareholders_ok. split.
  - intros (s & Hsum & Heq).
    destruct (dec_sum_exact_or_big (- k) _ dec0 s He0 ltac:(simpl; lia) ltac:(simpl; lia)
                Hl' Hsum) as (Hes & Hs & Hcase).
    rewrite (dec_eqb_sc (- k)) in Heq by (simpl; lia). apply Z.eqb_eq in Heq.
    rewrite Hsc100 in Heq. rewrite Hmap in Hcase.
    change (sc (- k) dec0) with (0 * 10 ^ (0 - - k)) in Hcase.
    destruct Hcase as [Hc|[Hb _]]; lia.
  - intros Hsum.
    destruct (dec_sum_exact_ok (- k) _ dec0 He0 ltac:(simpl; lia) ltac:(simpl; lia) Hl')
      as (t & Ht & Het & Hsc).
    { rewrite Hmap, Hsum. change (sc (- k) dec0) with (0 * 10 ^ (0 - - k)). lia. }
    exists t. split; [exact Ht|].
    rewrite (dec_eqb_sc (- k)) by (simpl; lia). apply Z.eqb_eq.
    rewrite Hsc, Hsc100, Hmap, Hsum. change (sc (- k) dec0) with (0 * 10 ^ (0 - - k)). lia.
Qed.

(** ** Entitlements that are not rounded *)

(** Dividing by 100 moves the decimal point and nothing else. *)
Lemma div_100_exact (x v : Decimal) :
  fixed x -> Etiny <= expo x - 2 ->
  div x dec100 = Ok v ->
  expo x - 2 <= expo v /\ sc (expo x - 2) v = coef x.
Proof.
  intros (Fc & Fe & Fa) He H. unfold div in H.
  change (coef dec100 =? 0) with false in H. cbv iota in H.
  change (expo dec100) with 0 in H. rewrite !Z.sub_0_r in H.
  destruct (Z.eqb_spec (coef x) 0) as [Hz|Hnz].
  { rewrite fix_zero in H by reflexivity. injection H as <-. simpl.
    rewrite Hz. unfold adjusted in Fa. rewrite Hz, ndigits_0 in Fa.
    unfold sc. simpl. lia. }
  change (Z.abs (coef dec100)) with 100 in H.
  change (Z.sgn (coef dec100)) with 1 in H. rewrite Z.mul_1_r in H.
  replace (ndigits 100) with 3 in H by reflexivity.
  set (n := Z.abs (coef x)) in *.
  assert (Hn : 0 < n) by (unfold n; lia).
  assert (Hnd : ndigits n <= prec).
  { unfold n. rewrite ndigits_abs. apply ndigits_lt_pow; [unfold prec; lia|exact Fc]. }
  pose proof (ndigits_ge1 n) as Hnd1.
  set (shift := 3 - ndigits n + prec + 1) in *.
  assert (Hshift : 4 <= shift) by (unfold shift, prec in *; lia).
  destruct (Z.leb_spec 0 shift) as [_|]; [|lia].
  assert (Hpow : 10 ^ shift = 10 ^ (shift - 2) * 100).
  { replace shift with ((shift - 2) + 2) at 1 by lia.
    rewrite Z.pow_add_r by lia. reflexivity. }
  assert (Hq : n * 10 ^ shift / 100 = n * 10 ^ (shift - 2)).
  { rewrite Hpow, Z.mul_assoc. apply Z.div_mul. lia. }
  assert (Hr : (n * 10 ^ shift) mod 100 = 0).
  { rewrite Hpow, Z.mul_assoc. apply Z.mod_mul. lia. }
  rewrite Hq, Hr in H. cbv iota beta in H. change (0 =? 0) with true in H. cbv iota in H.
  set (e := expo x - shift) in *.
  destruct (strip_zeros (Z.to_nat (expo x - e)) (n * 10 ^ (shift - 2)) e (expo x))
    as [q' e'] eqn:Hs.
  pose proof (strip_zeros_spec _ _ _ _ _ _ Hs) as [Hee Hqq].
  assert (Hfuel : expo x - e <= Z.of_nat (Z.to_nat (expo x - e))) by lia.
  pose proof (strip_zeros_done _ _ _ _ _ _ Hfuel Hs) as Hdone.
  assert (Hge : shift - 2 <= e' - e).
  { destruct (Z.le_gt_cases (shift - 2) (e' - e)) as [|Hlt]; [assumption|exfalso].
    apply Hdone. split; [unfold e in *; lia|].
    assert (Hq' : q' = n * 10 ^ (shift - 2 - (e' - e))).
    { replace (shift - 2) with ((shift - 2 - (e' - e)) + (e' - e)) in Hqq at 1 by lia.
      rewrite Z.pow_add_r, Z.mul_assoc in Hqq by lia.
      pose proof (pow10_pos (e' - e) ltac:(lia)). nia. }
    rewrite Hq'.
    replace (shift - 2 - (e' - e)) with ((shift - 2 - (e' - e) - 1) + 1) by lia.
    rewrite Z.pow_add_r, Z.pow_1_r, Z.mul_assoc by lia. apply Z.mod_mul. lia. }
  set (t := e' - e - (shift - 2)).
  assert (Hnq : n = q' * 10 ^ t).
  { replace (e' - e) with (t + (shift - 2)) in Hqq by (unfold t; lia).
    rewrite Z.pow_add_r, Z.mul_assoc in Hqq by (unfold t; lia).
    pose proof (pow10_pos (shift - 2) ltac:(lia)). nia. }
  pose proof (pow10_ge1 t ltac:(unfold t; lia)) as Ht1.
  assert (Hq0 : 0 < q') by nia.
  assert (Hsmall : Z.abs (coef (mkDec (Z.sgn (coef x) * q') e')) < 10 ^ prec).
  { simpl. rewrite abs_sgn_mul by lia. fold n in Fc. nia. }
  assert (Hcnz : coef (mkDec (Z.sgn (coef x) * q') e') <> 0).
  { simpl. destruct (Z.sgn_spec (coef x)) as [[_ ->]|[[? _]|[_ ->]]]; lia. }
  pose proof (fix_small _ _ H Hsmall ltac:(simpl; unfold e in *; lia)) as Hsv.
  pose proof (fix_expo_ge _ _ H Hcnz) as Hev. simpl in Hev.
  split; [unfold e in *; lia|].
  apply (same_value_sc (expo x - 2)) in Hsv; [|unfold e in *; lia|simpl; unfold e in *; lia].
  rewrite Hsv. unfold sc. simpl.
  replace (e' - (expo x - 2)) with t by (unfold t, e; lia).
  rewrite <- Z.mul_assoc, <- Hnq. unfold n. apply sgn_mul_abs.
Qed.

(** A product of few digits is not rounded. *)
Lemma mul_exact (e0 : Z) (a b x : Decimal) :
  Z.abs (coef a * coef b) < 10 ^ prec -> Etiny <= expo a + expo b ->
  e0 <= expo a + expo b -> e0 <= Emax ->
  mul a b = Ok x ->
  fixed x /\ Z.min (expo a + expo b) Emax <= expo x /\
  sc e0 x = coef a * coef b * 10 ^ (expo a + expo b - e0).
Proof.
  intros Hc He He0 Hm H. unfold mul in H.
  pose proof (fix_fixed _ _ H) as Fx. split; [exact Fx|].
  pose proof (fix_small _ _ H Hc He) as Hsv. simpl in Hsv.
  assert (Hex : Z.min (expo a + expo b) Emax <= expo x).
  { destruct (Z.eq_dec (coef a * coef b) 0) as [Hz|Hnz].
    - rewrite fix_zero in H by exact Hz. injection H as <-. simpl. lia.
    - pose proof (fix_expo_ge _ _ H Hnz) as Hge. simpl in Hge. lia. }
  split; [exact Hex|].
  apply (same_value_sc e0) in Hsv; [|lia|simpl; lia]. exact Hsv.
Qed.

Lemma sum_z_nonneg_le {A : Type} (f : A -> Z) (l : list A) (x : A) :
  Forall (fun y => 0 <= f y) l -> x ∈ l -> f x <= sum_z (map f l).
Proof.
  intros Hl Hx. induction Hl as [|y l Hy Hl IH]; [inversion Hx|].
  assert (H0 : 0 <= sum_z (map f l)).
  { clear -Hl. induction Hl as [|z l Hz _ IH]; unfold sum_z in *; simpl; lia. }
  unfold sum_z in *. simpl.
  apply elem_of_cons in Hx as [->|Hx]; [lia|]. specialize (IH Hx). lia.
Qed.

Lemma sc_nonneg (e0 : Z) (d : Decimal) : 0 <= coef d -> 0 <= sc e0 d.
Proof.
  intros H. unfold sc. destruct (Z.le_gt_cases e0 (expo d)).
  - pose proof (pow10_pos (expo d - e0) ltac:(lia)). nia.
  - rewrite Z.pow_neg_r by lia. lia.
Qed.

(** An entitlement of few digits is the exact share. *)
Lemma entitlement_of_exact (j k : Z) (dist : Decimal) (h : Shareholder) (v : Decimal) :
  0 <= j -> 0 <= k -> Etiny <= - j - k - 2 ->
  0 <= coef dist -> - j <= expo dist ->
  0 <= coef (percent h) -> - k <= expo (percent h) ->
  sc (- j) dist * sc (- k) (percent h) < 10 ^ prec ->
  entitlement_of dist h = Ok v ->
  - j - k - 2 <= expo v /\ 0 <= coef v /\
  sc (- j - k - 2) v = sc (- j) dist * sc (- k) (percent h).
Proof.
  intros Hj Hk Hu Hd Hde Hp Hpe Hlt H. unfold entitlement_of in H.
  inv_bind H. rename x into x.
  pose proof (pow10_ge1 (expo dist - - j) ltac:(lia)) as H1.
  pose proof (pow10_ge1 (expo (percent h) - - k) ltac:(lia)) as H2.
  assert (Hprod : sc (- j) dist * sc (- k) (percent h)
                  = coef dist * coef (percent h)
                    * 10 ^ (expo dist + expo (percent h) - (- j - k))).
  { unfold sc.
    replace (expo dist + expo (percent h) - (- j - k))
      with ((expo dist - - j) + (expo (percent h) - - k)) by lia.
    rewrite Z.pow_add_r by lia. ring. }
  destruct (mul_exact (- j - k) dist (percent h) x) as (Fx & Hex & Hsc); try exact E.
  - assert (Ha : coef dist <= sc (- j) dist) by (unfold sc; nia).
    assert (Hb : coef (percent h) <= sc (- k) (percent h)) by (unfold sc; nia).
    rewrite Z.abs_eq by nia.
    apply (Z.le_lt_trans _ (sc (- j) dist * sc (- k) (percent h))); [|exact Hlt].
    apply Z.mul_le_mono_nonneg; lia.
  - lia.
  - lia.
  - unfold Emax. lia.
  - assert (Hex' : - j - k <= expo x) by (unfold Emax in Hex; lia).
    destruct (div_100_exact x v Fx ltac:(lia) H) as [Hev Hv].
    assert (Hscv : sc (- j - k - 2) v = sc (- j - k) x).
    { rewrite (sc_shift (- j - k - 2) (expo x - 2) v) by lia.
      rewrite Hv. unfold sc. do 2 f_equal. lia. }
    split; [lia|]. rewrite Hscv, Hsc, <- Hprod.
    split; [|reflexivity].
    assert (H0 : 0 <= sc (- j - k - 2) v).
    { rewrite Hscv, Hsc, <- Hprod. unfold sc. nia. }
    unfold sc in H0. pose proof (pow10_pos (expo v - (- j - k - 2)) ltac:(lia)). nia.
Qed.

Section Shares.

Variable lower : string -> string.

Local Abbreviation key h := (lower (name h)).

(** X10. The entitlements add up to the distributable amount: with
    shareholders whose lower-cased names are distinct, percentages that
    are not negative and have at most [k] places, and a distributable
    amount that has at most [j] places and is below 10^(26-k-j) (below
    10^(26-k) when counted in units of 10^-j), no entitlement is rounded,
    and the total of the entitlements in the result equals the
    distributable amount in the result. *)
Theorem entitlements_sum_to_distributable (j k : Z) (m : string)
    (hs : list Shareholder) (total keep : Decimal) (adv carry : pydict)
    (b : Balances) (r : DistributionResult) :
  compute_balances lower hs total keep adv carry = Ok b ->
  compute_distribution lower m hs total keep adv carry = Ok r ->
  NoDup (map (fun h => key h) hs) ->
  0 <= j -> 0 <= k <= 25 -> Etiny <= - j - k - 2 ->
  Forall (fun h => 0 <= coef (percent h) /\ - k <= expo (percent h)) hs ->
  - j <= expo (b_distributable b) ->
  sc (- j) (b_distributable b) < 10 ^ (26 - k) ->
  total_entitlement r = distributable r /\
  Forall2 (fun h v => sc (- j - k - 2) v
                      = sc (- j) (b_distributable b) * sc (- k) (percent h))
          hs (dict_values (b_entitlements b)).
Proof.
  intros Hb Hr Hnd Hj Hk Hu Hpct Hde Hlt.
  pose proof (compute_balances_inv lower _ _ _ _ _ _ Hb)
    as (Hval & _ & _ & Hd0 & Hent & _).
  rewrite dec_ltb_0 in Hd0. apply Z.ltb_ge in Hd0.
  set (D := b_distributable b) in *.
  apply (validation_is_exact k hs Hk Hpct) in Hval.
  assert (Hpow : 10 ^ (26 - k) * (100 * 10 ^ k) = 10 ^ prec).
  { change 100 with (10 ^ 2). rewrite <- !Z.pow_add_r by lia.
    unfold prec. f_equal. lia. }
  pose proof (sc_nonneg (- j) D Hd0) as HD0.
  assert (Hshare : forall h, h ∈ hs ->
            sc (- j) D * sc (- k) (percent h) < 10 ^ prec).
  { intros h Hh.
    assert (Hle : sc (- k) (percent h) <= 100 * 10 ^ k).
    { rewrite <- Hval.
      apply (sum_z_nonneg_le (fun h => sc (- k) (percent h))); [|exact Hh].
      clear -Hpct. induction Hpct as [|y l [Hy _] _ IH]; constructor; [|exact IH].
      now apply sc_nonneg. }
    pose proof (pow10_pos k ltac:(lia)). nia. }
  destruct (entitlements_loop_values lower hs D [] (b_entitlements b) Hnd
              ltac:(reflexivity) Hent) as (new & Hnew & HF).
  simpl in Hnew. subst new.
  assert (HF' : Forall2 (fun h v => - j - k - 2 <= expo v /\ 0 <= coef v /\
                           sc (- j - k - 2) v = sc (- j) D * sc (- k) (percent h))
                  hs (dict_values (b_entitlements b))).
  { clear -HF Hshare Hpct Hj Hk Hu Hd0 Hde.
    induction HF as [|h v hs' vs Hv _ IH]; constructor.
    - apply Forall_cons in Hpct as [[Hp Hpe] _].
      apply (entitlement_of_exact j k D h v); try assumption; try lia.
      apply Hshare. left.
    - apply Forall_cons in Hpct as [_ Hpct]. apply IH; [exact Hpct|].
      intros h' Hh'. apply Hshare. now right. }
  split.
  2:{ clear -HF'. induction HF' as [|h v hs' vs (_ & _ & Hv) _ IH]; constructor; auto. }
  apply compute_distribution_inv in Hr as (b' & Hb' & Hr).
  rewrite Hb in Hb'. injection Hb' as <-.
  apply compute_rows_inv in Hr as (tp & s & _ & _ & Hsum & Hte & _ & Hqd & _).
  assert (He0 : Etiny <= - j - k - 2 <= Etop - 1)
    by (unfold Etop, Emax, prec; lia).
  assert (Hvs : Forall (fun x => 0 <= coef x /\ - j - k - 2 <= expo x)
                  (dict_values (b_entitlements b))).
  { clear -HF'. induction HF' as [|h v hs' vs (He & Hc & _) _ IH]; constructor; auto. }
  assert (Htot : sum_z (map (sc (- j - k - 2)) (dict_values (b_entitlements b)))
                 = sc (- j) D * (100 * 10 ^ k)).
  { rewrite <- Hval. clear -HF'.
    induction HF' as [|h v hs' vs (_ & _ & Hv) _ IH]; [unfold sum_z; simpl; lia|].
    unfold sum_z in *. simpl. rewrite Hv, IH. ring. }
  destruct (dec_sum_exact_or_big (- j - k - 2) _ dec0 s He0 ltac:(simpl; lia)
              ltac:(simpl; lia) Hvs Hsum) as (Hes & Hs0 & Hcase).
  rewrite Htot in Hcase.
  change (sc (- j - k - 2) dec0) with (0 * 10 ^ (0 - (- j - k - 2))) in Hcase.
  assert (Hbound : sc (- j) D * (100 * 10 ^ k) < 10 ^ prec).
  { rewrite <- Hpow. pose proof (pow10_pos k ltac:(lia)). nia. }
  destruct Hcase as [Hs|[_ Hbig]]; [|lia].
  assert (Hsv : same_value s D).
  { apply (same_value_sc (- j - k - 2)); [exact Hes|lia|].
    rewrite Hs, (sc_shift (- j - k - 2) (- j) D) by lia.
    replace (- j - (- j - k - 2)) with (2 + k) by lia.
    rewrite Z.pow_add_r by lia. change (10 ^ 2) with 100. lia. }
  apply _quantize_inv in Hte as (-> & _). apply _quantize_inv in Hqd as (-> & _).
  now apply rescale_same_value.
Qed.

End Shares.

(** ** Rounding keeps the order *)

Lemma round_up_scale (m p w : Z) :
  0 < p -> 0 < w ->
  round_up ROUND_HALF_EVEN (m * w) (p * w) = round_up ROUND_HALF_EVEN m p.
Proof.
  intros Hp Hw. unfold round_up.
  rewrite Z.mul_mod_distr_r, Z.div_mul_cancel_r by lia.
  set (rho := m mod p).
  assert (H1 : (p * w <? 2 * (rho * w)) = (p <? 2 * rho)).
  { destruct (Z.ltb_spec p (2 * rho)); [apply Z.ltb_lt|apply Z.ltb_ge]; nia. }
  assert (H2 : (p * w =? 2 * (rho * w)) = (p =? 2 * rho)).
  { destruct (Z.eqb_spec p (2 * rho)); [apply Z.eqb_eq|apply Z.eqb_neq]; nia. }
  now rewrite H1, H2.
Qed.

Lemma round_half_even_mono (D D' P : Z) :
  0 < P -> D <= D' -> round_half_even D P <= round_half_even D' P.
Proof.
  intros HP Hle. unfold round_half_even.
  pose proof (Z.div_le_mono D D' P HP Hle) as Hq.
  pose proof (Z.div_mod D P ltac:(lia)) as HD.
  pose proof (Z.div_mod D' P ltac:(lia)) as HD'.
  pose proof (Z.mod_pos_bound D P HP) as Hr.
  pose proof (Z.mod_pos_bound D' P HP) as Hr'.
  destruct (Z.eq_dec (D / P) (D' / P)) as [Heq|Hne].
  - assert (Hrho : D mod P <= D' mod P) by (rewrite Heq in HD; nia).
    destruct (round_up ROUND_HALF_EVEN D P) eqn:Hu; [|destruct (round_up _ D' P); lia].
    assert (Hu' : round_up ROUND_HALF_EVEN D' P = true).
    { unfold round_up in *. rewrite <- Heq.
      apply orb_true_iff in Hu as [Hu|Hu].
      - apply Z.ltb_lt in Hu. apply orb_true_iff. left. apply Z.ltb_lt. lia.
      - apply andb_true_iff in Hu as [Hu Hodd]. apply Z.eqb_eq in Hu.
        apply orb_true_iff.
        destruct (Z.eq_dec P (2 * (D' mod P))) as [He|Hn].
        + right. apply andb_true_iff. split; [now apply Z.eqb_eq|exact Hodd].
        + left. apply Z.ltb_lt. lia. }
    rewrite Hu'. lia.
  - destruct (round_up ROUND_HALF_EVEN D P); destruct (round_up ROUND_HALF_EVEN D' P); lia.
Qed.

Lemma fix_no_overflow (d r : Decimal) :
  fix_ d = Ok r -> coef d <> 0 -> ndigits (coef d) + expo d - prec <= Etop.
Proof.
  intros H Hnz. unfold fix_ in H.
  destruct (Z.eqb_spec (Z.abs (coef d)) 0) as [|_]; [lia|].
  rewrite ndigits_abs in H.
  destruct (Z.ltb_spec Etop (ndigits (coef d) + expo d - prec)); [discriminate|lia].
Qed.

(** What [_fix] returns when it rounds a positive number. *)
Lemma fix_rounded_spec (e0 : Z) (d r : Decimal) :
  fix_ d = Ok r -> 0 < coef d -> e0 <= expo d ->
  let g := Z.max (ndigits (coef d) + expo d - prec) Etiny in
  expo d < g ->
  e0 <= expo r /\
  sc e0 r = round_half_even (sc e0 d) (10 ^ (g - e0)) * 10 ^ (g - e0).
Proof.
  intros H Hd He0 g Hlt.
  pose proof (fix_inv d r H ltac:(lia)) as Hinv. cbv zeta in Hinv. fold g in Hinv.
  destruct Hinv as [(Hge & _)|(_ & Hgr & _ & c & Hc & Hcase)]; [lia|].
  rewrite Z.sgn_pos, Z.mul_1_l in Hc by exact Hd.
  rewrite Z.abs_eq in Hcase by lia.
  split; [lia|].
  set (p := 10 ^ (g - expo d)) in *. set (w := 10 ^ (expo d - e0)).
  assert (Hp : 0 < p) by (apply pow10_pos; lia).
  assert (Hw : 0 < w) by (apply pow10_pos; lia).
  assert (HP : 10 ^ (g - e0) = p * w).
  { unfold p, w. rewrite <- Z.pow_add_r by lia. f_equal. lia. }
  assert (Hsr : sc e0 r = c * 10 ^ (g - e0)).
  { unfold sc. rewrite <- Hc, <- Z.mul_assoc, <- Z.pow_add_r by lia.
    do 2 f_equal. lia. }
  rewrite Hsr. f_equal. unfold round_half_even, sc. fold w. rewrite HP.
  rewrite round_up_scale, Z.div_mul_cancel_r by lia.
  destruct Hcase as [[-> ->]|[-> ->]]; lia.
Qed.

Lemma ndigits_mono (a b : Z) : 0 < a -> a <= b -> ndigits a <= ndigits b.
Proof.
  intros Ha Hab.
  pose proof (ndigits_spec a ltac:(lia)) as [Hlo _].
  pose proof (ndigits_spec b ltac:(lia)) as [_ Hhi].
  pose proof (ndigits_ge1 a). pose proof (ndigits_ge1 b).
  rewrite Z.abs_eq in Hlo, Hhi by lia.
  assert (Hlt : 10 ^ (ndigits a - 1) < 10 ^ ndigits b) by lia.
  apply pow10_lt_inv in Hlt; lia.
Qed.

(** [_fix] keeps the order of the numbers that are not negative. *)
Lemma fix_mono (e0 : Z) (d d' r r' : Decimal) :
  fix_ d = Ok r -> fix_ d' = Ok r' ->
  0 <= coef d -> e0 <= expo d -> e0 <= expo d' ->
  sc e0 d <= sc e0 d' ->
  sc e0 r <= sc e0 r'.
Proof.
  intros H H' Hd He He' Hle.
  pose proof (pow10_pos (expo d - e0) ltac:(lia)) as Hw.
  pose proof (pow10_pos (expo d' - e0) ltac:(lia)) as Hw'.
  assert (Hd' : 0 <= coef d') by (unfold sc in Hle; nia).
  pose proof (proj1 (fix_sign _ _ H') Hd') as Hr'.
  destruct (Z.eq_dec (coef d) 0) as [Hz|Hnz].
  { rewrite (fix_zero d Hz) in H. injection H as <-.
    unfold sc at 1. simpl. now apply sc_nonneg. }
  assert (Hpos : 0 < coef d) by lia.
  assert (Hpos' : 0 < coef d') by (unfold sc in Hle; nia).
  pose proof (fix_inv d r H ltac:(lia)) as Hinv. cbv zeta in Hinv.
  pose proof (fix_inv d' r' H' ltac:(lia)) as Hinv'. cbv zeta in Hinv'.
  set (g := Z.max (ndigits (coef d) + expo d - prec) Etiny) in *.
  set (g' := Z.max (ndigits (coef d') + expo d' - prec) Etiny) in *.
  destruct Hinv as [(_ & -> & Fd)|(Hlt & _)].
  { (* [d] is not rounded *)
    now destruct (fix_lower e0 d' r' d H' Fd Hd He' He Hle). }
  destruct Hinv' as [(_ & -> & Fd')|(Hlt' & _)].
  { (* [d'] is not rounded *)
    exact (fix_upper e0 d r d' H Fd' Hd He He' Hle). }
  (* the leading digits *)
  assert (Hlead : ndigits (coef d) + expo d <= ndigits (coef d') + expo d').
  { pose proof (ndigits_mul_pow (coef d) (expo d - e0) ltac:(lia) ltac:(lia)) as H1.
    pose proof (ndigits_mul_pow (coef d') (expo d' - e0) ltac:(lia) ltac:(lia)) as H2.
    pose proof (ndigits_mono (sc e0 d) (sc e0 d') ltac:(unfold sc; nia) Hle) as H3.
    unfold sc in H3. lia. }
  destruct (Z.eq_dec g g') as [Hg|Hg].
  - (* the same unit *)
    destruct (fix_rounded_spec e0 d r H Hpos He Hlt) as [_ ->].
    destruct (fix_rounded_spec e0 d' r' H' Hpos' He' Hlt') as [_ ->].
    fold g g'. rewrite <- Hg.
    pose proof (pow10_pos (g - e0) ltac:(lia)) as HP.
    pose proof (round_half_even_mono _ _ _ HP Hle). nia.
  - (* [d'] has more digits before the unit: a power of ten lies between *)
    set (L' := ndigits (coef d') + expo d') in *.
    assert (HL : ndigits (coef d) + expo d < L') by (unfold g, g' in *; lia).
    pose proof (fix_no_overflow _ _ H' ltac:(lia)) as Hov. fold L' in Hov.
    pose proof (ndigits_ge1 (coef d')) as Hn1.
    assert (Ft : fixed (mkDec 1 (L' - 1))).
    { apply pow_unit_fixed. unfold g, g', Etop, prec in *. lia. }
    assert (Hst : sc e0 (mkDec 1 (L' - 1)) = 10 ^ (L' - 1 - e0)).
    { unfold sc. simpl. lia. }
    pose proof (ndigits_spec (coef d) ltac:(lia)) as [_ Hhi].
    pose proof (ndigits_spec (coef d') ltac:(lia)) as [Hlo' _].
    rewrite Z.abs_eq in Hhi, Hlo' by lia.
    assert (H1 : sc e0 d <= sc e0 (mkDec 1 (L' - 1))).
    { rewrite Hst. unfold sc.
      apply (Z.le_trans _ (10 ^ ndigits (coef d) * 10 ^ (expo d - e0))); [nia|].
      rewrite <- Z.pow_add_r by (pose proof (ndigits_ge1 (coef d)); lia).
      apply pow10_le. pose proof (ndigits_ge1 (coef d)). lia. }
    assert (H2 : sc e0 (mkDec 1 (L' - 1)) <= sc e0 d').
    { rewrite Hst. unfold sc.
      apply (Z.le_trans _ (10 ^ (ndigits (coef d') - 1) * 10 ^ (expo d' - e0))); [|nia].
      rewrite <- Z.pow_add_r by lia. apply pow10_le. unfold L'. lia. }
    pose proof (fix_upper e0 d r _ H Ft Hd He ltac:(simpl; unfold L'; lia) H1) as Hup.
    destruct (fix_lower e0 d' r' _ H' Ft ltac:(simpl; lia) He'
                ltac:(simpl; unfold L'; lia) H2) as [_ Hlo].
    lia.
Qed.

Lemma dec_leb_zero_l (z x : Decimal) : coef z = 0 -> 0 <= coef x -> dec_leb z x = true.
Proof.
  intros Hz Hx. rewrite (dec_leb_sc (Z.min (expo z) (expo x))) by lia.
  apply Z.leb_le. unfold sc. rewrite Hz.
  pose proof (pow10_pos (expo x - Z.min (expo z) (expo x)) ltac:(lia)). nia.
Qed.

Lemma dec_leb_sign (a a' : Decimal) : 0 <= coef a -> dec_leb a a' = true -> 0 <= coef a'.
Proof.
  intros Ha Hle. rewrite (dec_leb_sc (Z.min (expo a) (expo a'))) in Hle by lia.
  apply Z.leb_le in Hle. unfold sc in Hle.
  pose proof (pow10_pos (expo a - Z.min (expo a) (expo a')) ltac:(lia)).
  pose proof (pow10_pos (expo a' - Z.min (expo a) (expo a')) ltac:(lia)). nia.
Qed.

(** Multiplying by the same factor keeps the order, rounding included. *)
Lemma mul_mono (a a' s r r' : Decimal) :
  0 <= coef a -> 0 <= coef s -> dec_leb a a' = true ->
  mul a s = Ok r -> mul a' s = Ok r' -> dec_leb r r' = true.
Proof.
  intros Ha Hs Hle H H'.
  pose proof (dec_leb_sign _ _ Ha Hle) as Ha'.
  pose proof (mul_nonneg _ _ _ Ha' Hs H') as Hr'.
  unfold mul in H, H'.
  destruct (Z.eq_dec (coef a * coef s) 0) as [Hz|Hnz].
  { rewrite fix_zero in H by exact Hz. injection H as <-.
    now apply dec_leb_zero_l. }
  set (e0 := Z.min (expo a) (expo a') + expo s).
  rewrite (dec_leb_sc (Z.min (expo a) (expo a'))) in Hle by lia.
  apply Z.leb_le in Hle.
  assert (Hsc : forall x, Z.min (expo a) (expo a') <= expo x ->
            sc e0 (mkDec (coef x * coef s) (expo x + expo s))
            = sc (Z.min (expo a) (expo a')) x * coef s).
  { intros x Hx. unfold sc, e0. simpl.
    replace (expo x + expo s - (Z.min (expo a) (expo a') + expo s))
      with (expo x - Z.min (expo a) (expo a')) by lia. ring. }
  assert (Hprod : sc e0 (mkDec (coef a * coef s) (expo a + expo s))
                  <= sc e0 (mkDec (coef a' * coef s) (expo a' + expo s))).
  { rewrite !Hsc by lia. nia. }
  pose proof (fix_mono e0 _ _ r r' H H' ltac:(simpl; nia)
                ltac:(simpl; unfold e0; lia) ltac:(simpl; unfold e0; lia) Hprod) as Hm.
  assert (Hnz' : coef a' * coef s <> 0).
  { rewrite !Hsc in Hprod by lia. unfold sc in Hprod.
    pose proof (pow10_pos (expo a - Z.min (expo a) (expo a')) ltac:(lia)).
    intros Hz'. assert (coef a * coef s > 0) by nia.
    assert (coef a' = 0 \/ coef s = 0) as [E|E] by nia; rewrite E in *; nia. }
  pose proof (fix_expo_ge _ _ H Hnz) as He. simpl in He.
  pose proof (fix_expo_ge _ _ H' Hnz') as He'. simpl in He'.
  rewrite (dec_leb_sc e0) by (unfold e0; lia). now apply Z.leb_le.
Qed.

Lemma positive_part_mono (raw raw' : Decimal) :
  dec_leb raw raw' = true -> dec_leb (positive_part raw) (positive_part raw') = true.
Proof.
  intros Hle. unfold positive_part. rewrite !dec_gtb_0.
  destruct (Z.ltb_spec 0 (coef raw)) as [Hp|Hn].
  - pose proof (dec_leb_sign raw raw' ltac:(lia) Hle) as H0.
    destruct (Z.ltb_spec 0 (coef raw')) as [_|Hn']; [exact Hle|].
    assert (Hz : coef raw' = 0) by lia.
    rewrite (dec_leb_sc (Z.min (expo raw) (expo raw'))) in Hle by lia.
    apply Z.leb_le in Hle. unfold sc in Hle. rewrite Hz in Hle.
    pose proof (pow10_pos (expo raw - Z.min (expo raw) (expo raw')) ltac:(lia)). nia.
  - destruct (Z.ltb_spec 0 (coef raw')); [|reflexivity].
    apply dec_leb_zero_l; [reflexivity|lia].
Qed.

(** The payout grows with the raw balance. *)
Lemma compute_pay_mono (raw raw' scale pay pay' : Decimal) :
  0 <= coef scale -> dec_leb raw raw' = true ->
  compute_pay raw scale = Ok pay -> compute_pay raw' scale = Ok pay' ->
  coef pay <= coef pay'.
Proof.
  intros Hs Hle H H'. apply positive_part_mono in Hle.
  pose proof (positive_part_nonneg raw) as Hp.
  unfold compute_pay in H, H'. inv_bind H. inv_bind H'.
  apply _quantize_inv in H as (-> & _). apply _quantize_inv in H' as (-> & _).
  destruct (dec_ltb scale dec1).
  - apply rescale_mono; [exact (mul_nonneg _ _ _ Hp Hs E)|].
    exact (mul_mono _ _ _ _ _ Hp Hs Hle E E0).
  - injection E as <-. injection E0 as <-. now apply rescale_mono.
Qed.

Section Order.

Variable lower : string -> string.

Local Abbreviation key h := (lower (name h)).

(** X11. Payouts follow the raw balances: of two shareholders of one
    settlement, the one with the smaller raw balance is not paid more,
    with and without scaling; equal raw balances are paid the same. *)
Theorem paid_follows_raw_balance (m : string) (hs : list Shareholder)
    (total keep : Decimal) (adv carry : pydict) (b : Balances)
    (r : DistributionResult) :
  compute_balances lower hs total keep adv carry = Ok b ->
  compute_distribution lower m hs total keep adv carry = Ok r ->
  forall (i i' : nat) h h' row row' raw raw',
    hs !! i = Some h -> rows r !! i = Some row ->
    hs !! i' = Some h' -> rows r !! i' = Some row' ->
    dict_lookup (b_raw_balances b) (key h) = Some raw ->
    dict_lookup (b_raw_balances b) (key h') = Some raw' ->
    dec_leb raw raw' = true ->
    coef (paid row) <= coef (paid row').
Proof.
  intros Hb Hr i i' h h' row row' raw raw' Hi Hrow Hi' Hrow' Hraw Hraw' Hle.
  pose proof (scale_nonneg lower _ _ _ _ _ _ Hb) as Hs.
  unfold compute_distribution in Hr. rewrite Hb in Hr. simpl in Hr.
  apply compute_rows_inv in Hr as (tp & s & HF & _).
  pose proof (Forall2_lookup_lr _ _ _ _ _ _ HF Hi Hrow)
    as (hak & raw0 & nc & _ & Hrb & Hpay & _).
  pose proof (Forall2_lookup_lr _ _ _ _ _ _ HF Hi' Hrow')
    as (hak' & raw0' & nc' & _ & Hrb' & Hpay' & _).
  apply dict_getitem_ok in Hrb, Hrb'.
  rewrite Hraw in Hrb. rewrite Hraw' in Hrb'.
  injection Hrb as <-. injection Hrb' as <-.
  exact (compute_pay_mono _ _ _ _ _ Hs Hle Hpay Hpay').
Qed.

End Order.

(** ** When rounding to two places succeeds *)

(** A number of 1E+26 or more has at least 1E+28 hundredths. *)
Lemma cents_big (d : Decimal) :
  coef d <> 0 -> 26 <= adjusted d -> 10 ^ prec <= Z.abs (cents d).
Proof.
  intros Hnz Hadj. unfold adjusted in Hadj.
  pose proof (ndigits_spec (coef d) Hnz) as [Hlo _].
  pose proof (ndigits_ge1 (coef d)) as Hn1.
  set (nd := ndigits (coef d)) in *. set (m := Z.abs (coef d)) in *.
  assert (Hm : 0 < m) by (unfold m; lia).
  unfold cents, rescale. destruct (Z.eqb_spec (coef d) 0) as [|_]; [contradiction|].
  destruct (Z.leb_spec (-2) (expo d)) as [Hhi|Hlt]; simpl coef.
  - rewrite Z.abs_mul, (Z.abs_eq (10 ^ _)) by (apply Z.pow_nonneg; lia). fold m.
    pose proof (pow10_pos (expo d - -2) ltac:(lia)) as Hp.
    apply (Z.le_trans _ (10 ^ (nd - 1) * 10 ^ (expo d - -2))); [|nia].
    rewrite <- Z.pow_add_r by lia. apply pow10_le. unfold prec. lia.
  - fold m. set (p := 10 ^ (-2 - expo d)).
    assert (Hp : 0 < p) by (apply pow10_pos; lia).
    assert (Hq : 10 ^ prec <= m / p).
    { apply (Z.le_trans _ (10 ^ (nd - 1) / p)); [|apply Z.div_le_mono; lia].
      replace (nd - 1) with ((nd - 1 - (-2 - expo d)) + (-2 - expo d)) by lia.
      rewrite Z.pow_add_r by lia. fold p. rewrite Z.div_mul by lia.
      apply pow10_le. unfold prec. lia. }
    pose proof (pow10_pos prec ltac:(unfold prec; lia)) as Hpp.
    rewrite abs_sgn_mul; [|exact Hnz|destruct (p <=? 2 * (m mod p)); lia].
    destruct (p <=? 2 * (m mod p)); lia.
Qed.

Lemma _quantize_ok (d : Decimal) :
  Z.abs (cents d) < 10 ^ prec -> _quantize d = Ok (rescale d (-2) ROUND_HALF_UP).
Proof.
  intros Hc. unfold _quantize, quantize, TWOPLACES_exp.
  replace ((Etiny <=? -2) && (-2 <=? Emax)) with true by reflexivity. simpl negb.
  cbv iota.
  destruct (Z.eqb_spec (coef d) 0) as [Hz|Hnz].
  { rewrite fix_zero by reflexivity. unfold rescale. rewrite Hz. reflexivity. }
  assert (Hadj : adjusted d <= 25).
  { destruct (Z.le_gt_cases (adjusted d) 25) as [|Hgt]; [assumption|].
    pose proof (cents_big d Hnz ltac:(lia)). lia. }
  destruct (Z.ltb_spec Emax (adjusted d)) as [Hbad|_]; [unfold Emax in Hbad; lia|].
  destruct (Z.ltb_spec prec (adjusted d - -2 + 1)) as [Hbad|_];
    [unfold prec in Hbad; lia|].
  fold (cents d) in Hc. unfold cents in Hc.
  set (ans := rescale d (-2) ROUND_HALF_UP) in *.
  assert (Hnd : ndigits (coef ans) <= prec)
    by (apply ndigits_lt_pow; [unfold prec; lia|exact Hc]).
  assert (Hea : expo ans = -2) by apply expo_rescale.
  assert (Fa : fixed ans).
  { unfold fixed, adjusted. rewrite Hea. unfold Etiny, Emin, Emax, prec in *.
    split; [exact Hc|lia]. }
  destruct (Z.ltb_spec Emax (adjusted ans)) as [Hbad|_].
  { unfold adjusted in Hbad. rewrite Hea in Hbad. unfold Emax, prec in *. lia. }
  destruct (Z.ltb_spec prec (ndigits (coef ans))) as [Hbad|_]; [lia|].
  now apply fix_id.
Qed.

(** X12. What [_quantize] does: it returns the amount rounded half-up to
    two places, and it raises [decimal.InvalidOperation] exactly when the
    rounded amount would need more than 28 digits, that is, when it
    reaches 1E+26 in magnitude once rounded. *)
Theorem _quantize_spec (d : Decimal) :
  _quantize d =
  if Z.abs (cents d) <? 10 ^ prec
  then Ok (rescale d (-2) ROUND_HALF_UP)
  else Raise InvalidOperation.
Proof.
  destruct (Z.ltb_spec (Z.abs (cents d)) (10 ^ prec)) as [Hlt|Hge].
  - now apply _quantize_ok.
  - destruct (_quantize d) as [x|e] eqn:Hq.
    + apply _quantize_inv in Hq as (-> & _ & Fc & _). unfold cents in Hge. lia.
    + f_equal. exact (quantize_exc _ _ _ _ Hq).
Qed.

(** ** Names that differ only in case *)

Section SameKey.

Variable lower : string -> string.

Local Abbreviation key h := (lower (name h)).

(** The entitlement that stays in the dictionary is that of the last
    shareholder with the key. *)
Lemma entitlements_loop_last (pre post : list Shareholder) (h : Shareholder)
    (dist : Decimal) (e0 e1 : pydict) :
  key h ∉ map (fun h => key h) post ->
  entitlements_loop lower (pre ++ h :: post) dist e0 = Ok e1 ->
  exists v, entitlement_of dist h = Ok v /\ dict_lookup e1 (key h) = Some v.
Proof.
  intros Hlast. revert e0. induction pre as [|h0 pre IH]; intros e0 H.
  - simpl in H. inv_bind H. exists x. split; [exact E|].
    rewrite (entitlements_loop_frame lower _ _ _ _ H _ Hlast).
    rewrite dict_lookup_setitem, String.eqb_refl. reflexivity.
  - simpl in H. inv_bind H. exact (IH _ H).
Qed.

(** X13. The dictionaries of the calculator are keyed by the lower-cased
    name, so shareholders whose names are equal once lower-cased share
    their amounts: their rows show the same entitlement, the same payout
    and the same new carry, and the entitlement shown is computed from the
    percentage of the last of them in the registry. *)
Theorem same_key_same_amounts (m : string) (hs : list Shareholder)
    (total keep : Decimal) (adv carry : pydict) (b : Balances)
    (r : DistributionResult) :
  compute_balances lower hs total keep adv carry = Ok b ->
  compute_distribution lower m hs total keep adv carry = Ok r ->
  (forall (i i' : nat) h h' row row',
     hs !! i = Some h -> rows r !! i = Some row ->
     hs !! i' = Some h' -> rows r !! i' = Some row' ->
     key h = key h' ->
     entitlement row = entitlement row' /\
     paid row = paid row' /\
     new_carry row = new_carry row') /\
  (forall pre post h' (i : nat) h row,
     hs = pre ++ h' :: post ->
     key h' ∉ map (fun h => key h) post ->
     hs !! i = Some h -> rows r !! i = Some row ->
     key h = key h' ->
     exists v, entitlement_of (b_distributable b) h' = Ok v /\
               _quantize v = Ok (entitlement row)).
Proof.
  intros Hb Hr.
  pose proof (compute_balances_inv lower _ _ _ _ _ _ Hb)
    as (_ & _ & _ & _ & Hent & _).
  unfold compute_distribution in Hr. rewrite Hb in Hr. simpl in Hr.
  apply compute_rows_inv in Hr as (tp & s & HF & _).
  split.
  - intros i i' h h' row row' Hi Hrow Hi' Hrow' Hkey.
    pose proof (Forall2_lookup_lr _ _ _ _ _ _ HF Hi Hrow)
      as (hak & raw & nc & Hhak & Hrb & Hpay & Hsub & Hnc & Hq & _).
    pose proof (Forall2_lookup_lr _ _ _ _ _ _ HF Hi' Hrow')
      as (hak' & raw' & nc' & Hhak' & Hrb' & Hpay' & Hsub' & Hnc' & Hq' & _).
    rewrite Hkey in Hhak, Hrb.
    rewrite Hhak in Hhak'. injection Hhak' as <-.
    rewrite Hrb in Hrb'. injection Hrb' as <-.
    rewrite Hpay in Hpay'. injection Hpay' as Hp.
    rewrite Hp in Hsub. rewrite Hsub in Hsub'. injection Hsub' as <-.
    rewrite Hq in Hq'. rewrite Hnc in Hnc'.
    injection Hq' as ->. injection Hnc' as ->. rewrite Hp. auto.
  - intros pre post h' i h row Hhs Hlast Hi Hrow Hkey.
    rewrite Hhs in Hent.
    destruct (entitlements_loop_last _ _ _ _ _ _ Hlast Hent) as (v & Hv & Hlook).
    exists v. split; [exact Hv|].
    pose proof (Forall2_lookup_lr _ _ _ _ _ _ HF Hi Hrow)
      as (hak & raw & nc & Hhak & _ & _ & _ & _ & Hq & _).
    rewrite Hkey in Hhak. apply dict_getitem_ok in Hhak.
    rewrite Hlook in Hhak. now injection Hhak as <-.
Qed.

End SameKey.

(** ** Creditors when the cash covers the claims *)

Section Covered.

Variable lower : string -> string.

Local Abbreviation key h := (lower (name h)).

(** X16. When the positive raw balances together do not exceed the
    distributable amount, a shareholder with a positive raw balance is
    paid it in full and keeps no claim: the new carry is 0.00 when the raw
    balance has at most two decimal places, and it is 0.00 or -0.01
    otherwise (the payout was rounded up from exactly half a hundredth);
    it is never positive. *)
Theorem covered_creditor_keeps_no_claim (m : string) (hs : list Shareholder)
    (total keep : Decimal) (adv carry : pydict) (b : Balances)
    (r : DistributionResult) :
  compute_balances lower hs total keep adv carry = Ok b ->
  compute_distribution lower m hs total keep adv carry = Ok r ->
  dec_gtb (b_total_positive b) (b_distributable b) = false ->
  Forall2 (fun h row =>
             exists raw,
               dict_lookup (b_raw_balances b) (key h) = Some raw /\
               (0 < coef raw ->
                paid row = rescale raw (-2) ROUND_HALF_UP /\
                -1 <= coef (new_carry row) <= 0 /\
                (-2 <= expo raw -> coef (new_carry row) = 0)))
          hs (rows r).
Proof.
  intros Hb Hr Hcover.
  pose proof (scale_nonneg lower _ _ _ _ _ _ Hb) as Hs.
  pose proof (raw_balances_fixed lower _ _ _ _ _ _ Hb) as [_ Hfix].
  pose proof (compute_balances_inv lower _ _ _ _ _ _ Hb)
    as (_ & _ & _ & _ & _ & _ & Hscale).
  unfold compute_scale in Hscale. rewrite Hcover in Hscale. simpl in Hscale.
  injection Hscale as Hsc.
  unfold compute_distribution in Hr. rewrite Hb in Hr. simpl in Hr.
  apply compute_rows_inv in Hr as (tp & s & HF & _).
  clear -HF Hfix Hs Hsc.
  induction HF as [|h row hs' rs' Hrow _ IH]; constructor; [|exact IH].
  destruct Hrow as (hak & raw & nc & _ & Hrb & Hpay & Hsub & Hnc & _).
  apply dict_getitem_ok in Hrb. exists raw. split; [exact Hrb|].
  intros Hpos.
  pose proof (sub_pay_exact _ _ _ _ _ (Hfix _ _ Hrb) Hs Hpay Hsub Hnc) as Hsv.
  pose proof (compute_pay_two_places _ _ _ Hpay) as [Hep _].
  assert (Heq : new_carry row
                = rescale (exact_sub raw (paid row)) (-2) ROUND_HALF_UP).
  { apply _quantize_inv in Hnc as (-> & _). now apply rescale_same_value. }
  assert (Hp : paid row = rescale raw (-2) ROUND_HALF_UP).
  { unfold compute_pay in Hpay. rewrite <- Hsc in Hpay.
    change (dec_ltb dec1 dec1) with false in Hpay. simpl in Hpay.
    unfold positive_part in Hpay. rewrite dec_gtb_0 in Hpay.
    destruct (Z.ltb_spec 0 (coef raw)) as [_|]; [|lia].
    now apply _quantize_inv in Hpay as (-> & _). }
  split; [exact Hp|].
  set (e0 := Z.min (expo raw) (-2)).
  pose proof (pow10_pos (-2 - e0) ltac:(unfold e0; lia)) as HP.
  pose proof (rescale_half_up_spec e0 (-2) raw ltac:(lia) ltac:(unfold e0; lia)
                ltac:(unfold e0; lia)) as S1.
  cbv zeta in S1. rewrite <- Hp in S1.
  set (x := exact_sub raw (paid row)) in *.
  assert (Hd : expo x = e0)
    by (unfold x, exact_sub; simpl; rewrite Hep; reflexivity).
  assert (Hc : sc e0 x = sc e0 raw - coef (paid row) * 10 ^ (-2 - e0)).
  { unfold sc at 1. rewrite Hd, Z.sub_diag, Z.pow_0_r, Z.mul_1_r.
    unfold x, exact_sub, sc. simpl. rewrite Hep. reflexivity. }
  assert (Hcx : coef x = sc e0 x).
  { unfold sc. rewrite Hd, Z.sub_diag, Z.pow_0_r. lia. }
  rewrite Heq.
  set (P := 10 ^ (-2 - e0)) in *. set (cp := coef (paid row)) in *.
  set (sr := sc e0 raw) in *.
  assert (Hrange : -1 <= coef (rescale x (-2) ROUND_HALF_UP) <= 0 /\
                   (sr = cp * P -> coef (rescale x (-2) ROUND_HALF_UP) = 0)).
  { destruct (Z.le_gt_cases 0 (coef x)) as [Hx|Hx].
    - pose proof (rescale_half_up_spec e0 (-2) x Hx ltac:(lia)
                    ltac:(unfold e0; lia)) as S2.
      cbv zeta in S2. fold P in S2. rewrite Hc in S2. rewrite Hcx, Hc in Hx.
      set (c := coef (rescale x (-2) ROUND_HALF_UP)) in *.
      assert (c = 0) by nia. lia.
    - assert (Hnx : 0 <= coef (neg x))
        by (change (coef (neg x)) with (- coef x); lia).
      assert (Hne : e0 <= expo (neg x))
        by (change (expo (neg x)) with (expo x); lia).
      pose proof (rescale_half_up_spec e0 (-2) (neg x) Hnx Hne
                    ltac:(unfold e0; lia)) as S2.
      cbv zeta in S2. fold P in S2. rewrite rescale_neg in S2.
      assert (Hsn : sc e0 (neg x) = - sc e0 x).
      { unfold sc. change (coef (neg x)) with (- coef x).
        change (expo (neg x)) with (expo x). lia. }
      rewrite Hsn, Hc in S2. rewrite Hcx, Hc in Hx.
      change (coef (neg (rescale x (-2) ROUND_HALF_UP)))
        with (- coef (rescale x (-2) ROUND_HALF_UP)) in S2.
      set (c := coef (rescale x (-2) ROUND_HALF_UP)) in *.
      split; [nia|]. intros Heq0. lia. }
  destruct Hrange as [Hr1 Hr2]. split; [exact Hr1|].
  intros He. apply Hr2.
  assert (He0 : e0 = -2) by (unfold e0; lia).
  unfold P in *. rewrite He0 in *. change (10 ^ (-2 - -2)) with 1 in *. lia.
Qed.

End Covered.

(** ** The numbers that the decimals denote *)

Section Values.

Local Open Scope R_scope.

Lemma p10_pos (z : Z) : 0 < powerRZ 10 z.
Proof. apply powerRZ_lt. lra. Qed.

Lemma p10_add (a b : Z) : powerRZ 10 (a + b) = powerRZ 10 a * powerRZ 10 b.
Proof. apply powerRZ_add. lra. Qed.

Lemma p10_IZR (k : Z) : (0 <= k)%Z -> IZR (10 ^ k) = powerRZ 10 k.
Proof.
  intros Hk. rewrite <- (Z2Nat.id k Hk) at 1 2.
  rewrite <- pow_IZR. apply pow_powerRZ.
Qed.

Lemma p10_ge1 (k : Z) : (0 <= k)%Z -> 1 <= powerRZ 10 k.
Proof.
  intros Hk. rewrite <- p10_IZR by exact Hk.
  apply IZR_le. pose proof (pow10_ge1 k Hk). lia.
Qed.

Lemma p10_le (a b : Z) : (a <= b)%Z -> powerRZ 10 a <= powerRZ 10 b.
Proof.
  intros Hab. replace b with (a + (b - a))%Z by lia. rewrite p10_add.
  pose proof (p10_pos a). pose proof (p10_ge1 (b - a) ltac:(lia)). nra.
Qed.

Lemma p10_lt (a b : Z) : (a < b)%Z -> powerRZ 10 a < powerRZ 10 b.
Proof.
  intros Hab. replace b with (a + (b - a))%Z by lia. rewrite p10_add.
  pose proof (p10_pos a).
  assert (10 <= powerRZ 10 (b - a)).
  { replace (b - a)%Z with (1 + (b - a - 1))%Z by lia. rewrite p10_add.
    pose proof (p10_ge1 (b - a - 1) ltac:(lia)).
    replace (powerRZ 10 1) with 10 by (simpl; lra). nra. }
  nra.
Qed.

Lemma val_sc (e0 : Z) (d : Decimal) :
  (e0 <= expo d)%Z -> val d = IZR (sc e0 d) * powerRZ 10 e0.
Proof.
  intros He. unfold val, sc. rewrite mult_IZR, p10_IZR by lia.
  rewrite Rmult_assoc, <- p10_add. do 2 f_equal. lia.
Qed.

Lemma val_zero (d : Decimal) : coef d = 0%Z -> val d = 0.
Proof. intros H. unfold val. rewrite H. lra. Qed.

Lemma val_nonneg (d : Decimal) : (0 <= coef d)%Z -> 0 <= val d.
Proof.
  intros H. unfold val. apply Rmult_le_pos; [now apply IZR_le|].
  apply Rlt_le, p10_pos.
Qed.

Lemma val_pos (d : Decimal) : (0 < coef d)%Z -> 0 < val d.
Proof.
  intros H. unfold val. apply Rmult_lt_0_compat; [now apply IZR_lt|apply p10_pos].
Qed.

Lemma same_value_val (a b : Decimal) : same_value a b -> val a = val b.
Proof.
  intros H. rewrite (val_sc (Z.min (expo a) (expo b)) a) by lia.
  rewrite (val_sc (Z.min (expo a) (expo b)) b) by lia.
  unfold same_value in H. now rewrite H.
Qed.

Lemma val_le (e0 : Z) (a b : Decimal) :
  (e0 <= expo a)%Z -> (e0 <= expo b)%Z -> (sc e0 a <= sc e0 b)%Z -> val a <= val b.
Proof.
  intros Ha Hb Hle. rewrite (val_sc e0 a), (val_sc e0 b) by assumption.
  apply Rmult_le_compat_r; [apply Rlt_le, p10_pos|now apply IZR_le].
Qed.

Lemma dec_leb_val (a b : Decimal) : dec_leb a b = true -> val a <= val b.
Proof.
  intros H. rewrite (dec_leb_sc (Z.min (expo a) (expo b))) in H by lia.
  apply Z.leb_le in H. now apply (val_le (Z.min (expo a) (expo b))); try lia.
Qed.

Lemma dec_ltb_val (a b : Decimal) : dec_ltb a b = true -> val a < val b.
Proof.
  intros H. rewrite (dec_ltb_sc (Z.min (expo a) (expo b))) in H by lia.
  apply Z.ltb_lt in H.
  rewrite (val_sc (Z.min (expo a) (expo b)) a), (val_sc (Z.min (expo a) (expo b)) b) by lia.
  apply Rmult_lt_compat_r; [apply p10_pos|now apply IZR_lt].
Qed.

Lemma val_add_exact (a b : Decimal) :
  val (mkDec (coef a * 10 ^ (expo a - Z.min (expo a) (expo b))
              + coef b * 10 ^ (expo b - Z.min (expo a) (expo b)))
             (Z.min (expo a) (expo b)))
  = val a + val b.
Proof.
  set (e := Z.min (expo a) (expo b)).
  rewrite (val_sc e a), (val_sc e b) by (unfold e; lia).
  unfold val, sc. simpl. rewrite plus_IZR. ring.
Qed.

Lemma val_mul_exact (a b : Decimal) :
  val (mkDec (coef a * coef b) (expo a + expo b)) = val a * val b.
Proof. unfold val. simpl. rewrite mult_IZR, p10_add. ring. Qed.

Lemma val_exact_sub (a b : Decimal) : val (exact_sub a b) = val a - val b.
Proof.
  unfold exact_sub. set (e := Z.min (expo a) (expo b)).
  rewrite (val_sc e a), (val_sc e b) by (unfold e; lia).
  unfold val, sc. simpl. rewrite minus_IZR. ring.
Qed.

Lemma eps_pos : 0 < eps.
Proof. unfold eps. pose proof (p10_pos (1 - prec)). lra. Qed.

Lemma eta_pos : 0 < eta.
Proof. unfold eta. pose proof (p10_pos Etiny). lra. Qed.

Lemma eps_small : eps <= / 100.
Proof.
  unfold eps. pose proof (p10_le (1 - prec) (-2) ltac:(unfold prec; lia)).
  replace (powerRZ 10 (-2)) with (/ 100) in H by (simpl; lra). 
  pose proof (p10_pos (1 - prec)). lra.
Qed.

End Values.

(** ** The error of one operation *)

(** The coefficient that [_fix] keeps is within half a unit of the digits
    it had. *)
Lemma round_up_half (m p c : Z) :
  0 < p -> 0 <= m ->
  (c = m / p /\ round_up ROUND_HALF_EVEN m p = false) \/
  (c = m / p + 1 /\ round_up ROUND_HALF_EVEN m p = true) ->
  2 * Z.abs (c * p - m) <= p.
Proof.
  intros Hp Hm Hc.
  pose proof (Z.div_mod m p ltac:(lia)) as Hdm.
  pose proof (Z.mod_pos_bound m p Hp) as Hr.
  unfold round_up in Hc.
  destruct Hc as [[-> Hf]|[-> Ht]].
  - apply orb_false_iff in Hf as [Hf _]. apply Z.ltb_ge in Hf.
    rewrite Z.abs_neq by nia. nia.
  - assert (Hle : p <= 2 * (m mod p)).
    { apply orb_true_iff in Ht as [Ht|Ht].
      - apply Z.ltb_lt in Ht. lia.
      - apply andb_true_iff in Ht as [Ht _]. apply Z.eqb_eq in Ht. lia. }
    rewrite Z.abs_eq by nia. nia.
Qed.

Section Errors.

Local Open Scope R_scope.

Lemma fix_err_core (d r : Decimal) :
  fix_ d = Ok r -> coef d <> 0%Z ->
  let g := Z.max (ndigits (coef d) + expo d - prec) Etiny in
  r = d \/
  ((expo d < g)%Z /\ Rabs (val r - val d) <= powerRZ 10 g / 2).
Proof.
  intros H Hnz g.
  pose proof (fix_inv d r H Hnz) as Hinv. cbv zeta in Hinv. fold g in Hinv.
  destruct Hinv as [(_ & -> & _)|(Hlt & Hgr & _ & c & Hc & Hcase)]; [now left|right].
  split; [exact Hlt|].
  set (m := Z.abs (coef d)) in *. set (p := (10 ^ (g - expo d))%Z) in *.
  assert (Hp : (0 < p)%Z) by (apply pow10_pos; lia).
  pose proof (round_up_half m p c Hp ltac:(unfold m; lia) Hcase) as Hhalf.
  assert (Hvr : val r = IZR (Z.sgn (coef d) * c) * powerRZ 10 g).
  { rewrite (val_sc g r Hgr). unfold sc. now rewrite Hc. }
  assert (Hvd : val d = IZR (Z.sgn (coef d) * m) * powerRZ 10 (expo d)).
  { unfold val, m. now rewrite sgn_mul_abs. }
  assert (Hg : powerRZ 10 g = IZR p * powerRZ 10 (expo d)).
  { unfold p. rewrite p10_IZR by lia. rewrite <- p10_add. f_equal. lia. }
  assert (Hdiff : val r - val d
                  = IZR (Z.sgn (coef d) * (c * p - m)) * powerRZ 10 (expo d)).
  { rewrite Hvr, Hvd, Hg, !mult_IZR, minus_IZR, mult_IZR. ring. }
  rewrite Hdiff, Rabs_mult, (Rabs_pos_eq (powerRZ _ _)) by (apply Rlt_le, p10_pos).
  rewrite <- abs_IZR, Z.abs_mul.
  replace (Z.abs (Z.sgn (coef d))) with 1%Z by (destruct (coef d); try reflexivity; lia).
  rewrite Z.mul_1_l, Hg.
  pose proof (p10_pos (expo d)) as Hpe.
  assert (Hz : 2 * IZR (Z.abs (c * p - m)) <= IZR p).
  { rewrite <- (mult_IZR 2). now apply IZR_le. }
  nra.
Qed.

(** The number is at least a one at the place of its leading digit. *)
Lemma val_lead (d : Decimal) :
  coef d <> 0%Z -> powerRZ 10 (ndigits (coef d) + expo d - 1) <= Rabs (val d).
Proof.
  intros Hnz. pose proof (ndigits_spec (coef d) Hnz) as [Hlo _].
  pose proof (ndigits_ge1 (coef d)) as Hn1.
  unfold val. rewrite Rabs_mult, (Rabs_pos_eq (powerRZ _ _)) by (apply Rlt_le, p10_pos).
  rewrite <- abs_IZR.
  replace (ndigits (coef d) + expo d - 1)%Z with ((ndigits (coef d) - 1) + expo d)%Z by lia.
  rewrite p10_add, <- p10_IZR by lia.
  apply Rmult_le_compat_r; [apply Rlt_le, p10_pos|now apply IZR_le].
Qed.

Lemma half_unit_rel (d : Decimal) :
  coef d <> 0%Z ->
  powerRZ 10 (ndigits (coef d) + expo d - prec) / 2 <= eps * Rabs (val d).
Proof.
  intros Hnz. pose proof (val_lead d Hnz) as Hl.
  replace (ndigits (coef d) + expo d - prec)%Z
    with ((1 - prec) + (ndigits (coef d) + expo d - 1))%Z by lia.
  rewrite p10_add. unfold eps.
  pose proof (p10_pos (1 - prec)). nra.
Qed.

(** [_fix]: a relative error of at most [eps], or an absolute error of at
    most [eta] where the result is below the normal range. *)
Lemma fix_err (d r : Decimal) :
  fix_ d = Ok r -> Rabs (val r - val d) <= eps * Rabs (val d) + eta.
Proof.
  intros H. pose proof eps_pos. pose proof eta_pos. pose proof (Rabs_pos (val d)).
  destruct (Z.eq_dec (coef d) 0%Z) as [Hz|Hnz].
  { rewrite (fix_zero d Hz) in H. injection H as <-.
    rewrite (val_zero d Hz), val_zero by reflexivity.
    rewrite Rminus_diag, Rabs_R0. nra. }
  pose proof (fix_err_core d r H Hnz) as Hc. cbv zeta in Hc.
  destruct Hc as [->|[_ Hc]].
  { rewrite Rminus_diag, Rabs_R0. nra. }
  pose proof (half_unit_rel d Hnz) as Hrel.
  assert (Hprod : 0 <= eps * Rabs (val d)) by (apply Rmult_le_pos; lra).
  destruct (Z.max_spec (ndigits (coef d) + expo d - prec) Etiny) as [[_ Hm]|[_ Hm]];
    rewrite Hm in Hc; [unfold eta in *; lra|lra].
Qed.

(** Without underflow the error is relative. *)
Lemma fix_err_rel (d r : Decimal) :
  fix_ d = Ok r -> (Etiny <= expo d)%Z -> Rabs (val r - val d) <= eps * Rabs (val d).
Proof.
  intros H He. pose proof eps_pos. pose proof (Rabs_pos (val d)).
  destruct (Z.eq_dec (coef d) 0%Z) as [Hz|Hnz].
  { rewrite (fix_zero d Hz) in H. injection H as <-.
    rewrite (val_zero d Hz), val_zero by reflexivity.
    rewrite Rminus_diag, Rabs_R0. nra. }
  pose proof (fix_err_core d r H Hnz) as Hc. cbv zeta in Hc.
  destruct Hc as [->|[Hlt Hc]].
  { rewrite Rminus_diag, Rabs_R0. nra. }
  pose proof (half_unit_rel d Hnz) as Hrel.
  destruct (Z.max_spec (ndigits (coef d) + expo d - prec) Etiny) as [[_ Hm]|[_ Hm]];
    rewrite Hm in Hc, Hlt; [lia|lra].
Qed.

Lemma add_err (a b r : Decimal) :
  fixed a -> fixed b -> add a b = Ok r ->
  Rabs (val r - (val a + val b)) <= eps * Rabs (val a + val b).
Proof.
  intros (_ & Fa & _) (_ & Fb & _) H. unfold add in H.
  rewrite <- val_add_exact. apply (fix_err_rel _ _ H). simpl. lia.
Qed.

Lemma mul_err (a b r : Decimal) :
  mul a b = Ok r -> Rabs (val r - val a * val b) <= eps * Rabs (val a * val b) + eta.
Proof.
  intros H. unfold mul in H. rewrite <- val_mul_exact. exact (fix_err _ _ H).
Qed.

Lemma _quantize_err (x c : Decimal) :
  _quantize x = Ok c -> Rabs (val c - val x) <= half_cent.
Proof.
  intros H. apply _quantize_inv in H as (Hc & He & _).
  set (e0 := Z.min (expo x) (-2)).
  pose proof (rescale_half_up_error e0 (-2) x ltac:(unfold e0; lia) ltac:(unfold e0; lia))
    as Herr.
  rewrite <- Hc in Herr.
  rewrite (val_sc e0 c), (val_sc e0 x) by (unfold e0; lia).
  unfold sc at 1. rewrite He.
  rewrite <- Rmult_minus_distr_r, <- minus_IZR, Rabs_mult,
    (Rabs_pos_eq (powerRZ _ _)) by (apply Rlt_le, p10_pos).
  rewrite <- abs_IZR. unfold half_cent.
  replace (-2)%Z with ((-2 - e0) + e0)%Z at 2 by lia.
  rewrite p10_add, <- (p10_IZR (-2 - e0)) by (unfold e0; lia).
  pose proof (p10_pos e0).
  assert (Hz : 2 * IZR (Z.abs (coef c * 10 ^ (-2 - e0) - sc e0 x))
               <= IZR (10 ^ (-2 - e0))).
  { rewrite <- (mult_IZR 2). now apply IZR_le. }
  nra.
Qed.

End Errors.

Section Quotients.

Local Open Scope R_scope.

Lemma Rabs_bound (a b : R) : Rabs a <= b -> - b <= a <= b.
Proof. unfold Rabs. destruct (Rcase_abs a); lra. Qed.

(** The quotient of [N] by [M], at least [prec] + 1 digits long, in units
    of 10^[e]: what the division keeps of it, with the sticky digit, and
    what [_fix] makes of that. *)
Lemma quotient_err (sign N M e ideal : Z) (fuel : nat) (X : R) (r : Decimal) :
  sign = 1%Z -> (0 < M)%Z -> (10 ^ prec * M <= N)%Z ->
  X * IZR M = IZR N * powerRZ 10 e ->
  (if (N mod M =? 0)%Z
   then let '(q', e') := strip_zeros fuel (N / M) e ideal in
        fix_ (mkDec (sign * q') e')
   else fix_ (mkDec (sign * (if ((N / M) mod 5 =? 0)%Z then N / M + 1 else N / M))%Z e))
  = Ok r ->
  Rabs (val r - X) <= 2 * eps * X + eta.
Proof.
  intros -> HM HN HX H.
  pose proof (Z.div_mod N M ltac:(lia)) as Hdm.
  pose proof (Z.mod_pos_bound N M HM) as Hrem.
  pose proof (p10_pos e) as Hpe. pose proof eps_pos as Heps. pose proof eta_pos as Heta.
  assert (HMR : 0 < IZR M) by (now apply IZR_lt).
  assert (Hpp : (0 < 10 ^ prec)%Z) by (apply pow10_pos; unfold prec; lia).
  assert (HX0 : powerRZ 10 prec * powerRZ 10 e <= X).
  { assert (Hle : IZR (10 ^ prec * M) <= IZR N) by (now apply IZR_le).
    rewrite mult_IZR, p10_IZR in Hle by (unfold prec; lia).
    assert (powerRZ 10 prec * powerRZ 10 e * IZR M <= X * IZR M) by (rewrite HX; nra).
    apply (Rmult_le_reg_r (IZR M)); assumption. }
  pose proof (p10_pos prec) as Hpprec.
  assert (HXpos : 0 < X) by nra.
  destruct (Z.eqb_spec (N mod M) 0) as [Hz|Hnz].
  - (* the division is exact *)
    destruct (strip_zeros fuel (N / M) e ideal) as [q' e'] eqn:Hs.
    rewrite Z.mul_1_l in H.
    pose proof (strip_zeros_spec _ _ _ _ _ _ Hs) as [Hee Hq].
    assert (Hv : val (mkDec q' e') = X).
    { rewrite (val_sc e) by exact Hee. unfold sc. simpl. rewrite <- Hq.
      apply (Rmult_eq_reg_r (IZR M)); [|lra].
      rewrite HX, Rmult_assoc, (Rmult_comm (powerRZ 10 e)), <- Rmult_assoc, <- mult_IZR.
      do 2 f_equal. lia. }
    pose proof (fix_err _ _ H) as Herr. rewrite Hv in Herr.
    rewrite (Rabs_pos_eq X) in Herr by lra. nra.
  - (* digits are lost *)
    rewrite Z.mul_1_l in H.
    set (c := (if ((N / M) mod 5 =? 0)%Z then N / M + 1 else N / M)%Z) in *.
    assert (Hc : (Z.abs (c * M - N) <= M)%Z).
    { unfold c. destruct ((N / M) mod 5 =? 0)%Z; apply Z.abs_le; nia. }
    assert (Hv : Rabs (val (mkDec c e) - X) <= powerRZ 10 e).
    { unfold val. simpl.
      assert (Heq : (IZR c * powerRZ 10 e - X) * IZR M
                    = IZR (c * M - N) * powerRZ 10 e).
      { rewrite minus_IZR, mult_IZR. nra. }
      assert (Habs : Rabs (IZR c * powerRZ 10 e - X) * IZR M
                     = IZR (Z.abs (c * M - N)) * powerRZ 10 e).
      { rewrite abs_IZR, <- (Rabs_pos_eq (IZR M)) at 1 by lra.
        rewrite <- Rabs_mult, Heq, Rabs_mult, (Rabs_pos_eq (powerRZ 10 e)) by lra.
        reflexivity. }
      assert (Hle : IZR (Z.abs (c * M - N)) <= IZR M) by (now apply IZR_le).
      apply (Rmult_le_reg_r (IZR M)); [lra|]. rewrite Habs. nra. }
    pose proof (fix_err _ _ H) as Herr.
    set (v0 := val (mkDec c e)) in *.
    assert (Hunit : powerRZ 10 e <= X * powerRZ 10 (- prec)).
    { rewrite powerRZ_neg'. apply (Rmult_le_reg_r (powerRZ 10 prec)); [lra|].
      rewrite Rmult_assoc, Rinv_l by lra. lra. }
    assert (Heps5 : eps = 5 * powerRZ 10 (- prec)).
    { unfold eps. replace (1 - prec)%Z with (1 + - prec)%Z by lia. rewrite p10_add.
      replace (powerRZ 10 1) with 10 by (simpl; lra). lra. }
    pose proof (p10_pos (- prec)) as Hpm.
    pose proof eps_small as Hes.
    assert (Hv0 : Rabs v0 <= X + powerRZ 10 e).
    { apply Rabs_bound in Hv. apply Rabs_le. lra. }
    apply Rabs_bound in Hv. apply Rabs_bound in Herr.
    apply Rabs_le.
    assert (Hb1 : eps * Rabs v0 <= eps * (X + powerRZ 10 e)) by nra.
    assert (Hb2 : powerRZ 10 e + eps * powerRZ 10 e <= eps * X) by nra.
    split; nra.
Qed.

(** [a / b] for positive numbers: a relative error of at most 1E-27, or
    an absolute error of at most [eta]. *)
Lemma div_err (a b r : Decimal) :
  (0 < coef a)%Z -> (0 < coef b)%Z -> div a b = Ok r ->
  Rabs (val r - val a / val b) <= 2 * eps * (val a / val b) + eta.
Proof.
  intros Ha Hb H. unfold div in H.
  destruct (Z.eqb_spec (coef b) 0) as [|_]; [lia|].
  destruct (Z.eqb_spec (coef a) 0) as [|_]; [lia|].
  rewrite (Z.abs_eq (coef a)), (Z.abs_eq (coef b)) in H by lia.
  set (sign := (Z.sgn (coef a) * Z.sgn (coef b))%Z) in *.
  assert (Hsign : sign = 1%Z) by (unfold sign; rewrite !Z.sgn_pos by lia; reflexivity).
  clearbody sign.
  set (n := coef a) in *. set (m := coef b) in *.
  set (shift := (ndigits m - ndigits n + prec + 1)%Z) in *.
  set (e := (expo a - expo b - shift)%Z) in *.
  pose proof (ndigits_spec n ltac:(lia)) as [Hnlo _].
  pose proof (ndigits_spec m ltac:(lia)) as [_ Hmhi].
  rewrite Z.abs_eq in Hnlo, Hmhi by lia.
  pose proof (ndigits_ge1 n) as Hn1. pose proof (ndigits_ge1 m) as Hm1.
  pose proof (val_pos b Hb) as Hvb.
  assert (Hva : val a = IZR n * powerRZ 10 (expo a)) by reflexivity.
  assert (Hvb' : val b = IZR m * powerRZ 10 (expo b)) by reflexivity.
  set (X := val a / val b) in *.
  assert (HX : X * val b = val a) by (unfold X; field; lra).
  rewrite Hva, Hvb' in HX.
  pose proof (p10_pos (expo b)) as Hpb.
  assert (Hpp : (0 < 10 ^ prec)%Z) by (apply pow10_pos; unfold prec; lia).
  destruct (Z.leb_spec 0 shift) as [Hs|Hs]; cbv iota beta in H.
  - apply (quotient_err sign (n * 10 ^ shift) m e (expo a - expo b)
             (Z.to_nat (expo a - expo b - e)) _ r Hsign); [lia| |  |exact H].
    + pose proof (pow10_pos (ndigits m) ltac:(lia)).
      apply (Z.le_trans _ (10 ^ prec * 10 ^ ndigits m)); [nia|].
      rewrite <- Z.pow_add_r by (unfold prec; lia).
      apply (Z.le_trans _ (10 ^ (ndigits n - 1) * 10 ^ shift));
        [|pose proof (pow10_pos shift Hs); nia].
      rewrite <- Z.pow_add_r by lia. apply pow10_le. unfold shift, prec. lia.
    + rewrite mult_IZR, p10_IZR by exact Hs.
      replace (expo a) with ((shift + e) + expo b)%Z in HX by (unfold e; lia).
      rewrite !p10_add in HX.
      apply (Rmult_eq_reg_r (powerRZ 10 (expo b))); [|lra]. nra.
  - apply (quotient_err sign n (m * 10 ^ (- shift)) e (expo a - expo b)
             (Z.to_nat (expo a - expo b - e)) _ r Hsign); [| | |exact H].
    + pose proof (pow10_pos (- shift) ltac:(lia)). nia.
    + pose proof (pow10_pos (- shift) ltac:(lia)).
      pose proof (pow10_pos (ndigits m) ltac:(lia)).
      apply (Z.le_trans _ (10 ^ prec * (10 ^ ndigits m * 10 ^ (- shift)))); [nia|].
      rewrite <- !Z.pow_add_r by (unfold prec; lia).
      apply (Z.le_trans _ (10 ^ (ndigits n - 1))); [|lia].
      apply pow10_le. unfold shift, prec in *. lia.
    + rewrite mult_IZR, p10_IZR by lia.
      replace (expo a) with ((e + shift) + expo b)%Z in HX by (unfold e; lia).
      rewrite !p10_add in HX.
      assert (Hinv : powerRZ 10 shift * powerRZ 10 (- shift) = 1).
      { rewrite <- p10_add, Z.add_opp_diag_r. reflexivity. }
      apply (Rmult_eq_reg_r (powerRZ 10 (expo b))); [|lra].
      transitivity (X * (IZR m * powerRZ 10 (expo b)) * powerRZ 10 (- shift)); [ring|].
      rewrite HX.
      transitivity (IZR n * powerRZ 10 e * powerRZ 10 (expo b)
                    * (powerRZ 10 shift * powerRZ 10 (- shift))); [ring|].
      rewrite Hinv. ring.
Qed.

End Quotients.

(** ** The total of the positive raw balances *)

Section Totals.

Variable lower : string -> string.

Local Abbreviation key h := (lower (name h)).

(** With keys that are distinct, every shareholder keeps the raw balance
    of line 54, and the total of line 57 is the decimal sum of the
    positive ones in registry order. *)
Lemma raw_loop_total (hs : list Shareholder) (ent adv carry rb0 rb1 : pydict)
    (tp0 tp1 : Decimal) :
  NoDup (map (fun h => key h) hs) ->
  raw_loop lower hs ent adv carry rb0 tp0 = Ok (rb1, tp1) ->
  exists raws,
    Forall2 (fun h raw => dict_lookup rb1 (key h) = Some raw /\ fixed raw) hs raws /\
    dec_sum tp0 (List.filter is_positive raws) = Ok tp1.
Proof.
  revert rb0 tp0. induction hs as [|h hs IH]; intros rb0 tp0 Hnd H.
  - cbn [raw_loop] in H. injection H as <- <-. exists []. split; [constructor|reflexivity].
  - cbn [raw_loop] in H. inv_bind H. rename x into hak. inv_bind H. rename x into raw.
    inv_bind H. rename x into tp'.
    simpl in Hnd. apply NoDup_cons in Hnd as [Hni Hnd].
    pose proof (raw_loop_frame lower _ _ _ _ _ _ _ _ H _ Hni) as Hframe.
    rewrite dict_lookup_setitem, String.eqb_refl in Hframe.
    destruct (IH _ _ Hnd H) as (raws & HF & Hsum).
    exists (raw :: raws). split.
    + constructor; [|exact HF]. split; [exact Hframe|].
      unfold raw_of in E0. inv_bind E0. exact (add_fixed _ _ _ E0).
    + simpl. unfold is_positive at 1. destruct (dec_gtb raw dec0).
      * cbn [dec_sum]. rewrite E1. exact Hsum.
      * injection E1 as <-. exact Hsum.
Qed.

End Totals.

Section SumErrors.

Local Open Scope R_scope.

Lemma rsum_nonneg (l : list R) : Forall (fun x => 0 <= x) l -> 0 <= rsum l.
Proof. induction 1; simpl; lra. Qed.

(** A decimal sum of numbers that are not negative: it grows, and it is
    off the exact sum by at most [2 * eps] of its value per term. *)
Lemma dec_sum_err (l : list Decimal) (s t : Decimal) :
  fixed s -> (0 <= coef s)%Z ->
  Forall (fun x => fixed x /\ (0 <= coef x)%Z) l ->
  dec_sum s l = Ok t ->
  val s <= val t /\
  Rabs (val t - (val s + rsum (map val l))) <= 2 * INR (length l) * eps * val t.
Proof.
  intros Fs Hs Hl. revert s Fs Hs.
  induction Hl as [|x l [Fx Hx] Hl IH]; intros s Fs Hs H.
  - simpl in H. injection H as <-. simpl. split; [lra|].
    replace (val s - (val s + 0)) with 0 by ring. rewrite Rabs_R0. lra.
  - cbn [dec_sum] in H. inv_bind H. rename x0 into s1.
    pose proof (add_fixed _ _ _ E) as Fs1.
    pose proof (add_err _ _ _ Fs Fx E) as Herr.
    assert (Hs1 : (0 <= coef s1)%Z).
    { unfold add in E. apply (fix_sign _ _ E). simpl.
      pose proof (pow10_pos (expo s - Z.min (expo s) (expo x)) ltac:(lia)).
      pose proof (pow10_pos (expo x - Z.min (expo s) (expo x)) ltac:(lia)). nia. }
    assert (Hmono : val s <= val s1).
    { unfold add in E. set (e := Z.min (expo s) (expo x)) in *.
      pose proof (pow10_pos (expo s - e) ltac:(unfold e; lia)).
      pose proof (pow10_pos (expo x - e) ltac:(unfold e; lia)).
      destruct (fix_lower e _ s1 s E Fs Hs ltac:(simpl; lia) ltac:(unfold e; lia))
        as [He Hle].
      { unfold sc at 2. simpl. rewrite Z.sub_diag, Z.pow_0_r, Z.mul_1_r.
        unfold sc. nia. }
      apply (val_le e); [unfold e; lia|exact He|exact Hle]. }
    destruct (IH s1 Fs1 Hs1 H) as [Hst Hrest].
    pose proof (val_nonneg s Hs) as Hvs. pose proof (val_nonneg x Hx) as Hvx.
    pose proof eps_pos as Heps. pose proof eps_small as Hes.
    split; [lra|].
    rewrite (Rabs_pos_eq (val s + val x)) in Herr by lra.
    apply Rabs_bound in Herr. apply Rabs_bound in Hrest.
    assert (Hea : eps * (val s + val x) <= (val s + val x) / 100) by nra.
    assert (Ha2 : val s + val x <= 2 * val s1) by lra.
    assert (He1 : eps * (val s + val x) <= 2 * eps * val t) by nra.
    change (length (x :: l)) with (S (length l)). rewrite S_INR.
    simpl map. simpl rsum.
    apply Rabs_le. split; nra.
Qed.

End SumErrors.

(** ** The arithmetic of the bounds *)

Section Arithmetic.

Local Open Scope R_scope.

(** The payouts of a shortfall, from above: [sp] is their sum, [A] the
    exact sum of the positive raw balances, [T] their decimal sum, [S]
    the scale, [D] the distributable amount, [k] the error of the sum
    relative to [T], [e] that of one operation, [u] the underflow unit,
    [c] half a hundredth and [n] the number of shareholders. *)
Lemma shortfall_upper (sp A T S D k e u c n : R) :
  0 <= A -> 0 <= T -> 0 <= S -> 0 <= D -> 0 <= n ->
  0 <= e -> e <= k / 10 -> 0 <= k -> k <= / 10 -> 0 <= u ->
  sp <= (1 + e) * (S * A) + n * (u + c) ->
  A <= T * (1 + k) ->
  S * T <= D * (1 + 2 * e) + u * T ->
  sp <= D + 2 * k * D + 2 * (u * T) + n * u + n * c.
Proof.
  intros HA HT HS HD Hn He Hek Hk Hk1 Hu Hsp HAT HST.
  assert (H1 : S * A <= S * T * (1 + k)) by nra.
  assert (H2 : S * T * (1 + k) <= (D * (1 + 2 * e) + u * T) * (1 + k)) by nra.
  assert (H3 : 0 <= u * T) by nra.
  assert (H4 : (1 + e) * ((D * (1 + 2 * e) + u * T) * (1 + k))
               <= D + 2 * k * D + 2 * (u * T)).
  { assert (Hf : (1 + e) * (1 + 2 * e) * (1 + k) <= 1 + 2 * k) by nra.
    assert (Hg : (1 + e) * (1 + k) <= 2) by nra.
    assert (HD' : (1 + e) * (1 + 2 * e) * (1 + k) * D <= (1 + 2 * k) * D) by nra.
    assert (Hu' : (1 + e) * (1 + k) * (u * T) <= 2 * (u * T)) by nra.
    nra. }
  assert (H5 : (1 + e) * (S * A) <= (1 + e) * ((D * (1 + 2 * e) + u * T) * (1 + k))).
  { apply Rmult_le_compat_l; lra. }
  lra.
Qed.

(** The same from below. *)
Lemma shortfall_lower (sp A T S D k e u c n : R) :
  0 <= A -> 0 <= T -> 0 <= S -> 0 <= D -> 0 <= n ->
  0 <= e -> e <= k / 10 -> 0 <= k -> k <= / 10 -> 0 <= u ->
  (1 - e) * (S * A) - n * (u + c) <= sp ->
  T * (1 - k) <= A ->
  D * (1 - 2 * e) - u * T <= S * T ->
  D - 2 * k * D - 2 * (u * T) - n * u - n * c <= sp.
Proof.
  intros HA HT HS HD Hn He Hek Hk Hk1 Hu Hsp HAT HST.
  assert (H1 : S * T * (1 - k) <= S * A) by nra.
  assert (H3 : 0 <= u * T) by nra.
  assert (H2 : (D * (1 - 2 * e) - u * T) * (1 - k) <= S * T * (1 - k)) by nra.
  assert (H4 : D - 2 * k * D - 2 * (u * T)
               <= (1 - e) * ((D * (1 - 2 * e) - u * T) * (1 - k))).
  { assert (Hf : 1 - 2 * k <= (1 - e) * (1 - 2 * e) * (1 - k)) by nra.
    assert (Hg : (1 - e) * (1 - k) <= 2) by nra.
    assert (Hg0 : 0 <= (1 - e) * (1 - k)) by nra.
    assert (HD' : (1 - 2 * k) * D <= (1 - e) * (1 - 2 * e) * (1 - k) * D) by nra.
    assert (Hu' : (1 - e) * (1 - k) * (u * T) <= 2 * (u * T)) by nra.
    nra. }
  assert (H5 : (1 - e) * ((D * (1 - 2 * e) - u * T) * (1 - k)) <= (1 - e) * (S * A)).
  { apply Rmult_le_compat_l; [lra|]. lra. }
  lra.
Qed.

End Arithmetic.

(** ** The payouts as numbers *)

Section Payouts.

Local Open Scope R_scope.

Lemma val_positive_part (raw : Decimal) :
  val (positive_part raw) = if is_positive raw then val raw else 0.
Proof.
  unfold positive_part, is_positive. destruct (dec_gtb raw dec0); [reflexivity|].
  now apply val_zero.
Qed.

Lemma positive_part_val_nonneg (raw : Decimal) : 0 <= val (positive_part raw).
Proof. apply val_nonneg, positive_part_nonneg. Qed.

Lemma rsum_positive (raws : list Decimal) :
  rsum (map (fun raw => val (positive_part raw)) raws)
  = rsum (map val (List.filter is_positive raws)).
Proof.
  induction raws as [|raw raws IH]; [reflexivity|].
  simpl. rewrite val_positive_part, IH.
  destruct (is_positive raw); simpl; lra.
Qed.

Lemma two_places_val (d : Decimal) : two_places d -> Rabs (val d) < powerRZ 10 26.
Proof.
  intros [He Hc]. unfold val. rewrite He, Rabs_mult, <- abs_IZR.
  rewrite (Rabs_pos_eq (powerRZ 10 (-2))) by (apply Rlt_le, p10_pos).
  replace 26%Z with (prec + -2)%Z by reflexivity. rewrite p10_add.
  apply Rmult_lt_compat_r; [apply p10_pos|].
  rewrite <- p10_IZR by (unfold prec; lia). now apply IZR_lt.
Qed.

(** One payout with scaling: the decimal product, then two places. *)
Lemma compute_pay_scaled (raw scale pay : Decimal) :
  (0 <= coef scale)%Z -> dec_ltb scale dec1 = true ->
  compute_pay raw scale = Ok pay ->
  Rabs (val pay - val (positive_part raw) * val scale)
    <= eps * (val (positive_part raw) * val scale) + eta + half_cent.
Proof.
  intros Hs Hlt H. unfold compute_pay in H. rewrite Hlt in H. inv_bind H.
  pose proof (mul_err _ _ _ E) as Hm. pose proof (_quantize_err _ _ H) as Hq.
  pose proof (positive_part_val_nonneg raw) as HP. pose proof (val_nonneg _ Hs) as HS.
  rewrite (Rabs_pos_eq (_ * _)) in Hm by (apply Rmult_le_pos; assumption).
  apply Rabs_bound in Hm. apply Rabs_bound in Hq. apply Rabs_le. lra.
Qed.

(** One payout without scaling. *)
Lemma compute_pay_unscaled (raw scale pay : Decimal) :
  dec_ltb scale dec1 = false ->
  compute_pay raw scale = Ok pay ->
  Rabs (val pay - val (positive_part raw)) <= half_cent.
Proof.
  intros Hlt H. unfold compute_pay in H. rewrite Hlt in H. simpl in H.
  exact (_quantize_err _ _ H).
Qed.

Lemma pays_scaled (scale : Decimal) (raws : list Decimal) (rs : list ResultRow) :
  (0 <= coef scale)%Z -> dec_ltb scale dec1 = true ->
  Forall2 (fun raw row => compute_pay raw scale = Ok (paid row)) raws rs ->
  let sp := rsum (map (fun row => val (paid row)) rs) in
  let A := rsum (map (fun raw => val (positive_part raw)) raws) in
  sp <= (1 + eps) * (val scale * A) + INR (length raws) * (eta + half_cent) /\
  (1 - eps) * (val scale * A) - INR (length raws) * (eta + half_cent) <= sp.
Proof.
  intros Hs Hlt HF. cbv zeta.
  induction HF as [|raw row raws rs Hpay _ [IH1 IH2]].
  - simpl. split; lra.
  - pose proof (compute_pay_scaled _ _ _ Hs Hlt Hpay) as Herr.
    apply Rabs_bound in Herr.
    change (length (raw :: raws)) with (S (length raws)). rewrite S_INR.
    simpl map. simpl rsum. split; nra.
Qed.

Lemma pays_unscaled (scale : Decimal) (raws : list Decimal) (rs : list ResultRow) :
  dec_ltb scale dec1 = false ->
  Forall2 (fun raw row => compute_pay raw scale = Ok (paid row)) raws rs ->
  let sp := rsum (map (fun row => val (paid row)) rs) in
  let A := rsum (map (fun raw => val (positive_part raw)) raws) in
  sp <= A + INR (length raws) * half_cent /\
  A - INR (length raws) * half_cent <= sp.
Proof.
  intros Hlt HF. cbv zeta.
  induction HF as [|raw row raws rs Hpay _ [IH1 IH2]].
  - simpl. split; lra.
  - pose proof (compute_pay_unscaled _ _ _ Hlt Hpay) as Herr.
    apply Rabs_bound in Herr.
    change (length (raw :: raws)) with (S (length raws)). rewrite S_INR.
    simpl map. simpl rsum. split; nra.
Qed.

(** A raw balance whose row could be written is below 1E+27. *)
Lemma raw_val_bound (raw scale pay nc c : Decimal) :
  fixed raw -> (0 <= coef scale)%Z ->
  compute_pay raw scale = Ok pay ->
  sub raw pay = Ok nc -> _quantize nc = Ok c ->
  val raw <= powerRZ 10 27.
Proof.
  intros Fr Hs Hpay Hsub Hq.
  pose proof (sub_pay_exact _ _ _ _ _ Fr Hs Hpay Hsub Hq) as Hsv.
  apply same_value_val in Hsv. rewrite val_exact_sub in Hsv.
  pose proof (two_places_val _ (compute_pay_two_places _ _ _ Hpay)) as Hp.
  pose proof (two_places_val _ (_quantize_two_places _ _ Hq)) as Hc.
  pose proof (_quantize_err _ _ Hq) as He.
  apply Rabs_bound in He.
  assert (Hp' : val pay < powerRZ 10 26).
  { eapply Rle_lt_trans; [apply Rle_abs|exact Hp]. }
  assert (Hc' : val c < powerRZ 10 26).
  { eapply Rle_lt_trans; [apply Rle_abs|exact Hc]. }
  assert (H27 : powerRZ 10 27 = 10 * powerRZ 10 26).
  { replace 27%Z with (1 + 26)%Z by reflexivity. rewrite p10_add.
    replace (powerRZ 10 1) with 10 by (simpl; lra). reflexivity. }
  assert (Hhc : half_cent <= 1).
  { unfold half_cent. pose proof (p10_le (-2) 0 ltac:(lia)) as H0.
    replace (powerRZ 10 0) with 1 in H0 by reflexivity. pose proof (p10_pos (-2)). lra. }
  pose proof (p10_ge1 26 ltac:(lia)). lra.
Qed.

Lemma rsum_le_const (B : R) (l : list R) :
  Forall (fun x => x <= B) l -> rsum l <= INR (length l) * B.
Proof.
  induction 1 as [|x l Hx _ IH]; [simpl; lra|].
  change (length (x :: l)) with (S (length l)). rewrite S_INR. simpl rsum. lra.
Qed.

End Payouts.

(** ** The total paid and the distributable amount *)

Section Scale.

Local Open Scope R_scope.

(** The scale of a shortfall, as a number. *)
Lemma scale_err (dist tp scale : Decimal) :
  fixed dist -> fixed tp -> (0 <= coef dist)%Z ->
  dec_gtb tp dist && dec_gtb tp dec0 = true ->
  compute_scale dist tp = Ok scale ->
  (0 <= coef scale)%Z /\ dec_ltb scale dec1 = true /\
  Rabs (val scale * val tp - val dist) <= 2 * eps * val dist + eta * val tp.
Proof.
  intros Fd Ft Hd Hc H. unfold compute_scale in H. rewrite Hc in H.
  apply andb_true_iff in Hc as [Hgt Hpos].
  rewrite dec_gtb_0 in Hpos. apply Z.ltb_lt in Hpos.
  split; [exact (div_nonneg _ _ _ Hd Hpos H)|].
  split; [exact (div_lt_one _ _ _ Fd Ft Hd Hpos Hgt H)|].
  pose proof (val_pos tp Hpos) as HT. pose proof eps_pos. pose proof eta_pos.
  destruct (Z.eq_dec (coef dist) 0%Z) as [Hz|Hnz].
  - destruct (div_zero_l dist tp Hz ltac:(lia)) as (z & Hz' & Hz0 & _).
    rewrite H in Hz'. injection Hz' as <-.
    rewrite (val_zero scale Hz0), (val_zero dist Hz).
    replace (0 * val tp - 0) with 0 by ring. rewrite Rabs_R0. nra.
  - pose proof (div_err dist tp scale ltac:(lia) Hpos H) as Herr.
    apply Rabs_bound in Herr.
    assert (HX : val dist / val tp * val tp = val dist) by (field; lra).
    set (X := val dist / val tp) in *.
    apply Rabs_le. split; nra.
Qed.

End Scale.

Section Bounds.

Variable lower : string -> string.

Local Abbreviation key h := (lower (name h)).

Local Open Scope R_scope.

Lemma rows_of_raws (ent adv carry rb : pydict) (scale : Decimal)
    (hs : list Shareholder) (raws : list Decimal) (rs : list ResultRow) :
  (0 <= coef scale)%Z ->
  Forall2 (fun h raw => dict_lookup rb (key h) = Some raw /\ fixed raw) hs raws ->
  Forall2 (row_of lower ent adv carry rb scale) hs rs ->
  Forall2 (fun raw row => compute_pay raw scale = Ok (paid row)) raws rs /\
  Forall (fun raw => val (positive_part raw) <= powerRZ 10 27) raws.
Proof.
  intros Hs HFraw. revert rs.
  induction HFraw as [|h raw hs raws [Hlook Fr] _ IH]; intros rs HF.
  - inversion HF. split; constructor.
  - inversion HF as [|h0 row hs0 rs0 Hrow HF0]; subst.
    destruct (IH _ HF0) as [IH1 IH2].
    destruct Hrow as (hak & raw' & nc & _ & Hrb & Hpay & Hsub & Hnc & _).
    apply dict_getitem_ok in Hrb. rewrite Hlook in Hrb. injection Hrb as <-.
    split; constructor; try assumption.
    rewrite val_positive_part. destruct (is_positive raw).
    + exact (raw_val_bound _ _ _ _ _ Fr Hs Hpay Hsub Hnc).
    + apply Rlt_le, p10_pos.
Qed.

Lemma rsum_paid (rs : list ResultRow) :
  Forall (fun row => expo (paid row) = (-2)%Z) rs ->
  rsum (map (fun row => val (paid row)) rs)
  = IZR (coef_sum (map paid rs)) * powerRZ 10 (-2).
Proof.
  induction 1 as [|row rs He _ IH]; [simpl; lra|].
  simpl map. change (coef_sum (paid row :: map paid rs))
    with (coef (paid row) + coef_sum (map paid rs))%Z.
  simpl rsum. rewrite IH, plus_IZR. unfold val. rewrite He. ring.
Qed.

(** What the settlement gives to the analysis: the sum of the payouts
    against the exact data of the run. *)
Lemma settlement_numbers (m : string) (hs : list Shareholder)
    (total keep : Decimal) (adv carry : pydict) (b : Balances)
    (r : DistributionResult) :
  compute_balances lower hs total keep adv carry = Ok b ->
  compute_distribution lower m hs total keep adv carry = Ok r ->
  NoDup (map (fun h => key h) hs) ->
  (Z.of_nat (length hs) <= 1000000)%Z ->
  (coef (distributable r) < 10 ^ 20)%Z ->
  let sp := IZR (coef (total_paid r)) * powerRZ 10 (-2) in
  let D := val (b_distributable b) in
  let n := INR (length hs) in
  0 <= D /\
  Rabs (IZR (coef (distributable r)) * powerRZ 10 (-2) - D) <= half_cent /\
  sp <= D + n * half_cent + 4 * powerRZ 10 (-3) /\
  (dec_gtb (b_total_positive b) (b_distributable b) = true ->
   D - n * half_cent - 4 * powerRZ 10 (-3) <= sp).
Proof.
  intros Hb Hr Hnd Hlen Hdist. cbv zeta.
  pose proof (scale_nonneg lower _ _ _ _ _ _ Hb) as Hs.
  pose proof (raw_balances_fixed lower _ _ _ _ _ _ Hb) as [Ftp Hfix].
  pose proof (total_paid_exact lower _ _ _ _ _ _ _ Hr) as [Htpe Htpc].
  pose proof (compute_balances_inv lower _ _ _ _ _ _ Hb)
    as (_ & _ & Hsub & Hd0 & _ & Hraw & Hscale).
  rewrite dec_ltb_0 in Hd0. apply Z.ltb_ge in Hd0.
  assert (Fd : fixed (b_distributable b)) by exact (add_fixed _ _ _ Hsub).
  destruct (raw_loop_total lower _ _ _ _ _ _ _ _ Hnd Hraw) as (raws & HFraw & Hsum).
  unfold compute_distribution in Hr. rewrite Hb in Hr. simpl in Hr.
  apply compute_rows_inv in Hr as (tp & s & HF & _ & _ & _ & _ & Hqd & _).
  destruct (rows_of_raws _ _ _ _ _ _ _ _ Hs HFraw HF) as [HFpay Hbound].
  assert (Hlraws : length raws = length hs).
  { clear -HFraw. induction HFraw; simpl; congruence. }
  (* the numbers *)
  set (D := val (b_distributable b)). set (T := val (b_total_positive b)).
  set (S := val (b_scale b)).
  set (A := rsum (map (fun raw => val (positive_part raw)) raws)).
  set (n := INR (length hs)).
  assert (HD : 0 <= D) by (apply val_nonneg; exact Hd0).
  assert (HS : 0 <= S) by (apply val_nonneg; exact Hs).
  assert (Hn0 : 0 <= n) by apply pos_INR.
  assert (Hn6 : n <= powerRZ 10 6).
  { unfold n. rewrite <- (p10_IZR 6) by lia. rewrite INR_IZR_INZ. apply IZR_le.
    change (10 ^ 6)%Z with 1000000%Z. lia. }
  assert (HA0 : 0 <= A).
  { apply rsum_nonneg. clear. induction raws; constructor; [|assumption].
    apply positive_part_val_nonneg. }
  assert (HA27 : A <= n * powerRZ 10 27).
  { unfold n. rewrite <- Hlraws, <- (length_map (fun raw => val (positive_part raw))).
    apply rsum_le_const. clear -Hbound.
    induction Hbound; constructor; assumption. }
  (* the decimal sum of the positive raw balances *)
  assert (Hposl : Forall (fun x => fixed x /\ (0 <= coef x)%Z)
                    (List.filter is_positive raws)).
  { clear -HFraw. induction HFraw as [|h raw hs raws [_ Fr] _ IH]; [constructor|].
    simpl. destruct (is_positive raw) eqn:Hp; [|exact IH].
    constructor; [|exact IH]. split; [exact Fr|].
    unfold is_positive in Hp. rewrite dec_gtb_0 in Hp. apply Z.ltb_lt in Hp. lia. }
  destruct (dec_sum_err _ dec0 _ dec0_fixed ltac:(simpl; lia) Hposl Hsum) as [HT0 HTA].
  rewrite <- rsum_positive in HTA. fold A T in HTA.
  replace (val dec0) with 0 in HTA, HT0 by (symmetry; now apply val_zero).
  fold T in HT0. rewrite Rplus_0_l in HTA.
  set (n' := INR (length (List.filter is_positive raws))) in *.
  assert (Hn' : 0 <= n' <= n).
  { split; [apply pos_INR|]. unfold n', n. rewrite <- Hlraws. apply le_INR.
    clear. induction raws as [|x l IH]; simpl; [lia|].
    destruct (is_positive x); simpl; lia. }
  pose proof eps_pos as Heps. pose proof eta_pos as Heta.
  assert (He27 : 2 * eps = powerRZ 10 (-27)).
  { unfold eps. replace (1 - prec)%Z with (-27)%Z by reflexivity. lra. }
  assert (Hk : 2 * n' * eps <= powerRZ 10 (-21)).
  { replace (-21)%Z with (6 + -27)%Z by reflexivity. rewrite p10_add.
    replace (2 * n' * eps) with (n' * powerRZ 10 (-27)) by (rewrite <- He27; ring).
    apply Rmult_le_compat_r; [apply Rlt_le, p10_pos|lra]. }
  set (k := powerRZ 10 (-21)) in *.
  assert (Hk0 : 0 < k) by apply p10_pos.
  assert (Hk1 : k <= / 10).
  { unfold k. pose proof (p10_le (-21) (-1) ltac:(lia)) as H1.
    replace (powerRZ 10 (-1)) with (/ 10) in H1 by (simpl; lra). exact H1. }
  assert (Hek : eps <= k / 10).
  { unfold k. pose proof (p10_le (-27) (-22) ltac:(lia)) as H1.
    replace (-22)%Z with (-21 + -1)%Z in H1 by reflexivity. rewrite p10_add in H1.
    replace (powerRZ 10 (-1)) with (/ 10) in H1 by (simpl; lra).
    pose proof (p10_pos (-27)). lra. }
  apply Rabs_bound in HTA.
  assert (HAT1 : A <= T * (1 + k)) by nra.
  assert (HAT2 : T * (1 - k) <= A) by nra.
  assert (HT2A : T <= 2 * A) by nra.
  (* the small terms *)
  assert (Hu1 : eta * T <= powerRZ 10 (-10)).
  { assert (H1 : eta * T <= powerRZ 10 Etiny * (powerRZ 10 6 * powerRZ 10 27)).
    { unfold eta. pose proof (p10_pos Etiny). pose proof (p10_pos 27).
      assert (T <= 2 * (powerRZ 10 6 * powerRZ 10 27)) by nra. nra. }
    rewrite <- !p10_add in H1.
    pose proof (p10_le (Etiny + (6 + 27)) (-10) ltac:(unfold Etiny, Emin, prec; lia)).
    lra. }
  assert (Hu2 : n * eta <= powerRZ 10 (-10)).
  { assert (H1 : n * eta <= powerRZ 10 6 * powerRZ 10 Etiny).
    { unfold eta. pose proof (p10_pos Etiny). nra. }
    rewrite <- p10_add in H1.
    pose proof (p10_le (6 + Etiny) (-10) ltac:(unfold Etiny, Emin, prec; lia)). lra. }
  (* the distributable amount of the result *)
  pose proof (_quantize_err _ _ Hqd) as HqD. fold D in HqD.
  pose proof (_quantize_two_places _ _ Hqd) as [Hqe _].
  assert (HvqD : val (distributable r) = IZR (coef (distributable r)) * powerRZ 10 (-2))
    by (unfold val; now rewrite Hqe).
  rewrite HvqD in HqD.
  assert (HD18 : D <= powerRZ 10 18 + half_cent).
  { apply Rabs_bound in HqD.
    assert (IZR (coef (distributable r)) <= powerRZ 10 20).
    { rewrite <- p10_IZR by lia. apply IZR_le. lia. }
    replace 18%Z with (20 + -2)%Z by reflexivity. rewrite p10_add.
    pose proof (p10_pos (-2)). nra. }
  assert (Hhc : half_cent = 5 * powerRZ 10 (-3)).
  { unfold half_cent. simpl. lra. }
  assert (Hp3 : powerRZ 10 (-3) = / 1000) by (simpl; lra).
  assert (HkD : 2 * k * D <= 3 * powerRZ 10 (-3)).
  { assert (H1 : k * powerRZ 10 18 = powerRZ 10 (-3))
      by (unfold k; rewrite <- p10_add; reflexivity).
    assert (H2 : k * half_cent <= powerRZ 10 (-3) / 10).
    { unfold k. pose proof (p10_le (-21) (-3) ltac:(lia)). rewrite Hhc, Hp3 in *.
      nra. }
    nra. }
  assert (Hp10 : powerRZ 10 (-10) <= powerRZ 10 (-3) / 10).
  { pose proof (p10_le (-10) (-4) ltac:(lia)) as H1.
    replace (powerRZ 10 (-4)) with (powerRZ 10 (-3) / 10) in H1 by (simpl; lra).
    exact H1. }
  (* the sum of the payouts *)
  assert (Hsp : rsum (map (fun row => val (paid row)) (rows r))
                = IZR (coef (total_paid r)) * powerRZ 10 (-2)).
  { rewrite Htpc. apply rsum_paid. clear -HFpay.
    induction HFpay as [|raw row raws rs Hpay _ IH]; constructor; [|exact IH].
    exact (proj1 (compute_pay_two_places _ _ _ Hpay)). }
  rewrite <- Hsp. set (sp := rsum (map (fun row => val (paid row)) (rows r))).
  split; [exact HD|]. split; [exact HqD|].
  destruct (dec_gtb (b_total_positive b) (b_distributable b)
            && dec_gtb (b_total_positive b) dec0) eqn:Hshort.
  - (* a shortfall *)
    destruct (scale_err _ _ _ Fd Ftp Hd0 Hshort Hscale) as (_ & Hlt & HST).
    fold S T D in HST. apply Rabs_bound in HST.
    destruct (pays_scaled _ _ _ Hs Hlt HFpay) as [Hup Hlo].
    fold sp A S in Hup, Hlo. rewrite Hlraws in Hup, Hlo. fold n in Hup, Hlo.
    pose proof (shortfall_upper sp A T S D k eps eta half_cent n HA0 HT0 HS HD Hn0
                  ltac:(lra) Hek ltac:(lra) Hk1 ltac:(lra) Hup HAT1 ltac:(lra)) as HU.
    pose proof (shortfall_lower sp A T S D k eps eta half_cent n HA0 HT0 HS HD Hn0
                  ltac:(lra) Hek ltac:(lra) Hk1 ltac:(lra) Hlo HAT2 ltac:(lra)) as HL.
    split; [lra|]. intros _. lra.
  - (* the positive raw balances are covered *)
    unfold compute_scale in Hscale. rewrite Hshort in Hscale.
    injection Hscale as Hsc.
    assert (Hlt : dec_ltb (b_scale b) dec1 = false) by (rewrite <- Hsc; reflexivity).
    destruct (pays_unscaled _ _ _ Hlt HFpay) as [Hup _].
    fold sp A in Hup. rewrite Hlraws in Hup. fold n in Hup.
    assert (HTD : T <= D).
    { apply andb_false_iff in Hshort as [Hc|Hc].
      - apply dec_leb_val. unfold dec_leb. unfold dec_gtb in Hc. now rewrite Hc.
      - rewrite dec_gtb_0 in Hc. apply Z.ltb_ge in Hc.
        assert (T <= 0); [|lra]. unfold T, val.
        pose proof (p10_pos (expo (b_total_positive b))).
        assert (IZR (coef (b_total_positive b)) <= 0) by (now apply IZR_le). nra. }
    split.
    + assert (A <= D * (1 + k)) by nra. nra.
    + intros Hgt. apply andb_false_iff in Hshort as [Hc|Hc]; [congruence|].
      (* the total is zero, and so is the distributable amount *)
      rewrite dec_gtb_0 in Hc. apply Z.ltb_ge in Hc.
      exfalso. apply dec_ltb_val in Hgt. fold D T in Hgt.
      assert (T <= 0); [|lra]. unfold T, val.
      pose proof (p10_pos (expo (b_total_positive b))).
      assert (IZR (coef (b_total_positive b)) <= 0) by (now apply IZR_le). nra.
Qed.

End Bounds.

(** ** No more than the distributable amount, up to rounding *)

Section Totals_paid.

Variable lower : string -> string.

Local Abbreviation key h := (lower (name h)).

(** X14. When no two shareholders share a key, the total paid exceeds the
    distributable amount of the result by at most half a hundredth for each
    shareholder and half a hundredth more: each payout is rounded to
    hundredths on its own, and so is the distributable amount.  (At most a
    million shareholders and a distributable amount below 10^18.) *)
Theorem paid_total_is_bounded (m : string) (hs : list Shareholder)
    (total keep : Decimal) (adv carry : pydict) (b : Balances)
    (r : DistributionResult) :
  compute_balances lower hs total keep adv carry = Ok b ->
  compute_distribution lower m hs total keep adv carry = Ok r ->
  NoDup (map (fun h => key h) hs) ->
  Z.of_nat (length hs) <= 1000000 ->
  coef (distributable r) < 10 ^ 20 ->
  2 * (coef (total_paid r) - coef (distributable r)) <= Z.of_nat (length hs) + 1.
Proof.
  intros Hb Hr Hnd Hlen Hdist.
  pose proof (settlement_numbers lower _ _ _ _ _ _ _ _ Hb Hr Hnd Hlen Hdist)
    as (_ & Hq & Hup & _).
  apply Rabs_bound in Hq.
  assert (Hhc : half_cent = (5 * powerRZ 10 (-3))%R)
    by (unfold half_cent; simpl; lra).
  assert (Hp2 : powerRZ 10 (-2) = (10 * powerRZ 10 (-3))%R) by (simpl; lra).
  pose proof (p10_pos (-3)) as Hp3.
  rewrite INR_IZR_INZ, Hhc, Hp2 in *.
  set (c := coef (total_paid r)) in *. set (q := coef (distributable r)) in *.
  set (n := Z.of_nat (length hs)) in *.
  assert (Hlt : (IZR (2 * (c - q)) < IZR (n + 2))%R).
  { rewrite mult_IZR, minus_IZR, plus_IZR. nra. }
  apply lt_IZR in Hlt. lia.
Qed.

(** X15. In a shortfall (the positive raw balances together exceed the
    distributable amount) nothing is held back: the total paid falls short
    of the distributable amount of the result by at most half a hundredth
    for each shareholder and half a hundredth more. *)
Theorem shortfall_pays_everything (m : string) (hs : list Shareholder)
    (total keep : Decimal) (adv carry : pydict) (b : Balances)
    (r : DistributionResult) :
  compute_balances lower hs total keep adv carry = Ok b ->
  compute_distribution lower m hs total keep adv carry = Ok r ->
  NoDup (map (fun h => key h) hs) ->
  Z.of_nat (length hs) <= 1000000 ->
  coef (distributable r) < 10 ^ 20 ->
  dec_gtb (b_total_positive b) (b_distributable b) = true ->
  2 * (coef (distributable r) - coef (total_paid r)) <= Z.of_nat (length hs) + 1.
Proof.
  intros Hb Hr Hnd Hlen Hdist Hshort.
  pose proof (settlement_numbers lower _ _ _ _ _ _ _ _ Hb Hr Hnd Hlen Hdist)
    as (_ & Hq & _ & Hlo).
  specialize (Hlo Hshort).
  apply Rabs_bound in Hq.
  assert (Hhc : half_cent = (5 * powerRZ 10 (-3))%R)
    by (unfold half_cent; simpl; lra).
  assert (Hp2 : powerRZ 10 (-2) = (10 * powerRZ 10 (-3))%R) by (simpl; lra).
  pose proof (p10_pos (-3)) as Hp3.
  rewrite INR_IZR_INZ, Hhc, Hp2 in *.
  set (c := coef (total_paid r)) in *. set (q := coef (distributable r)) in *.
  set (n := Z.of_nat (length hs)) in *.
  assert (Hlt : (IZR (2 * (q - c)) < IZR (n + 2))%R).
  { rewrite mult_IZR, minus_IZR, plus_IZR. nra. }
  apply lt_IZR in Hlt. lia.
Qed.

End Totals_paid.


(** * The settlement in the words of the specification *)

(** ** Numbers that fit the context

    When the numbers are small enough, no operation of a settlement
    raises: [_fix] has no overflow and [quantize] has room for its two
    places. *)

Section Within.

Local Open Scope R_scope.

Lemma val_neg (d : Decimal) : val (neg d) = - val d.
Proof. unfold val, neg. simpl. rewrite opp_IZR. ring. Qed.

Lemma val_unit (K : Z) : val (mkDec 1 K) = powerRZ 10 K.
Proof. unfold val. simpl. lra. Qed.

Lemma p10_next (K : Z) : powerRZ 10 (K + 1) = 10 * powerRZ 10 K.
Proof.
  rewrite p10_add. replace (powerRZ 10 1) with 10 by (simpl; lra). ring.
Qed.

Lemma within_le (K K' : Z) (d : Decimal) : (K <= K')%Z -> within K d -> within K' d.
Proof. unfold within. intros H Hw. pose proof (p10_le K K' H). lra. Qed.

Lemma within_zero (K : Z) (d : Decimal) : coef d = 0%Z -> within K d.
Proof.
  intros H. unfold within. rewrite (val_zero d H), Rabs_R0. apply Rlt_le, p10_pos.
Qed.

Lemma within_nonneg (K : Z) (d : Decimal) :
  (0 <= coef d)%Z -> within K d <-> val d <= powerRZ 10 K.
Proof.
  intros H. unfold within. rewrite Rabs_pos_eq by (now apply val_nonneg). tauto.
Qed.

(** Rounding to the context is odd: it treats a number and its opposite
    alike. *)
Lemma fix_neg (d : Decimal) :
  fix_ (neg d) = match fix_ d with Ok r => Ok (neg r) | Raise e => Raise e end.
Proof.
  unfold fix_, neg. cbn [coef expo]. rewrite Z.abs_opp, Z.sgn_opp.
  repeat match goal with
         | |- context [if ?b then _ else _] => destruct b
         end; try reflexivity; cbn [coef expo]; f_equal; f_equal; ring.
Qed.

Lemma adjusted_within (K : Z) (d : Decimal) :
  coef d <> 0%Z -> within K d -> (ndigits (coef d) + expo d - 1 <= K)%Z.
Proof.
  intros Hnz Hw. pose proof (val_lead d Hnz) as Hl.
  destruct (Z.le_gt_cases (ndigits (coef d) + expo d - 1) K) as [|Hgt]; [assumption|].
  pose proof (p10_lt K (ndigits (coef d) + expo d - 1) ltac:(lia)).
  unfold within in Hw. lra.
Qed.

(** No overflow below 1E+999999. *)
Lemma fix_ok (K : Z) (d : Decimal) :
  (K < Emax)%Z -> within K d -> exists r, fix_ d = Ok r.
Proof.
  intros HK Hw. destruct (Z.eq_dec (coef d) 0%Z) as [Hz|Hnz].
  { rewrite (fix_zero d Hz). eauto. }
  pose proof (adjusted_within K d Hnz Hw) as Ha.
  unfold fix_. cbv zeta. rewrite ndigits_abs.
  destruct (Z.eqb_spec (Z.abs (coef d)) 0%Z); [lia|].
  destruct (Z.ltb_spec Etop (ndigits (coef d) + expo d - prec)) as [Hbad|_];
    [unfold Etop in Hbad; lia|].
  destruct (expo d <? _)%Z; [|eauto].
  destruct (round_up _ _ _); [|eauto].
  destruct (prec <? _)%Z; [|eauto].
  destruct (Z.ltb_spec Etop (Z.max (ndigits (coef d) + expo d - prec) Etiny + 1))
    as [Hbad|_]; [|eauto].
  unfold Etop, Etiny, Emin, Emax, prec in *. lia.
Qed.

(** Rounding does not pass a number of the context. *)
Lemma fix_le_fixed (d r t : Decimal) :
  fix_ d = Ok r -> fixed t -> (0 <= coef d)%Z -> val d <= val t -> val r <= val t.
Proof.
  intros H Ft Hd Hle.
  destruct (Z.eq_dec (coef d) 0%Z) as [Hz|Hnz].
  { rewrite (fix_zero d Hz) in H. injection H as <-.
    rewrite (val_zero d Hz) in Hle. now rewrite val_zero by reflexivity. }
  set (e0 := Z.min (expo d) (expo t)).
  pose proof (fix_expo_ge _ _ H Hnz) as Hge.
  apply (val_le e0); [unfold e0; lia|unfold e0; lia|].
  apply (fix_upper e0 d r t H Ft Hd); [unfold e0; lia|unfold e0; lia|].
  apply le_IZR. apply (Rmult_le_reg_r (powerRZ 10 e0)); [apply p10_pos|].
  rewrite <- !val_sc by (unfold e0; lia). exact Hle.
Qed.

Lemma fix_within (K : Z) (d r : Decimal) :
  (Etiny <= K <= Emax)%Z -> within K d -> fix_ d = Ok r -> within K r.
Proof.
  intros HK Hw H.
  assert (Hpos : forall d r, (0 <= coef d)%Z -> within K d -> fix_ d = Ok r ->
                   within K r).
  { clear d r Hw H. intros d r Hd Hw H.
    pose proof (fix_sign _ _ H) as [Hr _]. specialize (Hr Hd).
    apply within_nonneg in Hw; [|exact Hd]. apply within_nonneg; [exact Hr|].
    rewrite <- val_unit in *.
    exact (fix_le_fixed d r _ H (pow_unit_fixed K HK) Hd Hw). }
  destruct (Z.le_gt_cases 0%Z (coef d)) as [Hd|Hd]; [exact (Hpos d r Hd Hw H)|].
  assert (Hn : fix_ (neg d) = Ok (neg r)) by (rewrite fix_neg, H; reflexivity).
  assert (Hwn : within K (neg d)) by (unfold within in *; now rewrite val_neg, Rabs_Ropp).
  pose proof (Hpos (neg d) (neg r) ltac:(simpl; lia) Hwn Hn) as Hr.
  unfold within in *. now rewrite val_neg, Rabs_Ropp in Hr.
Qed.

Lemma fix_ok_within (K : Z) (d : Decimal) :
  (Etiny <= K < Emax)%Z -> within K d ->
  exists r, fix_ d = Ok r /\ within K r /\ fixed r.
Proof.
  intros HK Hw. destruct (fix_ok K d ltac:(lia) Hw) as [r H].
  exists r. split; [exact H|]. split; [|exact (fix_fixed _ _ H)].
  exact (fix_within K d r ltac:(lia) Hw H).
Qed.

Lemma add_ok (K : Z) (a b : Decimal) :
  (Etiny <= K < Emax)%Z -> Rabs (val a + val b) <= powerRZ 10 K ->
  exists r, add a b = Ok r /\ within K r /\ fixed r.
Proof.
  intros HK H. unfold add. apply fix_ok_within; [exact HK|].
  unfold within. now rewrite val_add_exact.
Qed.

Lemma sub_ok (K : Z) (a b : Decimal) :
  (Etiny <= K < Emax)%Z -> Rabs (val a - val b) <= powerRZ 10 K ->
  exists r, sub a b = Ok r /\ within K r /\ fixed r.
Proof.
  intros HK H. unfold sub. apply add_ok; [exact HK|]. now rewrite val_neg.
Qed.

Lemma mul_ok (K : Z) (a b : Decimal) :
  (Etiny <= K < Emax)%Z -> Rabs (val a * val b) <= powerRZ 10 K ->
  exists r, mul a b = Ok r /\ within K r /\ fixed r.
Proof.
  intros HK H. unfold mul. apply fix_ok_within; [exact HK|].
  unfold within. now rewrite val_mul_exact.
Qed.

(** Two numbers within [10^K] add up within [10^(K+1)]. *)
Lemma within_sum (K : Z) (a b : Decimal) :
  within K a -> within K b -> Rabs (val a + val b) <= powerRZ 10 (K + 1).
Proof.
  unfold within. intros Ha Hb. rewrite p10_next.
  pose proof (Rabs_triang (val a) (val b)). pose proof (p10_pos K). lra.
Qed.

Lemma within_diff (K : Z) (a b : Decimal) :
  within K a -> within K b -> Rabs (val a - val b) <= powerRZ 10 (K + 1).
Proof.
  intros Ha Hb. unfold Rminus. rewrite <- val_neg. apply within_sum; [exact Ha|].
  unfold within in *. now rewrite val_neg, Rabs_Ropp.
Qed.

(** Rounding half-up to two places moves a number by at most half a
    hundredth. *)
Lemma rescale_half_cent (x : Decimal) :
  Rabs (val (rescale x (-2) ROUND_HALF_UP) - val x) <= half_cent.
Proof.
  set (c := rescale x (-2) ROUND_HALF_UP).
  assert (He : expo c = (-2)%Z) by apply expo_rescale.
  set (e0 := Z.min (expo x) (-2)).
  pose proof (rescale_half_up_error e0 (-2) x ltac:(unfold e0; lia) ltac:(unfold e0; lia))
    as Herr.
  fold c in Herr.
  rewrite (val_sc e0 c), (val_sc e0 x) by (unfold e0; lia).
  unfold sc at 1. rewrite He.
  rewrite <- Rmult_minus_distr_r, <- minus_IZR, Rabs_mult,
    (Rabs_pos_eq (powerRZ _ _)) by (apply Rlt_le, p10_pos).
  rewrite <- abs_IZR. unfold half_cent.
  replace (-2)%Z with ((-2 - e0) + e0)%Z at 2 by lia.
  rewrite p10_add, <- (p10_IZR (-2 - e0)) by (unfold e0; lia).
  pose proof (p10_pos e0).
  assert (Hz : 2 * IZR (Z.abs (coef c * 10 ^ (-2 - e0) - sc e0 x))
               <= IZR (10 ^ (-2 - e0))).
  { rewrite <- (mult_IZR 2). now apply IZR_le. }
  nra.
Qed.

(** [quantize] has room for two places below 1E+26. *)
Lemma _quantize_within (K : Z) (d : Decimal) :
  (-2 <= K <= 25)%Z -> within K d ->
  exists c, _quantize d = Ok c /\ within K c /\ two_places c.
Proof.
  intros HK Hw.
  set (c := rescale d (-2) ROUND_HALF_UP).
  assert (He : expo c = (-2)%Z) by apply expo_rescale.
  pose proof (rescale_half_cent d) as Herr. fold c in Herr.
  assert (Hvc : val c = IZR (coef c) * powerRZ 10 (-2)) by (unfold val; now rewrite He).
  assert (Hp2 : powerRZ 10 (-2) = / 100) by (simpl; lra).
  assert (HK2 : powerRZ 10 K = IZR (10 ^ (K + 2)) * powerRZ 10 (-2)).
  { rewrite p10_IZR by lia. rewrite <- p10_add. f_equal. lia. }
  assert (Hcoef : (Z.abs (coef c) <= 10 ^ (K + 2))%Z).
  { apply Z.lt_succ_r. apply lt_IZR. rewrite abs_IZR, succ_IZR.
    unfold within in Hw. apply Rabs_bound in Herr.
    assert (Hac : Rabs (val c) <= powerRZ 10 K + half_cent).
    { apply Rabs_le. apply Rabs_bound in Hw. lra. }
    rewrite Hvc, Rabs_mult, (Rabs_pos_eq (powerRZ 10 (-2))) in Hac
      by (apply Rlt_le, p10_pos).
    rewrite HK2 in Hac. unfold half_cent in Hac. rewrite Hp2 in Hac. lra. }
  assert (Hlt : (Z.abs (cents d) < 10 ^ prec)%Z).
  { fold c. change (cents d) with (coef c).
    apply (Z.le_lt_trans _ _ _ Hcoef). apply pow10_lt. unfold prec. lia. }
  exists c. split; [exact (_quantize_ok d Hlt)|]. split.
  - unfold within. rewrite Hvc, Rabs_mult, (Rabs_pos_eq (powerRZ 10 (-2)))
      by (apply Rlt_le, p10_pos).
    rewrite HK2, <- abs_IZR. apply Rmult_le_compat_r; [apply Rlt_le, p10_pos|].
    now apply IZR_le.
  - split; [exact He|exact Hlt].
Qed.

End Within.

Section Quotients_fit.

Local Open Scope R_scope.

(** The quotient before [_fix]: at most twice the exact quotient. *)
Lemma quotient_ok (K : Z) (sign N M e ideal : Z) (fuel : nat) (X : R) :
  (Etiny <= K + 1 < Emax)%Z ->
  sign = 1%Z -> (0 < M)%Z -> (10 ^ prec * M <= N)%Z ->
  X * IZR M = IZR N * powerRZ 10 e ->
  X <= powerRZ 10 K ->
  exists r,
    (if (N mod M =? 0)%Z
     then let '(q', e') := strip_zeros fuel (N / M) e ideal in
          fix_ (mkDec (sign * q') e')
     else fix_ (mkDec (sign * (if ((N / M) mod 5 =? 0)%Z then N / M + 1 else N / M))%Z e))
    = Ok r.
Proof.
  intros HK -> HM HN HX HXK.
  pose proof (Z.div_mod N M ltac:(lia)) as Hdm.
  pose proof (Z.mod_pos_bound N M HM) as Hrem.
  pose proof (p10_pos e) as Hpe.
  assert (HMR : 0 < IZR M) by (now apply IZR_lt).
  assert (Hpp : (0 < 10 ^ prec)%Z) by (apply pow10_pos; unfold prec; lia).
  assert (HX0 : powerRZ 10 prec * powerRZ 10 e <= X).
  { assert (Hle : IZR (10 ^ prec * M) <= IZR N) by (now apply IZR_le).
    rewrite mult_IZR, p10_IZR in Hle by (unfold prec; lia).
    assert (powerRZ 10 prec * powerRZ 10 e * IZR M <= X * IZR M) by (rewrite HX; nra).
    apply (Rmult_le_reg_r (IZR M)); assumption. }
  pose proof (p10_pos prec) as Hpprec.
  pose proof (p10_ge1 prec ltac:(unfold prec; lia)) as Hp1.
  assert (HXpos : 0 < X) by nra.
  destruct (Z.eqb_spec (N mod M) 0) as [Hz|Hnz].
  - destruct (strip_zeros fuel (N / M) e ideal) as [q' e'] eqn:Hs.
    rewrite Z.mul_1_l.
    pose proof (strip_zeros_spec _ _ _ _ _ _ Hs) as [Hee Hq].
    assert (Hv : val (mkDec q' e') = X).
    { rewrite (val_sc e) by exact Hee. unfold sc. simpl. rewrite <- Hq.
      apply (Rmult_eq_reg_r (IZR M)); [|lra].
      rewrite HX, Rmult_assoc, (Rmult_comm (powerRZ 10 e)), <- Rmult_assoc, <- mult_IZR.
      do 2 f_equal. lia. }
    apply (fix_ok (K + 1)); [lia|]. unfold within. rewrite Hv, Rabs_pos_eq by lra.
    pose proof (p10_le K (K + 1) ltac:(lia)). lra.
  - rewrite Z.mul_1_l.
    set (c := (if ((N / M) mod 5 =? 0)%Z then N / M + 1 else N / M)%Z) in *.
    assert (Hc : (Z.abs (c * M - N) <= M)%Z).
    { unfold c. destruct ((N / M) mod 5 =? 0)%Z; apply Z.abs_le; nia. }
    assert (Hv : Rabs (val (mkDec c e) - X) <= powerRZ 10 e).
    { unfold val. simpl.
      assert (Heq : (IZR c * powerRZ 10 e - X) * IZR M
                    = IZR (c * M - N) * powerRZ 10 e).
      { rewrite minus_IZR, mult_IZR. nra. }
      assert (Habs : Rabs (IZR c * powerRZ 10 e - X) * IZR M
                     = IZR (Z.abs (c * M - N)) * powerRZ 10 e).
      { rewrite abs_IZR, <- (Rabs_pos_eq (IZR M)) at 1 by lra.
        rewrite <- Rabs_mult, Heq, Rabs_mult, (Rabs_pos_eq (powerRZ 10 e)) by lra.
        reflexivity. }
      assert (Hle : IZR (Z.abs (c * M - N)) <= IZR M) by (now apply IZR_le).
      apply (Rmult_le_reg_r (IZR M)); [lra|]. rewrite Habs. nra. }
    apply (fix_ok (K + 1)); [lia|]. unfold within.
    apply Rabs_bound in Hv. apply Rabs_le. rewrite p10_next.
    assert (powerRZ 10 e <= X) by nra. lra.
Qed.

(** [a / b] for positive numbers does not raise when the quotient is at
    most [10^K]; it is then at most [10^(K+1)]. *)
Lemma div_ok (K : Z) (a b : Decimal) :
  (Etiny <= K)%Z -> (K + 1 < Emax)%Z ->
  (0 <= coef a)%Z -> (0 < coef b)%Z -> val a / val b <= powerRZ 10 K ->
  exists r, div a b = Ok r /\ (0 <= coef r)%Z /\ within (K + 1) r /\ fixed r.
Proof.
  intros HK1 HK2 Ha Hb HXK.
  assert (Hex : exists r, div a b = Ok r).
  { destruct (Z.eq_dec (coef a) 0%Z) as [Hz|Hnz].
    { destruct (div_zero_l a b Hz ltac:(lia)) as (z & Hz' & _). eauto. }
    assert (Ha' : (0 < coef a)%Z) by lia. clear Ha Hnz.
    unfold div.
    destruct (Z.eqb_spec (coef b) 0%Z) as [|_]; [lia|].
    destruct (Z.eqb_spec (coef a) 0%Z) as [|_]; [lia|].
    rewrite (Z.abs_eq (coef a)), (Z.abs_eq (coef b)) by lia.
    set (sign := (Z.sgn (coef a) * Z.sgn (coef b))%Z) in *.
    assert (Hsign : sign = 1%Z) by (unfold sign; rewrite !Z.sgn_pos by lia; reflexivity).
    clearbody sign.
    set (n := coef a) in *. set (m := coef b) in *.
    set (shift := (ndigits m - ndigits n + prec + 1)%Z) in *.
    set (e := (expo a - expo b - shift)%Z) in *.
    pose proof (ndigits_spec n ltac:(lia)) as [Hnlo _].
    pose proof (ndigits_spec m ltac:(lia)) as [_ Hmhi].
    rewrite Z.abs_eq in Hnlo, Hmhi by lia.
    pose proof (ndigits_ge1 n) as Hn1. pose proof (ndigits_ge1 m) as Hm1.
    pose proof (val_pos b Hb) as Hvb.
    assert (Hva : val a = IZR n * powerRZ 10 (expo a)) by reflexivity.
    assert (Hvb' : val b = IZR m * powerRZ 10 (expo b)) by reflexivity.
    set (X := val a / val b) in *.
    assert (HX : X * val b = val a) by (unfold X; field; lra).
    rewrite Hva, Hvb' in HX.
    pose proof (p10_pos (expo b)) as Hpb.
    assert (Hpp : (0 < 10 ^ prec)%Z) by (apply pow10_pos; unfold prec; lia).
    destruct (Z.leb_spec 0 shift) as [Hs|Hs]; cbv iota beta.
    - apply (quotient_ok K sign (n * 10 ^ shift) m e (expo a - expo b)
               (Z.to_nat (expo a - expo b - e)) X ltac:(lia) Hsign); [lia| | |exact HXK].
      + pose proof (pow10_pos (ndigits m) ltac:(lia)).
        apply (Z.le_trans _ (10 ^ prec * 10 ^ ndigits m)); [nia|].
        rewrite <- Z.pow_add_r by (unfold prec; lia).
        apply (Z.le_trans _ (10 ^ (ndigits n - 1) * 10 ^ shift));
          [|pose proof (pow10_pos shift Hs); nia].
        rewrite <- Z.pow_add_r by lia. apply pow10_le. unfold shift, prec. lia.
      + rewrite mult_IZR, p10_IZR by exact Hs.
        replace (expo a) with ((shift + e) + expo b)%Z in HX by (unfold e; lia).
        rewrite !p10_add in HX.
        apply (Rmult_eq_reg_r (powerRZ 10 (expo b))); [|lra]. nra.
    - apply (quotient_ok K sign n (m * 10 ^ (- shift)) e (expo a - expo b)
               (Z.to_nat (expo a - expo b - e)) X ltac:(lia) Hsign); [| | |exact HXK].
      + pose proof (pow10_pos (- shift) ltac:(lia)). nia.
      + pose proof (pow10_pos (- shift) ltac:(lia)).
        pose proof (pow10_pos (ndigits m) ltac:(lia)).
        apply (Z.le_trans _ (10 ^ prec * (10 ^ ndigits m * 10 ^ (- shift)))); [nia|].
        rewrite <- !Z.pow_add_r by (unfold prec; lia).
        apply (Z.le_trans _ (10 ^ (ndigits n - 1))); [|lia].
        apply pow10_le. unfold shift, prec in *. lia.
      + rewrite mult_IZR, p10_IZR by lia.
        replace (expo a) with ((e + shift) + expo b)%Z in HX by (unfold e; lia).
        rewrite !p10_add in HX.
        assert (Hinv : powerRZ 10 shift * powerRZ 10 (- shift) = 1).
        { rewrite <- p10_add, Z.add_opp_diag_r. reflexivity. }
        apply (Rmult_eq_reg_r (powerRZ 10 (expo b))); [|lra].
        transitivity (X * (IZR m * powerRZ 10 (expo b)) * powerRZ 10 (- shift)); [ring|].
        rewrite HX.
        transitivity (IZR n * powerRZ 10 e * powerRZ 10 (expo b)
                      * (powerRZ 10 shift * powerRZ 10 (- shift))); [ring|].
        rewrite Hinv. ring. }
  destruct Hex as [r H]. exists r. split; [exact H|].
  pose proof (div_nonneg _ _ _ Ha Hb H) as Hr. split; [exact Hr|].
  split; [|unfold div in H; destruct (coef b =? 0)%Z; [destruct (coef a =? 0)%Z; discriminate|];
           destruct (coef a =? 0)%Z; [exact (fix_fixed _ _ H)|]].
  - apply within_nonneg; [exact Hr|].
    destruct (Z.eq_dec (coef a) 0%Z) as [Hz|Hnz].
    { destruct (div_zero_l a b Hz ltac:(lia)) as (z & Hz' & Hz0 & _).
      rewrite H in Hz'. injection Hz' as <-. rewrite (val_zero r Hz0).
      apply Rlt_le, p10_pos. }
    pose proof (div_err a b r ltac:(lia) Hb H) as Herr.
    apply Rabs_bound in Herr.
    pose proof (val_pos a ltac:(lia)) as Hva. pose proof (val_pos b Hb) as Hvb.
    assert (HX0 : 0 < val a / val b) by (apply Rdiv_lt_0_compat; assumption).
    pose proof eps_small as Hes. pose proof eps_pos as Hep.
    assert (Heta : eta <= powerRZ 10 K).
    { unfold eta. pose proof (p10_le Etiny K HK1). pose proof (p10_pos Etiny). lra. }
    rewrite p10_next. pose proof (p10_pos K). nra.
  - (* the result of [_fix] is in the context *)
    revert H.
    repeat match goal with
           | |- context [let '(_, _) := ?p in _] => destruct p
           | |- context [if ?c then _ else _] => destruct c
           end; intros H; exact (fix_fixed _ _ H).
Qed.

End Quotients_fit.

Section Sums_fit.

Local Open Scope R_scope.

Lemma count_fixed (i K : Z) :
  (0 <= i <= 1000000)%Z -> (Etiny <= K <= 100)%Z -> fixed (mkDec i K).
Proof.
  intros Hi HK. unfold fixed, adjusted. cbn [coef expo].
  assert (Hlt : (Z.abs i < 10 ^ prec)%Z).
  { apply (Z.le_lt_trans _ (10 ^ 6)); [change (10 ^ 6)%Z with 1000000%Z; lia|].
    apply pow10_lt. unfold prec. lia. }
  pose proof (ndigits_lt_pow i prec ltac:(unfold prec; lia) Hlt) as Hnd.
  unfold Emax, prec in *. lia.
Qed.

(** One more term of a sum of at most a million terms, none negative and
    none above [10^K]: the sum so far, however it was rounded, is at most
    the number of its terms times [10^K]. *)
Lemma add_count (K i : Z) (s x : Decimal) :
  (Etiny <= K <= 100)%Z -> (0 <= i < 1000000)%Z ->
  (0 <= coef s)%Z -> val s <= IZR i * powerRZ 10 K ->
  (0 <= coef x)%Z -> val x <= powerRZ 10 K ->
  exists t, add s x = Ok t /\ (0 <= coef t)%Z /\
            val t <= IZR (i + 1) * powerRZ 10 K /\ fixed t.
Proof.
  intros HK Hi Hs Hsv Hx Hxv.
  pose proof (val_nonneg s Hs) as Hs0. pose proof (val_nonneg x Hx) as Hx0.
  pose proof (p10_pos K) as HpK.
  assert (Hsum : val s + val x <= IZR (i + 1) * powerRZ 10 K)
    by (rewrite plus_IZR; lra).
  assert (H6 : IZR (i + 1) <= powerRZ 10 6).
  { rewrite <- (p10_IZR 6) by lia. apply IZR_le. change (10 ^ 6)%Z with 1000000%Z. lia. }
  destruct (add_ok (K + 6) s x) as (t & Ht & _ & Ft).
  { unfold Emax, Etiny, Emin, prec in *. lia. }
  { rewrite Rabs_pos_eq by lra. rewrite Z.add_comm, p10_add. nra. }
  exists t. split; [exact Ht|].
  unfold add in Ht. set (e := Z.min (expo s) (expo x)) in *.
  pose proof (pow10_pos (expo s - e) ltac:(unfold e; lia)) as Hp1.
  pose proof (pow10_pos (expo x - e) ltac:(unfold e; lia)) as Hp2.
  assert (Hc : (0 <= coef s * 10 ^ (expo s - e) + coef x * 10 ^ (expo x - e))%Z) by nia.
  split; [exact (proj1 (fix_sign _ _ Ht) Hc)|]. split; [|exact Ft].
  change (IZR (i + 1) * powerRZ 10 K) with (val (mkDec (i + 1) K)).
  apply (fix_le_fixed _ _ _ Ht); [apply count_fixed; lia|exact Hc|].
  unfold e. rewrite val_add_exact. exact Hsum.
Qed.

Lemma dec_sum_ok (K : Z) (l : list Decimal) (s : Decimal) (i : Z) :
  (Etiny <= K <= 100)%Z -> (0 <= i)%Z -> (i + Z.of_nat (length l) <= 1000000)%Z ->
  (0 <= coef s)%Z -> val s <= IZR i * powerRZ 10 K ->
  Forall (fun x => (0 <= coef x)%Z /\ val x <= powerRZ 10 K) l ->
  exists t, dec_sum s l = Ok t /\ (0 <= coef t)%Z /\
            val t <= IZR (i + Z.of_nat (length l)) * powerRZ 10 K.
Proof.
  intros HK. revert s i. induction l as [|x l IH]; intros s i Hi Hn Hs Hsv HF.
  - exists s. simpl. rewrite Z.add_0_r. auto.
  - apply Forall_cons in HF as [[Hx Hxv] HF]. cbn [length] in *.
    destruct (add_count K i s x HK ltac:(lia) Hs Hsv Hx Hxv) as (t & Ht & Ht0 & Htv & _).
    destruct (IH t (i + 1)%Z ltac:(lia) ltac:(lia) Ht0 Htv HF) as (u & Hu & Hu0 & Huv).
    exists u. simpl. rewrite Ht. simpl. split; [exact Hu|]. split; [exact Hu0|].
    replace (i + Z.of_nat (S (length l)))%Z with (i + 1 + Z.of_nat (length l))%Z by lia.
    exact Huv.
Qed.

(** A count of at most a million times [10^K] is within [10^(K+6)]. *)
Lemma count_within (K i : Z) (t : Decimal) :
  (0 <= coef t)%Z -> (0 <= i <= 1000000)%Z -> val t <= IZR i * powerRZ 10 K ->
  within (K + 6) t.
Proof.
  intros Ht Hi Hv. apply within_nonneg; [exact Ht|].
  assert (H6 : IZR i <= powerRZ 10 6).
  { rewrite <- (p10_IZR 6) by lia. apply IZR_le. change (10 ^ 6)%Z with 1000000%Z. lia. }
  rewrite Z.add_comm, p10_add. pose proof (p10_pos K). nra.
Qed.

Lemma val_dec0 : val dec0 = 0.
Proof. unfold val. simpl. lra. Qed.

Lemma val_dec1 : val dec1 = 1.
Proof. unfold val. simpl. lra. Qed.

Lemma val_dec100 : val dec100 = 100.
Proof. unfold val. simpl. lra. Qed.

Lemma dec_leb_zero_coef (d : Decimal) : dec_leb dec0 d = true -> (0 <= coef d)%Z.
Proof.
  unfold dec_leb. rewrite dec_ltb_0. destruct (Z.ltb_spec (coef d) 0); [discriminate|lia].
Qed.

Lemma percent_fits_val (p : Decimal) :
  percent_fits p = true -> (0 <= coef p)%Z /\ 0 <= val p <= 100.
Proof.
  unfold percent_fits. intros H. apply andb_true_iff in H as [H0 H100].
  split; [exact (dec_leb_zero_coef _ H0)|].
  apply dec_leb_val in H0, H100. rewrite val_dec0 in H0. rewrite val_dec100 in H100. lra.
Qed.

Lemma amount_fits_within (a : Decimal) : amount_fits a = true -> within 15 a.
Proof.
  unfold amount_fits. intros H. apply andb_true_iff in H as [Hlo Hhi].
  apply dec_leb_val in Hlo, Hhi. rewrite val_unit in Hhi.
  assert (Hm : val (mkDec (-1) 15) = - powerRZ 10 15) by (unfold val; simpl; lra).
  rewrite Hm in Hlo. unfold within. apply Rabs_le. lra.
Qed.

(** [distributable * percent / 100] for a percentage between 0 and 100. *)
Lemma entitlement_of_ok (dist : Decimal) (h : Shareholder) :
  (0 <= coef dist)%Z -> within 16 dist -> percent_fits (percent h) = true ->
  exists hak, entitlement_of dist h = Ok hak /\ (0 <= coef hak)%Z /\ within 17 hak.
Proof.
  intros Hd Hw Hp. apply percent_fits_val in Hp as [Hp0 Hpv].
  apply within_nonneg in Hw; [|exact Hd].
  pose proof (val_nonneg dist Hd) as Hd0.
  assert (H18 : powerRZ 10 18 = powerRZ 10 16 * 100).
  { replace 18%Z with (16 + 2)%Z by reflexivity. rewrite p10_add.
    replace (powerRZ 10 2) with 100 by (simpl; lra). reflexivity. }
  destruct (mul_ok 18 dist (percent h)) as (x & Hx & Hxw & _).
  { unfold Emax, Etiny, Emin, prec. lia. }
  { rewrite Rabs_pos_eq by nra. rewrite H18. pose proof (p10_pos 16). nra. }
  pose proof (mul_nonneg _ _ _ Hd Hp0 Hx) as Hx0.
  apply within_nonneg in Hxw; [|exact Hx0].
  destruct (div_ok 16 x dec100) as (hak & Hh & Hh0 & Hhw & _).
  { unfold Etiny, Emin, prec. lia. }
  { unfold Emax. lia. }
  { exact Hx0. }
  { simpl. lia. }
  { rewrite val_dec100. rewrite H18 in Hxw. lra. }
  exists hak. unfold entitlement_of. rewrite Hx. simpl. auto.
Qed.

End Sums_fit.

Lemma dict_setitem_length (d : pydict) (k : string) (v : Decimal) :
  (length (dict_setitem d k v) <= S (length d))%nat.
Proof.
  induction d as [|[k0 v0] d IH]; simpl; [lia|].
  destruct (String.eqb k k0); simpl; lia.
Qed.

Section Settlement_fits.

Variable lower : string -> string.

Local Abbreviation key h := (lower (name h)).

Local Open Scope R_scope.

Lemma entitlements_loop_ok (hs : list Shareholder) (dist : Decimal) (e0 : pydict) :
  (0 <= coef dist)%Z -> within 16 dist ->
  Forall (fun h => percent_fits (percent h) = true) hs ->
  dict_forall (fun _ v => (0 <= coef v)%Z /\ within 17 v) e0 ->
  exists ent,
    entitlements_loop lower hs dist e0 = Ok ent /\
    dict_forall (fun _ v => (0 <= coef v)%Z /\ within 17 v) ent /\
    (length ent <= length e0 + length hs)%nat.
Proof.
  intros Hd Hw. revert e0. induction hs as [|h hs IH]; intros e0 Hp He.
  - exists e0. simpl. split; [reflexivity|]. split; [exact He|lia].
  - apply Forall_cons in Hp as [Hp Hps].
    destruct (entitlement_of_ok dist h Hd Hw Hp) as (hak & Hh & Hh0 & Hhw).
    destruct (IH (dict_setitem e0 (key h) hak) Hps) as (ent & Hent & Hall & Hlen).
    { apply dict_forall_setitem; [exact He|]. now split. }
    exists ent. simpl. rewrite Hh. simpl. split; [exact Hent|]. split; [exact Hall|].
    pose proof (dict_setitem_length e0 (key h) hak). simpl. lia.
Qed.

Lemma lookup_amount_within (d : pydict) (h : Shareholder) :
  Forall (fun kv => amount_fits (snd kv) = true) d ->
  within 15 (lookup_amount lower d h).
Proof.
  intros Hd. unfold lookup_amount, dict_get.
  destruct (dict_lookup d (name h)) as [v|] eqn:H1.
  { apply amount_fits_within.
    exact (dict_forall_lookup (fun _ v => amount_fits v = true) d _ v Hd H1). }
  destruct (dict_lookup d (key h)) as [v|] eqn:H2.
  { apply amount_fits_within.
    exact (dict_forall_lookup (fun _ v => amount_fits v = true) d _ v Hd H2). }
  now apply within_zero.
Qed.

Lemma raw_of_ok (hak : Decimal) (adv carry : pydict) (h : Shareholder) :
  within 17 hak ->
  Forall (fun kv => amount_fits (snd kv) = true) adv ->
  Forall (fun kv => amount_fits (snd kv) = true) carry ->
  exists raw, raw_of lower hak adv carry h = Ok raw /\ within 19 raw.
Proof.
  intros Hh Ha Hc.
  pose proof (lookup_amount_within adv h Ha) as Hav.
  pose proof (lookup_amount_within carry h Hc) as Hcv.
  destruct (sub_ok 18 hak (lookup_amount lower adv h)) as (t & Ht & Htw & _).
  { unfold Emax, Etiny, Emin, prec. lia. }
  { apply (within_diff 17); [exact Hh|]. now apply (within_le 15). }
  destruct (add_ok 19 t (lookup_amount lower carry h)) as (raw & Hr & Hrw & _).
  { unfold Emax, Etiny, Emin, prec. lia. }
  { apply (within_sum 18); [exact Htw|]. now apply (within_le 15). }
  exists raw. unfold raw_of. rewrite Ht. simpl. auto.
Qed.

Lemma raw_loop_ok (hs : list Shareholder) (ent adv carry rb0 : pydict)
    (tp0 : Decimal) (i : Z) :
  dict_forall (fun _ v => (0 <= coef v)%Z /\ within 17 v) ent ->
  (forall h, h ∈ hs -> is_Some (dict_lookup ent (key h))) ->
  Forall (fun kv => amount_fits (snd kv) = true) adv ->
  Forall (fun kv => amount_fits (snd kv) = true) carry ->
  dict_forall (fun _ v => within 19 v) rb0 ->
  (0 <= coef tp0)%Z -> val tp0 <= IZR i * powerRZ 10 19 ->
  (0 <= i)%Z -> (i + Z.of_nat (length hs) <= 1000000)%Z ->
  exists rb1 tp1,
    raw_loop lower hs ent adv carry rb0 tp0 = Ok (rb1, tp1) /\
    dict_forall (fun _ v => within 19 v) rb1 /\
    (0 <= coef tp1)%Z /\
    val tp1 <= IZR (i + Z.of_nat (length hs)) * powerRZ 10 19.
Proof.
  intros He Hk Ha Hc. revert rb0 tp0 i.
  induction hs as [|h hs IH]; intros rb0 tp0 i Hrb Ht0 Htv Hi Hn.
  - exists rb0, tp0. simpl. rewrite Z.add_0_r. auto.
  - cbn [length] in Hn.
    destruct (Hk h ltac:(left)) as [hak Hhak].
    pose proof (dict_forall_lookup _ _ _ _ He Hhak) as [_ Hhw]. cbn beta in Hhw.
    destruct (raw_of_ok hak adv carry h Hhw Ha Hc) as (raw & Hraw & Hrw).
    assert (Hstep : exists tp,
              (if dec_gtb raw dec0 then add tp0 raw else Ok tp0) = Ok tp /\
              (0 <= coef tp)%Z /\ val tp <= IZR (i + 1) * powerRZ 10 19).
    { destruct (dec_gtb raw dec0) eqn:Hg.
      - rewrite dec_gtb_0 in Hg. apply Z.ltb_lt in Hg.
        destruct (add_count 19 i tp0 raw) as (tp & Htp & Htp0 & Htpv & _);
          try assumption; try lia.
        { unfold Etiny, Emin, prec. lia. }
        { apply within_nonneg in Hrw; [exact Hrw|lia]. }
        exists tp. auto.
      - exists tp0. split; [reflexivity|]. split; [exact Ht0|].
        rewrite plus_IZR. pose proof (p10_pos 19). lra. }
    destruct Hstep as (tp & Htp & Htp0 & Htpv).
    destruct (IH ltac:(intros h' Hh'; apply Hk; now right)
                (dict_setitem rb0 (key h) raw) tp (i + 1)%Z)
      as (rb1 & tp1 & Hl & Hall & H0 & Hv); try assumption; try lia.
    { now apply dict_forall_setitem. }
    exists rb1, tp1. simpl. unfold dict_getitem. rewrite Hhak. simpl.
    rewrite Hraw. simpl. rewrite Htp. simpl. split; [exact Hl|].
    split; [exact Hall|]. split; [exact H0|].
    replace (i + Z.of_nat (S (length hs)))%Z with (i + 1 + Z.of_nat (length hs))%Z
      by lia.
    exact Hv.
Qed.

Lemma compute_scale_ok (dist tp : Decimal) :
  (0 <= coef dist)%Z ->
  exists scale, compute_scale dist tp = Ok scale /\ (0 <= coef scale)%Z.
Proof.
  intros Hd. unfold compute_scale.
  destruct (dec_gtb tp dist) eqn:Hg; simpl; [|exists dec1; simpl; split; [reflexivity|lia]].
  destruct (dec_gtb tp dec0) eqn:Hp; [|exists dec1; simpl; split; [reflexivity|lia]].
  rewrite dec_gtb_0 in Hp. apply Z.ltb_lt in Hp.
  apply dec_ltb_val in Hg. pose proof (val_pos tp Hp) as Htp.
  destruct (div_ok 0 dist tp) as (scale & Hs & Hs0 & _); try assumption.
  { unfold Etiny, Emin, prec. lia. }
  { unfold Emax. lia. }
  { change (powerRZ 10 0) with 1. apply (Rmult_le_reg_r (val tp)); [exact Htp|].
    unfold Rdiv. rewrite Rmult_assoc, Rinv_l by lra. lra. }
  eauto.
Qed.

Lemma compute_pay_ok (raw scale : Decimal) :
  within 19 raw -> (0 <= coef scale)%Z ->
  exists pay, compute_pay raw scale = Ok pay /\ (0 <= coef pay)%Z /\ within 19 pay.
Proof.
  intros Hw Hs.
  pose proof (positive_part_nonneg raw) as Hp0.
  assert (Hpw : within 19 (positive_part raw)).
  { unfold positive_part. destruct (dec_gtb raw dec0); [exact Hw|now apply within_zero]. }
  assert (Hx : exists x,
            (if dec_ltb scale dec1 then mul (positive_part raw) scale
             else Ok (positive_part raw)) = Ok x /\ within 19 x).
  { destruct (dec_ltb scale dec1) eqn:Hlt; [|eauto].
    apply dec_ltb_val in Hlt. rewrite val_dec1 in Hlt.
    pose proof (val_nonneg scale Hs) as Hs0.
    pose proof (val_nonneg _ Hp0) as Hpp.
    apply within_nonneg in Hpw; [|exact Hp0].
    destruct (mul_ok 19 (positive_part raw) scale) as (x & Hx & Hxw & _).
    { unfold Emax, Etiny, Emin, prec. lia. }
    { rewrite Rabs_pos_eq by nra. nra. }
    eauto. }
  destruct Hx as (x & Hx & Hxw).
  destruct (_quantize_within 19 x ltac:(lia) Hxw) as (pay & Hq & Hqw & _).
  assert (Hpay : compute_pay raw scale = Ok pay).
  { unfold compute_pay. cbv zeta. rewrite Hx. exact Hq. }
  exists pay. split; [exact Hpay|]. split; [|exact Hqw].
  exact (compute_pay_nonneg _ _ _ Hs Hpay).
Qed.

Lemma rows_loop_ok (hs : list Shareholder) (ent adv carry rb : pydict)
    (scale : Decimal) (rows0 : list ResultRow) (tp0 : Decimal) (i : Z) :
  dict_forall (fun _ v => (0 <= coef v)%Z /\ within 17 v) ent ->
  (forall h, h ∈ hs -> is_Some (dict_lookup ent (key h))) ->
  Forall (fun kv => amount_fits (snd kv) = true) adv ->
  Forall (fun kv => amount_fits (snd kv) = true) carry ->
  dict_forall (fun _ v => within 19 v) rb ->
  (forall h, h ∈ hs -> is_Some (dict_lookup rb (key h))) ->
  (0 <= coef scale)%Z ->
  (0 <= coef tp0)%Z -> val tp0 <= IZR i * powerRZ 10 19 ->
  (0 <= i)%Z -> (i + Z.of_nat (length hs) <= 1000000)%Z ->
  exists rows1 tp1,
    rows_loop lower hs ent adv carry rb scale rows0 tp0 = Ok (rows1, tp1) /\
    (0 <= coef tp1)%Z /\
    val tp1 <= IZR (i + Z.of_nat (length hs)) * powerRZ 10 19.
Proof.
  intros He Hk Ha Hc Hrb Hkr Hs. revert rows0 tp0 i.
  induction hs as [|h hs IH]; intros rows0 tp0 i Ht0 Htv Hi Hn.
  - exists rows0, tp0. simpl. rewrite Z.add_0_r. auto.
  - cbn [length] in Hn.
    destruct (Hk h ltac:(left)) as [hak Hhak].
    destruct (Hkr h ltac:(left)) as [raw Hraw].
    pose proof (dict_forall_lookup _ _ _ _ He Hhak) as [_ Hhw]. cbn beta in Hhw.
    pose proof (dict_forall_lookup _ _ _ _ Hrb Hraw) as Hrw. cbn beta in Hrw.
    destruct (compute_pay_ok raw scale Hrw Hs) as (pay & Hpay & Hp0 & Hpw).
    destruct (sub_ok 20 raw pay) as (nc & Hnc & Hncw & _).
    { unfold Emax, Etiny, Emin, prec. lia. }
    { now apply (within_diff 19). }
    destruct (add_count 19 i tp0 pay) as (tp & Htp & Htp0 & Htpv & _);
      try assumption; try lia.
    { unfold Etiny, Emin, prec. lia. }
    { now apply within_nonneg in Hpw. }
    destruct (_quantize_within 17 hak ltac:(lia) Hhw) as (qh & Hqh & _).
    destruct (_quantize_within 15 _ ltac:(lia) (lookup_amount_within adv h Ha))
      as (qa & Hqa & _).
    destruct (_quantize_within 15 _ ltac:(lia) (lookup_amount_within carry h Hc))
      as (qp & Hqp & _).
    destruct (_quantize_within 20 nc ltac:(lia) Hncw) as (qc & Hqc & _).
    destruct (IH ltac:(intros h' Hh'; apply Hk; now right)
                ltac:(intros h' Hh'; apply Hkr; now right)
                (rows0 ++ [mkResultRow (name h) (percent h) qh qa qp pay qc])
                tp (i + 1)%Z)
      as (rows1 & tp1 & Hl & H0 & Hv); try assumption; try lia.
    exists rows1, tp1. simpl. unfold dict_getitem. rewrite Hhak, Hraw. simpl.
    rewrite Hpay. simpl. rewrite Hnc. simpl. rewrite Htp. simpl.
    rewrite Hqh. simpl. rewrite Hqa. simpl. rewrite Hqp. simpl. rewrite Hqc. simpl.
    split; [exact Hl|]. split; [exact H0|].
    replace (i + Z.of_nat (S (length hs)))%Z with (i + 1 + Z.of_nat (length hs))%Z
      by lia.
    exact Hv.
Qed.

(** A settlement of numbers that fit: a valid configuration gives a
    result. *)
Lemma compute_distribution_ok (m : string) (hs : list Shareholder)
    (total keep : Decimal) (adv carry : pydict) :
  sizes_fit hs total keep adv carry ->
  ~ invalid_configuration hs total keep ->
  exists r, compute_distribution lower m hs total keep adv carry = Ok r.
Proof.
  intros (Hn & Hp & Ht & Hkp & Ha & Hc) Hvalid.
  assert (HE : (Etiny <= 2 <= 100)%Z) by (unfold Etiny, Emin, prec; lia).
  (* the percentages *)
  destruct (dec_sum_ok 2 (map percent hs) dec0 0 HE ltac:(lia)) as (s & Hs & _).
  { rewrite length_map. lia. }
  { simpl. lia. }
  { rewrite val_dec0. lra. }
  { clear -Hp. induction Hp as [|h hs Hh _ IH]; constructor; [|exact IH].
    apply percent_fits_val in Hh as [H0 Hv]. split; [exact H0|].
    replace (powerRZ 10 2) with 100 by (simpl; lra). lra. }
  assert (Heq : dec_eqb s dec100 = true).
  { destruct (dec_eqb s dec100) eqn:E; [reflexivity|].
    exfalso. apply Hvalid. exists s. auto. }
  assert (Hk0 : dec_ltb keep dec0 = false).
  { destruct (dec_ltb keep dec0) eqn:E; [|reflexivity].
    exfalso. apply Hvalid. exists s. auto. }
  (* the distributable amount *)
  destruct (sub_ok 16 total keep) as (dist & Hsub & Hdw & Fd).
  { unfold Emax, Etiny, Emin, prec. lia. }
  { apply (within_diff 15); now apply amount_fits_within. }
  assert (Hd0 : dec_ltb dist dec0 = false).
  { destruct (dec_ltb dist dec0) eqn:E; [|reflexivity].
    exfalso. apply Hvalid. exists s. split; [exact Hs|]. right. right. eauto. }
  assert (Hdc : (0 <= coef dist)%Z).
  { rewrite dec_ltb_0 in Hd0. now apply Z.ltb_ge in Hd0. }
  (* the entitlements and the raw balances *)
  destruct (entitlements_loop_ok hs dist [] Hdc Hdw Hp ltac:(constructor))
    as (ent & Hent & Heall & Hlen).
  assert (Hkeys : forall h, h ∈ hs -> is_Some (dict_lookup ent (key h))).
  { intros h Hh. apply (entitlements_loop_keys lower _ _ _ _ Hent). right.
    now apply (elem_of_map_2 (fun h => key h)). }
  destruct (raw_loop_ok hs ent adv carry [] dec0 0 Heall Hkeys Ha Hc ltac:(constructor))
    as (rb & tp & Hraw & Hrall & Htp0 & _); try lia.
  { simpl. lia. }
  { rewrite val_dec0. lra. }
  assert (Hrkeys : forall h, h ∈ hs -> is_Some (dict_lookup rb (key h))).
  { intros h Hh. apply (raw_loop_keys lower _ _ _ _ _ _ _ _ Hraw). right.
    now apply (elem_of_map_2 (fun h => key h)). }
  destruct (compute_scale_ok dist tp Hdc) as (scale & Hscale & Hs0).
  (* the rows and the totals *)
  destruct (rows_loop_ok hs ent adv carry rb scale [] dec0 0 Heall Hkeys Ha Hc Hrall
              Hrkeys Hs0) as (rs & tpaid & Hrows & Htpaid0 & Htpaidv); try lia.
  { simpl. lia. }
  { rewrite val_dec0. lra. }
  assert (HE17 : (Etiny <= 17 <= 100)%Z) by (unfold Etiny, Emin, prec; lia).
  destruct (dec_sum_ok 17 (dict_values ent) dec0 0 HE17 ltac:(lia))
    as (se & Hse & Hse0 & Hsev).
  { unfold dict_values. rewrite length_map. simpl in Hlen. lia. }
  { simpl. lia. }
  { rewrite val_dec0. lra. }
  { unfold dict_values. clear -Heall.
    induction Heall as [|[k v] d [H0 Hw] _ IH]; constructor; [|exact IH].
    simpl in *. split; [exact H0|]. now apply within_nonneg in Hw. }
  assert (Hlen' : (0 <= 0 + Z.of_nat (length (dict_values ent)) <= 1000000)%Z).
  { unfold dict_values. rewrite length_map. simpl in Hlen. lia. }
  destruct (_quantize_within 23 se ltac:(lia)
              (count_within 17 _ se Hse0 Hlen' Hsev)) as (qe & Hqe & _).
  assert (Hlen2 : (0 <= 0 + Z.of_nat (length hs) <= 1000000)%Z) by lia.
  destruct (_quantize_within 25 tpaid ltac:(lia)
              (count_within 19 _ tpaid Htpaid0 Hlen2 Htpaidv)) as (qp & Hqp & _).
  destruct (_quantize_within 16 dist ltac:(lia) Hdw) as (qd & Hqd & _).
  exists (mkDistributionResult m qd rs qe qp).
  unfold compute_distribution, compute_balances, validate_shareholders.
  rewrite Hs. simpl. rewrite Heq. simpl. rewrite Hk0, Hsub. simpl. rewrite Hd0.
  rewrite Hent. simpl. rewrite Hraw. simpl. rewrite Hscale. simpl.
  unfold compute_rows. simpl. rewrite Hrows. simpl. rewrite Hse. simpl.
  rewrite Hqe. simpl. rewrite Hqp. simpl. rewrite Hqd. reflexivity.
Qed.

End Settlement_fits.

(** ** Which outcome, and when *)

Section Outcome.

Variable lower : string -> string.

(** C2 (amended). [compute_distribution] raises [DistributionError]
    exactly when the configuration is invalid, whatever the advances and
    the carry are (the check comes before any payout); a result that is
    returned is complete, one row per shareholder in registry order; the
    only other outcome is an exception of the decimal module; and that
    does not happen when the numbers fit: with at most a million
    shareholders, percentages between 0 and 100, and a cash amount, a
    reserve, advances and carries of at most 1E+15 in magnitude, a valid
    configuration gives a result. *)
Theorem distribution_error_iff (m : string) (hs : list Shareholder)
    (total keep : Decimal) (adv carry : pydict) :
  (compute_distribution lower m hs total keep adv carry = Raise DistributionError
   <-> invalid_configuration hs total keep) /\
  (forall r, compute_distribution lower m hs total keep adv carry = Ok r ->
     month r = m /\
     map row_name (rows r) = map name hs /\
     map row_percent (rows r) = map percent hs) /\
  (forall e, compute_distribution lower m hs total keep adv carry = Raise e ->
     e = DistributionError \/ decimal_signal e) /\
  (sizes_fit hs total keep adv carry ->
   ~ invalid_configuration hs total keep ->
   exists r, compute_distribution lower m hs total keep adv carry = Ok r).
Proof.
  assert (Hexc : forall e,
    compute_distribution lower m hs total keep adv carry = Raise e ->
    (e = DistributionError /\ invalid_configuration hs total keep) \/
    decimal_signal e).
  { intros e H. unfold compute_distribution in H.
    apply rbind_raise in H as [H|(b & Hb & H)].
    - apply compute_balances_exc in H as [H| ->]; [left; exact H|right; now right].
    - right. exact (compute_rows_exc lower _ _ _ _ _ _ _ _ Hb H). }
  split; [split|split; [|split]].
  - intros H. destruct (Hexc _ H) as [[_ Hi]|[Hd|Hd]]; [exact Hi|discriminate..].
  - intros Hi. unfold compute_distribution.
    now rewrite (invalid_configuration_raise lower _ _ _ adv carry Hi).
  - intros r H. apply compute_distribution_inv in H as (b & _ & Hr).
    apply compute_rows_inv in Hr as (tp & s & HF & _ & _ & _ & _ & _ & Hm).
    split; [exact Hm|]. exact (Forall2_row_names lower _ _ _ _ _ _ _ HF).
  - intros e H. destruct (Hexc _ H) as [[-> _]|Hd]; auto.
  - apply compute_distribution_ok.
Qed.

End Outcome.

(** ** The amounts on record and the rows *)




Section Records.

Variable lower : string -> string.

Local Abbreviation key h := (lower (name h)).






End Records.

(** ** The total paid, all in all *)

Section Total.

Variable lower : string -> string.

Local Abbreviation key h := (lower (name h)).

(** The total paid and the distributable amount of the result, in
    hundredths. *)
Lemma total_paid_near_distributable (m : string) (hs : list Shareholder)
    (total keep : Decimal) (adv carry : pydict) (b : Balances)
    (r : DistributionResult) :
  compute_balances lower hs total keep adv carry = Ok b ->
  compute_distribution lower m hs total keep adv carry = Ok r ->
  NoDup (map (fun h => key h) hs) ->
  Z.of_nat (length hs) <= 1000000 ->
  coef (distributable r) < 10 ^ 20 ->
  2 * (coef (total_paid r) - coef (distributable r)) <= Z.of_nat (length hs) + 1 /\
  (dec_gtb (b_total_positive b) (b_distributable b) = true ->
   2 * (coef (distributable r) - coef (total_paid r)) <= Z.of_nat (length hs) + 1).
Proof.
  intros Hb Hr Hnd Hlen Hdist.
  pose proof (settlement_numbers lower _ _ _ _ _ _ _ _ Hb Hr Hnd Hlen Hdist)
    as (_ & Hq & Hup & Hlo).
  apply Rabs_bound in Hq.
  assert (Hhc : half_cent = (5 * powerRZ 10 (-3))%R)
    by (unfold half_cent; simpl; lra).
  assert (Hp2 : powerRZ 10 (-2) = (10 * powerRZ 10 (-3))%R) by (simpl; lra).
  pose proof (p10_pos (-3)) as Hp3.
  rewrite INR_IZR_INZ, Hhc, Hp2 in *.
  set (c := coef (total_paid r)) in *. set (q := coef (distributable r)) in *.
  set (n := Z.of_nat (length hs)) in *.
  split.
  - assert (Hlt : (IZR (2 * (c - q)) < IZR (n + 2))%R).
    { rewrite mult_IZR, minus_IZR, plus_IZR. nra. }
    apply lt_IZR in Hlt. lia.
  - intros Hshort. specialize (Hlo Hshort).
    assert (Hlt : (IZR (2 * (q - c)) < IZR (n + 2))%R).
    { rewrite mult_IZR, minus_IZR, plus_IZR. nra. }
    apply lt_IZR in Hlt. lia.
Qed.

(** C1 (amended). [total_paid] is the exact sum of the payouts.  With
    names that stay distinct when lower-cased it does not exceed the
    distributable amount of the result by more than half a hundredth for
    each shareholder and half a hundredth more - it can exceed it, every
    payout being rounded half-up on its own - and in a shortfall it does
    not fall short of it by more than that either, so that the two are
    equal in a shortfall too.  (At most a million shareholders and a
    distributable amount below 10^18.)  It is also at most the sum of the
    rounded claims - the positive parts of the raw balances, each rounded
    half-up to two places - with equality when the positive raw balances
    sum to at most the distributable amount. *)
Theorem total_paid_bound (m : string) (hs : list Shareholder)
    (total keep : Decimal) (adv carry : pydict) (b : Balances)
    (r : DistributionResult) :
  compute_balances lower hs total keep adv carry = Ok b ->
  compute_distribution lower m hs total keep adv carry = Ok r ->
  expo (total_paid r) = -2 /\
  coef (total_paid r) = sum_z (map (fun row => coef (paid row)) (rows r)) /\
  (NoDup (map (fun h => key h) hs) ->
   Z.of_nat (length hs) <= 1000000 ->
   coef (distributable r) < 10 ^ 20 ->
   2 * (coef (total_paid r) - coef (distributable r)) <= Z.of_nat (length hs) + 1 /\
   (dec_gtb (b_total_positive b) (b_distributable b) = true ->
    2 * (coef (distributable r) - coef (total_paid r)) <= Z.of_nat (length hs) + 1)) /\
  coef (total_paid r)
    <= sum_z (map (fun h => claim_cents (b_raw_balances b) (key h)) hs) /\
  (dec_leb (b_total_positive b) (b_distributable b) = true ->
   coef (total_paid r)
     = sum_z (map (fun h => claim_cents (b_raw_balances b) (key h)) hs)).
Proof.
  intros Hb Hr.
  pose proof (total_paid_exact lower _ _ _ _ _ _ _ Hr) as [He Hc].
  pose proof (scale_nonneg lower _ _ _ _ _ _ Hb) as Hs.
  assert (Hsum : coef_sum (map paid (rows r))
                 = sum_z (map (fun row => coef (paid row)) (rows r))).
  { clear. induction (rows r) as [|row rs IH]; simpl; [reflexivity|].
    unfold sum_z in IH. now rewrite IH. }
  rewrite Hsum in Hc.
  split; [exact He|]. split; [exact Hc|].
  split; [exact (total_paid_near_distributable _ _ _ _ _ _ _ _ Hb Hr)|].
  pose proof (compute_balances_inv lower _ _ _ _ _ _ Hb)
    as (_ & _ & _ & _ & _ & Hraw & Hscale).
  pose proof (raw_balances_fixed lower _ _ _ _ _ _ Hb) as [_ Hfix].
  pose proof Hr as Hr'.
  unfold compute_distribution in Hr'. rewrite Hb in Hr'. simpl in Hr'.
  rewrite Hc. split.
  - apply compute_rows_inv in Hr' as (tp & s & HF & _).
    apply sum_z_le. clear -HF Hfix Hs.
    induction HF as [|h row hs' rs' Hrow _ IH]; constructor; [|exact IH].
    destruct Hrow as (hak & raw & nc & _ & Hrb & Hpay & _).
    apply dict_getitem_ok in Hrb. unfold claim_cents. rewrite Hrb.
    now pose proof (compute_pay_le _ _ _ (Hfix _ _ Hrb) Hs Hpay) as (_ & _ & Hle).
  - intros Hcov.
    destruct (covered_rows lower _ _ _ _ _ _ Hscale Hr' Hcov) as (_ & HF').
    apply sum_z_eq. clear -HF'.
    induction HF' as [|h row hs' rs' Hrow _ IH]; constructor; [|exact IH].
    destruct Hrow as (raw & Hrb & Hq).
    apply dict_getitem_ok in Hrb. unfold claim_cents. rewrite Hrb.
    now apply _quantize_inv in Hq as (-> & _).
Qed.

End Total.


(** * The sample settlements *)

Lemma ex_two_balances_ok :
  compute_balances ascii_lower ex_two ex_two_cash dec0 [] [] = Ok ex_two_balances.
Proof. vm_compute. reflexivity. Qed.

Lemma ex_two_result_ok :
  compute_distribution ascii_lower "2025-12" ex_two ex_two_cash dec0 [] []
  = Ok ex_two_result.
Proof. vm_compute. reflexivity. Qed.

Lemma ex_short_balances_ok :
  compute_balances ascii_lower ex_half ex_short_cash dec0 [] ex_short_carry
  = Ok ex_short_balances.
Proof. vm_compute. reflexivity. Qed.

Lemma ex_short_result_ok :
  compute_distribution ascii_lower "2025-12" ex_half ex_short_cash dec0 [] ex_short_carry
  = Ok ex_short_result.
Proof. vm_compute. reflexivity. Qed.

Lemma ex_cent_balances_ok :
  compute_balances ascii_lower ex_half ex_cent_cash dec0 [] [] = Ok ex_cent_balances.
Proof. vm_compute. reflexivity. Qed.

Lemma ex_cent_result_ok :
  compute_distribution ascii_lower "2025-12" ex_half ex_cent_cash dec0 [] []
  = Ok ex_cent_result.
Proof. vm_compute. reflexivity. Qed.

Lemma ex_owed_balances_ok :
  compute_balances ascii_lower ex_one dec0 dec0 [] ex_owed_carry = Ok ex_owed_balances.
Proof. vm_compute. reflexivity. Qed.

(** The scenario of the specification: 600.00 and 400.00 are paid. *)
Example ex_two_paid :
  map paid (rows ex_two_result) = [mkDec 60000 (-2); mkDec 40000 (-2)].
Proof. reflexivity. Qed.

(** In the shortfall the scale is 0.4 and all of the 100 is paid. *)
Example ex_short_scale : b_scale ex_short_balances = mkDec 4 (-1).
Proof. reflexivity. Qed.

Example ex_short_paid :
  map paid (rows ex_short_result) = [mkDec 8000 (-2); mkDec 2000 (-2)].
Proof. reflexivity. Qed.

(** C10, on the shortfall. *)
Lemma paid_nonnegative_witness :
  Forall (fun row => dec_leb dec0 (paid row) = true) (rows ex_short_result).
Proof.
  apply (paid_nonnegative ascii_lower "2025-12" ex_half ex_short_cash dec0 []
           ex_short_carry).
  vm_compute. reflexivity.
Defined.

(** C1 fails on the code: with one hundredth to distribute both
    shareholders are paid 0.01; and in the shortfall all of the 100 is
    paid although the positive raw balances sum to 250. *)
Lemma total_paid_bound_counterexample :
  ~ (forall b r,
       compute_balances ascii_lower ex_half ex_cent_cash dec0 [] [] = Ok b ->
       compute_distribution ascii_lower "2025-12" ex_half ex_cent_cash dec0 [] [] = Ok r ->
       dec_leb (total_paid r) (b_distributable b) = true) /\
  ~ (forall b r,
       compute_balances ascii_lower ex_half ex_short_cash dec0 [] ex_short_carry = Ok b ->
       compute_distribution ascii_lower "2025-12" ex_half ex_short_cash dec0 []
         ex_short_carry = Ok r ->
       dec_eqb (total_paid r) (b_distributable b) = true ->
       dec_leb (b_total_positive b) (b_distributable b) = true).
Proof.
  split; intros H.
  - specialize (H ex_cent_balances ex_cent_result ex_cent_balances_ok ex_cent_result_ok).
    vm_compute in H. discriminate.
  - specialize (H ex_short_balances ex_short_result ex_short_balances_ok
                  ex_short_result_ok eq_refl).
    vm_compute in H. discriminate.
Qed.

(** C2 fails on the code: with 1E+30 in cash the configuration is valid
    and no result is returned, [quantize] raises InvalidOperation. *)
Lemma distribution_error_iff_counterexample :
  ~ ((compute_distribution ascii_lower "2025-12" ex_one ex_huge_cash dec0 [] []
        = Raise DistributionError
      <-> invalid_configuration ex_one ex_huge_cash dec0) /\
     (~ invalid_configuration ex_one ex_huge_cash dec0 ->
      exists r, compute_distribution ascii_lower "2025-12" ex_one ex_huge_cash dec0 [] []
                = Ok r)).
Proof.
  intros [_ H]. destruct H as [r Hr]; [|vm_compute in Hr; discriminate].
  intros (s & Hs & Hc). vm_compute in Hs. injection Hs as <-.
  destruct Hc as [Hc|[Hc|(d & Hd & Hc)]].
  - vm_compute in Hc. discriminate.
  - vm_compute in Hc. discriminate.
  - vm_compute in Hd. injection Hd as <-. vm_compute in Hc. discriminate.
Qed.

Example ex_huge_raises :
  compute_distribution ascii_lower "2025-12" ex_one ex_huge_cash dec0 [] []
  = Raise InvalidOperation.
Proof. vm_compute. reflexivity. Qed.

(** C4 fails on the code: with nothing to distribute the scale is 0. *)
Lemma scale_in_shortfall_counterexample :
  ~ (forall b,
       compute_balances ascii_lower ex_one dec0 dec0 [] ex_owed_carry = Ok b ->
       dec_gtb (b_total_positive b) (b_distributable b) = true ->
       dec_gtb (b_total_positive b) dec0 = true ->
       dec_gtb (b_scale b) dec0 = true /\ dec_ltb (b_scale b) dec1 = true).
Proof.
  intros H.
  destruct (H ex_owed_balances ex_owed_balances_ok eq_refl eq_refl) as [H0 _].
  vm_compute in H0. discriminate.
Qed.

(** C4 (amended), on the shortfall. *)
Lemma scale_in_shortfall_witness :
  (dec_gtb (b_total_positive ex_short_balances) (b_distributable ex_short_balances)
     = true ->
   dec_gtb (b_total_positive ex_short_balances) dec0 = true ->
   div (b_distributable ex_short_balances) (b_total_positive ex_short_balances)
     = Ok (b_scale ex_short_balances) /\
   dec_leb dec0 (b_scale ex_short_balances) = true /\
   dec_ltb (b_scale ex_short_balances) dec1 = true) /\
  (dec_gtb (b_total_positive ex_short_balances) (b_distributable ex_short_balances)
     && dec_gtb (b_total_positive ex_short_balances) dec0 = false ->
   b_scale ex_short_balances = dec1).
Proof.
  apply (scale_in_shortfall ascii_lower ex_half ex_short_cash dec0 [] ex_short_carry).
  vm_compute. reflexivity.
Defined.

(** C6 fails on the code: the rows show entitlements of 0.01 and 0.01,
    the total is 0.01. *)
Lemma totals_of_result_counterexample :
  ~ (forall r,
       compute_distribution ascii_lower "2025-12" ex_half ex_cent_cash dec0 [] [] = Ok r ->
       coef (total_entitlement r) = coef_sum (map entitlement (rows r)) /\
       coef (total_paid r) = coef_sum (map paid (rows r))).
Proof.
  intros H. destruct (H ex_cent_result ex_cent_result_ok) as [H0 _].
  vm_compute in H0. discriminate.
Qed.

(** C6 (amended), on the 60/40 settlement. *)
Lemma totals_of_result_witness :
  (exists s, dec_sum dec0 (dict_values (b_entitlements ex_two_balances)) = Ok s /\
             _quantize s = Ok (total_entitlement ex_two_result)) /\
  (NoDup (map (fun h => ascii_lower (name h)) ex_two) ->
   Forall2 (fun h v => entitlement_of (b_distributable ex_two_balances) h = Ok v)
     ex_two (dict_values (b_entitlements ex_two_balances))) /\
  expo (total_paid ex_two_result) = -2 /\
  coef (total_paid ex_two_result) = coef_sum (map paid (rows ex_two_result)).
Proof.
  apply (totals_of_result ascii_lower "2025-12" ex_two ex_two_cash dec0 [] []);
    vm_compute; reflexivity.
Defined.



(** C9, on a store that holds the two dictionaries. *)
Lemma inputs_not_mutated_witness :
  let out := st_compute_distribution ascii_lower "2025-12" ex_half ex_short_cash dec0
               1%positive 2%positive ex_store in
  snd out !! 1%positive = Some ex_advances /\
  snd out !! 2%positive = Some ex_short_carry /\
  frame ex_store (snd out) /\
  fst out = compute_distribution ascii_lower "2025-12" ex_half ex_short_cash dec0
              ex_advances ex_short_carry.
Proof.
  apply (inputs_not_mutated ascii_lower "2025-12" ex_half ex_short_cash dec0
           1%positive 2%positive ex_store ex_advances ex_short_carry);
    vm_compute; reflexivity.
Defined.

(** C8, on two stores that hold the same entries in different objects. *)
Lemma deterministic_witness :
  fst (st_compute_distribution ascii_lower "2025-12" ex_half ex_short_cash dec0
         1%positive 2%positive ex_store) =
  fst (st_compute_distribution ascii_lower "2025-12" ex_half ex_short_cash dec0
         7%positive 5%positive ex_store_other).
Proof.
  apply (deterministic ascii_lower "2025-12" ex_half ex_short_cash dec0
           1%positive 2%positive 7%positive 5%positive ex_store ex_store_other
           ex_advances ex_short_carry);
    vm_compute; reflexivity.
Defined.

(** C5, on the shortfall: the carry of 120.00 and 30.00 comes back. *)
Lemma carry_round_trip_witness :
  exists r',
    compute_distribution ascii_lower "2026-01" ex_half dec0 dec0 []
      (carry_of_rows (rows ex_short_result)) = Ok r' /\
    map new_carry (rows r') = map new_carry (rows ex_short_result) /\
    map row_name (rows r') = map row_name (rows ex_short_result).
Proof.
  apply (carry_round_trip ascii_lower "2025-12" "2026-01" ex_half ex_short_cash dec0 []
           ex_short_carry ex_short_result).
  vm_compute. reflexivity.
Defined.

Example ex_short_new_carry :
  map new_carry (rows ex_short_result) = [mkDec 12000 (-2); mkDec 3000 (-2)].
Proof. reflexivity. Qed.

(** ** The further properties on the samples *)

Lemma ex_debt_balances_ok :
  compute_balances ascii_lower ex_half ex_short_cash dec0 ex_advances []
  = Ok ex_debt_balances.
Proof. vm_compute. reflexivity. Qed.

Lemma ex_debt_result_ok :
  compute_distribution ascii_lower "2025-12" ex_half ex_short_cash dec0 ex_advances []
  = Ok ex_debt_result.
Proof. vm_compute. reflexivity. Qed.

(** The debtor is paid nothing and carries -70.00. *)
Example ex_debt_rows :
  map paid (rows ex_debt_result) = [mkDec 0 (-2); mkDec 5000 (-2)] /\
  map new_carry (rows ex_debt_result) = [mkDec (-7000) (-2); mkDec 0 (-2)].
Proof. split; reflexivity. Qed.

Lemma ex_half_names : NoDup (map name ex_half).
Proof.
  simpl. apply NoDup_cons. split.
  - rewrite elem_of_cons, elem_of_nil. intros [H|[]]. discriminate.
  - apply NoDup_cons. split; [apply not_elem_of_nil|apply NoDup_nil_2].
Qed.

Lemma ex_two_keys : NoDup (map (fun h => ascii_lower (name h)) ex_two).
Proof.
  simpl. apply NoDup_cons. split.
  - rewrite elem_of_cons, elem_of_nil. intros [H|[]]. discriminate.
  - apply NoDup_cons. split; [apply not_elem_of_nil|apply NoDup_nil_2].
Qed.

(** X1, on the shortfall. *)
Lemma result_amounts_two_places_witness :
  two_places (distributable ex_short_result) /\
  two_places (total_entitlement ex_short_result) /\
  two_places (total_paid ex_short_result) /\
  Forall (fun row =>
            two_places (entitlement row) /\ two_places (advance row) /\
            two_places (prev_carry row) /\ two_places (paid row) /\
            two_places (new_carry row))
         (rows ex_short_result).
Proof.
  apply (result_amounts_two_places ascii_lower "2025-12" ex_half ex_short_cash dec0 []
           ex_short_carry).
  vm_compute. reflexivity.
Defined.

(** X2, on the shortfall. *)
Lemma paid_at_most_claim_witness :
  Forall2 (fun h row =>
             0 <= coef (paid row)
               <= claim_cents (b_raw_balances ex_short_balances) (ascii_lower (name h)))
          ex_half (rows ex_short_result).
Proof.
  apply (paid_at_most_claim ascii_lower "2025-12" ex_half ex_short_cash dec0 []
           ex_short_carry); vm_compute; reflexivity.
Defined.

(** X3, with an advance of 120 against an entitlement of 50. *)
Lemma debtor_carries_all_witness :
  Forall2 (fun h row =>
             forall raw,
               dict_lookup (b_raw_balances ex_debt_balances) (ascii_lower (name h))
                 = Some raw ->
               coef raw <= 0 ->
               paid row = mkDec 0 (-2) /\
               new_carry row = rescale raw (-2) ROUND_HALF_UP)
          ex_half (rows ex_debt_result).
Proof.
  apply (debtor_carries_all ascii_lower "2025-12" ex_half ex_short_cash dec0
           ex_advances []); vm_compute; reflexivity.
Defined.

(** X4, on the shortfall. *)
Lemma carry_is_what_is_not_paid_witness :
  Forall2 (fun h row =>
             exists raw,
               dict_lookup (b_raw_balances ex_short_balances) (ascii_lower (name h))
                 = Some raw /\
               new_carry row
                 = rescale (exact_sub raw (paid row)) (-2) ROUND_HALF_UP /\
               let e0 := Z.min (expo raw) (-2) in
               2 * Z.abs ((coef (paid row) + coef (new_carry row)) * 10 ^ (-2 - e0)
                          - sc e0 raw)
                 <= 10 ^ (-2 - e0))
          ex_half (rows ex_short_result).
Proof.
  apply (carry_is_what_is_not_paid ascii_lower "2025-12" ex_half ex_short_cash dec0 []
           ex_short_carry); vm_compute; reflexivity.
Defined.

(** X5, with one shareholder who is owed 5 and no cash. *)
Lemma nothing_to_distribute_witness :
  total_paid ex_owed_result = mkDec 0 (-2) /\
  Forall2 (fun h row =>
             paid row = mkDec 0 (-2) /\
             exists raw,
               dict_lookup (b_raw_balances ex_owed_balances) (ascii_lower (name h))
                 = Some raw /\
               new_carry row = rescale raw (-2) ROUND_HALF_UP)
          ex_one (rows ex_owed_result).
Proof.
  apply (nothing_to_distribute ascii_lower "2025-12" ex_one dec0 dec0 [] ex_owed_carry);
    vm_compute; reflexivity.
Defined.

(** X6, from the shortfall to the month after it. *)
Lemma carry_is_threaded_witness :
  map prev_carry (rows ex_next_result) = map new_carry (rows ex_short_result).
Proof.
  apply (carry_is_threaded ascii_lower "2025-12" "2026-01" ex_half ex_short_cash dec0
           ex_two_cash dec0 [] ex_short_carry ex_advances ex_short_carry).
  - exact ex_half_names.
  - vm_compute. reflexivity.
  - vm_compute. reflexivity.
Defined.

(** The history of the two months, and of a ledger whose first month
    cannot be loaded. *)
Example ex_history :
  map fst (history_loop ascii_lower ex_half
             [("2025-12"%string, Some ex_ledger_december);
              ("2026-01"%string, Some ex_ledger_january)] ex_short_carry [])
  = ["2025-12"%string; "2026-01"%string] /\
  history_loop ascii_lower ex_half
    [("2025-12"%string, None); ("2026-01"%string, Some ex_ledger_january)]
    ex_short_carry [] = [].
Proof. split; vm_compute; reflexivity. Qed.

(** X9, on the 60/40 registry. *)
Lemma validation_is_exact_witness :
  validate_shareholders ex_two = Ok tt <->
  sum_z (map (fun h => sc (- 0) (percent h)) ex_two) = 100 * 10 ^ 0.
Proof.
  apply (validation_is_exact 0 ex_two); [lia|].
  repeat constructor; simpl; lia.
Defined.

(** X10, on the 60/40 settlement. *)
Lemma entitlements_sum_to_distributable_witness :
  total_entitlement ex_two_result = distributable ex_two_result /\
  Forall2 (fun h v => sc (- 0 - 0 - 2) v
                      = sc (- 0) (b_distributable ex_two_balances) * sc (- 0) (percent h))
          ex_two (dict_values (b_entitlements ex_two_balances)).
Proof.
  apply (entitlements_sum_to_distributable ascii_lower 0 0 "2025-12" ex_two ex_two_cash
           dec0 [] []).
  - vm_compute. reflexivity.
  - vm_compute. reflexivity.
  - exact ex_two_keys.
  - lia.
  - lia.
  - vm_compute. discriminate.
  - repeat constructor; simpl; lia.
  - simpl. lia.
  - vm_compute. reflexivity.
Defined.

(** X11, on the shortfall: the second shareholder, with the smaller raw
    balance, is not paid more than the first. *)
Lemma paid_follows_raw_balance_witness :
  coef (paid (nth 1 (rows ex_short_result) (mkResultRow "" dec0 dec0 dec0 dec0 dec0 dec0)))
  <= coef (paid (nth 0 (rows ex_short_result)
                   (mkResultRow "" dec0 dec0 dec0 dec0 dec0 dec0))).
Proof.
  eapply (paid_follows_raw_balance ascii_lower "2025-12" ex_half ex_short_cash dec0 []
            ex_short_carry ex_short_balances ex_short_result ex_short_balances_ok
            ex_short_result_ok 1%nat 0%nat); reflexivity.
Defined.

Lemma ex_case_balances_ok :
  compute_balances ascii_lower ex_case ex_short_cash dec0 [] [] = Ok ex_case_balances.
Proof. vm_compute. reflexivity. Qed.

Lemma ex_case_result_ok :
  compute_distribution ascii_lower "2025-12" ex_case ex_short_cash dec0 [] []
  = Ok ex_case_result.
Proof. vm_compute. reflexivity. Qed.

(** Both rows show the entitlement of the 70% entry, 70.00 each, and the
    100 in cash are split in halves. *)
Example ex_case_rows :
  map entitlement (rows ex_case_result) = [mkDec 7000 (-2); mkDec 7000 (-2)] /\
  map paid (rows ex_case_result) = [mkDec 5000 (-2); mkDec 5000 (-2)].
Proof. split; reflexivity. Qed.

Lemma ex_half_keys : NoDup (map (fun h => ascii_lower (name h)) ex_half).
Proof.
  simpl. apply NoDup_cons. split.
  - rewrite elem_of_cons, elem_of_nil. intros [H|[]]. discriminate.
  - apply NoDup_cons. split; [apply not_elem_of_nil|apply NoDup_nil_2].
Qed.

(** X13, on the two entries that differ in case. *)
Lemma same_key_same_amounts_witness :
  (entitlement (nth 0 (rows ex_case_result) (mkResultRow "" dec0 dec0 dec0 dec0 dec0 dec0))
   = entitlement (nth 1 (rows ex_case_result) (mkResultRow "" dec0 dec0 dec0 dec0 dec0 dec0)) /\
   paid (nth 0 (rows ex_case_result) (mkResultRow "" dec0 dec0 dec0 dec0 dec0 dec0))
   = paid (nth 1 (rows ex_case_result) (mkResultRow "" dec0 dec0 dec0 dec0 dec0 dec0)) /\
   new_carry (nth 0 (rows ex_case_result) (mkResultRow "" dec0 dec0 dec0 dec0 dec0 dec0))
   = new_carry (nth 1 (rows ex_case_result) (mkResultRow "" dec0 dec0 dec0 dec0 dec0 dec0))) /\
  exists v, entitlement_of (b_distributable ex_case_balances)
              (mkShareholder "AYSE" (mkDec 70 0)) = Ok v /\
            _quantize v
            = Ok (entitlement (nth 0 (rows ex_case_result)
                                 (mkResultRow "" dec0 dec0 dec0 dec0 dec0 dec0))).
Proof.
  destruct (same_key_same_amounts ascii_lower "2025-12" ex_case ex_short_cash dec0 [] []
              ex_case_balances ex_case_result ex_case_balances_ok ex_case_result_ok)
    as [Hsame Hlast].
  split.
  - eapply (Hsame 0%nat 1%nat); reflexivity.
  - eapply (Hlast [mkShareholder "Ayse" (mkDec 30 0)] []
              (mkShareholder "AYSE" (mkDec 70 0)) 0%nat); try reflexivity.
    apply not_elem_of_nil.
Defined.

(** X14, on the shortfall. *)
Lemma paid_total_is_bounded_witness :
  2 * (coef (total_paid ex_short_result) - coef (distributable ex_short_result))
  <= Z.of_nat (length ex_half) + 1.
Proof.
  apply (paid_total_is_bounded ascii_lower "2025-12" ex_half ex_short_cash dec0 []
           ex_short_carry ex_short_balances ex_short_result
           ex_short_balances_ok ex_short_result_ok ex_half_keys).
  - simpl. lia.
  - vm_compute. reflexivity.
Defined.

(** X15, on the shortfall: the positive raw balances are 200 and 50
    against 100 in cash. *)
Lemma shortfall_pays_everything_witness :
  2 * (coef (distributable ex_short_result) - coef (total_paid ex_short_result))
  <= Z.of_nat (length ex_half) + 1.
Proof.
  apply (shortfall_pays_everything ascii_lower "2025-12" ex_half ex_short_cash dec0 []
           ex_short_carry ex_short_balances ex_short_result
           ex_short_balances_ok ex_short_result_ok ex_half_keys).
  - simpl. lia.
  - vm_compute. reflexivity.
  - vm_compute. reflexivity.
Defined.

(** X16, on 60% / 40% of 1000. *)
Lemma covered_creditor_keeps_no_claim_witness :
  Forall2 (fun h row =>
             exists raw,
               dict_lookup (b_raw_balances ex_two_balances) (ascii_lower (name h))
               = Some raw /\
               (0 < coef raw ->
                paid row = rescale raw (-2) ROUND_HALF_UP /\
                -1 <= coef (new_carry row) <= 0 /\
                (-2 <= expo raw -> coef (new_carry row) = 0)))
          ex_two (rows ex_two_result).
Proof.
  apply (covered_creditor_keeps_no_claim ascii_lower "2025-12" ex_two ex_two_cash dec0
           [] []); vm_compute; reflexivity.
Defined.

(** ** The amended properties on the samples *)

Lemma ex_round_balances_ok :
  compute_balances ascii_lower ex_half ex_round_cash dec0 ex_advances []
  = Ok ex_round_balances.
Proof. vm_compute. reflexivity. Qed.

Lemma ex_round_result_ok :
  compute_distribution ascii_lower "2025-12" ex_half ex_round_cash dec0 ex_advances []
  = Ok ex_round_result.
Proof. vm_compute. reflexivity. Qed.

(** The raw balances are -119.985 and 0.015; nothing is paid to the
    first shareholder and 0.02 to the second. *)
Example ex_round_paid :
  b_raw_balances ex_round_balances
  = [("ayse"%string, mkDec (-119985) (-3)); ("berk"%string, mkDec 15 (-3))] /\
  b_scale ex_round_balances = dec1 /\
  map paid (rows ex_round_result) = [mkDec 0 (-2); mkDec 2 (-2)].
Proof. repeat split; reflexivity. Qed.





(** C1 (amended), on the shortfall: 100.00 is paid of 100.00. *)
Lemma total_paid_bound_witness :
  expo (total_paid ex_short_result) = -2 /\
  coef (total_paid ex_short_result)
    = sum_z (map (fun row => coef (paid row)) (rows ex_short_result)) /\
  2 * (coef (total_paid ex_short_result) - coef (distributable ex_short_result))
    <= Z.of_nat (length ex_half) + 1 /\
  2 * (coef (distributable ex_short_result) - coef (total_paid ex_short_result))
    <= Z.of_nat (length ex_half) + 1 /\
  coef (total_paid ex_short_result)
    <= sum_z (map (fun h => claim_cents (b_raw_balances ex_short_balances)
                              (ascii_lower (name h))) ex_half).
Proof.
  destruct (total_paid_bound ascii_lower "2025-12" ex_half ex_short_cash dec0 []
              ex_short_carry ex_short_balances ex_short_result
              ex_short_balances_ok ex_short_result_ok) as (H1 & H2 & H3 & H4 & _).
  destruct (H3 ex_half_keys) as [H5 H6].
  - simpl. lia.
  - vm_compute. reflexivity.
  - split; [exact H1|]. split; [exact H2|]. split; [exact H5|].
    split; [apply H6; vm_compute; reflexivity|exact H4].
Defined.

(** With two spellings of one name and an advance on record under the
    first, both rows are paid the raw balance of the second: 140.00 is
    paid of 100.00. *)
Example ex_case_overpaid :
  b_total_positive ex_case_advanced_balances = mkDec 70 0 /\
  distributable ex_case_advanced = mkDec 10000 (-2) /\
  map paid (rows ex_case_advanced) = [mkDec 7000 (-2); mkDec 7000 (-2)] /\
  total_paid ex_case_advanced = mkDec 14000 (-2).
Proof. repeat split; vm_compute; reflexivity. Qed.

Lemma ex_fits : sizes_fit ex_half ex_short_cash dec0 ex_advances ex_short_carry.
Proof.
  unfold sizes_fit. split; [simpl; lia|].
  split; [repeat constructor|]. split; [reflexivity|]. split; [reflexivity|].
  split; repeat constructor.
Qed.

Lemma ex_valid : ~ invalid_configuration ex_half ex_short_cash dec0.
Proof.
  intros (s & Hs & Hc). vm_compute in Hs. injection Hs as <-.
  destruct Hc as [Hc|[Hc|(d & Hd & Hc)]].
  - vm_compute in Hc. discriminate.
  - vm_compute in Hc. discriminate.
  - vm_compute in Hd. injection Hd as <-. vm_compute in Hc. discriminate.
Qed.

(** C2 (amended): the numbers of the sample fit, and it is settled. *)
Lemma distribution_error_iff_witness :
  exists r,
    compute_distribution ascii_lower "2025-12" ex_half ex_short_cash dec0
      ex_advances ex_short_carry = Ok r.
Proof.
  destruct (distribution_error_iff ascii_lower "2025-12" ex_half ex_short_cash dec0
              ex_advances ex_short_carry) as (_ & _ & _ & H).
  exact (H ex_fits ex_valid).
Defined.



(** The amounts on record in that settlement: 120 advanced and 150
    carried for the first shareholder, nothing for the second. *)
Example ex_amounts_on_record :
  map (amount_on_record ascii_lower ex_advances) ex_half = [mkDec 120 0; dec0] /\
  map (amount_on_record ascii_lower ex_short_carry) ex_half = [mkDec 150 0; dec0].
Proof. split; reflexivity. Qed.
